(** * zsplendor: the worker orchestration layer and the arena tournament

  A shallow embedding of the JavaScript sources

  - [web/js/main.js]            ([ArenaController]),
  - the arena worker            ([RUN_MATCHUP] message handler),
  - the arena worker pool       ([ArenaWorkerPool]),
  - the AI worker proxy         ([AIWorkerProxy]),

  together with the properties of the design document that concern
  them.  Objects are records, JavaScript arrays are lists, the [Map] of
  pending requests is a [gmap], the [Set] of busy workers a [gset];
  effects (messages posted, promises settled, timers armed) are logged
  in the state that the handlers transform. *)

From stdpp Require Import gmap strings list fin_maps pretty.
From Stdlib Require Import ZArith Lia SpecFloat Ascii.

#[local] Set Warnings "-clear-no-such-hyp".

Local Open Scope nat_scope.


(* ===================================================================== *)
(** ** JavaScript numbers and arrays, as far as the sources use them *)
(* ===================================================================== *)

Module Js.

(** Counters.  A number that the aggregator counts up with [++] is the
    number of games found so far in an array that it holds, an integer
    far below [2^53], where [+ 1] is exact; [NaN] is what arithmetic on
    [undefined] produces, and it is absorbing.  (The running sums, which
    [+=] adds up from the numbers of the games, are doubles; see
    [addTo] below.) *)
Inductive num := Int (z : Z) | NaN.

Definition add (a b : num) : num :=
  match a, b with
  | Int x, Int y => Int (x + y)
  | _, _ => NaN
  end.

(** [a > 0]; every comparison with [NaN] is false. *)
Definition gt0 (a : num) : bool :=
  match a with
  | Int x => bool_decide (0 < x)%Z
  | NaN => false
  end.

(** An array of numbers; [None] is a hole (an index that was never
    written, read back as [undefined]). *)
Abbreviation array := (list (option num)).

(** [new Array(n).fill(0)] *)
Definition fill0 (n : nat) : array := replicate n (Some (Int 0)).

(** [a[i]] in an arithmetic context: [undefined] converts to [NaN]. *)
Definition get (a : array) (i : nat) : num :=
  match a !! i with
  | Some (Some v) => v
  | _ => NaN
  end.

(** [a[i] = v]: inside the array the slot is overwritten; at or beyond
    [a.length] the array grows to length [i + 1], the slots in between
    being holes. *)
Definition set {A} (a : list (option A)) (i : nat) (v : A) : list (option A) :=
  if decide (i < length a) then <[i := Some v]> a
  else a ++ replicate (i - length a) None ++ [Some v].

(** A counter goes up by [d]: [a[i]++] for [d = 1]. *)
Definition addAt (a : array) (i : nat) (d : Z) : array :=
  set a i (add (get a i) (Int d)).

(** A batch of such steps, applied left to right. *)
Definition applyAll (a : array) (us : list (nat * Z)) : array :=
  foldl (λ a u, addAt a u.1 u.2) a us.

(** *** IEEE 754 doubles, for the quotients *)

Definition prec : Z := 53.
Definition emax : Z := 1024.

Abbreviation float := spec_float.

Definition ofZ (z : Z) : float := binary_normalize prec emax z 0 false.

Definition ofNum (a : num) : float :=
  match a with
  | Int z => ofZ z
  | NaN => S754_nan
  end.

Definition fdiv : float → float → float := SFdiv prec emax.
Definition fmul : float → float → float := SFmul prec emax.
Definition fadd : float → float → float := SFadd prec emax.

(** An array of doubles, with holes. *)
Abbreviation farray := (list (option float)).

(** [new Array(n).fill(0)] *)
Definition ffill0 (n : nat) : farray := replicate n (Some (S754_zero false)).

(** [a[i]] in an arithmetic context: [undefined] converts to [NaN]. *)
Definition fget (a : farray) (i : nat) : float :=
  match a !! i with
  | Some (Some v) => v
  | _ => S754_nan
  end.

(** [a[i] += x]: the sum is the double nearest to the exact sum, so it
    is rounded as soon as it needs more than 53 binary digits. *)
Definition addTo (a : farray) (i : nat) (x : float) : farray :=
  set a i (fadd (fget a i) x).

(** A batch of updates [a[i] += d], applied left to right; the integer
    [d] of a game is the double nearest to it. *)
Definition addAll (a : farray) (us : list (nat * Z)) : farray :=
  foldl (λ a u, addTo a u.1 (ofZ u.2)) a us.

(** [x > 0] on doubles. *)
Definition fgt0 (x : float) : bool :=
  match x with
  | S754_finite false _ _ | S754_infinity false => true
  | _ => false
  end.

(** The result of [x.toFixed(1)], kept as its digits: the sign and the
    number of tenths.  [toFixed] picks the integer [n] for which
    [n / 10 - x] is closest to zero, the larger one on a tie, after
    moving the sign of a negative [x] in front.  (From [1e21] on
    [toFixed] prints the number as [toString] does; the digits are the
    same, and no quotient of two counters gets there.) *)
Inductive fixed1 :=
  | FxNaN
  | FxInfinity (neg : bool)
  | FxDec (neg : bool) (tenths : Z).

Definition toFixed1 (x : float) : fixed1 :=
  match x with
  | S754_nan => FxNaN
  | S754_infinity s => FxInfinity s
  | S754_zero _ => FxDec false 0
  | S754_finite s m e =>
      let n := match e with
               | Zneg p => ((20 * Zpos m + 2 ^ Zpos p) / 2 ^ (Zpos p + 1))%Z
               | _ => (10 * Zpos m * 2 ^ e)%Z
               end in
      FxDec s n
  end.

(** The string that [toFixed(1)] returns. *)
Definition showFixed1 (d : fixed1) : string :=
  match d with
  | FxNaN => "NaN"
  | FxInfinity false => "Infinity"
  | FxInfinity true => "-Infinity"
  | FxDec s n =>
      (if s then "-" else "") +:+ pretty (n / 10)%Z +:+ "." +:+ pretty (n mod 10)%Z
  end.

(** [parseFloat] of such a string: the double nearest to the decimal. *)
Definition parseFixed1 (d : fixed1) : float :=
  match d with
  | FxNaN => S754_nan
  | FxInfinity s => S754_infinity s
  | FxDec s n => fdiv (binary_normalize prec emax (if s then - n else n) 0 s) (ofZ 10)
  end.

(** A value that is a number in one branch and a string in another. *)
Inductive value :=
  | VNum (x : float)
  | VStr (s : string).

End Js.

(* ===================================================================== *)
(** ** Match results *)
(* ===================================================================== *)

(** One game, as the engine reports it ([result.results[0]] in the arena
    worker, [game] in [aggregateResults]). *)
Module Game.

Record t := mk {
  bot1Index : nat;
  bot2Index : nat;
  winner : Z;
  turnCount : Z;
  bot1Points : Z;
  bot2Points : Z
}.

End Game.

(** The entry [{ matchupId, results }] that the pool pushes for a completed
    matchup and that [aggregateResults] consumes. *)
Module Matchup.

Record t := mk {
  matchupId : string;
  results : list Game.t
}.

End Matchup.

(* ===================================================================== *)
(** ** The tournament scheduler of [ArenaController] *)
(* ===================================================================== *)

Module Arena.

Section Scheduler.

(** The configuration record that [getBotConfig(index)] builds from
    [this.bots[index]] (name, exploration parameter, global limits,
    weights) is opaque to the scheduler. *)
Context {BotConfig : Type}.
Variable getBotConfig : nat → BotConfig.

(** One entry of [tasks] in [runTournamentParallel]. *)
Record Task := mkTask {
  matchupId : string;
  bot1 : BotConfig;
  bot2 : BotConfig;
  bot1Index : nat;
  bot2Index : nat;
  gamesPerMatchup : Z
}.

(** The template literal [`bot${i}_vs_bot${j}`]. *)
Definition matchupIdOf (i j : nat) : string :=
  "bot" +:+ pretty i +:+ "_vs_bot" +:+ pretty j.

(** The strings in which a given character does not occur. *)
Fixpoint free_of (c : ascii) (s : string) : Prop :=
  match s with
  | EmptyString => True
  | String a s => a ≠ c ∧ free_of c s
  end.

Definition taskFor (K : Z) (i j : nat) : Task :=
  {| matchupId := matchupIdOf i j;
     bot1 := getBotConfig i;
     bot2 := getBotConfig j;
     bot1Index := i;
     bot2Index := j;
     gamesPerMatchup := K |}.

(** [for (let j = i + 1; j < n; j++) tasks.push({...})] *)
Definition innerLoop (n : nat) (K : Z) (i : nat) : list Task :=
  taskFor K i <$> seq (S i) (n - S i).

(** [for (let i = 0; i < n; i++) ...], with [n = this.bots.length]. *)
Definition createTasks (n : nat) (K : Z) : list Task :=
  seq 0 n ≫= innerLoop n K.

Definition pairOf (t : Task) : nat * nat := (bot1Index t, bot2Index t).

End Scheduler.

Arguments Task : clear implicits.

(** *** [aggregateResults] *)

Record Results := mkResults {
  bots : list string;
  matches : list Game.t;
  wins : Js.array;
  losses : Js.array;
  gamesPlayed : Js.array;
  totalPoints : Js.farray;
  totalWinTurns : Js.farray;
  avgGameLength : list Js.float;
  avgPointsScored : list Js.float;
  avgWinTurns : list Js.float
}.

(** The object literal that [aggregateResults] starts from; [names] is
    [this.bots.map(b => b.name)]. *)
Definition emptyResults (names : list string) : Results :=
  let n := length names in
  {| bots := names;
     matches := [];
     wins := Js.fill0 n;
     losses := Js.fill0 n;
     gamesPlayed := Js.fill0 n;
     totalPoints := Js.ffill0 n;
     totalWinTurns := Js.ffill0 n;
     avgGameLength := replicate n (S754_zero false);
     avgPointsScored := replicate n (S754_zero false);
     avgWinTurns := replicate n (S754_zero false) |}.

(** The body of [matchup.results.forEach(game => { ... })]. *)
Definition addGame (r : Results) (game : Game.t) : Results :=
  let bot1Idx := Game.bot1Index game in
  let bot2Idx := Game.bot2Index game in
  let played := Js.addAt (Js.addAt (gamesPlayed r) bot1Idx 1) bot2Idx 1 in
  let '(w, l, t) :=
    if bool_decide (Game.winner game = 0%Z) then
      (Js.addAt (wins r) bot1Idx 1,
       Js.addAt (losses r) bot2Idx 1,
       Js.addTo (totalWinTurns r) bot1Idx (Js.ofZ (Game.turnCount game)))
    else
      (Js.addAt (wins r) bot2Idx 1,
       Js.addAt (losses r) bot1Idx 1,
       Js.addTo (totalWinTurns r) bot2Idx (Js.ofZ (Game.turnCount game))) in
  let points :=
    Js.addTo (Js.addTo (totalPoints r) bot1Idx (Js.ofZ (Game.bot1Points game)))
             bot2Idx (Js.ofZ (Game.bot2Points game)) in
  {| bots := bots r;
     matches := matches r ++ [game];
     wins := w;
     losses := l;
     gamesPlayed := played;
     totalPoints := points;
     totalWinTurns := t;
     avgGameLength := avgGameLength r;
     avgPointsScored := avgPointsScored r;
     avgWinTurns := avgWinTurns r |}.

(** What one game adds to each accumulator, as lists of updates
    [(index, increment)] in the order the statements run. *)
Definition winnerIdx (game : Game.t) : nat :=
  if bool_decide (Game.winner game = 0%Z) then Game.bot1Index game
  else Game.bot2Index game.

Definition loserIdx (game : Game.t) : nat :=
  if bool_decide (Game.winner game = 0%Z) then Game.bot2Index game
  else Game.bot1Index game.

Definition playedUpdates (game : Game.t) : list (nat * Z) :=
  [(Game.bot1Index game, 1%Z); (Game.bot2Index game, 1%Z)].

Definition winUpdates (game : Game.t) : list (nat * Z) :=
  [(winnerIdx game, 1%Z)].

Definition lossUpdates (game : Game.t) : list (nat * Z) :=
  [(loserIdx game, 1%Z)].

Definition winTurnUpdates (game : Game.t) : list (nat * Z) :=
  [(winnerIdx game, Game.turnCount game)].

Definition pointUpdates (game : Game.t) : list (nat * Z) :=
  [(Game.bot1Index game, Game.bot1Points game);
   (Game.bot2Index game, Game.bot2Points game)].

Definition turnUpdates (game : Game.t) : list (nat * Z) :=
  [(Game.bot1Index game, Game.turnCount game);
   (Game.bot2Index game, Game.turnCount game)].

(** The five accumulators of a result object. *)
Definition accumulators (r : Results) :=
  (gamesPlayed r, wins r, losses r, totalPoints r, totalWinTurns r).

(** The three arrays of derived averages. *)
Definition averages (r : Results) :=
  (avgGameLength r, avgPointsScored r, avgWinTurns r).

(** [wins[i] + losses[i] == gamesPlayed[i]], all three being numbers. *)
Definition balanced (r : Results) (i : nat) : Prop :=
  ∃ w l : Z,
    Js.get (wins r) i = Js.Int w ∧
    Js.get (losses r) i = Js.Int l ∧
    Js.get (gamesPlayed r) i = Js.Int (w + l).

(** [matchupResults.forEach(matchup => matchup.results.forEach(...))] *)
Definition collect (r : Results) (matchupResults : list Matchup.t) : Results :=
  foldl (λ r matchup, foldl addGame r (Matchup.results matchup)) r matchupResults.

(** The second pass, over [results.matches], that sums the turns of every
    game a bot took part in. *)
Definition addTurns (totalTurns : Js.farray) (game : Game.t) : Js.farray :=
  Js.addTo (Js.addTo totalTurns (Game.bot1Index game) (Js.ofZ (Game.turnCount game)))
           (Game.bot2Index game) (Js.ofZ (Game.turnCount game)).

Definition totalTurnsOf (n : nat) (games : list Game.t) : Js.farray :=
  foldl addTurns (Js.ffill0 n) games.

(** [num / den] when [guard > 0], else the initial [0]. *)
Definition average (guard : Js.num) (num : Js.float) (den : Js.num) : Js.float :=
  if Js.gt0 guard then Js.fdiv num (Js.ofNum den)
  else S754_zero false.

(** What the games of a tournament put into the running sums at most:
    the points of both players and, for the two players, the turns. *)
Definition load (games : list Game.t) : Z :=
  foldr (λ game sum,
           (2 * Game.turnCount game + Game.bot1Points game + Game.bot2Points game + sum)%Z)
        0%Z games.

(** The numbers of a game are counts: none of them is negative. *)
Definition counted (game : Game.t) : Prop :=
  (0 ≤ Game.turnCount game ∧ 0 ≤ Game.bot1Points game ∧ 0 ≤ Game.bot2Points game)%Z.

Definition withAverages (r : Results) : Results :=
  let n := length (bots r) in
  let totalTurns := totalTurnsOf n (matches r) in
  {| bots := bots r;
     matches := matches r;
     wins := wins r;
     losses := losses r;
     gamesPlayed := gamesPlayed r;
     totalPoints := totalPoints r;
     totalWinTurns := totalWinTurns r;
     avgGameLength :=
       (λ i, average (Js.get (gamesPlayed r) i)
                     (Js.fget totalTurns i) (Js.get (gamesPlayed r) i)) <$> seq 0 n;
     avgPointsScored :=
       (λ i, average (Js.get (gamesPlayed r) i)
                     (Js.fget (totalPoints r) i) (Js.get (gamesPlayed r) i)) <$> seq 0 n;
     avgWinTurns :=
       (λ i, average (Js.get (wins r) i)
                     (Js.fget (totalWinTurns r) i) (Js.get (wins r) i)) <$> seq 0 n |}.

Definition aggregateResults (names : list string) (matchupResults : list Matchup.t)
    : Results :=
  withAverages (collect (emptyResults names) matchupResults).

(** *** [calculateWinRates] *)

Record Row := mkRow {
  row_name : string;
  row_wins : Js.num;
  row_losses : Js.num;
  row_gamesPlayed : Js.num;
  winRate : Js.value;
  avgPoints : Js.value;
  row_avgGameLength : Js.value;
  row_avgWinTurns : Js.value
}.

(** [total > 0 ? (wins / total * 100).toFixed(1) : 0], then [parseFloat]
    of it; [parseFloat(0)] is [0]. *)
Definition winRateOf (w l : Js.num) : Js.float :=
  let total := Js.add w l in
  if Js.gt0 total then
    Js.parseFixed1
      (Js.toFixed1 (Js.fmul (Js.fdiv (Js.ofNum w) (Js.ofNum total)) (Js.ofZ 100)))
  else S754_zero false.

Definition toFixed1Str (x : Js.float) : Js.value :=
  Js.VStr (Js.showFixed1 (Js.toFixed1 x)).

Definition rowOf (r : Results) (idx : nat) (name : string) : Row :=
  let w := Js.get (wins r) idx in
  let l := Js.get (losses r) idx in
  let avgWin := default S754_nan (avgWinTurns r !! idx) in
  {| row_name := name;
     row_wins := w;
     row_losses := l;
     row_gamesPlayed := Js.get (gamesPlayed r) idx;
     winRate := Js.VNum (winRateOf w l);
     avgPoints := toFixed1Str (default S754_nan (avgPointsScored r !! idx));
     row_avgGameLength := toFixed1Str (default S754_nan (avgGameLength r !! idx));
     row_avgWinTurns := if Js.fgt0 avgWin then toFixed1Str avgWin else Js.VStr "N/A" |}.

(** [this.results] is [null] until a tournament has run. *)
Definition calculateWinRates (results : option Results) : option (list Row) :=
  r ← results; Some (imap (rowOf r) (bots r)).


End Arena.

(* ===================================================================== *)
(** ** The arena worker: the [RUN_MATCHUP] handler *)
(* ===================================================================== *)

Module ArenaWorker.

Section Handler.

Context {BotConfig Engine : Type}.

(** The arguments of one call
    [arenaWrapper.runSingleMatchup(bot1, bot2, bot1Index, bot2Index, games)]. *)
Record Call := mkCall {
  call_bot1 : BotConfig;
  call_bot2 : BotConfig;
  call_bot1Index : nat;
  call_bot2Index : nat;
  call_games : Z
}.

(** The engine is a stateful object of the WASM module.  A call returns
    the new engine state and, unless it (or [JSON.parse] of its answer)
    throws, the [results] array of the parsed answer with the message of
    the exception otherwise. *)
Variable runSingleMatchup : Engine → Call → Engine * (string + list Game.t).

Inductive Message :=
  | GAME_COMPLETE (matchupId : string) (gameResult : option Game.t)
  | MATCHUP_COMPLETE (matchupId : string) (results : list (option Game.t))
  | MATCHUP_ERROR (matchupId : string) (error : string).

(** What the loop has done so far: the engine, [allResults], the messages
    posted to the main thread, and the engine calls made (a log kept for
    the properties only). *)
Record Loop := mkLoop {
  engine : Engine;
  allResults : list (option Game.t);
  posted : list Message;
  calls : list Call
}.

(** One iteration of [for (let gameNum = 0; gameNum < gamesPerMatchup;
    gameNum++)]; [inr] is the exception that leaves the loop. *)
Definition playGame (task : Arena.Task BotConfig) (st : Loop) (gameNum : nat)
    : Loop + (Loop * string) :=
  let startingPlayer := gameNum mod 2 in
  let call := {| call_bot1 := Arena.bot1 task;
                 call_bot2 := Arena.bot2 task;
                 call_bot1Index := Arena.bot1Index task;
                 call_bot2Index := Arena.bot2Index task;
                 call_games := 1 |} in
  match runSingleMatchup (engine st) call with
  | (engine', inr results) =>
      let gameResult := head results in
      inl {| engine := engine';
             allResults := allResults st ++ [gameResult];
             posted := posted st ++ [GAME_COMPLETE (Arena.matchupId task) gameResult];
             calls := calls st ++ [call] |}
  | (engine', inl error) =>
      inr ({| engine := engine';
              allResults := allResults st;
              posted := posted st;
              calls := calls st ++ [call] |}, error)
  end.

Fixpoint gameLoop (task : Arena.Task BotConfig) (st : Loop) (gameNums : list nat)
    : Loop + (Loop * string) :=
  match gameNums with
  | [] => inl st
  | gameNum :: rest =>
      match playGame task st gameNum with
      | inl st' => gameLoop task st' rest
      | inr e => inr e
      end
  end.

(** The handler for a [RUN_MATCHUP] message; [arenaWrapper] is [null]
    until [INIT] has succeeded.  The result is the wrapper afterwards, the
    messages posted and the engine calls made. *)
Definition runMatchup (arenaWrapper : option Engine) (task : Arena.Task BotConfig)
    : option Engine * list Message * list Call :=
  match arenaWrapper with
  | None =>
      (None, [MATCHUP_ERROR (Arena.matchupId task) "Worker not initialized"], [])
  | Some e =>
      let start := {| engine := e; allResults := []; posted := []; calls := [] |} in
      let gameNums := seq 0 (Z.to_nat (Arena.gamesPerMatchup task)) in
      match gameLoop task start gameNums with
      | inl st =>
          (Some (engine st),
           posted st ++ [MATCHUP_COMPLETE (Arena.matchupId task) (allResults st)],
           calls st)
      | inr (st, error) =>
          (Some (engine st),
           posted st ++ [MATCHUP_ERROR (Arena.matchupId task) error],
           calls st)
      end
  end.

(** The call that every game of a task is played with. *)
Definition callOf (task : Arena.Task BotConfig) : Call :=
  {| call_bot1 := Arena.bot1 task;
     call_bot2 := Arena.bot2 task;
     call_bot1Index := Arena.bot1Index task;
     call_bot2Index := Arena.bot2Index task;
     call_games := 1 |}.

End Handler.

Arguments Call : clear implicits.
Arguments Loop : clear implicits.

End ArenaWorker.

(* ===================================================================== *)
(** ** The arena worker pool *)
(* ===================================================================== *)

Module ArenaWorkerPool.

Section Pool.

Context {BotConfig : Type}.

Local Abbreviation Task := (Arena.Task BotConfig).

(** [e.data] of a message from a worker; [Other] is any [type] that
    [handleWorkerMessage] does not know. *)
Inductive Message :=
  | GAME_COMPLETE (matchupId : string) (gameResult : Game.t)
  | MATCHUP_COMPLETE (matchupId : string) (results : list Game.t)
  | MATCHUP_ERROR (matchupId : string) (error : string)
  | Other (type : string).

(** How a promise was settled: [resolve(this.results)], or the rejection
    that an exception inside the executor of [new Promise] turns into. *)
Inductive Settlement :=
  | Resolved (value : list Matchup.t)
  | Rejected.

(** The fields of the pool object, and after them what it has done to the
    outside: [workers] holds, for every [Worker], the tasks posted to it
    that it has not answered yet; promises are numbered in the order of
    their creation, [settled] logs the calls of their [resolve] functions
    with the value passed, and [progress] the calls of the progress
    callback. *)
Record Pool := mkPool {
  workerCount : nat;
  workers : list (list Task);
  availableWorkers : list nat;
  busyWorkers : gset nat;
  taskQueue : list Task;
  results : list Matchup.t;
  totalTasks : nat;
  completedTasks : nat;
  progressCallback : bool;
  resolveComplete : option nat;
  rejectComplete : option nat;
  totalGames : Z;
  completedGames : nat;
  nextPromise : nat;
  settled : list (nat * Settlement);
  progress : list (nat * Z * Game.t)
}.

Definition set_workers (workers' : list (list Task)) (s : Pool) : Pool :=
  {| workerCount := workerCount s;
     workers := workers';
     availableWorkers := availableWorkers s;
     busyWorkers := busyWorkers s;
     taskQueue := taskQueue s;
     results := results s;
     totalTasks := totalTasks s;
     completedTasks := completedTasks s;
     progressCallback := progressCallback s;
     resolveComplete := resolveComplete s;
     rejectComplete := rejectComplete s;
     totalGames := totalGames s;
     completedGames := completedGames s;
     nextPromise := nextPromise s;
     settled := settled s;
     progress := progress s |}.

Definition set_availableWorkers (availableWorkers' : list nat) (s : Pool) : Pool :=
  {| workerCount := workerCount s;
     workers := workers s;
     availableWorkers := availableWorkers';
     busyWorkers := busyWorkers s;
     taskQueue := taskQueue s;
     results := results s;
     totalTasks := totalTasks s;
     completedTasks := completedTasks s;
     progressCallback := progressCallback s;
     resolveComplete := resolveComplete s;
     rejectComplete := rejectComplete s;
     totalGames := totalGames s;
     completedGames := completedGames s;
     nextPromise := nextPromise s;
     settled := settled s;
     progress := progress s |}.

Definition set_busyWorkers (busyWorkers' : gset nat) (s : Pool) : Pool :=
  {| workerCount := workerCount s;
     workers := workers s;
     availableWorkers := availableWorkers s;
     busyWorkers := busyWorkers';
     taskQueue := taskQueue s;
     results := results s;
     totalTasks := totalTasks s;
     completedTasks := completedTasks s;
     progressCallback := progressCallback s;
     resolveComplete := resolveComplete s;
     rejectComplete := rejectComplete s;
     totalGames := totalGames s;
     completedGames := completedGames s;
     nextPromise := nextPromise s;
     settled := settled s;
     progress := progress s |}.

Definition set_taskQueue (taskQueue' : list Task) (s : Pool) : Pool :=
  {| workerCount := workerCount s;
     workers := workers s;
     availableWorkers := availableWorkers s;
     busyWorkers := busyWorkers s;
     taskQueue := taskQueue';
     results := results s;
     totalTasks := totalTasks s;
     completedTasks := completedTasks s;
     progressCallback := progressCallback s;
     resolveComplete := resolveComplete s;
     rejectComplete := rejectComplete s;
     totalGames := totalGames s;
     completedGames := completedGames s;
     nextPromise := nextPromise s;
     settled := settled s;
     progress := progress s |}.

Definition set_results (results' : list Matchup.t) (s : Pool) : Pool :=
  {| workerCount := workerCount s;
     workers := workers s;
     availableWorkers := availableWorkers s;
     busyWorkers := busyWorkers s;
     taskQueue := taskQueue s;
     results := results';
     totalTasks := totalTasks s;
     completedTasks := completedTasks s;
     progressCallback := progressCallback s;
     resolveComplete := resolveComplete s;
     rejectComplete := rejectComplete s;
     totalGames := totalGames s;
     completedGames := completedGames s;
     nextPromise := nextPromise s;
     settled := settled s;
     progress := progress s |}.

Definition set_completedTasks (completedTasks' : nat) (s : Pool) : Pool :=
  {| workerCount := workerCount s;
     workers := workers s;
     availableWorkers := availableWorkers s;
     busyWorkers := busyWorkers s;
     taskQueue := taskQueue s;
     results := results s;
     totalTasks := totalTasks s;
     completedTasks := completedTasks';
     progressCallback := progressCallback s;
     resolveComplete := resolveComplete s;
     rejectComplete := rejectComplete s;
     totalGames := totalGames s;
     completedGames := completedGames s;
     nextPromise := nextPromise s;
     settled := settled s;
     progress := progress s |}.

Definition set_completedGames (completedGames' : nat) (s : Pool) : Pool :=
  {| workerCount := workerCount s;
     workers := workers s;
     availableWorkers := availableWorkers s;
     busyWorkers := busyWorkers s;
     taskQueue := taskQueue s;
     results := results s;
     totalTasks := totalTasks s;
     completedTasks := completedTasks s;
     progressCallback := progressCallback s;
     resolveComplete := resolveComplete s;
     rejectComplete := rejectComplete s;
     totalGames := totalGames s;
     completedGames := completedGames';
     nextPromise := nextPromise s;
     settled := settled s;
     progress := progress s |}.

Definition set_callbacks (resolveComplete' : option nat) (rejectComplete' : option nat) (s : Pool) : Pool :=
  {| workerCount := workerCount s;
     workers := workers s;
     availableWorkers := availableWorkers s;
     busyWorkers := busyWorkers s;
     taskQueue := taskQueue s;
     results := results s;
     totalTasks := totalTasks s;
     completedTasks := completedTasks s;
     progressCallback := progressCallback s;
     resolveComplete := resolveComplete';
     rejectComplete := rejectComplete';
     totalGames := totalGames s;
     completedGames := completedGames s;
     nextPromise := nextPromise s;
     settled := settled s;
     progress := progress s |}.

Definition set_settled (settled' : list (nat * Settlement)) (s : Pool) : Pool :=
  {| workerCount := workerCount s;
     workers := workers s;
     availableWorkers := availableWorkers s;
     busyWorkers := busyWorkers s;
     taskQueue := taskQueue s;
     results := results s;
     totalTasks := totalTasks s;
     completedTasks := completedTasks s;
     progressCallback := progressCallback s;
     resolveComplete := resolveComplete s;
     rejectComplete := rejectComplete s;
     totalGames := totalGames s;
     completedGames := completedGames s;
     nextPromise := nextPromise s;
     settled := settled';
     progress := progress s |}.

Definition set_progress (progress' : list (nat * Z * Game.t)) (s : Pool) : Pool :=
  {| workerCount := workerCount s;
     workers := workers s;
     availableWorkers := availableWorkers s;
     busyWorkers := busyWorkers s;
     taskQueue := taskQueue s;
     results := results s;
     totalTasks := totalTasks s;
     completedTasks := completedTasks s;
     progressCallback := progressCallback s;
     resolveComplete := resolveComplete s;
     rejectComplete := rejectComplete s;
     totalGames := totalGames s;
     completedGames := completedGames s;
     nextPromise := nextPromise s;
     settled := settled s;
     progress := progress' |}.

Definition set_nextPromise (nextPromise' : nat) (s : Pool) : Pool :=
  {| workerCount := workerCount s;
     workers := workers s;
     availableWorkers := availableWorkers s;
     busyWorkers := busyWorkers s;
     taskQueue := taskQueue s;
     results := results s;
     totalTasks := totalTasks s;
     completedTasks := completedTasks s;
     progressCallback := progressCallback s;
     resolveComplete := resolveComplete s;
     rejectComplete := rejectComplete s;
     totalGames := totalGames s;
     completedGames := completedGames s;
     nextPromise := nextPromise';
     settled := settled s;
     progress := progress s |}.

Definition set_submission (taskQueue' : list Task) (totalTasks' : nat) (completedTasks' : nat) (results' : list Matchup.t) (progressCallback' : bool) (totalGames' : Z) (completedGames' : nat) (s : Pool) : Pool :=
  {| workerCount := workerCount s;
     workers := workers s;
     availableWorkers := availableWorkers s;
     busyWorkers := busyWorkers s;
     taskQueue := taskQueue';
     results := results';
     totalTasks := totalTasks';
     completedTasks := completedTasks';
     progressCallback := progressCallback';
     resolveComplete := resolveComplete s;
     rejectComplete := rejectComplete s;
     totalGames := totalGames';
     completedGames := completedGames';
     nextPromise := nextPromise s;
     settled := settled s;
     progress := progress s |}.

(** [new ArenaWorkerPool(workerCount)] *)
Definition create (workerCount : nat) : Pool :=
  {| workerCount := workerCount;
     workers := [];
     availableWorkers := [];
     busyWorkers := ∅;
     taskQueue := [];
     results := [];
     totalTasks := 0;
     completedTasks := 0;
     progressCallback := false;
     resolveComplete := None;
     rejectComplete := None;
     totalGames := 0;
     completedGames := 0;
     nextPromise := 0;
     settled := [];
     progress := [] |}.

(** [initialize()], when every worker answers [INIT_COMPLETE]: worker [i]
    is pushed to [workers] and [i] to [availableWorkers], for
    [i = 0 .. workerCount - 1]. *)
Definition initialize (s : Pool) : Pool :=
  set_workers (workers s ++ replicate (workerCount s) [])
    (set_availableWorkers (availableWorkers s ++ seq 0 (workerCount s)) s).

(** A handler returns normally, or is left by the [TypeError] of
    [this.workers[workerIndex].postMessage] on a missing worker; the
    state is the one reached at that point. *)
Inductive Outcome :=
  | Ok (s : Pool)
  | TypeError (s : Pool).

Definition stateOf (o : Outcome) : Pool :=
  match o with Ok s | TypeError s => s end.

Definition processNextTask (s : Pool) : Outcome :=
  if bool_decide (totalTasks s ≤ completedTasks s) then
    match resolveComplete s with
    | Some resolve =>
        Ok (set_settled (settled s ++ [(resolve, Resolved (results s))])
              (set_callbacks None None s))
    | None => Ok s
    end
  else
    match taskQueue s, availableWorkers s with
    | task :: queue, workerIndex :: available =>
        let s' := set_busyWorkers ({[workerIndex]} ∪ busyWorkers s)
                    (set_availableWorkers available (set_taskQueue queue s)) in
        match workers s' !! workerIndex with
        | Some inbox => Ok (set_workers (<[workerIndex := inbox ++ [task]]> (workers s')) s')
        | None => TypeError s'
        end
    | _, _ => Ok s
    end.

(** The worker is marked available again and the next task is looked
    for; common to a finished matchup, a failed one and a worker error. *)
Definition release (workerIndex : nat) (s : Pool) : Pool :=
  set_availableWorkers (availableWorkers s ++ [workerIndex])
    (set_busyWorkers (busyWorkers s ∖ {[workerIndex]}) s).

Definition handleWorkerMessage (workerIndex : nat) (m : Message) (s : Pool) : Outcome :=
  match m with
  | GAME_COMPLETE matchupId gameResult =>
      let s' := set_completedGames (S (completedGames s)) s in
      Ok (if progressCallback s'
          then set_progress
                 (progress s' ++ [(completedGames s', totalGames s', gameResult)]) s'
          else s')
  | MATCHUP_COMPLETE matchupId results' =>
      let s1 := set_results (results s ++ [Matchup.mk matchupId results']) s in
      let s2 := set_completedTasks (S (completedTasks s1)) s1 in
      processNextTask (release workerIndex s2)
  | MATCHUP_ERROR matchupId error =>
      let s1 := set_completedTasks (S (completedTasks s)) s in
      processNextTask (release workerIndex s1)
  | Other _ => Ok s
  end.

Definition handleWorkerError (workerIndex : nat) (s : Pool) : Outcome :=
  if bool_decide (workerIndex ∈ busyWorkers s) then
    let s1 := release workerIndex s in
    let s2 := set_completedTasks (S (completedTasks s1)) s1 in
    processNextTask s2
  else Ok s.

(** [for (let i = 0; i < initialBatch; i++) this.processNextTask()] *)
Fixpoint startBatch (initialBatch : nat) (s : Pool) : Outcome :=
  match initialBatch with
  | 0 => Ok s
  | S n =>
      match processNextTask s with
      | Ok s' => startBatch n s'
      | TypeError s' => TypeError s'
      end
  end.

(** [runTasks(tasks, progressCallback)]: the state after the executor of
    the promise has run, and the promise returned. *)
Definition runTasks (tasks : list Task) (callback : bool) (s : Pool) : Pool * nat :=
  let s1 := set_submission tasks (length tasks) 0 [] callback
              (foldl (λ sum task, (sum + Arena.gamesPerMatchup task)%Z) 0%Z tasks) 0 s in
  let promise := nextPromise s1 in
  let s2 := set_callbacks (Some promise) (Some promise)
              (set_nextPromise (S promise) s1) in
  let initialBatch := length (taskQueue s2) `min` workerCount s2 in
  if bool_decide (initialBatch = 0 ∧ totalTasks s2 = 0) then
    (set_settled (settled s2 ++ [(promise, Resolved (results s2))]) s2, promise)
  else
    match startBatch initialBatch s2 with
    | Ok s3 => (s3, promise)
    | TypeError s3 => (set_settled (settled s3 ++ [(promise, Rejected)]) s3, promise)
    end.

Definition terminate (s : Pool) : Pool :=
  set_busyWorkers ∅ (set_availableWorkers [] (set_workers [] s)).

(** *** The workers' side *)

Inductive Event :=
  | WorkerMessage (workerIndex : nat) (m : Message)
  | WorkerError (workerIndex : nat).

(** The task a worker is working on: the oldest one in its inbox. *)
Definition taskOf (s : Pool) (workerIndex : nat) : option Task :=
  workers s !! workerIndex ≫= head.

(** An event that ends the task of its worker. *)
Definition terminal (s : Pool) (e : Event) : bool :=
  match e with
  | WorkerMessage _ (MATCHUP_COMPLETE _ _) | WorkerMessage _ (MATCHUP_ERROR _ _) => true
  | WorkerMessage _ _ => false
  | WorkerError w => bool_decide (is_Some (taskOf s w))
  end.

(** What a worker that follows the protocol of the arena worker can
    send: progress and one final message for the task it is working on,
    each with the [matchupId] of that task; an error event can come from
    any worker. *)
Definition conforms (s : Pool) (e : Event) : Prop :=
  match e with
  | WorkerMessage w (GAME_COMPLETE id _)
  | WorkerMessage w (MATCHUP_COMPLETE id _)
  | WorkerMessage w (MATCHUP_ERROR id _) =>
      ∃ task, taskOf s w = Some task ∧ id = Arena.matchupId task
  | WorkerMessage w (Other _) => False
  | WorkerError w => w < length (workers s)
  end.

(** The worker is done with its task when it sends the final message,
    or when it fails. *)
Definition consume (s : Pool) (e : Event) : Pool :=
  match e with
  | WorkerMessage w (MATCHUP_COMPLETE _ _)
  | WorkerMessage w (MATCHUP_ERROR _ _)
  | WorkerError w => set_workers (alter tail w (workers s)) s
  | _ => s
  end.

Definition dispatch (s : Pool) (e : Event) : Outcome :=
  match e with
  | WorkerMessage w m => handleWorkerMessage w m (consume s e)
  | WorkerError w => handleWorkerError w (consume s e)
  end.

(** [run s evs n s']: the events [evs], [n] of them final, lead from [s]
    to [s'] without an exception. *)
Inductive run : Pool → list Event → nat → Pool → Prop :=
  | run_nil s : run s [] 0 s
  | run_cons s e s1 evs n s' :
      conforms s e →
      dispatch s e = Ok s1 →
      run s1 evs n s' →
      run s (e :: evs) ((if terminal s e then 1 else 0) + n) s'.

(** The entries that the completed matchups of a run leave in
    [this.results]. *)
Definition completions (evs : list Event) : list Matchup.t :=
  evs ≫= λ e,
    match e with
    | WorkerMessage _ (MATCHUP_COMPLETE id rs) => [Matchup.mk id rs]
    | _ => []
    end.



(** A pool at rest between two submissions: every worker is there, none
    is busy or has a task, all are available, and the promises settled so
    far are older than the next one. *)
Definition idle (s : Pool) : Prop :=
  workerCount s = length (workers s) ∧
  busyWorkers s = ∅ ∧
  availableWorkers s ≡ₚ seq 0 (workerCount s) ∧
  Forall (λ inbox, inbox = []) (workers s) ∧
  Forall (λ st, st.1 < nextPromise s) (settled s).

(** The shape of the pool while the submission [tasks] is under way,
    after the events [evs], [n] of them final: every worker is either
    available or busy with exactly one task, and every submitted task is
    in exactly one place: completed (with an entry in [results]), failed,
    with a worker, or in the queue.  [d] bounds the assignments that can
    still be made without a further event. *)
Record inv (tasks : list Task) (d : nat) (evs : list Event) (n : nat) (s : Pool)
    : Prop := mkInv {
  inv_workers : ∀ w, w < workerCount s ↔ is_Some (workers s !! w);
  inv_positive : 0 < workerCount s;
  inv_total : totalTasks s = length tasks;
  inv_nodup : NoDup (availableWorkers s);
  inv_available : ∀ w,
    w ∈ availableWorkers s ↔ w < workerCount s ∧ w ∉ busyWorkers s;
  inv_busy : ∀ w, w ∈ busyWorkers s → w < workerCount s;
  inv_inbox : ∀ w inbox, workers s !! w = Some inbox →
    if bool_decide (w ∈ busyWorkers s) then ∃ task, inbox = [task] else inbox = [];
  inv_results : results s = completions evs;
  inv_completed : completedTasks s = n;
  inv_tasks : ∃ succeeded failed : list Task,
    Matchup.matchupId <$> completions evs = Arena.matchupId <$> succeeded ∧
    n = length succeeded + length failed ∧
    succeeded ++ failed ++ concat (workers s) ++ taskQueue s ≡ₚ tasks;
  inv_batch : d ≤ length (taskQueue s) ∧ d ≤ length (availableWorkers s) ∧
    (length (taskQueue s) = d ∨ length (availableWorkers s) = d)
}.

(** The promise of the submission is pending, with its [resolve] stored
    in the pool, until the last task is done, and resolved with
    [this.results] from then on; [log] is what was settled before. *)
Definition pending (promise : nat) (log : list (nat * Settlement)) (s : Pool) : Prop :=
  resolveComplete s = Some promise ∧ settled s = log.

Definition promised (tasks : list Task) (promise : nat)
    (log : list (nat * Settlement)) (s : Pool) : Prop :=
  (completedTasks s < length tasks → pending promise log s) ∧
  (length tasks ≤ completedTasks s →
     resolveComplete s = None ∧
     settled s = log ++ [(promise, Resolved (results s))]).

End Pool.

Arguments Pool : clear implicits.
Arguments Outcome : clear implicits.
Arguments Message : clear implicits.
Arguments Event : clear implicits.

End ArenaWorkerPool.

(* ===================================================================== *)
(** ** The AI worker proxy *)
(* ===================================================================== *)

Module AIWorkerProxy.

Section Proxy.

(** Game states and actions cross the proxy untouched. *)
Context {GameState Action : Type}.

(** The engine of the fallback path, [selectActionJSON] or its debug
    variant according to the flag, with [JSON.stringify] and [JSON.parse]
    around it; [None] when it throws.  [moduleAvailable] is
    [typeof Module !== 'undefined']. *)
Variable selectActionJSON : bool → GameState → Z → option Action.
Variable moduleAvailable : bool.

(** What the proxy posts to its worker. *)
Inductive Request :=
  | INIT (wasmPath : string)
  | COMPUTE_AI_ACTION (id : string) (gameState : GameState) (playerId : Z)
      (difficulty : Z) (timeLimit : Js.float)
  | SET_DIFFICULTY (difficulty : Z)
  | SET_TIME_LIMIT (timeLimit : Js.float)
  | SET_DEBUG_MODE (enabled : bool).

(** What the worker posts back; a message without an [id] field has
    [None] there, and [Unknown] is any other [type]. *)
Inductive Message :=
  | AI_ACTION_RESULT (id : option string) (action : Action)
  | AI_ERROR (id : option string) (error : string)
  | PROGRESS (progress : Z)
  | READY
  | ERROR (error : string)
  | Unknown (type : string).

(** An entry of [pendingRequests]: the two functions of the promise of
    the request (promises are numbered by creation) and the handle of
    its timeout. *)
Record Pending := mkPending {
  resolve : nat;
  reject : nat;
  timeout : nat
}.

(** A callback waiting in [setTimeout], with the time at which it
    becomes due: the timeout of a request, the timeout of an
    initialization, and the deferred computation of the fallback path. *)
Inductive Timer :=
  | RequestTimeout (due : Z) (requestId : string) (promise : nat)
  | InitTimeout (due : Z)
  | FallbackCompute (due : Z) (promise : nat) (gameState : GameState) (playerId : Z).

Definition dueOf (t : Timer) : Z :=
  match t with
  | RequestTimeout due _ _ | InitTimeout due | FallbackCompute due _ _ _ => due
  end.

Inductive Settlement :=
  | Resolved (action : Action)
  | Rejected (error : string).

(** The fields of the proxy and, from [initListener] on, its
    surroundings: the one-shot [message] listener of a running
    initialization (by the handle of its timeout), the time of the last
    event, the workers created and terminated, the messages posted to
    them, the armed timers, and the log of the calls of [resolve] and
    [reject] functions and of the progress callback. *)
Record Proxy := mkProxy {
  worker : option nat;
  isReady : bool;
  pendingRequests : gmap string Pending;
  requestIdCounter : nat;
  progressCallback : bool;
  useWorker : bool;
  difficulty : Z;
  timeLimit : Js.float;
  debugMode : bool;
  fallbackWasm : bool;
  initListener : option nat;
  clock : Z;
  nextWorker : nat;
  terminated : list nat;
  sent : list (nat * Request);
  timers : gmap nat Timer;
  nextTimer : nat;
  nextPromise : nat;
  settled : list (nat * Settlement);
  progressed : list Z
}.

Definition set_worker (worker' : option nat) (s : Proxy) : Proxy :=
  {| worker := worker';
     isReady := isReady s;
     pendingRequests := pendingRequests s;
     requestIdCounter := requestIdCounter s;
     progressCallback := progressCallback s;
     useWorker := useWorker s;
     difficulty := difficulty s;
     timeLimit := timeLimit s;
     debugMode := debugMode s;
     fallbackWasm := fallbackWasm s;
     initListener := initListener s;
     clock := clock s;
     nextWorker := nextWorker s;
     terminated := terminated s;
     sent := sent s;
     timers := timers s;
     nextTimer := nextTimer s;
     nextPromise := nextPromise s;
     settled := settled s;
     progressed := progressed s |}.

Definition set_isReady (isReady' : bool) (s : Proxy) : Proxy :=
  {| worker := worker s;
     isReady := isReady';
     pendingRequests := pendingRequests s;
     requestIdCounter := requestIdCounter s;
     progressCallback := progressCallback s;
     useWorker := useWorker s;
     difficulty := difficulty s;
     timeLimit := timeLimit s;
     debugMode := debugMode s;
     fallbackWasm := fallbackWasm s;
     initListener := initListener s;
     clock := clock s;
     nextWorker := nextWorker s;
     terminated := terminated s;
     sent := sent s;
     timers := timers s;
     nextTimer := nextTimer s;
     nextPromise := nextPromise s;
     settled := settled s;
     progressed := progressed s |}.

Definition set_pendingRequests (pendingRequests' : gmap string Pending) (s : Proxy) : Proxy :=
  {| worker := worker s;
     isReady := isReady s;
     pendingRequests := pendingRequests';
     requestIdCounter := requestIdCounter s;
     progressCallback := progressCallback s;
     useWorker := useWorker s;
     difficulty := difficulty s;
     timeLimit := timeLimit s;
     debugMode := debugMode s;
     fallbackWasm := fallbackWasm s;
     initListener := initListener s;
     clock := clock s;
     nextWorker := nextWorker s;
     terminated := terminated s;
     sent := sent s;
     timers := timers s;
     nextTimer := nextTimer s;
     nextPromise := nextPromise s;
     settled := settled s;
     progressed := progressed s |}.

Definition set_requestIdCounter (requestIdCounter' : nat) (s : Proxy) : Proxy :=
  {| worker := worker s;
     isReady := isReady s;
     pendingRequests := pendingRequests s;
     requestIdCounter := requestIdCounter';
     progressCallback := progressCallback s;
     useWorker := useWorker s;
     difficulty := difficulty s;
     timeLimit := timeLimit s;
     debugMode := debugMode s;
     fallbackWasm := fallbackWasm s;
     initListener := initListener s;
     clock := clock s;
     nextWorker := nextWorker s;
     terminated := terminated s;
     sent := sent s;
     timers := timers s;
     nextTimer := nextTimer s;
     nextPromise := nextPromise s;
     settled := settled s;
     progressed := progressed s |}.

Definition set_progressCallback (progressCallback' : bool) (s : Proxy) : Proxy :=
  {| worker := worker s;
     isReady := isReady s;
     pendingRequests := pendingRequests s;
     requestIdCounter := requestIdCounter s;
     progressCallback := progressCallback';
     useWorker := useWorker s;
     difficulty := difficulty s;
     timeLimit := timeLimit s;
     debugMode := debugMode s;
     fallbackWasm := fallbackWasm s;
     initListener := initListener s;
     clock := clock s;
     nextWorker := nextWorker s;
     terminated := terminated s;
     sent := sent s;
     timers := timers s;
     nextTimer := nextTimer s;
     nextPromise := nextPromise s;
     settled := settled s;
     progressed := progressed s |}.

Definition set_useWorker (useWorker' : bool) (s : Proxy) : Proxy :=
  {| worker := worker s;
     isReady := isReady s;
     pendingRequests := pendingRequests s;
     requestIdCounter := requestIdCounter s;
     progressCallback := progressCallback s;
     useWorker := useWorker';
     difficulty := difficulty s;
     timeLimit := timeLimit s;
     debugMode := debugMode s;
     fallbackWasm := fallbackWasm s;
     initListener := initListener s;
     clock := clock s;
     nextWorker := nextWorker s;
     terminated := terminated s;
     sent := sent s;
     timers := timers s;
     nextTimer := nextTimer s;
     nextPromise := nextPromise s;
     settled := settled s;
     progressed := progressed s |}.

Definition set_difficulty (difficulty' : Z) (s : Proxy) : Proxy :=
  {| worker := worker s;
     isReady := isReady s;
     pendingRequests := pendingRequests s;
     requestIdCounter := requestIdCounter s;
     progressCallback := progressCallback s;
     useWorker := useWorker s;
     difficulty := difficulty';
     timeLimit := timeLimit s;
     debugMode := debugMode s;
     fallbackWasm := fallbackWasm s;
     initListener := initListener s;
     clock := clock s;
     nextWorker := nextWorker s;
     terminated := terminated s;
     sent := sent s;
     timers := timers s;
     nextTimer := nextTimer s;
     nextPromise := nextPromise s;
     settled := settled s;
     progressed := progressed s |}.

Definition set_timeLimit (timeLimit' : Js.float) (s : Proxy) : Proxy :=
  {| worker := worker s;
     isReady := isReady s;
     pendingRequests := pendingRequests s;
     requestIdCounter := requestIdCounter s;
     progressCallback := progressCallback s;
     useWorker := useWorker s;
     difficulty := difficulty s;
     timeLimit := timeLimit';
     debugMode := debugMode s;
     fallbackWasm := fallbackWasm s;
     initListener := initListener s;
     clock := clock s;
     nextWorker := nextWorker s;
     terminated := terminated s;
     sent := sent s;
     timers := timers s;
     nextTimer := nextTimer s;
     nextPromise := nextPromise s;
     settled := settled s;
     progressed := progressed s |}.

Definition set_debugMode (debugMode' : bool) (s : Proxy) : Proxy :=
  {| worker := worker s;
     isReady := isReady s;
     pendingRequests := pendingRequests s;
     requestIdCounter := requestIdCounter s;
     progressCallback := progressCallback s;
     useWorker := useWorker s;
     difficulty := difficulty s;
     timeLimit := timeLimit s;
     debugMode := debugMode';
     fallbackWasm := fallbackWasm s;
     initListener := initListener s;
     clock := clock s;
     nextWorker := nextWorker s;
     terminated := terminated s;
     sent := sent s;
     timers := timers s;
     nextTimer := nextTimer s;
     nextPromise := nextPromise s;
     settled := settled s;
     progressed := progressed s |}.

Definition set_fallbackWasm (fallbackWasm' : bool) (s : Proxy) : Proxy :=
  {| worker := worker s;
     isReady := isReady s;
     pendingRequests := pendingRequests s;
     requestIdCounter := requestIdCounter s;
     progressCallback := progressCallback s;
     useWorker := useWorker s;
     difficulty := difficulty s;
     timeLimit := timeLimit s;
     debugMode := debugMode s;
     fallbackWasm := fallbackWasm';
     initListener := initListener s;
     clock := clock s;
     nextWorker := nextWorker s;
     terminated := terminated s;
     sent := sent s;
     timers := timers s;
     nextTimer := nextTimer s;
     nextPromise := nextPromise s;
     settled := settled s;
     progressed := progressed s |}.

Definition set_initListener (initListener' : option nat) (s : Proxy) : Proxy :=
  {| worker := worker s;
     isReady := isReady s;
     pendingRequests := pendingRequests s;
     requestIdCounter := requestIdCounter s;
     progressCallback := progressCallback s;
     useWorker := useWorker s;
     difficulty := difficulty s;
     timeLimit := timeLimit s;
     debugMode := debugMode s;
     fallbackWasm := fallbackWasm s;
     initListener := initListener';
     clock := clock s;
     nextWorker := nextWorker s;
     terminated := terminated s;
     sent := sent s;
     timers := timers s;
     nextTimer := nextTimer s;
     nextPromise := nextPromise s;
     settled := settled s;
     progressed := progressed s |}.

Definition set_clock (clock' : Z) (s : Proxy) : Proxy :=
  {| worker := worker s;
     isReady := isReady s;
     pendingRequests := pendingRequests s;
     requestIdCounter := requestIdCounter s;
     progressCallback := progressCallback s;
     useWorker := useWorker s;
     difficulty := difficulty s;
     timeLimit := timeLimit s;
     debugMode := debugMode s;
     fallbackWasm := fallbackWasm s;
     initListener := initListener s;
     clock := clock';
     nextWorker := nextWorker s;
     terminated := terminated s;
     sent := sent s;
     timers := timers s;
     nextTimer := nextTimer s;
     nextPromise := nextPromise s;
     settled := settled s;
     progressed := progressed s |}.

Definition set_nextWorker (nextWorker' : nat) (s : Proxy) : Proxy :=
  {| worker := worker s;
     isReady := isReady s;
     pendingRequests := pendingRequests s;
     requestIdCounter := requestIdCounter s;
     progressCallback := progressCallback s;
     useWorker := useWorker s;
     difficulty := difficulty s;
     timeLimit := timeLimit s;
     debugMode := debugMode s;
     fallbackWasm := fallbackWasm s;
     initListener := initListener s;
     clock := clock s;
     nextWorker := nextWorker';
     terminated := terminated s;
     sent := sent s;
     timers := timers s;
     nextTimer := nextTimer s;
     nextPromise := nextPromise s;
     settled := settled s;
     progressed := progressed s |}.

Definition set_terminated (terminated' : list nat) (s : Proxy) : Proxy :=
  {| worker := worker s;
     isReady := isReady s;
     pendingRequests := pendingRequests s;
     requestIdCounter := requestIdCounter s;
     progressCallback := progressCallback s;
     useWorker := useWorker s;
     difficulty := difficulty s;
     timeLimit := timeLimit s;
     debugMode := debugMode s;
     fallbackWasm := fallbackWasm s;
     initListener := initListener s;
     clock := clock s;
     nextWorker := nextWorker s;
     terminated := terminated';
     sent := sent s;
     timers := timers s;
     nextTimer := nextTimer s;
     nextPromise := nextPromise s;
     settled := settled s;
     progressed := progressed s |}.

Definition set_sent (sent' : list (nat * Request)) (s : Proxy) : Proxy :=
  {| worker := worker s;
     isReady := isReady s;
     pendingRequests := pendingRequests s;
     requestIdCounter := requestIdCounter s;
     progressCallback := progressCallback s;
     useWorker := useWorker s;
     difficulty := difficulty s;
     timeLimit := timeLimit s;
     debugMode := debugMode s;
     fallbackWasm := fallbackWasm s;
     initListener := initListener s;
     clock := clock s;
     nextWorker := nextWorker s;
     terminated := terminated s;
     sent := sent';
     timers := timers s;
     nextTimer := nextTimer s;
     nextPromise := nextPromise s;
     settled := settled s;
     progressed := progressed s |}.

Definition set_timers (timers' : gmap nat Timer) (s : Proxy) : Proxy :=
  {| worker := worker s;
     isReady := isReady s;
     pendingRequests := pendingRequests s;
     requestIdCounter := requestIdCounter s;
     progressCallback := progressCallback s;
     useWorker := useWorker s;
     difficulty := difficulty s;
     timeLimit := timeLimit s;
     debugMode := debugMode s;
     fallbackWasm := fallbackWasm s;
     initListener := initListener s;
     clock := clock s;
     nextWorker := nextWorker s;
     terminated := terminated s;
     sent := sent s;
     timers := timers';
     nextTimer := nextTimer s;
     nextPromise := nextPromise s;
     settled := settled s;
     progressed := progressed s |}.

Definition set_nextTimer (nextTimer' : nat) (s : Proxy) : Proxy :=
  {| worker := worker s;
     isReady := isReady s;
     pendingRequests := pendingRequests s;
     requestIdCounter := requestIdCounter s;
     progressCallback := progressCallback s;
     useWorker := useWorker s;
     difficulty := difficulty s;
     timeLimit := timeLimit s;
     debugMode := debugMode s;
     fallbackWasm := fallbackWasm s;
     initListener := initListener s;
     clock := clock s;
     nextWorker := nextWorker s;
     terminated := terminated s;
     sent := sent s;
     timers := timers s;
     nextTimer := nextTimer';
     nextPromise := nextPromise s;
     settled := settled s;
     progressed := progressed s |}.

Definition set_nextPromise (nextPromise' : nat) (s : Proxy) : Proxy :=
  {| worker := worker s;
     isReady := isReady s;
     pendingRequests := pendingRequests s;
     requestIdCounter := requestIdCounter s;
     progressCallback := progressCallback s;
     useWorker := useWorker s;
     difficulty := difficulty s;
     timeLimit := timeLimit s;
     debugMode := debugMode s;
     fallbackWasm := fallbackWasm s;
     initListener := initListener s;
     clock := clock s;
     nextWorker := nextWorker s;
     terminated := terminated s;
     sent := sent s;
     timers := timers s;
     nextTimer := nextTimer s;
     nextPromise := nextPromise';
     settled := settled s;
     progressed := progressed s |}.

Definition set_settled (settled' : list (nat * Settlement)) (s : Proxy) : Proxy :=
  {| worker := worker s;
     isReady := isReady s;
     pendingRequests := pendingRequests s;
     requestIdCounter := requestIdCounter s;
     progressCallback := progressCallback s;
     useWorker := useWorker s;
     difficulty := difficulty s;
     timeLimit := timeLimit s;
     debugMode := debugMode s;
     fallbackWasm := fallbackWasm s;
     initListener := initListener s;
     clock := clock s;
     nextWorker := nextWorker s;
     terminated := terminated s;
     sent := sent s;
     timers := timers s;
     nextTimer := nextTimer s;
     nextPromise := nextPromise s;
     settled := settled';
     progressed := progressed s |}.

Definition set_progressed (progressed' : list Z) (s : Proxy) : Proxy :=
  {| worker := worker s;
     isReady := isReady s;
     pendingRequests := pendingRequests s;
     requestIdCounter := requestIdCounter s;
     progressCallback := progressCallback s;
     useWorker := useWorker s;
     difficulty := difficulty s;
     timeLimit := timeLimit s;
     debugMode := debugMode s;
     fallbackWasm := fallbackWasm s;
     initListener := initListener s;
     clock := clock s;
     nextWorker := nextWorker s;
     terminated := terminated s;
     sent := sent s;
     timers := timers s;
     nextTimer := nextTimer s;
     nextPromise := nextPromise s;
     settled := settled s;
     progressed := progressed' |}.

(** [2.5], the default time limit in seconds. *)
Definition defaultTimeLimit : Js.float :=
  Eval vm_compute in Js.fdiv (Js.ofZ 5) (Js.ofZ 2).

(** [new AIWorkerProxy()], where workers exist. *)
Definition create : Proxy :=
  {| worker := None;
     isReady := false;
     pendingRequests := ∅;
     requestIdCounter := 0;
     progressCallback := false;
     useWorker := true;
     difficulty := 5000000;
     timeLimit := defaultTimeLimit;
     debugMode := false;
     fallbackWasm := false;
     initListener := None;
     clock := 0;
     nextWorker := 0;
     terminated := [];
     sent := [];
     timers := ∅;
     nextTimer := 0;
     nextPromise := 0;
     settled := [];
     progressed := [] |}.

(** [`ai_request_${n}`] *)
Definition requestId (n : nat) : string := "ai_request_" +:+ pretty n.

Definition clearTimeout (h : nat) (s : Proxy) : Proxy :=
  set_timers (delete h (timers s)) s.

Definition settle (promise : nat) (st : Settlement) (s : Proxy) : Proxy :=
  set_settled (settled s ++ [(promise, st)]) s.

(** [setTimeout(callback, delay)]; the result is the handle. *)
Definition setTimeout (t : Timer) (s : Proxy) : Proxy * nat :=
  (set_nextTimer (S (nextTimer s)) (set_timers (<[nextTimer s := t]> (timers s)) s),
   nextTimer s).

Definition postMessage (m : Request) (s : Proxy) : Proxy :=
  match worker s with
  | Some w => set_sent (sent s ++ [(w, m)]) s
  | None => s
  end.

(** [initializeFallback]: without [Module] it throws and leaves the
    proxy as it is. *)
Definition initializeFallback (s : Proxy) : Proxy :=
  if moduleAvailable then set_isReady true (set_fallbackWasm true s) else s.

(** The [catch] branch of [initialize]. *)
Definition initializeFailed (s : Proxy) : Proxy :=
  initializeFallback (set_useWorker false s).

(** [initialize(wasmPath)] up to [await initPromise]: the worker is
    created, the timeout of ten seconds armed, the one-shot listener
    registered and [INIT] posted. *)
Definition initialize (wasmPath : string) (s : Proxy) : Proxy :=
  if negb (useWorker s) then initializeFallback s
  else
    let s1 := set_nextWorker (S (nextWorker s)) (set_worker (Some (nextWorker s)) s) in
    let '(s2, h) := setTimeout (InitTimeout (clock s1 + 10000)) s1 in
    postMessage (INIT wasmPath) (set_initListener (Some h) s2).

(** The one-shot listener of [initialize], run on the first message of
    the new worker.  [reject] has an effect only while the promise of the
    initialization is pending, that is, while its timeout is armed. *)
Definition initHandler (m : Message) (s : Proxy) : Proxy :=
  match initListener s with
  | None => s
  | Some h =>
      let s1 := set_initListener None s in
      match m with
      | READY => set_isReady true (clearTimeout h s1)
      | ERROR _ =>
          if bool_decide (is_Some (timers s1 !! h))
          then initializeFailed (clearTimeout h s1)
          else s1
      | _ => s1
      end
  end.

(** [getAIAction(gameState, playerId)]: the state afterwards and the
    promise returned.  An [async] function that throws returns a
    rejected promise. *)
Definition getAIAction (gameState : GameState) (playerId : Z) (s : Proxy)
    : Proxy * nat :=
  let promise := nextPromise s in
  let s := set_nextPromise (S promise) s in
  if negb (isReady s) then
    (settle promise (Rejected "AI Worker not initialized") s, promise)
  else if negb (useWorker s) then
    let '(s1, _) := setTimeout (FallbackCompute (clock s + 10) promise gameState playerId) s in
    (s1, promise)
  else
    let id := requestId (requestIdCounter s) in
    let s1 := set_requestIdCounter (S (requestIdCounter s)) s in
    let '(s2, h) := setTimeout (RequestTimeout (clock s1 + 30000) id promise) s1 in
    let s3 := set_pendingRequests
                (<[id := mkPending promise promise h]> (pendingRequests s2)) s2 in
    match worker s3 with
    | Some _ =>
        (postMessage (COMPUTE_AI_ACTION id gameState playerId
                        (difficulty s3) (timeLimit s3)) s3, promise)
    | None =>
        let outer := nextPromise s3 in
        (settle outer (Rejected "TypeError") (set_nextPromise (S outer) s3), outer)
    end.

Definition handleActionResult (id : option string) (action : Action) (s : Proxy)
    : Proxy :=
  match id with
  | None => s
  | Some id =>
      match pendingRequests s !! id with
      | Some request =>
          let s1 := clearTimeout (timeout request) s in
          let s2 := set_pendingRequests (delete id (pendingRequests s1)) s1 in
          settle (resolve request) (Resolved action) s2
      | None => s
      end
  end.

Definition handleActionError (id : option string) (error : string) (s : Proxy)
    : Proxy :=
  match id with
  | None => s
  | Some id =>
      match pendingRequests s !! id with
      | Some request =>
          let s1 := clearTimeout (timeout request) s in
          let s2 := set_pendingRequests (delete id (pendingRequests s1)) s1 in
          settle (reject request) (Rejected error) s2
      | None => s
      end
  end.

Definition handleProgress (progress : Z) (s : Proxy) : Proxy :=
  if progressCallback s then set_progressed (progressed s ++ [progress]) s else s.

Definition handleMessage (m : Message) (s : Proxy) : Proxy :=
  match m with
  | AI_ACTION_RESULT id action => handleActionResult id action s
  | AI_ERROR id error => handleActionError id error s
  | PROGRESS progress => handleProgress progress s
  | READY => s
  | ERROR _ | Unknown _ => s
  end.

(** [terminate()] *)
Definition terminate (s : Proxy) : Proxy :=
  let s1 := match worker s with
            | Some w => set_worker None (set_terminated (terminated s ++ [w]) s)
            | None => s
            end in
  set_pendingRequests ∅ (set_isReady false s1).

(** [restart()] up to the [await] inside [initialize]. *)
Definition restart (s : Proxy) : Proxy :=
  initialize "wasm/splendor.js" (set_isReady false (terminate s)).

(** The loop of [handleError] over the pending requests: each timeout is
    cleared and each promise rejected.  (The loop of the source runs in
    the order of insertion; the order only shows in the order of the log
    entries of different promises.) *)
Definition rejectAll (error : string) (s : Proxy) : Proxy :=
  foldl (λ s (entry : string * Pending),
           settle (reject entry.2) (Rejected error) (clearTimeout (timeout entry.2) s))
        s (map_to_list (pendingRequests s)).

Definition handleError (s : Proxy) : Proxy :=
  restart (set_pendingRequests ∅ (rejectAll "Worker crashed" s)).

Definition setDifficulty (difficulty' : Z) (s : Proxy) : Proxy :=
  let s1 := set_difficulty difficulty' s in
  if useWorker s1 && bool_decide (is_Some (worker s1))
  then postMessage (SET_DIFFICULTY difficulty') s1
  else s1.

Definition setTimeLimit (timeLimit' : Js.float) (s : Proxy) : Proxy :=
  let s1 := set_timeLimit timeLimit' s in
  if useWorker s1 && bool_decide (is_Some (worker s1))
  then postMessage (SET_TIME_LIMIT timeLimit') s1
  else s1.

Definition setDebugMode (enabled : bool) (s : Proxy) : Proxy :=
  let s1 := set_debugMode enabled s in
  if useWorker s1 && bool_decide (is_Some (worker s1))
  then postMessage (SET_DEBUG_MODE enabled) s1
  else s1.

Definition onProgress (s : Proxy) : Proxy := set_progressCallback true s.

(** A timer that has become due runs its callback, once. *)
Definition fire (h : nat) (t : Timer) (s : Proxy) : Proxy :=
  let s := clearTimeout h s in
  match t with
  | RequestTimeout _ id promise =>
      settle promise (Rejected "AI computation timeout")
        (set_pendingRequests (delete id (pendingRequests s)) s)
  | InitTimeout _ => initializeFailed s
  | FallbackCompute _ promise gameState playerId =>
      if fallbackWasm s then
        match selectActionJSON (debugMode s) gameState playerId with
        | Some action => settle promise (Resolved action) s
        | None => s
        end
      else s
  end.

(** *** The event loop *)

Inductive Event :=
  | Initialize (wasmPath : string)
  | GetAIAction (gameState : GameState) (playerId : Z)
  | Terminate
  | SetDifficulty (difficulty : Z)
  | SetTimeLimit (timeLimit : Js.float)
  | SetDebugMode (enabled : bool)
  | OnProgress
  | WorkerMessage (w : nat) (m : Message)
  | WorkerError (w : nat)
  | TimerFires (h : nat).

(** One turn of the event loop at time [now]: a call from the game
    controller, a message or an error event of the current worker (a
    terminated worker is silent), or a timer that is due.  [None] when
    the event cannot happen in this state at this time.  The events of a
    worker that [initialize] has replaced without terminating it, which
    exists only when [initialize] is called on a proxy that holds a
    worker, are not part of the loop. *)
Definition step (now : Z) (e : Event) (s : Proxy) : option Proxy :=
  if bool_decide (now < clock s)%Z then None
  else
    let s := set_clock now s in
    match e with
    | Initialize wasmPath => Some (initialize wasmPath s)
    | GetAIAction gameState playerId => Some (getAIAction gameState playerId s).1
    | Terminate => Some (terminate s)
    | SetDifficulty d => Some (setDifficulty d s)
    | SetTimeLimit t => Some (setTimeLimit t s)
    | SetDebugMode b => Some (setDebugMode b s)
    | OnProgress => Some (onProgress s)
    | WorkerMessage w m =>
        if bool_decide (worker s = Some w)
        then Some (initHandler m (handleMessage m s))
        else None
    | WorkerError w =>
        if bool_decide (worker s = Some w) then Some (handleError s) else None
    | TimerFires h =>
        match timers s !! h with
        | Some t => if bool_decide (dueOf t ≤ now)%Z then Some (fire h t s) else None
        | None => None
        end
    end.

(** A sequence of timed events. *)
Fixpoint steps (evs : list (Z * Event)) (s : Proxy) : option Proxy :=
  match evs with
  | [] => Some s
  | (now, e) :: evs => step now e s ≫= steps evs
  end.

(** The settlements of a promise, in the order of the calls; the first
    one decides. *)
Definition settlementOf (promise : nat) (st : nat * Settlement) : list Settlement :=
  if decide (st.1 = promise) then [st.2] else [].

Definition settlements (promise : nat) (s : Proxy) : list Settlement :=
  settled s ≫= settlementOf promise.

(** *** The life of one request *)

Definition promiseOf (t : Timer) : option nat :=
  match t with
  | RequestTimeout _ _ promise | FallbackCompute _ promise _ _ => Some promise
  | InitTimeout _ => None
  end.

(** Promises, timer handles and request ids are handed out in
    increasing order, so whatever the proxy holds is older than the next
    one. *)
Definition wf (s : Proxy) : Prop :=
  Forall (λ st, st.1 < nextPromise s) (settled s) ∧
  (∀ id r, pendingRequests s !! id = Some r →
     resolve r < nextPromise s ∧ reject r < nextPromise s ∧
     timeout r < nextTimer s ∧
     ∃ n, id = requestId n ∧ n < requestIdCounter s) ∧
  (∀ h t, timers s !! h = Some t →
     h < nextTimer s ∧ ∀ q, promiseOf t = Some q → q < nextPromise s) ∧
  (∀ h, initListener s = Some h → h < nextTimer s).

(** The request [id] with promise [promise] and timeout handle [h] has
    been sent and nothing has settled it yet: its timer is armed, and
    nothing else in the proxy can reach its promise or its timer. *)
Definition awaiting (id : string) (promise h : nat) (due : Z) (s : Proxy) : Prop :=
  timers s !! h = Some (RequestTimeout due id promise) ∧
  settlements promise s = [] ∧
  (∀ r, pendingRequests s !! id = Some r → r = mkPending promise promise h) ∧
  (∀ id' r, id' ≠ id → pendingRequests s !! id' = Some r →
     resolve r ≠ promise ∧ reject r ≠ promise ∧ timeout r ≠ h) ∧
  (∀ h' t, h' ≠ h → timers s !! h' = Some t → promiseOf t ≠ Some promise) ∧
  initListener s ≠ Some h ∧
  promise < nextPromise s ∧ h < nextTimer s ∧
  ∃ n, id = requestId n ∧ n < requestIdCounter s.

(** The request has timed out: its promise is rejected with the timeout
    error, its entry is gone, and nothing in the proxy can reach the
    promise any more. *)
Definition expired (id : string) (promise : nat) (s : Proxy) : Prop :=
  settlements promise s = [Rejected "AI computation timeout"] ∧
  pendingRequests s !! id = None ∧
  (∀ id' r, pendingRequests s !! id' = Some r →
     resolve r ≠ promise ∧ reject r ≠ promise) ∧
  (∀ h' t, timers s !! h' = Some t → promiseOf t ≠ Some promise) ∧
  promise < nextPromise s ∧
  ∃ n, id = requestId n ∧ n < requestIdCounter s.

(** An event that leaves the request alone: not a reply for [id], not
    an error of the worker, and not its own timer [h]. *)
Definition quiet (id : string) (h : nat) (e : Event) : Prop :=
  match e with
  | WorkerMessage _ (AI_ACTION_RESULT (Some id') _)
  | WorkerMessage _ (AI_ERROR (Some id') _) => id' ≠ id
  | WorkerError _ => False
  | TimerFires h' => h' ≠ h
  | _ => True
  end.

End Proxy.

Arguments Proxy : clear implicits.
Arguments Request : clear implicits.
Arguments Message : clear implicits.
Arguments Timer : clear implicits.
Arguments Settlement : clear implicits.
Arguments Event : clear implicits.

End AIWorkerProxy.

(* ===================================================================== *)
(** ** A tournament of three bots on two workers *)
(* ===================================================================== *)

(** The states of one run of the pool, used as a running example: three
    matchups of one game each on a pool of two workers; the first matchup
    completes, the second fails, and the worker that has the third one
    reports an error. *)
Module Example.

Import ArenaWorkerPool.

Definition tasks : list (Arena.Task unit) :=
  Eval vm_compute in Arena.createTasks (λ _, tt) 3 1.

Definition game : Game.t := Game.mk 0 1 0 30 15 9.

Definition events : list Event :=
  [WorkerMessage 0 (GAME_COMPLETE "bot0_vs_bot1" game);
   WorkerMessage 0 (MATCHUP_COMPLETE "bot0_vs_bot1" [game]);
   WorkerMessage 1 (MATCHUP_ERROR "bot0_vs_bot2" "abort");
   WorkerError 0].

Definition s0 : Pool unit := Eval vm_compute in initialize (create 2).

Definition s1 : Pool unit := Eval vm_compute in (runTasks tasks true s0).1.

Definition s2 : Pool unit :=
  Eval vm_compute in
    stateOf (dispatch s1 (WorkerMessage 0 (GAME_COMPLETE "bot0_vs_bot1" game))).

Definition s3 : Pool unit :=
  Eval vm_compute in
    stateOf (dispatch s2 (WorkerMessage 0 (MATCHUP_COMPLETE "bot0_vs_bot1" [game]))).

Definition s4 : Pool unit :=
  Eval vm_compute in
    stateOf (dispatch s3 (WorkerMessage 1 (MATCHUP_ERROR "bot0_vs_bot2" "abort"))).

Definition s5 : Pool unit :=
  Eval vm_compute in stateOf (dispatch s4 (WorkerError 0)).

End Example.

(* ===================================================================== *)
(** ** One request through the proxy *)
(* ===================================================================== *)

(** The states of a proxy, used as a running example: the worker is
    started and reports [READY]; at time 100 a request is sent, to which
    no reply ever comes in time. *)
Module ProxyExample.

Import AIWorkerProxy.

Definition engine (debug : bool) (gameState : unit) (playerId : Z) : option unit :=
  Some tt.

Definition boot : list (Z * Event unit unit) :=
  [(0%Z, Initialize "wasm/splendor.js"); (5%Z, WorkerMessage 0 READY)].

Definition ready : Proxy unit unit :=
  Eval vm_compute in default create (steps engine true boot create).

Definition sent : Proxy unit unit :=
  Eval vm_compute in (getAIAction tt 1 (set_clock 100 ready)).1.

(** Progress and a change of difficulty while the request is waiting. *)
Definition waiting : list (Z * Event unit unit) :=
  [(200%Z, WorkerMessage 0 (PROGRESS 50)); (250%Z, SetDifficulty 1000)].

(** The reply comes after the timeout. *)
Definition late : list (Z * Event unit unit) :=
  [(30200%Z, WorkerMessage 0 (AI_ACTION_RESULT (Some "ai_request_0") tt))].

Definition timedOut : Proxy unit unit :=
  Eval vm_compute in
    default create
      (steps engine true (waiting ++ (30100%Z, TimerFires 1) :: late) sent).

(** The proxy is terminated while the request is waiting, and the timer
    of the request fires afterwards. *)
Definition terminatedEarly : Proxy unit unit :=
  Eval vm_compute in terminate (set_clock 300 sent).

Definition terminatedLate : Proxy unit unit :=
  Eval vm_compute in
    default create (step engine true 30100 (TimerFires 1) terminatedEarly).

End ProxyExample.

(* ===================================================================== *)
(** ** What the pool reports while a batch runs *)
(* ===================================================================== *)

Module PoolProgress.

Import ArenaWorkerPool.

(** The game results that the workers report, in the order of the
    [GAME_COMPLETE] messages. *)
Definition reported (evs : list Event) : list Game.t :=
  evs ≫= λ e,
    match e with
    | WorkerMessage _ (GAME_COMPLETE _ gameResult) => [gameResult]
    | _ => []
    end.

(** The calls [progressCallback(completedGames, totalGames, gameResult)]
    that these reports lead to when [completedGames] games were counted
    before them. *)
Definition calls (completedGames : nat) (totalGames : Z) (games : list Game.t)
    : list (nat * Z * Game.t) :=
  imap (λ k gameResult, (completedGames + S k, totalGames, gameResult)) games.

(** [tasks.reduce((sum, task) => sum + task.gamesPerMatchup, 0)] *)
Definition totalGamesOf {BotConfig} (tasks : list (Arena.Task BotConfig)) : Z :=
  foldl (λ sum task, (sum + Arena.gamesPerMatchup task)%Z) 0%Z tasks.

End PoolProgress.

(* ===================================================================== *)
(** ** [ArenaController]: the list of bots and the head-to-head query *)
(* ===================================================================== *)

Module ArenaController.

(** The weights of a custom bot, as the bot editor parses them. *)
Record Weights := mkWeights {
  vpWeights : list Js.float;
  gemWeights : list Js.float;
  demandMultiplier : Js.float;
  bonusMultiplier : Js.float;
  gemMultiplier : Js.float;
  winReward : Js.float;
  lossReward : Js.float
}.

(** An entry of [this.bots]; a property that the object does not have
    is [None] ([undefined]). *)
Record Bot := mkBot {
  name : string;
  isProfile : bool;
  profile : string;
  weights : option Weights;
  explorationParam : option Js.float;
  timeLimit : option Js.float
}.

(** The calls that the controller makes on the [ArenaWrapper] of the
    WASM module. *)
Inductive WrapperCall :=
  | Reset
  | AddBot (name : string) (weights : option Weights)
      (explorationParam : option Js.float) (timeLimit : option Js.float)
  | AddBotFromProfile (profile : string) (name : string).

(** The fields that the bot management and the queries on the results
    use; [arenaWrapper] is [null] or the wrapper, which is kept as the
    log of the calls made on it. *)
Record Controller := mkController {
  bots : list Bot;
  results : option Arena.Results;
  arenaWrapper : option (list WrapperCall)
}.

(** An exception. *)
Inductive Thrown := Error (message : string).

(** [new ArenaController(wasmInterface)] *)
Definition create : Controller :=
  {| bots := []; results := None; arenaWrapper := None |}.

(** [initialize()]; [available] is
    [this.wasm && this.wasm.module && this.wasm.module.ArenaWrapper]. *)
Definition initialize (available : bool) (s : Controller) : Controller :=
  if available
  then {| bots := bots s; results := results s; arenaWrapper := Some [] |}
  else s.

(** The call that registers a bot with the wrapper. *)
Definition registration (bot : Bot) : WrapperCall :=
  if isProfile bot then AddBotFromProfile (profile bot) (name bot)
  else AddBot (name bot) (weights bot) (explorationParam bot) (timeLimit bot).

Definition addBot (config : Bot) (s : Controller) : Thrown + Controller :=
  if bool_decide (8 ≤ length (bots s)) then inl (Error "Maximum 8 bots allowed")
  else
    inr {| bots := bots s ++ [config];
           results := results s;
           arenaWrapper := (λ log, log ++ [registration config]) <$> arenaWrapper s |}.

Definition rebuildWrapper (s : Controller) : Controller :=
  {| bots := bots s;
     results := results s;
     arenaWrapper :=
       (λ log, (log ++ [Reset]) ++ (registration <$> bots s)) <$> arenaWrapper s |}.

(** [removeBot(index)], for an integer [index]. *)
Definition removeBot (index : Z) (s : Controller) : Controller :=
  if bool_decide (0 ≤ index)%Z && bool_decide (index < Z.of_nat (length (bots s)))%Z then
    rebuildWrapper
      {| bots := delete (Z.to_nat index) (bots s);
         results := results s;
         arenaWrapper := arenaWrapper s |}
  else s.

(** [updateBot(index, config)], for an integer [index]. *)
Definition updateBot (index : Z) (config : Bot) (s : Controller) : Controller :=
  if bool_decide (0 ≤ index)%Z && bool_decide (index < Z.of_nat (length (bots s)))%Z then
    rebuildWrapper
      {| bots := <[Z.to_nat index := config]> (bots s);
         results := results s;
         arenaWrapper := arenaWrapper s |}
  else s.

(** What the bot editor and the bot list do to the controller; the
    editor catches the exception of [addBot] and shows its message. *)
Inductive Op :=
  | Add (config : Bot)
  | Remove (index : Z)
  | Update (index : Z) (config : Bot).

Definition perform (s : Controller) (op : Op) : Controller :=
  match op with
  | Add config =>
      match addBot config s with
      | inr s' => s'
      | inl _ => s
      end
  | Remove index => removeBot index s
  | Update index config => updateBot index config s
  end.

(** The bots that the wrapper holds: those added since it was created
    or last reset. *)
Definition registered (log : list WrapperCall) : list WrapperCall :=
  foldl (λ held call, match call with Reset => [] | _ => held ++ [call] end) [] log.

(** The wrapper holds the bots of the list, in their order. *)
Definition mirrored (s : Controller) : Prop :=
  ∀ log, arenaWrapper s = Some log → registered log = registration <$> bots s.

(** *** [getHeadToHead] *)

Record HeadToHead := mkHeadToHead {
  bot1Wins : nat;
  bot2Wins : nat;
  totalGames : nat
}.

(** The predicate of [this.results.matches.filter]. *)
Definition between (bot1Idx bot2Idx : nat) (m : Game.t) : bool :=
  (bool_decide (Game.bot1Index m = bot1Idx) && bool_decide (Game.bot2Index m = bot2Idx))
  || (bool_decide (Game.bot1Index m = bot2Idx) && bool_decide (Game.bot2Index m = bot1Idx)).

(** The body of [matches.forEach], on the pair [(bot1Wins, bot2Wins)]. *)
Definition tally (bot1Idx : nat) (wins : nat * nat) (m : Game.t) : nat * nat :=
  if bool_decide (Game.bot1Index m = bot1Idx) then
    if bool_decide (Game.winner m = 0%Z) then (S wins.1, wins.2) else (wins.1, S wins.2)
  else
    if bool_decide (Game.winner m = 0%Z) then (wins.1, S wins.2) else (S wins.1, wins.2).

Definition headToHead (games : list Game.t) (bot1Idx bot2Idx : nat) : HeadToHead :=
  let matches := List.filter (between bot1Idx bot2Idx) games in
  let wins := foldl (tally bot1Idx) (0, 0) matches in
  {| bot1Wins := wins.1; bot2Wins := wins.2; totalGames := length matches |}.

Definition getHeadToHead (bot1Idx bot2Idx : nat) (s : Controller) : option HeadToHead :=
  r ← results s; Some (headToHead (Arena.matches r) bot1Idx bot2Idx).

(** The record with the two bots exchanged. *)
Definition swap (h : HeadToHead) : HeadToHead :=
  {| bot1Wins := bot2Wins h; bot2Wins := bot1Wins h; totalGames := totalGames h |}.

(** The bots that bot [i] of [n] can meet. *)
Definition opponents (n i : nat) : list nat := filter (λ j, j ≠ i) (seq 0 n).

(** The sum of one column of the head-to-head records of bot [i]. *)
Definition against (column : HeadToHead → nat) (games : list Game.t) (n i : nat) : Z :=
  Z.of_nat (sum_list ((λ j, column (headToHead games i j)) <$> opponents n i)).

End ArenaController.

(* ===================================================================== *)
(** ** The proxy: what a request can count on *)
(* ===================================================================== *)

Module ProxyLife.

Import AIWorkerProxy.

Section Life.

Context {GameState Action : Type}.
Variable selectActionJSON : bool → GameState → Z → option Action.
Variable moduleAvailable : bool.

Local Abbreviation Proxy := (AIWorkerProxy.Proxy GameState Action).

(** The promise [promise] has the settlements [outcome] and is out of
    the reach of the proxy, but for the timer [holder] (a handle and the
    callback armed under it), if there is one: no entry of the table
    carries the promise or the handle, no other timer carries the
    promise, and the timer of the holder is armed and is not the timeout
    of an initialization. *)
Definition guarded (holder : option (nat * Timer GameState)) (outcome : list (Settlement Action))
    (promise : nat) (s : Proxy) : Prop :=
  settlements promise s = outcome ∧
  (∀ id r, pendingRequests s !! id = Some r →
     resolve r ≠ promise ∧ reject r ≠ promise ∧
     ∀ h t, holder = Some (h, t) → timeout r ≠ h) ∧
  (∀ h t, timers s !! h = Some t → promiseOf t = Some promise → holder = Some (h, t)) ∧
  (∀ h t, holder = Some (h, t) →
     timers s !! h = Some t ∧ initListener s ≠ Some h ∧ h < nextTimer s) ∧
  promise < nextPromise s.

(** The events that cannot be the firing of the timer of the holder. *)
Definition spares (holder : option (nat * Timer GameState)) (e : Event GameState Action)
    : Prop :=
  ∀ h t, holder = Some (h, t) → e ≠ TimerFires h.

(** The request [id] is in the table with the entry [r], its id is one
    that the proxy has handed out, and no timer but [h] is a timeout for
    this id. *)
Definition listed (id : string) (r : Pending) (h : nat) (s : Proxy) : Prop :=
  pendingRequests s !! id = Some r ∧
  (∀ h' due q, timers s !! h' = Some (RequestTimeout due id q) → h' = h) ∧
  ∃ n, id = requestId n ∧ n < requestIdCounter s.

(** An event that leaves the request in the table: it is [quiet], and it
    is not a call of [terminate]. *)
Definition undisturbed (id : string) (h : nat) (e : Event GameState Action) : Prop :=
  quiet id h e ∧ e ≠ Terminate.

(** The message with which a worker answers the request [id]:
    [AI_ACTION_RESULT] with the action, or [AI_ERROR] with the text of
    the error. *)
Definition answer (id : string) (st : Settlement Action) : Message Action :=
  match st with
  | Resolved action => AI_ACTION_RESULT (Some id) action
  | Rejected error => AI_ERROR (Some id) error
  end.

(** The ids of the [COMPUTE_AI_ACTION] messages posted so far, in the
    order of posting. *)
Definition requested (s : Proxy) : list string :=
  sent s ≫= λ m,
    match m.2 with
    | COMPUTE_AI_ACTION id _ _ _ _ => [id]
    | _ => []
    end.

(** Every call of [initialize] in the run that creates a worker finds
    the proxy without one.  Then no worker is replaced while it is
    alive, and the workers that can speak are, at each time, the current
    one. *)
Fixpoint unreplaced (evs : list (Z * Event GameState Action)) (s : Proxy) : Prop :=
  match evs with
  | [] => True
  | (now, e) :: evs =>
      (∀ wasmPath, e = Initialize wasmPath → useWorker s = true → worker s = None) ∧
      match step selectActionJSON moduleAvailable now e s with
      | Some s' => unreplaced evs s'
      | None => True
      end
  end.

(** What every state that the event loop reaches satisfies besides
    [wf]: the timeouts armed carry ids that were handed out, a proxy
    that is ready to use its worker has one, and the requests posted so
    far are [ai_request_0], [ai_request_1], ... in this order, one for
    every id handed out. *)
Definition orderly (s : Proxy) : Prop :=
  (∀ h due id q, timers s !! h = Some (RequestTimeout due id q) →
     ∃ n, id = requestId n ∧ n < requestIdCounter s) ∧
  (isReady s = true → useWorker s = true → is_Some (worker s)) ∧
  requested s = requestId <$> seq 0 (requestIdCounter s).

End Life.

End ProxyLife.

(* ===================================================================== *)
(** ** More requests through the proxy *)
(* ===================================================================== *)

(** The request of [ProxyExample] again, with other endings, and a proxy
    whose worker cannot load the engine. *)
Module ProxyLifeExample.

Import AIWorkerProxy.

(** The worker answers at time 300 and, by mistake, once more. *)
Definition twice : list (Z * Event unit unit) :=
  [(400%Z, WorkerMessage 0 (AI_ERROR (Some "ai_request_0") "late"))].

Definition answered : Proxy unit unit :=
  Eval vm_compute in
    default create
      (steps ProxyExample.engine true
         (ProxyExample.waiting
            ++ (300%Z, WorkerMessage 0 (AI_ACTION_RESULT (Some "ai_request_0") tt))
            :: twice)
         ProxyExample.sent).

(** The worker fails at time 300; the worker started in its place
    reports [READY]. *)
Definition restarted : list (Z * Event unit unit) :=
  [(400%Z, WorkerMessage 1 READY)].

Definition crashed : Proxy unit unit :=
  Eval vm_compute in
    default create
      (steps ProxyExample.engine true
         (ProxyExample.waiting ++ (300%Z, WorkerError 0) :: restarted)
         ProxyExample.sent).

(** The worker reports [ERROR] to [INIT], and the proxy falls back to
    the main thread. *)
Definition failedBoot : list (Z * Event unit unit) :=
  [(0%Z, Initialize "wasm/splendor.js"); (5%Z, WorkerMessage 0 (ERROR "no wasm"))].

Definition fallback : Proxy unit unit :=
  Eval vm_compute in
    default create (steps ProxyExample.engine true failedBoot create).

Definition computed : Proxy unit unit :=
  Eval vm_compute in
    default create
      (steps ProxyExample.engine true
         [(105%Z, SetDebugMode true); (110%Z, TimerFires 1)]
         (getAIAction tt 1 (set_clock 100 fallback)).1).

(** An engine that throws, and the same request when the fallback
    uses it. *)
Definition throwing (debug : bool) (gameState : unit) (playerId : Z) : option unit :=
  None.

Definition unanswered : Proxy unit unit :=
  Eval vm_compute in
    default create
      (steps throwing true [(110%Z, TimerFires 1)]
         (getAIAction tt 1 (set_clock 100 fallback)).1).

End ProxyLifeExample.

(* ===================================================================== *)
(** ** Paths of the WASM module *)
(* ===================================================================== *)

Module WasmPath.

(** [s.split(c)[0]]: the part of [s] before the first [c]. *)
Fixpoint before (c : ascii) (s : string) : string :=
  match s with
  | EmptyString => EmptyString
  | String a s' => if decide (a = c) then EmptyString else String a (before c s')
  end.

(** Whether [c] does not occur in [s]. *)
Fixpoint lacks (c : ascii) (s : string) : bool :=
  match s with
  | EmptyString => true
  | String a s' => negb (bool_decide (a = c)) && lacks c s'
  end.

(** [s.replace(/[^/]*$/, '')]: the pattern matches at the first position
    from which no ["/"] follows, up to the end, and the match is
    deleted. *)
Fixpoint dropLastSegment (s : string) : string :=
  if lacks "/" s then EmptyString
  else match s with
       | EmptyString => EmptyString
       | String a s' => String a (dropLastSegment s')
       end.

(** The arena worker: [data.wasmPath.split('?')[0].replace(/[^/]*$/, '')] *)
Definition wasmBase (wasmPath : string) : string :=
  dropLastSegment (before "?" wasmPath).

(** The [locateFile] of the arena worker. *)
Definition locateArenaFile (wasmBase path : string) : string := wasmBase +:+ path.

(** [s.lastIndexOf(c)], with [None] for [-1]. *)
Fixpoint lastIndexOf (c : ascii) (s : string) : option nat :=
  match s with
  | EmptyString => None
  | String a s' =>
      match lastIndexOf c s' with
      | Some i => Some (S i)
      | None => if decide (a = c) then Some 0 else None
      end
  end.

(** The AI worker: [lastSlash >= 0 ? wasmPath.substring(0, lastSlash + 1) : ''] *)
Definition wasmDir (wasmPath : string) : string :=
  match lastIndexOf "/" wasmPath with
  | Some lastSlash => String.substring 0 (lastSlash + 1) wasmPath
  | None => EmptyString
  end.

(** [s.endsWith(suffix)] *)
Fixpoint endsWith (suffix s : string) : bool :=
  bool_decide (s = suffix)
  || match s with
     | EmptyString => false
     | String _ s' => endsWith suffix s'
     end.

(** The [locateFile] of the AI worker. *)
Definition locateFile (wasmPath path prefix : string) : string :=
  if endsWith ".wasm" path then ("../" +:+ wasmDir wasmPath) +:+ path
  else prefix +:+ path.

End WasmPath.

(* ===================================================================== *)
(** ** The AI worker *)
(* ===================================================================== *)

Module AIWorker.

Inductive Difficulty := EASY | MEDIUM | HARD.

(** [Math.round]: the integer nearest to [x], the larger one of two that
    are equally near. *)
Definition round (x : Js.float) : Js.float :=
  match x with
  | S754_finite s m (Zneg p) =>
      let n := (((if s then - Zpos m else Zpos m) * 2 + 2 ^ Zpos p)
                / 2 ^ (Zpos p + 1))%Z in
      if bool_decide (n = 0%Z) then S754_zero s
      else binary_normalize Js.prec Js.emax n 0 false
  | _ => x
  end.

(** A number in a condition: [0], [-0] and [NaN] count as false. *)
Definition truthy (x : Js.float) : bool :=
  match x with
  | S754_zero _ | S754_nan => false
  | _ => true
  end.

(** [x === y] on numbers. *)
Definition same (x y : Js.float) : bool :=
  match SFcompare x y with
  | Some Eq => true
  | _ => false
  end.

Section Worker.

Context {GameState Action Engine : Type}.

(** The WASM module.  [loadEngine scriptPath locateFile] stands for
    [importScripts], the check of [Module], the call [Module({locateFile})]
    and [new AIEngine(HARD)]: the message of the exception, or the
    engine.  [selectAction debug] is [selectActionJSONDebug] or
    [selectActionJSON], with [JSON.stringify] before and [JSON.parse]
    after it. *)
Variable loadEngine : string → (string → string → string) → string + Engine.
Variable setDifficulty : Difficulty → Engine → Engine.
Variable setIterationLimit : Z → Engine → Engine.
Variable setTimeLimit : Js.float → Engine → Engine.
Variable setDebugMode : bool → Engine → Engine.
Variable selectAction : bool → GameState → Z → Engine → Engine * (string + Action).
Variable getLastIterationCount : Engine → Z.

(** The variables of the worker script; [aiEngine] is [null] until the
    module is loaded. *)
Record Worker := mkWorker {
  aiEngine : option Engine;
  isInitialized : bool;
  currentDifficulty : Z;
  currentTimeLimit : Js.float;
  debugMode : bool
}.

Definition start : Worker :=
  {| aiEngine := None;
     isInitialized := false;
     currentDifficulty := 500000;
     currentTimeLimit := AIWorkerProxy.defaultTimeLimit;
     debugMode := false |}.

(** What the worker posts to the main thread. *)
Inductive Reply :=
  | READY
  | ERROR (error : string)
  | AI_ACTION_RESULT (id : string) (action : Action) (iterations : Z) (timeMs : Z)
  | AI_ERROR (id : option string) (error : string).

(** The engine of an initialized worker. *)
Definition withEngine (f : Engine → Engine) (k : Worker) : Worker :=
  {| aiEngine := f <$> aiEngine k;
     isInitialized := isInitialized k;
     currentDifficulty := currentDifficulty k;
     currentTimeLimit := currentTimeLimit k;
     debugMode := debugMode k |}.

Definition handleInit (wasmPath : string) (k : Worker) : Worker * list Reply :=
  match loadEngine ("../" +:+ wasmPath) (WasmPath.locateFile wasmPath) with
  | inr engine =>
      ({| aiEngine := Some engine;
          isInitialized := true;
          currentDifficulty := currentDifficulty k;
          currentTimeLimit := currentTimeLimit k;
          debugMode := debugMode k |}, [READY])
  | inl error => (k, [ERROR error])
  end.

Definition difficultyOf (difficulty : Z) : Difficulty :=
  if bool_decide (difficulty ≤ 100)%Z then EASY
  else if bool_decide (difficulty ≤ 1000)%Z then MEDIUM
  else HARD.

Definition handleSetDifficulty (difficulty : Z) (k : Worker) : Worker :=
  if negb (isInitialized k) then k
  else
    withEngine (λ e, setIterationLimit difficulty (setDifficulty (difficultyOf difficulty) e))
      {| aiEngine := aiEngine k;
         isInitialized := isInitialized k;
         currentDifficulty := difficulty;
         currentTimeLimit := currentTimeLimit k;
         debugMode := debugMode k |}.

Definition handleSetTimeLimit (timeLimit : Js.float) (k : Worker) : Worker :=
  if negb (isInitialized k) then k
  else
    withEngine (setTimeLimit (round (Js.fmul timeLimit (Js.ofZ 1000))))
      {| aiEngine := aiEngine k;
         isInitialized := isInitialized k;
         currentDifficulty := currentDifficulty k;
         currentTimeLimit := timeLimit;
         debugMode := debugMode k |}.

Definition handleSetDebugMode (enabled : bool) (k : Worker) : Worker :=
  if negb (isInitialized k) then k
  else
    withEngine (setDebugMode enabled)
      {| aiEngine := aiEngine k;
         isInitialized := isInitialized k;
         currentDifficulty := currentDifficulty k;
         currentTimeLimit := currentTimeLimit k;
         debugMode := enabled |}.

(** The settings that a request brings along are adopted before the
    engine is asked. *)
Definition adopt (difficulty : Z) (timeLimit : Js.float) (k : Worker) : Worker :=
  let k1 := if bool_decide (difficulty ≠ 0%Z)
               && bool_decide (difficulty ≠ currentDifficulty k)
            then handleSetDifficulty difficulty k else k in
  if truthy timeLimit && negb (same timeLimit (currentTimeLimit k1))
  then handleSetTimeLimit timeLimit k1 else k1.

(** [handleComputeAction(message)]; [startTime] and [endTime] are the
    two readings of [Date.now()].  [inl] is the exception that the
    function throws to [onmessage]. *)
Definition handleComputeAction (id : string) (gameState : GameState) (playerId : Z)
    (difficulty : Z) (timeLimit : Js.float) (startTime endTime : Z) (k : Worker)
    : string + Worker * list Reply :=
  if negb (isInitialized k) then inl "Worker not initialized"
  else
    let k1 := adopt difficulty timeLimit k in
    match aiEngine k1 with
    | None => inr (k1, [AI_ERROR (Some id) "TypeError"])
    | Some engine =>
        match selectAction (debugMode k1) gameState playerId engine with
        | (engine', inr action) =>
            inr (withEngine (λ _, engine') k1,
                 [AI_ACTION_RESULT id action (getLastIterationCount engine')
                    (endTime - startTime)])
        | (engine', inl error) =>
            inr (withEngine (λ _, engine') k1, [AI_ERROR (Some id) error])
        end
    end.

(** [self.onmessage] for the messages that the proxy posts. *)
Definition onmessage (m : AIWorkerProxy.Request GameState) (startTime endTime : Z)
    (k : Worker) : Worker * list Reply :=
  match m with
  | AIWorkerProxy.INIT wasmPath => handleInit wasmPath k
  | AIWorkerProxy.COMPUTE_AI_ACTION id gameState playerId difficulty timeLimit =>
      match handleComputeAction id gameState playerId difficulty timeLimit
              startTime endTime k with
      | inr result => result
      | inl error => (k, [AI_ERROR (Some id) error])
      end
  | AIWorkerProxy.SET_DIFFICULTY difficulty => (handleSetDifficulty difficulty k, [])
  | AIWorkerProxy.SET_TIME_LIMIT timeLimit => (handleSetTimeLimit timeLimit k, [])
  | AIWorkerProxy.SET_DEBUG_MODE enabled => (handleSetDebugMode enabled k, [])
  end.

(** The message as the proxy reads it: the statistics are only logged. *)
Definition deliver (r : Reply) : AIWorkerProxy.Message Action :=
  match r with
  | READY => AIWorkerProxy.READY
  | ERROR error => AIWorkerProxy.ERROR error
  | AI_ACTION_RESULT id action _ _ => AIWorkerProxy.AI_ACTION_RESULT (Some id) action
  | AI_ERROR id error => AIWorkerProxy.AI_ERROR id error
  end.

(** What the engine answers with turns into this settlement of the
    promise. *)
Definition settlementOf (answer : string + Action) : AIWorkerProxy.Settlement Action :=
  match answer with
  | inr action => AIWorkerProxy.Resolved action
  | inl error => AIWorkerProxy.Rejected error
  end.

End Worker.

Arguments Worker : clear implicits.
Arguments Reply : clear implicits.

End AIWorker.

(* ===================================================================== *)
(** ** A worker for the request of the example *)
(* ===================================================================== *)

(** A worker whose engine loads and selects the one action there is, and
    the proxy of [ProxyExample] after the answer of this worker. *)
Module AIWorkerExample.

Definition loadEngine (scriptPath : string) (locateFile : string → string → string)
    : string + unit := inr tt.

Definition selectAction (debug : bool) (gameState : unit) (playerId : Z) (engine : unit)
    : unit * (string + unit) := (engine, inr tt).

Definition onmessage :=
  AIWorker.onmessage (GameState := unit) loadEngine (λ _ e, e) (λ _ e, e) (λ _ e, e)
    (λ _ e, e) selectAction (λ _, 1000%Z).

Definition worker : AIWorker.Worker unit :=
  Eval vm_compute in
    (onmessage (AIWorkerProxy.INIT "wasm/splendor.js") 0 0 AIWorker.start).1.

Definition settled : AIWorkerProxy.Proxy unit unit :=
  Eval vm_compute in
    default AIWorkerProxy.create
      (AIWorkerProxy.step ProxyExample.engine true 300
         (AIWorkerProxy.WorkerMessage 0
            (AIWorkerProxy.AI_ACTION_RESULT (Some "ai_request_0") tt))
         ProxyExample.sent).

End AIWorkerExample.

(* ===================================================================== *)
(** * The game controller

    [src/js/game_controller.js], the version of the class that keeps the
    state history.  The controller is modelled once the WASM module is
    loaded.  The engine behind [this.wasm] is a value of a type [Engine]
    with the operations that the controller calls; the calls on
    [this.ui] and [this.aiProxy] draw and schedule and change no field
    of the controller, so they are left out.  The counts of the game
    state are the integers that the engine writes.

    A function that reads the state returns [None] where the JS throws a
    [TypeError] (a property of [null] or [undefined] is read).  A handler
    returns the controller as it leaves it, also when it is left by a
    [TypeError]. *)

Module GameController.

(** The names of the colours, as the UI passes them to the handlers. *)
Inductive GemColor := WHITE | BLUE | GREEN | RED | BLACK | GOLD.

#[global] Instance GemColor_eq_dec : EqDecision GemColor.
Proof. solve_decision. Defined.

(** The comparisons [>] and [>=] of lengths are decided as [<] and [<=]. *)
#[export] Instance nat_gt_dec : RelDecision gt := λ x y, decide (y < x).
#[export] Instance nat_ge_dec : RelDecision ge := λ x y, decide (y ≤ x).

(** An object with a number for each colour: [gems], [bonuses], [cost],
    [gemPool] and a payment. *)
Record Gems := mkGems {
  white : Z;
  blue : Z;
  green : Z;
  red : Z;
  black : Z;
  gold : Z
}.

(** [gems[color]], for the lower-case name of [color]. *)
Definition count (g : Gems) (color : GemColor) : Z :=
  match color with
  | WHITE => white g
  | BLUE => blue g
  | GREEN => green g
  | RED => red g
  | BLACK => black g
  | GOLD => gold g
  end.

(** [payment[color] = n]. *)
Definition setCount (color : GemColor) (n : Z) (g : Gems) : Gems :=
  match color with
  | WHITE => mkGems n (blue g) (green g) (red g) (black g) (gold g)
  | BLUE => mkGems (white g) n (green g) (red g) (black g) (gold g)
  | GREEN => mkGems (white g) (blue g) n (red g) (black g) (gold g)
  | RED => mkGems (white g) (blue g) (green g) n (black g) (gold g)
  | BLACK => mkGems (white g) (blue g) (green g) (red g) n (gold g)
  | GOLD => mkGems (white g) (blue g) (green g) (red g) (black g) n
  end.

(** [['white', 'blue', 'green', 'red', 'black']]. *)
Definition colors : list GemColor := [WHITE; BLUE; GREEN; RED; BLACK].

Definition emptyPayment : Gems := mkGems 0 0 0 0 0 0.

(** The fields of a card, of a player and of the state that the
    controller reads. *)
Record Card := mkCard {
  id : Z;
  tier : Z;
  cost : Gems
}.

Record Player := mkPlayer {
  gems : Gems;
  bonuses : Gems;
  reservedCards : list Card;
  isHuman : bool
}.

Record GameState := mkGameState {
  players : list Player;
  currentPlayerIndex : nat;
  gemPool : Gems;
  visibleCards : list (list Card)
}.

Inductive ActionType :=
  | TAKE_2_SAME
  | TAKE_3_DIFFERENT
  | TAKE_2_DIFFERENT
  | TAKE_SINGLE
  | RESERVE_CARD
  | PURCHASE_CARD
  | PURCHASE_RESERVED.

(** An action object; [taken] is its [gems]. *)
Record Action := mkAction {
  type : ActionType;
  taken : list GemColor;
  cardId : Z;
  cardTier : Z;
  fromReserved : bool;
  payment : Gems
}.

(** ** Paying for a card *)

(** [Math.max(0, cost[color] - bonuses[color])]. *)
Definition needed (player : Player) (card : Card) (color : GemColor) : Z :=
  Z.max 0 (count (cost card) color - count (bonuses player) color).

Definition canAfford (player : Player) (card : Card) : bool :=
  let goldNeeded :=
    foldl (λ goldNeeded color,
             if bool_decide (needed player card color > count (gems player) color)%Z
             then (goldNeeded + (needed player card color - count (gems player) color))%Z
             else goldNeeded)
          0%Z colors in
  bool_decide (gold (gems player) >= goldNeeded)%Z.

Definition calculatePayment (player : Player) (card : Card) : Gems :=
  let '(payment, goldNeeded) :=
    foldl (λ '(payment, goldNeeded) color,
             if bool_decide (needed player card color > 0)%Z then
               if bool_decide (count (gems player) color >= needed player card color)%Z
               then (setCount color (needed player card color) payment, goldNeeded)
               else (setCount color (count (gems player) color) payment,
                     (goldNeeded + (needed player card color - count (gems player) color))%Z)
             else (payment, goldNeeded))
          (emptyPayment, 0%Z) colors in
  setCount GOLD goldNeeded payment.

(** [player.reservedCards.find(c => c.id === id)]. *)
Definition findReservedCard (player : Player) (cardId : Z) : option Card :=
  find (λ c, bool_decide (id c = cardId)) (reservedCards player).

(** ** The selected gems *)

(** [selectedGems.filter(c => c === color).length]. *)
Definition countOf (color : GemColor) (selected : list GemColor) : nat :=
  length (filter (λ c, c = color) selected).

(** The object [counts]: its keys are the colours of [selected], its
    values the number of times each one is there. *)
Definition counts (selected : list GemColor) : list (GemColor * nat) :=
  (λ c, (c, countOf c selected)) <$> remove_dups selected.

(** [Object.keys(counts).length]. *)
Definition unique (selected : list GemColor) : nat :=
  length (counts selected).

(** [Object.values(counts).some(c => c >= 2)]. *)
Definition hasTwoSame (selected : list GemColor) : bool :=
  existsb (λ '(_, c), bool_decide (c ≥ 2)) (counts selected).

(** [index = indexOf(color); if (index >= 0) splice(index, 1)]. *)
Fixpoint spliceFirst (color : GemColor) (selected : list GemColor) : list GemColor :=
  match selected with
  | [] => []
  | c :: rest => if decide (c = color) then rest else c :: spliceFirst color rest
  end.

(** What [onGemClick] makes of [selectedGems]. *)
Definition clicked (color : GemColor) (selected : list GemColor) : list GemColor :=
  if bool_decide (countOf color selected > 0) then spliceFirst color selected
  else if hasTwoSame selected then [color]
  else if bool_decide (length selected < 3) then selected ++ [color]
  else selected.

(** An action that takes gems. *)
Definition takeGems (type : ActionType) (selected : list GemColor) : Action :=
  mkAction type selected 0 0 false emptyPayment.

Section Controller.

Context {Engine : Type}.

(** The engine: [initGame], [getGameState] (with the [JSON.parse]),
    [executeAction] and [discardGem] (the engine after the call and what
    the call returns; [discardGem] is given the colour, the player is
    the one that the engine names), and [setStateFromJSON] on the text
    of a saved state. *)
Variable initGame : nat → Engine → Engine.
Variable getGameState : Engine → GameState.
Variable executeAction : Action → Engine → Engine * bool.
Variable setStateFromJSON : option GameState → Engine → Engine.
Variable discardGem : GemColor → Engine → Engine * bool.

(** [selectedCard] and [selectedReservedCard] are [null] or an object
    with an [id]; an entry of [stateHistory] is the copy of [state] at
    the time, [null] as [None]. *)
Record Controller := mkController {
  wasm : Engine;
  state : option GameState;
  selectedGems : list GemColor;
  selectedCard : option Z;
  selectedCardTier : Z;
  selectedReservedCard : option Z;
  actionType : option string;
  stateHistory : list (option GameState);
  maxHistorySize : nat
}.

Definition constructor (engine : Engine) : Controller :=
  mkController engine None [] None 0 None None [] 50.

Definition set_wasm (e : Engine) (s : Controller) : Controller :=
  mkController e (state s) (selectedGems s) (selectedCard s) (selectedCardTier s)
    (selectedReservedCard s) (actionType s) (stateHistory s) (maxHistorySize s).

Definition set_state (st : option GameState) (s : Controller) : Controller :=
  mkController (wasm s) st (selectedGems s) (selectedCard s) (selectedCardTier s)
    (selectedReservedCard s) (actionType s) (stateHistory s) (maxHistorySize s).

Definition set_stateHistory (h : list (option GameState)) (s : Controller) : Controller :=
  mkController (wasm s) (state s) (selectedGems s) (selectedCard s) (selectedCardTier s)
    (selectedReservedCard s) (actionType s) h (maxHistorySize s).

(** The fields of the selection, written together. *)
Definition select (selected : list GemColor) (card : option Z) (cardTier : Z)
    (reserved : option Z) (kind : option string) (s : Controller) : Controller :=
  mkController (wasm s) (state s) selected card cardTier reserved kind
    (stateHistory s) (maxHistorySize s).

Definition clearSelection (s : Controller) : Controller :=
  select [] None (selectedCardTier s) None None s.

(** [this.state.players[this.state.currentPlayerIndex]]. *)
Definition currentPlayer (st : GameState) : option Player :=
  players st !! currentPlayerIndex st.

(** [this.state && player.isHuman]: [null] counts as false. *)
Definition isHumanTurn (s : Controller) : option bool :=
  match state s with
  | None => Some false
  | Some st => isHuman <$> currentPlayer st
  end.

(** [updateState]; the gem discard dialog that it may open is drawn from
    the new state, for the player that the engine names, who is taken to
    be one of its players. *)
Definition updateState (s : Controller) : Controller :=
  set_state (Some (getGameState (wasm s))) s.

(** ** The history *)

Definition saveStateToHistory (s : Controller) : Controller :=
  let pushed := stateHistory s ++ [state s] in
  set_stateHistory
    (if bool_decide (length pushed > maxHistorySize s) then tail pushed else pushed) s.

Definition canUnwind (s : Controller) : option bool :=
  if bool_decide (length (stateHistory s) > 0) then isHumanTurn s else Some false.

Definition unwindAction (s : Controller) : Controller :=
  match canUnwind s with
  | Some true =>
      match last (stateHistory s) with
      | Some previousState =>
          let s1 := set_stateHistory (removelast (stateHistory s)) s in
          let s2 := set_wasm (setStateFromJSON previousState (wasm s1)) s1 in
          clearSelection (updateState s2)
      | None => s
      end
  | _ => s
  end.

(** [executePlayerAction] up to its [await]; after it the function only
    returns. *)
Definition executePlayerAction (action : Action) (s : Controller) : Controller :=
  match isHumanTurn s with
  | None => s
  | Some human =>
      let s1 := if human then saveStateToHistory s else s in
      let '(engine, success) := executeAction action (wasm s1) in
      let s2 := set_wasm engine s1 in
      if success then clearSelection (updateState s2)
      else
        match isHumanTurn s2 with
        | Some true =>
            if bool_decide (length (stateHistory s2) > 0)
            then set_stateHistory (removelast (stateHistory s2)) s2
            else s2
        | _ => s2
        end
  end.

(** The end of [executeAITurn], when the proxy has answered with
    [action] and the animation is over. *)
Definition executeAITurn (action : Action) (s : Controller) : Controller :=
  updateState (set_wasm (executeAction action (wasm s)).1 s).

Definition startNewGame (firstPlayerIndex : nat) (s : Controller) : Controller :=
  updateState (set_stateHistory [] (set_wasm (initGame firstPlayerIndex (wasm s)) s)).

Definition onDiscardGem (colorName : GemColor) (s : Controller) : Controller :=
  let '(engine, success) := discardGem colorName (wasm s) in
  if success then updateState (set_wasm engine s) else set_wasm engine s.

(** ** What is selected, and the action it stands for *)

(** [findCard]: [Some None] is [null]. *)
Fixpoint findCardIn (visible : list (list Card)) (cardId : Z) (tiers : list nat)
    : option (option Card) :=
  match tiers with
  | [] => Some None
  | tier :: rest =>
      row ← visible !! tier;
      match find (λ c, bool_decide (id c = cardId)) row with
      | Some card => Some (Some card)
      | None => findCardIn visible cardId rest
      end
  end.

Definition findCard (cardId : Z) (s : Controller) : option (option Card) :=
  st ← state s;
  findCardIn (visibleCards st) cardId [0; 1; 2].

Definition countAvailableGemColors (s : Controller) : option nat :=
  st ← state s;
  Some (length (filter (λ color, (count (gemPool st) color > 0)%Z) colors)).

(** [canAfford(player, card)] on what the lookups gave: [player] may be
    [undefined], [card] may be [null] or [undefined]. *)
Definition affordable (player : option Player) (card : option Card) : option bool :=
  card ← card;
  player ← player;
  Some (canAfford player card).

Definition isActionReady (s : Controller) : option bool :=
  if bool_decide (length (selectedGems s) > 0) then
    availableColors ← countAvailableGemColors s;
    let unique := unique (selectedGems s) in
    Some
      (if bool_decide (unique = 1 ∧ length (selectedGems s) = 2) then true
       else if bool_decide (unique = 3 ∧ length (selectedGems s) = 3) then true
       else if bool_decide (unique = 2 ∧ length (selectedGems s) = 2 ∧ availableColors = 2)
       then true
       else if bool_decide (unique = 1 ∧ length (selectedGems s) = 1 ∧ availableColors = 1)
       then true
       else false)
  else
    match selectedCard s, selectedReservedCard s with
    | Some _, _ => Some true
    | None, Some cardId =>
        st ← state s;
        player ← currentPlayer st;
        affordable (Some player) (findReservedCard player cardId)
    | None, None => Some false
    end.

Definition getActionDescription (s : Controller) : option string :=
  if bool_decide (length (selectedGems s) > 0) then
    availableColors ← countAvailableGemColors s;
    let unique := unique (selectedGems s) in
    Some
      (if bool_decide (unique = 1 ∧ length (selectedGems s) = 2) then "Take 2 Same"
       else if bool_decide (unique = 3 ∧ length (selectedGems s) = 3) then "Take 3 Different"
       else if bool_decide (unique = 2 ∧ length (selectedGems s) = 2 ∧ availableColors = 2)
       then "Take 2 Different"
       else if bool_decide (unique = 1 ∧ length (selectedGems s) = 1 ∧ availableColors = 1)
       then "Take Single"
       else "Invalid Selection")
  else
    match selectedCard s, selectedReservedCard s with
    | Some cardId, _ =>
        if bool_decide (cardId = -1)%Z then Some "Reserve from Deck"
        else
          st ← state s;
          card ← findCard cardId s;
          purchase ← affordable (currentPlayer st) card;
          Some (if purchase : bool then "Purchase Card" else "Reserve Card")
    | None, Some _ => Some "Purchase Reserved"
    | None, None => Some ""
    end.

(** The variable [action] of [onConfirmAction] when the selection has
    been read: [Some None] is [null]. *)
Definition actionOf (s : Controller) : option (option Action) :=
  if bool_decide (length (selectedGems s) > 0) then
    let unique := unique (selectedGems s) in
    Some
      (if bool_decide (unique = 1 ∧ length (selectedGems s) = 2)
       then Some (takeGems TAKE_2_SAME (selectedGems s))
       else if bool_decide (unique = 3 ∧ length (selectedGems s) = 3)
       then Some (takeGems TAKE_3_DIFFERENT (selectedGems s))
       else if bool_decide (unique = 2 ∧ length (selectedGems s) = 2)
       then Some (takeGems TAKE_2_DIFFERENT (selectedGems s))
       else if bool_decide (unique = 1 ∧ length (selectedGems s) = 1)
       then Some (takeGems TAKE_SINGLE (selectedGems s))
       else None)
  else
    match selectedCard s, selectedReservedCard s with
    | Some cardId, _ =>
        if bool_decide (cardId = -1)%Z
        then Some (Some (mkAction RESERVE_CARD [] (-1) (selectedCardTier s) false emptyPayment))
        else
          st ← state s;
          card ← findCard cardId s;
          card ← card;
          player ← currentPlayer st;
          Some (Some
            (if canAfford player card
             then mkAction PURCHASE_CARD [] cardId (selectedCardTier s) false
                    (calculatePayment player card)
             else mkAction RESERVE_CARD [] cardId (selectedCardTier s) false emptyPayment))
    | None, Some cardId =>
        st ← state s;
        player ← currentPlayer st;
        card ← findReservedCard player cardId;
        Some
          (if canAfford player card
           then Some (mkAction PURCHASE_RESERVED [] cardId (tier card) true
                        (calculatePayment player card))
           else None)
    | None, None => Some None
    end.

Definition onConfirmAction (s : Controller) : Controller :=
  match isHumanTurn s with
  | Some true =>
      match actionOf s with
      | Some (Some action) => executePlayerAction action s
      | _ => s
      end
  | _ => s
  end.

(** [instant] is the state of the check box for instant actions. *)
Definition checkInstantAction (instant : bool) (s : Controller) : Controller :=
  if instant then
    match isActionReady s with
    | Some true => onConfirmAction s
    | _ => s
    end
  else s.

(** ** The handlers of the clicks *)

Definition onGemClick (instant : bool) (color : GemColor) (s : Controller) : Controller :=
  match isHumanTurn s with
  | Some true =>
      checkInstantAction instant
        (select (clicked color (selectedGems s)) None (selectedCardTier s) None
           (Some "TAKE_GEMS") s)
  | _ => s
  end.

Definition onGemDoubleClick (instant : bool) (color : GemColor) (s : Controller)
    : Controller :=
  match isHumanTurn s, state s with
  | Some true, Some st =>
      if bool_decide (count (gemPool st) color < 4)%Z then
        if bool_decide (color ∈ selectedGems s) then s else onGemClick instant color s
      else
        checkInstantAction instant
          (select [color; color] None (selectedCardTier s) None (Some "TAKE_GEMS") s)
  | _, _ => s
  end.

Definition onCardClick (instant : bool) (cardId tier : Z) (s : Controller) : Controller :=
  match isHumanTurn s with
  | Some true =>
      checkInstantAction instant
        (if bool_decide (selectedCard s = Some cardId)
         then select (selectedGems s) None (selectedCardTier s) (selectedReservedCard s) None s
         else select [] (Some cardId) tier None (Some "CARD_SELECTED") s)
  | _ => s
  end.

Definition onDeckClick (instant : bool) (tier : Z) (s : Controller) : Controller :=
  match isHumanTurn s, state s ≫= currentPlayer with
  | Some true, Some player =>
      if bool_decide (length (reservedCards player) ≥ 3) then s
      else
        checkInstantAction instant
          (if bool_decide (selectedCard s = Some (-1)%Z ∧ selectedCardTier s = tier)
           then select (selectedGems s) None (selectedCardTier s) (selectedReservedCard s)
                  None s
           else select [] (Some (-1)%Z) tier None (Some "DECK_SELECTED") s)
  | _, _ => s
  end.

Definition onReservedCardClick (instant : bool) (cardId : Z) (s : Controller)
    : Controller :=
  match isHumanTurn s, state s ≫= currentPlayer with
  | Some true, Some player =>
      if existsb (λ c, bool_decide (id c = cardId)) (reservedCards player) then
        checkInstantAction instant
          (if bool_decide (selectedReservedCard s = Some cardId)
           then select (selectedGems s) (selectedCard s) (selectedCardTier s) None None s
           else select [] None (selectedCardTier s) (Some cardId)
                  (Some "RESERVED_SELECTED") s)
      else s
  | _, _ => s
  end.

Definition onCancelAction (s : Controller) : Controller := clearSelection s.

(** ** A session *)

(** What can happen to the controller: a click of the user, with the
    state of the check box for instant actions at the time, or the answer
    of the AI. *)
Inductive Event :=
  | GemClick (color : GemColor)
  | GemDoubleClick (color : GemColor)
  | CardClick (cardId tier : Z)
  | DeckClick (tier : Z)
  | ReservedCardClick (cardId : Z)
  | ConfirmAction
  | CancelAction
  | UnwindAction
  | NewGame (firstPlayerIndex : nat)
  | DiscardGem (colorName : GemColor)
  | AITurn (action : Action).

Definition handle (instant : bool) (e : Event) (s : Controller) : Controller :=
  match e with
  | GemClick color => onGemClick instant color s
  | GemDoubleClick color => onGemDoubleClick instant color s
  | CardClick cardId tier => onCardClick instant cardId tier s
  | DeckClick tier => onDeckClick instant tier s
  | ReservedCardClick cardId => onReservedCardClick instant cardId s
  | ConfirmAction => onConfirmAction s
  | CancelAction => onCancelAction s
  | UnwindAction => unwindAction s
  | NewGame firstPlayerIndex => startNewGame firstPlayerIndex s
  | DiscardGem colorName => onDiscardGem colorName s
  | AITurn action => executeAITurn action s
  end.

Definition session (events : list (bool * Event)) (s : Controller) : Controller :=
  foldl (λ s '(instant, e), handle instant e s) s events.

End Controller.

(** What follows an action of the user without a click on the board:
    the gems that are given back, and the turns of the AI. *)
Definition follows (e : Event) : bool :=
  match e with
  | DiscardGem _ | AITurn _ => true
  | _ => false
  end.

(** The label that names an action. *)
Definition label (action : Action) : string :=
  match type action with
  | TAKE_2_SAME => "Take 2 Same"
  | TAKE_3_DIFFERENT => "Take 3 Different"
  | TAKE_2_DIFFERENT => "Take 2 Different"
  | TAKE_SINGLE => "Take Single"
  | RESERVE_CARD =>
      if bool_decide (cardId action = -1)%Z then "Reserve from Deck" else "Reserve Card"
  | PURCHASE_CARD => "Purchase Card"
  | PURCHASE_RESERVED => "Purchase Reserved"
  end.

(** A selection of gems as the handlers leave it: up to three different
    colours, or one colour twice. *)
Definition tidy (selected : list GemColor) : Prop :=
  (NoDup selected ∧ length selected ≤ 3) ∨ ∃ color, selected = [color; color].

(** At most one of the gems, a card and a reserved card is selected. *)
Definition single {Engine} (s : @Controller Engine) : Prop :=
  (selectedGems s ≠ [] → selectedCard s = None ∧ selectedReservedCard s = None) ∧
  (is_Some (selectedCard s) → selectedReservedCard s = None).

End GameController.

(** A table of two, the user and the AI, and an engine that is the state
    of the game: it refuses to reserve a card and passes the turn on
    every other action. *)
Module GameControllerExample.

Import GameController.

Definition user : Player :=
  mkPlayer (mkGems 1 0 2 0 0 1) (mkGems 0 1 0 0 0 0) [mkCard 7 1 (mkGems 0 0 0 2 0 0)] true.

Definition opponent : Player :=
  mkPlayer emptyPayment emptyPayment [] false.

Definition card : Card := mkCard 4 0 (mkGems 2 1 1 0 0 0).

Definition table (turn : nat) : GameState :=
  mkGameState [user; opponent] turn (mkGems 4 4 4 4 4 5) [[card]; []; []].

Definition initGame (firstPlayerIndex : nat) (_ : GameState) : GameState :=
  table firstPlayerIndex.

Definition getGameState (engine : GameState) : GameState := engine.

Definition executeAction (action : Action) (engine : GameState) : GameState * bool :=
  match type action with
  | RESERVE_CARD => (engine, false)
  | _ =>
      (mkGameState (players engine) (1 - currentPlayerIndex engine) (gemPool engine)
         (visibleCards engine), true)
  end.

Definition setStateFromJSON (saved : option GameState) (engine : GameState) : GameState :=
  default engine saved.

Definition discardGem (_ : GemColor) (engine : GameState) : GameState * bool :=
  (engine, false).

(** The controller when a game has begun with the user, and when the
    user has selected the card on the table. *)
Definition begun : Controller :=
  Eval vm_compute in
    startNewGame initGame getGameState 0 (constructor (table 0)).

Definition chosen : Controller :=
  Eval vm_compute in
    onCardClick getGameState executeAction false 4 0 begun.

End GameControllerExample.

(* ===================================================================== *)
(** * Properties *)
(* ===================================================================== *)

(** ** Round-robin scheduling *)

Section SchedulerFacts.

Context {BotConfig : Type}.
Variable getBotConfig : nat → BotConfig.

Local Abbreviation createTasks := (Arena.createTasks getBotConfig).
Local Abbreviation innerLoop := (Arena.innerLoop getBotConfig).
Local Abbreviation taskFor := (Arena.taskFor getBotConfig).

Lemma elem_of_innerLoop n K i t :
  t ∈ innerLoop n K i ↔ ∃ j, t = taskFor K i j ∧ i < j < n.
Proof.
  unfold Arena.innerLoop. rewrite list_elem_of_fmap.
  split; intros (j & -> & Hj); exists j; split; auto.
  - apply elem_of_seq in Hj. lia.
  - apply elem_of_seq. lia.
Qed.

Lemma elem_of_createTasks n K t :
  t ∈ createTasks n K ↔ ∃ i j, t = taskFor K i j ∧ i < j < n.
Proof.
  unfold Arena.createTasks. rewrite list_elem_of_bind. split.
  - intros (i & Ht & _). apply elem_of_innerLoop in Ht as (j & -> & Hj).
    eauto.
  - intros (i & j & -> & Hij). exists i. split.
    + apply elem_of_innerLoop. eauto.
    + apply elem_of_seq. lia.
Qed.

Lemma length_innerLoop n K i : length (innerLoop n K i) = n - S i.
Proof. unfold Arena.innerLoop. by rewrite length_fmap, length_seq. Qed.

(** The outer loop from row [a] on, over [k] remaining rows. *)
Lemma length_rows a k K :
  2 * length (seq a k ≫= innerLoop (a + k) K) = k * (k - 1).
Proof.
  revert a. induction k as [|k IH]; intros a; [done|].
  cbn [seq mbind list_bind]. rewrite length_app, length_innerLoop.
  replace (a + S k) with (S a + k) by lia.
  specialize (IH (S a)). nia.
Qed.

Lemma length_createTasks n K : length (createTasks n K) = n * (n - 1) / 2.
Proof.
  unfold Arena.createTasks. pose proof (length_rows 0 n K) as H.
  simpl in H. rewrite <- H.
  replace (_ + (_ + 0)) with (length (seq 0 n ≫= innerLoop n K) * 2) by lia.
  by rewrite Nat.div_mul.
Qed.

Lemma NoDup_createTasks_pairs n K :
  NoDup (Arena.pairOf <$> createTasks n K).
Proof.
  unfold Arena.createTasks. apply NoDup_fmap_2_strong.
  - intros t1 t2 H1 H2 Heq.
    apply list_elem_of_bind in H1 as (i1 & H1 & _).
    apply list_elem_of_bind in H2 as (i2 & H2 & _).
    apply elem_of_innerLoop in H1 as (j1 & -> & _).
    apply elem_of_innerLoop in H2 as (j2 & -> & _).
    unfold Arena.pairOf in Heq. simpl in Heq. by simplify_eq.
  - apply NoDup_bind.
    + intros i1 i2 t _ _ H1 H2.
      apply elem_of_innerLoop in H1 as (j1 & -> & _).
      apply elem_of_innerLoop in H2 as (j2 & Heq & _).
      by apply (f_equal Arena.bot1Index) in Heq.
    + intros i _. unfold Arena.innerLoop. apply NoDup_fmap_2_strong.
      * intros j1 j2 _ _ Heq. by apply (f_equal Arena.bot2Index) in Heq.
      * apply NoDup_seq.
    + apply NoDup_seq.
Qed.

(** The decimal numerals have no underscore, so the two indices can be
    read back from a matchup id. *)
Lemma pretty_N_go_free (x : N) : ∀ s,
  Arena.free_of "_" s → Arena.free_of "_" (pretty_N_go x s).
Proof.
  induction (N.lt_wf_0 x) as [x _ IH]; intros s Hs.
  assert (x = 0 ∨ 0 < x)%N as [->|Hx] by lia.
  - by rewrite pretty_N_go_0.
  - rewrite pretty_N_go_step by done. apply IH.
    { by apply N.div_lt. }
    split; [|done]. unfold pretty_N_char. by repeat case_match.
Qed.

Lemma pretty_nat_free (n : nat) : Arena.free_of "_" (pretty n).
Proof.
  unfold pretty, pretty_nat, pretty, pretty_N.
  case_decide; [by split|]. by apply pretty_N_go_free.
Qed.

Lemma free_of_split c (s s' r r' : string) :
  Arena.free_of c s → Arena.free_of c s' →
  s +:+ String c r = s' +:+ String c r' → s = s' ∧ r = r'.
Proof.
  revert s'. induction s as [|a s IH]; intros [|a' s'] Hs Hs' Heq;
    simpl in *.
  - by injection Heq as ->.
  - injection Heq as -> _. by destruct Hs'.
  - injection Heq as -> _. by destruct Hs.
  - injection Heq as -> Heq. destruct Hs as [_ Hs], Hs' as [_ Hs'].
    by destruct (IH s' Hs Hs' Heq) as [-> ->].
Qed.

Lemma matchupIdOf_inj i j i' j' :
  Arena.matchupIdOf i j = Arena.matchupIdOf i' j' → i = i' ∧ j = j'.
Proof.
  unfold Arena.matchupIdOf. simpl. intros [= Heq].
  apply (free_of_split "_") in Heq as [Hi Hj]; [|apply pretty_nat_free..].
  injection Hj as Hj. split; by apply (inj pretty).
Qed.

Lemma NoDup_createTasks_ids n K :
  NoDup (Arena.matchupId <$> createTasks n K).
Proof.
  apply NoDup_fmap_2_strong.
  - intros t1 t2 (i1 & j1 & -> & _)%elem_of_createTasks
      (i2 & j2 & -> & _)%elem_of_createTasks Heq.
    simpl in Heq. by apply matchupIdOf_inj in Heq as [-> ->].
  - eapply NoDup_fmap_1, NoDup_createTasks_pairs.
Qed.

(** C5. For [C] configured bots and [K] games per matchup, the scheduler
    of [runTournamentParallel] produces exactly [C * (C - 1) / 2] tasks:
    one task for every pair [(i, j)] with [i < j < C] and no other task,
    no pair twice, none of a bot against itself, each task standing for
    [K] games between bot [i] and bot [j] under the id
    [bot<i>_vs_bot<j>], which no other task has. *)
Theorem createTasks_round_robin (C : nat) (K : Z) :
  length (createTasks C K) = C * (C - 1) / 2 ∧
  NoDup (Arena.pairOf <$> createTasks C K) ∧
  NoDup (Arena.matchupId <$> createTasks C K) ∧
  (∀ i j, i < j < C → taskFor K i j ∈ createTasks C K) ∧
  (∀ t, t ∈ createTasks C K →
     Arena.bot1Index t < Arena.bot2Index t < C ∧
     Arena.gamesPerMatchup t = K ∧
     Arena.bot1 t = getBotConfig (Arena.bot1Index t) ∧
     Arena.bot2 t = getBotConfig (Arena.bot2Index t) ∧
     Arena.matchupId t
       = Arena.matchupIdOf (Arena.bot1Index t) (Arena.bot2Index t)).
Proof.
  split_and!.
  - apply length_createTasks.
  - apply NoDup_createTasks_pairs.
  - apply NoDup_createTasks_ids.
  - intros i j Hij. apply elem_of_createTasks. eauto.
  - intros t (i & j & -> & Hij)%elem_of_createTasks. done.
Qed.

End SchedulerFacts.

Example createTasks_four_bots :
  Arena.pairOf <$> Arena.createTasks (λ _, tt) 4 10
    = [(0, 1); (0, 2); (0, 3); (1, 2); (1, 3); (2, 3)].
Proof. reflexivity. Qed.


(** ** Arrays with holes *)

Section ArrayFacts.

Implicit Types (a : Js.array) (i j k : nat) (v w : Js.num) (d : Z).

Lemma length_set {A} (a : list (option A)) i (v : A) :
  length (Js.set a i v) = length a `max` S i.
Proof.
  unfold Js.set. case_decide.
  - rewrite length_insert. lia.
  - rewrite !length_app, length_replicate. simpl. lia.
Qed.

Lemma lookup_set {A} (a : list (option A)) i (v : A) k :
  Js.set a i v !! k =
    if decide (k = i) then Some (Some v)
    else if decide (k < length a) then a !! k
    else if decide (k < i) then Some None else None.
Proof.
  unfold Js.set. case_decide as Hi.
  - destruct (decide (k = i)) as [->|Hk].
    + by rewrite list_lookup_insert_eq.
    + rewrite list_lookup_insert_ne by done.
      repeat case_decide; try done; try lia.
      all: apply lookup_ge_None; lia.
  - destruct (decide (k < length a)) as [Hk|Hk].
    + rewrite lookup_app_l by done. case_decide; [lia|done].
    + rewrite lookup_app_r by lia.
      destruct (decide (k < i)) as [Hki|Hki].
      * rewrite lookup_app_l by (rewrite length_replicate; lia).
        rewrite lookup_replicate_2 by lia. case_decide; [lia|done].
      * rewrite lookup_app_r by (rewrite length_replicate; lia).
        rewrite length_replicate.
        destruct (decide (k = i)) as [->|Hne].
        -- by replace (i - length a - (i - length a)) with 0 by lia.
        -- apply lookup_ge_None. simpl. lia.
Qed.

Lemma get_set a i v k :
  Js.get (Js.set a i v) k = if decide (k = i) then v else Js.get a k.
Proof.
  unfold Js.get. rewrite lookup_set.
  repeat case_decide; try done.
  all: by rewrite (lookup_ge_None_2 a k) by lia.
Qed.

Lemma set_set {A} (a : list (option A)) i (v w : A) :
  Js.set (Js.set a i v) i w = Js.set a i w.
Proof.
  apply list_eq. intros k. rewrite !lookup_set, length_set.
  repeat case_decide; try done; lia.
Qed.

Lemma set_comm {A} (a : list (option A)) i j (v w : A) :
  i ≠ j → Js.set (Js.set a i v) j w = Js.set (Js.set a j w) i v.
Proof.
  intros Hij. apply list_eq. intros k. rewrite !lookup_set, !length_set.
  repeat case_decide; try done; lia.
Qed.

Lemma get_addAt a i d k :
  Js.get (Js.addAt a i d) k =
    if decide (k = i) then Js.add (Js.get a i) (Js.Int d) else Js.get a k.
Proof. unfold Js.addAt. by rewrite get_set. Qed.

Lemma add_swap v d1 d2 :
  Js.add (Js.add v (Js.Int d1)) (Js.Int d2) = Js.add (Js.add v (Js.Int d2)) (Js.Int d1).
Proof. destruct v; simpl; [f_equal; lia | done]. Qed.

Lemma addAt_comm a i j d1 d2 :
  Js.addAt (Js.addAt a i d1) j d2 = Js.addAt (Js.addAt a j d2) i d1.
Proof.
  destruct (decide (i = j)) as [->|Hij].
  - unfold Js.addAt. rewrite !get_set, !decide_True, !set_set by done.
    by rewrite add_swap.
  - unfold Js.addAt. rewrite !get_set.
    rewrite (decide_False (P := j = i)), (decide_False (P := i = j)) by done.
    by apply set_comm.
Qed.

Lemma get_fill0 n i : i < n → Js.get (Js.fill0 n) i = Js.Int 0.
Proof.
  intros Hi. unfold Js.get, Js.fill0. by rewrite lookup_replicate_2.
Qed.

Lemma Js_applyAll_app a us vs : Js.applyAll a (us ++ vs) = Js.applyAll (Js.applyAll a us) vs.
Proof. apply foldl_app. Qed.

Lemma Js_applyAll_perm us vs :
  us ≡ₚ vs → ∀ a, Js.applyAll a us = Js.applyAll a vs.
Proof.
  induction 1 as [|u us vs _ IH|u1 u2 us|us vs ws _ IH1 _ IH2]; intros a.
  - done.
  - apply IH.
  - simpl. by rewrite addAt_comm.
  - by rewrite IH1.
Qed.

End ArrayFacts.

(** ** Sums of doubles *)

(** The doubles are those of [SpecFloat], with 53 digits.  What follows
    shows that they add integers exactly as long as the sum has no more
    than 53 digits. *)

Section DoubleFacts.

Local Open Scope Z_scope.

Implicit Types (p q m : positive) (e k d : Z).

Lemma digits2_pos_spec p :
  2 ^ (Zpos (digits2_pos p) - 1) ≤ Zpos p < 2 ^ Zpos (digits2_pos p).
Proof.
  induction p as [p IH|p IH|]; simpl digits2_pos; [| |simpl; lia].
  all: rewrite Pos2Z.inj_succ;
    replace (Z.succ (Zpos (digits2_pos p)) - 1) with (Z.succ (Zpos (digits2_pos p) - 1))
      by lia;
    rewrite !Z.pow_succ_r by lia; lia.
Qed.

Lemma digits2_pos_unique p d :
  2 ^ (d - 1) ≤ Zpos p < 2 ^ d → Zpos (digits2_pos p) = d.
Proof.
  intros [Hlo Hhi]. pose proof (digits2_pos_spec p) as [Hlo' Hhi'].
  destruct (Z.lt_trichotomy (Zpos (digits2_pos p)) d) as [Hlt|[Heq|Hgt]]; [|done|].
  - assert (2 ^ Zpos (digits2_pos p) ≤ 2 ^ (d - 1)) by (apply Z.pow_le_mono_r; lia). lia.
  - assert (0 ≤ d).
    { destruct (Z.lt_ge_cases d 0) as [Hneg|]; [|done].
      rewrite (Z.pow_neg_r 2 d) in Hhi by done. lia. }
    assert (2 ^ d ≤ 2 ^ (Zpos (digits2_pos p) - 1)) by (apply Z.pow_le_mono_r; lia). lia.
Qed.

Lemma iter_xO p (n : positive) : Zpos (Pos.iter xO p n) = Zpos p * 2 ^ Zpos n.
Proof.
  induction n as [|n IH] using Pos.peano_ind.
  - simpl. lia.
  - rewrite Pos.iter_succ, Pos2Z.inj_xO, IH, Pos2Z.inj_succ, Z.pow_succ_r by lia. lia.
Qed.

Lemma shr_exact n : ∀ q,
  iter_pos shr_1 n (Build_shr_record (Zpos (Pos.iter xO q n)) false false)
  = Build_shr_record (Zpos q) false false.
Proof.
  induction n as [n IH|n IH|]; intros q; simpl.
  - by rewrite !IH.
  - by rewrite !IH.
  - done.
Qed.

Lemma fexp_normal x : -1074 ≤ x - 53 → fexp Js.prec Js.emax x = x - 53.
Proof. unfold fexp, emin, Js.prec, Js.emax. lia. Qed.

(** A mantissa of 53 digits at its exponent is kept as it is. *)
Lemma binary_round_aux_canonical s mx ex q e :
  shr_fexp Js.prec Js.emax mx ex loc_Exact = (Build_shr_record (Zpos q) false false, e) →
  Zpos (digits2_pos q) = 53 → -1074 ≤ e ≤ 971 →
  binary_round_aux Js.prec Js.emax s mx ex loc_Exact = S754_finite s q e.
Proof.
  intros Hshr Hd He. unfold binary_round_aux. rewrite Hshr. simpl.
  unfold shr_fexp. simpl Zdigits2. rewrite Hd, fexp_normal by lia.
  replace (53 + e - 53 - e) with 0 by lia. simpl.
  destruct (Z.leb_spec e (Js.emax - Js.prec)) as [|Hgt]; [done|].
  unfold Js.emax, Js.prec in Hgt. lia.
Qed.

Lemma digits2_pos_shift m q k :
  0 ≤ k → Zpos m = Zpos q * 2 ^ k →
  Zpos (digits2_pos m) = Zpos (digits2_pos q) + k.
Proof.
  intros Hk Hm. apply digits2_pos_unique. rewrite Hm.
  pose proof (digits2_pos_spec q) as [Hlo Hhi].
  assert (0 < 2 ^ k) by (apply Z.pow_pos_nonneg; lia).
  replace (Zpos (digits2_pos q) + k - 1) with ((Zpos (digits2_pos q) - 1) + k) by lia.
  rewrite !Z.pow_add_r by lia. nia.
Qed.

(** Rounding a number that has no more than 53 significant digits gives
    the number itself, in its 53-digit form. *)
Lemma binary_round_exact s m q e k :
  0 ≤ k → Zpos m = Zpos q * 2 ^ k → Zpos (digits2_pos q) ≤ 53 →
  -1074 ≤ Zpos (digits2_pos q) + k + e - 53 ≤ 971 →
  ∃ q53, Zpos q53 = Zpos q * 2 ^ (53 - Zpos (digits2_pos q)) ∧
    binary_round Js.prec Js.emax s m e
    = S754_finite s q53 (Zpos (digits2_pos q) + k + e - 53).
Proof.
  intros Hk Hm Hdq HF.
  set (dq := Zpos (digits2_pos q)) in *. set (F := dq + k + e - 53) in *.
  assert (0 < dq) by (unfold dq; lia).
  assert (0 < Zpos q * 2 ^ (53 - dq)) as Hpos.
  { apply Z.mul_pos_pos; [lia|]. apply Z.pow_pos_nonneg; lia. }
  exists (Z.to_pos (Zpos q * 2 ^ (53 - dq))).
  rewrite Z2Pos.id by done. split; [done|].
  set (q53 := Z.to_pos (Zpos q * 2 ^ (53 - dq))).
  assert (Zpos q53 = Zpos q * 2 ^ (53 - dq)) as Hq53 by (unfold q53; by rewrite Z2Pos.id).
  assert (Zpos (digits2_pos q53) = 53) as Hd53.
  { rewrite (digits2_pos_shift q53 q (53 - dq)) by (done || lia). fold dq. lia. }
  assert (Zpos (digits2_pos m) = dq + k) as Hdm by by apply digits2_pos_shift.
  unfold binary_round. rewrite Hdm, fexp_normal by (fold F; lia).
  replace (dq + k + e - 53) with F by done.
  unfold shl_align. destruct (F - e) as [|n|n] eqn:Hn.
  - (* the mantissa has 53 digits already *)
    assert (m = q53) as ->.
    { apply Pos2Z.inj. rewrite Hm, Hq53. f_equal. f_equal. unfold F in Hn. lia. }
    replace e with F by lia.
    apply binary_round_aux_canonical; [|done|lia].
    unfold shr_fexp. simpl Zdigits2. rewrite Hd53, fexp_normal by lia.
    by replace (53 + F - 53 - F) with 0 by lia.
  - (* the mantissa is longer: its last digits are zeros *)
    assert (m = Pos.iter xO q53 n) as ->.
    { apply Pos2Z.inj. rewrite iter_xO, Hm, Hq53, <- Z.mul_assoc, <- Z.pow_add_r by lia.
      f_equal. f_equal. unfold F in Hn. lia. }
    apply binary_round_aux_canonical; [|done|lia].
    unfold shr_fexp. simpl Zdigits2. rewrite Hdm, fexp_normal by (fold F; lia).
    replace (dq + k + e - 53 - e) with (Zpos n) by (unfold F in Hn; lia).
    unfold shr, shr_record_of_loc. rewrite shr_exact. f_equal. unfold F in Hn. lia.
  - (* the mantissa is shorter: it is shifted to the left *)
    assert (Pos.iter xO m n = q53) as ->.
    { apply Pos2Z.inj. rewrite iter_xO, Hm, Hq53, <- Z.mul_assoc, <- Z.pow_add_r by lia.
      f_equal. f_equal. unfold F in Hn. lia. }
    apply binary_round_aux_canonical; [|done|lia].
    unfold shr_fexp. simpl Zdigits2. rewrite Hd53, fexp_normal by lia.
    by replace (53 + F - 53 - F) with 0 by lia.
Qed.

Lemma digits2_pos_small p : Zpos p < 2 ^ 53 → Zpos (digits2_pos p) ≤ 53.
Proof.
  intros Hp. pose proof (digits2_pos_spec p) as [Hlo _].
  destruct (Z.le_gt_cases (Zpos (digits2_pos p)) 53) as [|Hgt]; [done|].
  assert (2 ^ 53 ≤ 2 ^ (Zpos (digits2_pos p) - 1)) by (apply Z.pow_le_mono_r; lia). lia.
Qed.

Lemma ofZ_pos p :
  Zpos p < 2 ^ 53 →
  ∃ p53, Zpos p53 = Zpos p * 2 ^ (53 - Zpos (digits2_pos p)) ∧
    Js.ofZ (Zpos p) = S754_finite false p53 (Zpos (digits2_pos p) - 53).
Proof.
  intros Hp%digits2_pos_small.
  destruct (binary_round_exact false p p 0 0 ltac:(done) ltac:(simpl; lia) Hp ltac:(lia))
    as (p53 & Hp53 & Hround).
  exists p53. split; [done|]. unfold Js.ofZ. simpl. rewrite Hround. f_equal; lia.
Qed.

Lemma shl_align_spec m e e' :
  e' ≤ e →
  ∃ m', shl_align m e e' = (m', e') ∧ Zpos m' = Zpos m * 2 ^ (e - e').
Proof.
  intros He. unfold shl_align. destruct (e' - e) as [|n|n] eqn:Hn; try lia.
  - exists m. replace e' with e by lia. rewrite Z.sub_diag. split; [done|]. simpl. lia.
  - exists (Pos.iter xO m n). split; [done|]. rewrite iter_xO. f_equal. f_equal. lia.
Qed.

(** The sum of two doubles that hold non-negative integers is the double
    that holds their sum, as long as the sum is below [2^53]. *)
Lemma fadd_ofZ a b :
  0 ≤ a → 0 ≤ b → a + b < 2 ^ 53 → Js.fadd (Js.ofZ a) (Js.ofZ b) = Js.ofZ (a + b).
Proof.
  intros Ha Hb Hsum.
  destruct a as [|a|a]; [|clear Ha|lia].
  { destruct b as [|b|b]; [done| |lia].
    destruct (ofZ_pos b) as (b53 & _ & Hb53); [lia|]. simpl Z.add. by rewrite Hb53. }
  destruct b as [|b|b]; [|clear Hb|lia].
  { destruct (ofZ_pos a) as (a53 & _ & Ha53); [lia|]. rewrite Z.add_0_r. by rewrite Ha53. }
  destruct (ofZ_pos a) as (a53 & Ha53 & ->); [lia|].
  destruct (ofZ_pos b) as (b53 & Hb53 & ->); [lia|].
  destruct (ofZ_pos (a + b)) as (c53 & Hc53 & Hc); [lia|].
  change (Zpos a + Zpos b) with (Zpos (a + b)). rewrite Hc.
  set (da := Zpos (digits2_pos a)) in *. set (db := Zpos (digits2_pos b)) in *.
  set (dc := Zpos (digits2_pos (a + b))) in *.
  assert (0 < da ≤ 53) by (split; [unfold da; lia|apply digits2_pos_small; lia]).
  assert (0 < db ≤ 53) by (split; [unfold db; lia|apply digits2_pos_small; lia]).
  assert (0 < dc ≤ 53) by (split; [unfold dc; lia|apply digits2_pos_small; lia]).
  unfold Js.fadd, SFadd. cbv zeta.
  set (ez := Z.min (da - 53) (db - 53)).
  destruct (shl_align_spec a53 (da - 53) ez) as (ma & -> & Hma); [lia|].
  destruct (shl_align_spec b53 (db - 53) ez) as (mb & -> & Hmb); [lia|].
  simpl fst. simpl cond_Zopp.
  change (Zpos ma + Zpos mb) with (Zpos (ma + mb)). simpl binary_normalize.
  destruct (binary_round_exact false (ma + mb) (a + b) ez (- ez)) as (q53 & Hq53 & ->).
  - lia.
  - rewrite Pos2Z.inj_add, Hma, Hmb, Ha53, Hb53, <- !Z.mul_assoc, <- !Z.pow_add_r by lia.
    replace (53 - da + (da - 53 - ez)) with (- ez) by lia.
    replace (53 - db + (db - 53 - ez)) with (- ez) by lia.
    rewrite Pos2Z.inj_add. lia.
  - fold dc. lia.
  - fold dc. lia.
  - fold dc in Hq53 |- *. f_equal; [|lia].
    apply Pos2Z.inj. by rewrite Hq53, Hc53.
Qed.

End DoubleFacts.

Section SumFacts.

Implicit Types (a : Js.array) (i j k : nat) (d : Z) (us vs : list (nat * Z)).

(** The sum of the increments of a batch. *)
Local Abbreviation total us := (foldr (λ (u : nat * Z) sum, (u.2 + sum)%Z) 0%Z us).

(** The doubles that hold the integers of an array. *)
Local Abbreviation doubles a := (fmap (M := list) (fmap (M := option) Js.ofNum) a).

Lemma fmap_set {A B} (f : A → B) (a : list (option A)) i (v : A) :
  fmap (M := list) (fmap (M := option) f) (Js.set a i v)
  = Js.set (fmap (M := list) (fmap (M := option) f) a) i (f v).
Proof.
  apply list_eq. intros k.
  rewrite list_lookup_fmap, !lookup_set, length_fmap, list_lookup_fmap.
  repeat case_decide; done.
Qed.

Lemma fget_doubles a i : Js.fget (doubles a) i = Js.ofNum (Js.get a i).
Proof.
  unfold Js.fget, Js.get. rewrite list_lookup_fmap.
  by destruct (a !! i) as [[v|]|].
Qed.

Lemma doubles_fill0 n : doubles (Js.fill0 n) = Js.ffill0 n.
Proof. unfold Js.fill0, Js.ffill0. by rewrite fmap_replicate. Qed.

Lemma addTo_exact a i d :
  (0 ≤ d)%Z →
  (∀ z, Js.get a i = Js.Int z → (0 ≤ z ∧ z + d < 2 ^ 53)%Z) →
  Js.addTo (doubles a) i (Js.ofZ d) = doubles (Js.addAt a i d).
Proof.
  intros Hd Hz. unfold Js.addTo, Js.addAt. rewrite fmap_set, fget_doubles.
  f_equal. destruct (Js.get a i) as [z|]; [|done].
  simpl. destruct (Hz z eq_refl). by apply fadd_ofZ.
Qed.

Lemma addAll_exact us : ∀ a,
  Forall (λ u, (0 ≤ u.2)%Z) us →
  (∀ i z, Js.get a i = Js.Int z → (0 ≤ z ∧ z + total us < 2 ^ 53)%Z) →
  Js.addAll (doubles a) us = doubles (Js.applyAll a us).
Proof.
  induction us as [|[i d] us IH]; intros a Hpos Hz; [done|].
  apply Forall_cons in Hpos as [Hd Hpos]. simpl in Hd.
  assert (0 ≤ total us)%Z as Htot.
  { clear -Hpos. induction Hpos as [|u us Hu _ IH]; simpl; lia. }
  simpl. rewrite addTo_exact; [|done|].
  - apply IH; [done|]. intros k z. rewrite get_addAt. case_decide as Hk.
    + subst k. destruct (Js.get a i) as [z'|] eqn:Hget; [|done].
      simpl. intros [= <-]. destruct (Hz i z' Hget) as [? Hlt]. simpl in Hlt. lia.
    + intros Hget. destruct (Hz k z Hget) as [? Hlt]. simpl in Hlt. lia.
  - intros z Hget. destruct (Hz i z Hget) as [? Hlt]. simpl in Hlt. lia.
Qed.

Lemma total_perm us vs : us ≡ₚ vs → total us = total vs.
Proof. induction 1; simpl; lia. Qed.

(** Below [2^53] the order of the updates does not show. *)
Lemma addAll_perm n us vs :
  us ≡ₚ vs →
  Forall (λ u, (0 ≤ u.2)%Z) us → (total us < 2 ^ 53)%Z →
  Js.addAll (Js.ffill0 n) us = Js.addAll (Js.ffill0 n) vs.
Proof.
  intros Hp Hpos Htot. rewrite <- doubles_fill0.
  assert (∀ i z, Js.get (Js.fill0 n) i = Js.Int z → z = 0%Z) as Hfill.
  { intros i z. unfold Js.get, Js.fill0.
    destruct (replicate n (Some (Js.Int 0)) !! i) as [v|] eqn:Hlk; [|done].
    apply lookup_replicate in Hlk as [-> _]. by intros [= <-]. }
  rewrite !addAll_exact.
  - by rewrite (Js_applyAll_perm _ _ Hp).
  - by rewrite <- Hp.
  - intros i z ->%Hfill. rewrite <- (total_perm _ _ Hp). lia.
  - done.
  - intros i z ->%Hfill. lia.
Qed.

End SumFacts.

(** ** The aggregator *)

Section AggregatorFacts.

Implicit Types (r : Arena.Results) (g : Game.t) (gs : list Game.t).

(** The sum of the increments of a batch. *)
Local Abbreviation total us := (foldr (λ (u : nat * Z) sum, (u.2 + sum)%Z) 0%Z us).

Lemma collect_flat r ms :
  Arena.collect r ms = foldl Arena.addGame r (ms ≫= Matchup.results).
Proof.
  revert r. induction ms as [|m ms IH]; intros r; [done|].
  simpl. rewrite foldl_app. apply IH.
Qed.

Lemma addGame_fields r g :
  Arena.bots (Arena.addGame r g) = Arena.bots r ∧
  Arena.matches (Arena.addGame r g) = Arena.matches r ++ [g] ∧
  Arena.gamesPlayed (Arena.addGame r g)
    = Js.applyAll (Arena.gamesPlayed r) (Arena.playedUpdates g) ∧
  Arena.wins (Arena.addGame r g)
    = Js.applyAll (Arena.wins r) (Arena.winUpdates g) ∧
  Arena.losses (Arena.addGame r g)
    = Js.applyAll (Arena.losses r) (Arena.lossUpdates g) ∧
  Arena.totalPoints (Arena.addGame r g)
    = Js.addAll (Arena.totalPoints r) (Arena.pointUpdates g) ∧
  Arena.totalWinTurns (Arena.addGame r g)
    = Js.addAll (Arena.totalWinTurns r) (Arena.winTurnUpdates g).
Proof.
  unfold Arena.addGame, Arena.winUpdates, Arena.lossUpdates,
    Arena.winTurnUpdates, Arena.winnerIdx, Arena.loserIdx.
  destruct (bool_decide (Game.winner g = 0%Z)); simpl; done.
Qed.

Lemma foldl_addGame_fields gs : ∀ r,
  let r' := foldl Arena.addGame r gs in
  Arena.bots r' = Arena.bots r ∧
  Arena.matches r' = Arena.matches r ++ gs ∧
  Arena.gamesPlayed r' = Js.applyAll (Arena.gamesPlayed r) (gs ≫= Arena.playedUpdates) ∧
  Arena.wins r' = Js.applyAll (Arena.wins r) (gs ≫= Arena.winUpdates) ∧
  Arena.losses r' = Js.applyAll (Arena.losses r) (gs ≫= Arena.lossUpdates) ∧
  Arena.totalPoints r' = Js.addAll (Arena.totalPoints r) (gs ≫= Arena.pointUpdates) ∧
  Arena.totalWinTurns r'
    = Js.addAll (Arena.totalWinTurns r) (gs ≫= Arena.winTurnUpdates).
Proof.
  induction gs as [|g gs IH]; intros r; simpl.
  - by rewrite app_nil_r.
  - destruct (IH (Arena.addGame r g)) as (-> & -> & -> & -> & -> & -> & ->).
    destruct (addGame_fields r g) as (-> & -> & -> & -> & -> & -> & ->).
    rewrite <- app_assoc. done.
Qed.

Lemma totalTurnsOf_updates n gs :
  Arena.totalTurnsOf n gs = Js.addAll (Js.ffill0 n) (gs ≫= Arena.turnUpdates).
Proof.
  unfold Arena.totalTurnsOf. generalize (Js.ffill0 n).
  induction gs as [|g gs IH]; intros a; [done|]. simpl. apply IH.
Qed.

Lemma bind_perm {A B} (f : A → list B) (l k : list A) :
  l ≡ₚ k → l ≫= f ≡ₚ k ≫= f.
Proof. intros H. by rewrite H. Qed.

(** The increments of the running sums are the numbers of the games. *)
Lemma updates_counted gs :
  Forall Arena.counted gs →
  Forall (λ u, (0 ≤ u.2)%Z) (gs ≫= Arena.pointUpdates) ∧
  Forall (λ u, (0 ≤ u.2)%Z) (gs ≫= Arena.winTurnUpdates) ∧
  Forall (λ u, (0 ≤ u.2)%Z) (gs ≫= Arena.turnUpdates) ∧
  (total (gs ≫= Arena.pointUpdates) ≤ Arena.load gs)%Z ∧
  (total (gs ≫= Arena.winTurnUpdates) ≤ Arena.load gs)%Z ∧
  (total (gs ≫= Arena.turnUpdates) ≤ Arena.load gs)%Z.
Proof.
  intros Hgs. induction Hgs as [|g gs (Ht & Hp1 & Hp2) _ IH].
  - simpl. split_and!; (constructor || lia).
  - destruct IH as (IH1 & IH2 & IH3 & IH4 & IH5 & IH6).
    rewrite !bind_cons.
    set (us1 := gs ≫= Arena.pointUpdates) in *.
    set (us2 := gs ≫= Arena.winTurnUpdates) in *.
    set (us3 := gs ≫= Arena.turnUpdates) in *.
    clearbody us1 us2 us3.
    split_and!; try (apply Forall_app; split; [by repeat constructor|done]);
      simpl; lia.
Qed.

Lemma counters_perm r gs gs' :
  gs ≡ₚ gs' →
  let r1 := foldl Arena.addGame r gs in
  let r2 := foldl Arena.addGame r gs' in
  Arena.gamesPlayed r1 = Arena.gamesPlayed r2 ∧
  Arena.wins r1 = Arena.wins r2 ∧
  Arena.losses r1 = Arena.losses r2.
Proof.
  intros Hp r1 r2. subst r1 r2.
  destruct (foldl_addGame_fields gs r) as (_ & _ & -> & -> & -> & _).
  destruct (foldl_addGame_fields gs' r) as (_ & _ & -> & -> & -> & _).
  by rewrite (Js_applyAll_perm _ _ (bind_perm Arena.playedUpdates _ _ Hp)),
    (Js_applyAll_perm _ _ (bind_perm Arena.winUpdates _ _ Hp)),
    (Js_applyAll_perm _ _ (bind_perm Arena.lossUpdates _ _ Hp)).
Qed.

Lemma accumulators_perm names gs gs' :
  gs ≡ₚ gs' →
  Forall Arena.counted gs → (Arena.load gs < 2 ^ 53)%Z →
  Arena.accumulators (foldl Arena.addGame (Arena.emptyResults names) gs)
    = Arena.accumulators (foldl Arena.addGame (Arena.emptyResults names) gs').
Proof.
  intros Hp Hgs Hload. unfold Arena.accumulators.
  destruct (counters_perm (Arena.emptyResults names) gs gs' Hp) as (-> & -> & ->).
  destruct (foldl_addGame_fields gs (Arena.emptyResults names))
    as (_ & _ & _ & _ & _ & -> & ->).
  destruct (foldl_addGame_fields gs' (Arena.emptyResults names))
    as (_ & _ & _ & _ & _ & -> & ->).
  destruct (updates_counted gs Hgs) as (Hp1 & Hp2 & _ & Ht1 & Ht2 & _).
  simpl.
  rewrite (addAll_perm _ _ _ (bind_perm Arena.pointUpdates _ _ Hp)) by (done || lia).
  rewrite (addAll_perm _ _ _ (bind_perm Arena.winTurnUpdates _ _ Hp)) by (done || lia).
  done.
Qed.

Lemma withAverages_accumulators r :
  Arena.accumulators (Arena.withAverages r) = Arena.accumulators r.
Proof. done. Qed.

Lemma averages_eq r1 r2 :
  length (Arena.bots r1) = length (Arena.bots r2) →
  Arena.accumulators r1 = Arena.accumulators r2 →
  Arena.matches r1 ≡ₚ Arena.matches r2 →
  Forall Arena.counted (Arena.matches r1) → (Arena.load (Arena.matches r1) < 2 ^ 53)%Z →
  Arena.averages (Arena.withAverages r1) = Arena.averages (Arena.withAverages r2).
Proof.
  unfold Arena.accumulators, Arena.averages, Arena.withAverages.
  intros -> [= -> -> -> -> ->] Hm Hgs Hload. simpl.
  rewrite !totalTurnsOf_updates.
  destruct (updates_counted _ Hgs) as (_ & _ & Hp3 & _ & _ & Ht3).
  rewrite (addAll_perm _ _ _ (bind_perm Arena.turnUpdates _ _ Hm)) by (done || lia).
  done.
Qed.

Lemma balanced_empty names i :
  i < length names → Arena.balanced (Arena.emptyResults names) i.
Proof.
  intros Hi. exists 0%Z, 0%Z. simpl. by rewrite !get_fill0.
Qed.

Lemma balanced_addGame r g i :
  Arena.balanced r i → Arena.balanced (Arena.addGame r g) i.
Proof.
  intros (w & l & Hw & Hl & Hp).
  destruct (addGame_fields r g) as (_ & _ & Hgp & Hwins & Hlosses & _).
  unfold Arena.balanced. rewrite Hgp, Hwins, Hlosses.
  unfold Arena.playedUpdates, Arena.winUpdates, Arena.lossUpdates,
    Arena.winnerIdx, Arena.loserIdx, Js.applyAll. simpl.
  rewrite !get_addAt. clear Hgp Hwins Hlosses.
  destruct g as [b1 b2 win tc p1 p2]; simpl.
  destruct (bool_decide (win = 0%Z));
    repeat case_decide; simplify_eq; rewrite ?Hw, ?Hl, ?Hp; simpl;
    eexists _, _; (split_and!; [done..|f_equal; lia]).
Qed.

Lemma balanced_foldl gs : ∀ r i,
  Arena.balanced r i → Arena.balanced (foldl Arena.addGame r gs) i.
Proof.
  induction gs as [|g gs IH]; intros r i Hr; [done|].
  simpl. by apply IH, balanced_addGame.
Qed.

End AggregatorFacts.

(** *** Order of arrival *)

(** C6, as the code has it. The sums [totalPoints], [totalWinTurns] and
    the total turns behind [avgGameLength] are sums of doubles.  When the
    turn counts and points of the games are integers that are not
    negative, and the points of both players and twice the turns, summed
    over all games, stay below [2^53], aggregation does not depend on
    the order of the match results: two lists of matchup entries that
    carry the same games in any two orders give the same per-competitor
    accumulators ([gamesPlayed], [wins], [losses], [totalPoints],
    [totalWinTurns]) and the same derived averages. *)
Theorem aggregateResults_order_independent
    (names : list string) (ms1 ms2 : list Matchup.t) :
  ms1 ≫= Matchup.results ≡ₚ ms2 ≫= Matchup.results →
  Forall Arena.counted (ms1 ≫= Matchup.results) →
  (Arena.load (ms1 ≫= Matchup.results) < 2 ^ 53)%Z →
  Arena.accumulators (Arena.aggregateResults names ms1)
    = Arena.accumulators (Arena.aggregateResults names ms2) ∧
  Arena.averages (Arena.aggregateResults names ms1)
    = Arena.averages (Arena.aggregateResults names ms2).
Proof.
  intros Hp Hgs Hload. unfold Arena.aggregateResults. rewrite !collect_flat.
  pose proof (accumulators_perm names _ _ Hp Hgs Hload) as Hacc.
  pose proof (foldl_addGame_fields (ms1 ≫= Matchup.results)
                (Arena.emptyResults names)) as (Hb1 & Hm1 & _).
  pose proof (foldl_addGame_fields (ms2 ≫= Matchup.results)
                (Arena.emptyResults names)) as (Hb2 & Hm2 & _).
  split.
  - by rewrite !withAverages_accumulators.
  - apply averages_eq.
    + by rewrite Hb1, Hb2.
    + done.
    + by rewrite Hm1, Hm2.
    + by rewrite Hm1.
    + by rewrite Hm1.
Qed.

(** Three games between three bots, arriving as [r1, r2, r3] in one
    matchup entry and as [r3, r1, r2] split over two. *)
Lemma aggregateResults_order_independent_witness :
  let r1 := Game.mk 0 1 0 30 15 9 in
  let r2 := Game.mk 0 2 1 28 10 16 in
  let r3 := Game.mk 1 2 0 33 15 14 in
  let names := ["Balanced"; "Aggressive"; "Economic"] in
  let ms1 := [Matchup.mk "all" [r1; r2; r3]] in
  let ms2 := [Matchup.mk "late" [r3]; Matchup.mk "early" [r1; r2]] in
  Arena.accumulators (Arena.aggregateResults names ms1)
    = Arena.accumulators (Arena.aggregateResults names ms2) ∧
  Arena.averages (Arena.aggregateResults names ms1)
    = Arena.averages (Arena.aggregateResults names ms2).
Proof.
  intros r1 r2 r3 names ms1 ms2.
  apply (aggregateResults_order_independent names ms1 ms2).
  - simpl. apply Permutation_sym, (Permutation_app_comm [r3] [r1; r2]).
  - simpl. repeat (apply Forall_cons_2; [unfold Arena.counted; simpl; lia|]).
    apply Forall_nil_2.
  - simpl. lia.
Defined.

(** C6, where it differs. A sum of doubles is rounded once it needs more
    than 53 digits, and then the order shows.  Bot 0 scores [2^53], [1]
    and [1] points in three games: in this order its [totalPoints] is
    [2^53], as each [+ 1] is rounded away, and with the large score last
    it is [2^53 + 2]; the averages differ with it. *)
Lemma aggregateResults_order_shows_above_2_53 :
  let r1 := Game.mk 0 1 0 30 9007199254740992 0 in
  let r2 := Game.mk 0 1 0 30 1 0 in
  let names := ["Balanced"; "Aggressive"] in
  let ms1 := [Matchup.mk "bot0_vs_bot1" [r1; r2; r2]] in
  let ms2 := [Matchup.mk "bot0_vs_bot1" [r2; r2; r1]] in
  ms1 ≫= Matchup.results ≡ₚ ms2 ≫= Matchup.results ∧
  Js.fget (Arena.totalPoints (Arena.aggregateResults names ms1)) 0
    = Js.ofZ 9007199254740992 ∧
  Js.fget (Arena.totalPoints (Arena.aggregateResults names ms2)) 0
    = Js.ofZ 9007199254740994 ∧
  Arena.accumulators (Arena.aggregateResults names ms1)
    ≠ Arena.accumulators (Arena.aggregateResults names ms2) ∧
  Arena.averages (Arena.aggregateResults names ms1)
    ≠ Arena.averages (Arena.aggregateResults names ms2).
Proof.
  intros r1 r2 names ms1 ms2. split_and!.
  - simpl. apply (Permutation_app_comm [r1] [r2; r2]).
  - by vm_compute.
  - by vm_compute.
  - by vm_compute.
  - by vm_compute.
Qed.

(** *** The balance of wins and losses *)

(** C7. For every competitor [i] and every list of match results,
    [wins[i] + losses[i] == gamesPlayed[i]] holds after each single result
    has been folded in (after every prefix of the results), and in the
    object that [aggregateResults] returns. *)
Theorem wins_plus_losses_is_gamesPlayed
    (names : list string) (ms : list Matchup.t) (k i : nat) :
  i < length names →
  Arena.balanced
    (foldl Arena.addGame (Arena.emptyResults names)
       (take k (ms ≫= Matchup.results))) i ∧
  Arena.balanced (Arena.aggregateResults names ms) i.
Proof.
  intros Hi. split.
  - by apply balanced_foldl, balanced_empty.
  - unfold Arena.aggregateResults. rewrite collect_flat.
    pose proof (balanced_foldl (ms ≫= Matchup.results)
      (Arena.emptyResults names) i (balanced_empty names i Hi)) as Hb.
    exact Hb.
Qed.

Lemma wins_plus_losses_is_gamesPlayed_witness :
  let ms := [Matchup.mk "bot0_vs_bot1"
               [Game.mk 0 1 0 30 15 9; Game.mk 0 1 1 28 10 15]] in
  Arena.balanced
    (foldl Arena.addGame (Arena.emptyResults ["Balanced"; "Flexible"])
       (take 1 (ms ≫= Matchup.results))) 1 ∧
  Arena.balanced (Arena.aggregateResults ["Balanced"; "Flexible"] ms) 1.
Proof.
  intros ms.
  apply (wins_plus_losses_is_gamesPlayed ["Balanced"; "Flexible"] ms 1 1).
  simpl. lia.
Defined.

(** *** The win rate column *)

Example winRateOf_3_1 : Arena.winRateOf (Js.Int 3) (Js.Int 1) = Js.ofZ 75.
Proof. vm_compute. reflexivity. Qed.

Example winRateOf_1_2_tenths :
  Js.toFixed1 (Js.fmul (Js.fdiv (Js.ofZ 1) (Js.ofZ 3)) (Js.ofZ 100))
    = Js.FxDec false 333.
Proof. vm_compute. reflexivity. Qed.

(** C8, where it differs. Before any game is recorded every bot has
    [wins + losses = 0]; its win rate is then the number [0], not the
    text [N/A], while the average turn count of the same row is [N/A]. *)
Lemma winRate_without_games_is_zero :
  let r := Arena.aggregateResults ["Balanced"; "Flexible"] [] in
  Arena.calculateWinRates (Some r)
    = Some [Arena.rowOf r 0 "Balanced"; Arena.rowOf r 1 "Flexible"] ∧
  Js.add (Arena.row_wins (Arena.rowOf r 0 "Balanced"))
         (Arena.row_losses (Arena.rowOf r 0 "Balanced")) = Js.Int 0 ∧
  Arena.winRate (Arena.rowOf r 0 "Balanced") = Js.VNum (S754_zero false) ∧
  Arena.winRate (Arena.rowOf r 0 "Balanced") ≠ Js.VStr "N/A" ∧
  Arena.row_avgWinTurns (Arena.rowOf r 0 "Balanced") = Js.VStr "N/A".
Proof. vm_compute. split_and!; done. Qed.

(** C8, as the code has it. For every competitor [idx], with
    [w = wins[idx]] and [l = losses[idx]]: when [w + l] is positive the
    win rate is the number [parseFloat((w / (w + l) * 100).toFixed(1))],
    the ratio as a percentage with one decimal; when [w + l] is zero it
    is the number [0]. *)
Theorem calculateWinRates_winRate
    (r : Arena.Results) (rows : list Arena.Row) (idx : nat) (row : Arena.Row)
    (w l : Z) :
  Arena.calculateWinRates (Some r) = Some rows →
  rows !! idx = Some row →
  Js.get (Arena.wins r) idx = Js.Int w →
  Js.get (Arena.losses r) idx = Js.Int l →
  ((0 < w + l)%Z →
     Arena.winRate row =
       Js.VNum (Js.parseFixed1 (Js.toFixed1
         (Js.fmul (Js.fdiv (Js.ofZ w) (Js.ofZ (w + l))) (Js.ofZ 100))))) ∧
  ((w + l = 0)%Z → Arena.winRate row = Js.VNum (S754_zero false)).
Proof.
  intros [= <-] Hrow Hw Hl.
  apply list_lookup_imap_Some in Hrow as (name & _ & ->).
  unfold Arena.rowOf, Arena.winRateOf; simpl. rewrite Hw, Hl. simpl.
  split; intros H.
  - by rewrite bool_decide_true.
  - by rewrite bool_decide_false by lia.
Qed.

Lemma calculateWinRates_winRate_witness :
  let g1 := Game.mk 0 1 0 30 15 9 in
  let g2 := Game.mk 0 1 1 28 10 15 in
  let r := Arena.aggregateResults ["Balanced"; "Flexible"; "Economic"]
             [Matchup.mk "bot0_vs_bot1" [g1; g2; g1; g1]] in
  Arena.winRate (Arena.rowOf r 0 "Balanced") = Js.VNum (Js.ofZ 75).
Proof.
  intros g1 g2 r.
  destruct (calculateWinRates_winRate r
    [Arena.rowOf r 0 "Balanced"; Arena.rowOf r 1 "Flexible";
     Arena.rowOf r 2 "Economic"] 0 (Arena.rowOf r 0 "Balanced") 3 1)
    as [Hpos _]; [reflexivity..|].
  rewrite Hpos by reflexivity. vm_compute. reflexivity.
Defined.

(** ** The worker pool *)

Section PoolFacts.

Context {BotConfig : Type}.

Import ArenaWorkerPool.

Implicit Types (s : Pool BotConfig) (w : nat) (tasks : list (Arena.Task BotConfig)).



(** With work left, a task queued and one worker to take it, that worker
    gets the head of the queue. *)
Lemma processNextTask_assign s task queue w available inbox :
  completedTasks s < totalTasks s →
  taskQueue s = task :: queue →
  availableWorkers s = w :: available →
  workers s !! w = Some inbox →
  ∃ s', processNextTask s = Ok s' ∧
    taskQueue s' = queue ∧ availableWorkers s' = available ∧
    busyWorkers s' = {[w]} ∪ busyWorkers s ∧
    workers s' = <[w := inbox ++ [task]]> (workers s) ∧
    results s' = results s ∧ completedTasks s' = completedTasks s ∧
    totalTasks s' = totalTasks s ∧ workerCount s' = workerCount s ∧
    resolveComplete s' = resolveComplete s ∧ settled s' = settled s.
Proof.
  intros Hlt Hq Ha Hw. unfold processNextTask.
  rewrite bool_decide_false by lia. rewrite Hq, Ha. simpl. rewrite Hw.
  eexists. split; [done|]. done.
Qed.

(** Replacing one inbox moves its tasks in and out of the tasks in
    flight. *)
Lemma concat_insert_perm {A} (ws : list (list A)) w (x y : list A) :
  ws !! w = Some x → x ++ concat (<[w := y]> ws) ≡ₚ y ++ concat ws.
Proof.
  intros Hw.
  rewrite <- (take_drop_middle ws w x Hw) at 2.
  rewrite insert_take_drop by (by eapply lookup_lt_Some).
  rewrite !concat_app. simpl.
  rewrite !(Permutation_app_swap_app _ (concat (take w ws))).
  by rewrite (Permutation_app_swap_app x y).
Qed.

Lemma alter_tail_insert {A} (ws : list (list A)) w (x : list A) :
  ws !! w = Some x → alter tail w ws = <[w := tail x]> ws.
Proof.
  intros Hw. apply list_eq. intros i.
  destruct (decide (i = w)) as [->|Hne].
  - rewrite list_lookup_alter_eq, Hw.
    by rewrite list_lookup_insert_eq by (by eapply lookup_lt_Some).
  - by rewrite list_lookup_alter_ne, list_lookup_insert_ne.
Qed.

Lemma inv_inbox_busy tasks d evs n s w task :
  inv tasks d evs n s → taskOf s w = Some task →
  workers s !! w = Some [task] ∧ w ∈ busyWorkers s ∧ w < workerCount s.
Proof.
  intros Hinv Ht. unfold taskOf in Ht.
  destruct (workers s !! w) as [inbox|] eqn:Hw; [|done]. simpl in Ht.
  pose proof (inv_inbox _ _ _ _ _ Hinv w inbox Hw) as Hin.
  case_bool_decide as Hb.
  - destruct Hin as [task' ->]. simpl in Ht. simplify_eq.
    split_and!; [done|done|]. by eapply inv_busy.
  - subst inbox. done.
Qed.

Lemma inv_counts tasks d evs n s :
  inv tasks d evs n s →
  n + length (concat (workers s)) + length (taskQueue s) = length tasks.
Proof.
  intros Hinv. destruct (inv_tasks _ _ _ _ _ Hinv) as (succ & failed & _ & -> & Hp).
  apply Permutation_length in Hp. rewrite !length_app in Hp. lia.
Qed.

Lemma length_concat_lookup {A} (ws : list (list A)) w (x : list A) :
  ws !! w = Some x → length x ≤ length (concat ws).
Proof.
  intros Hw. rewrite <- (take_drop_middle ws w x Hw).
  rewrite concat_app, length_app. simpl. rewrite length_app. lia.
Qed.

(** One call of [processNextTask] while the promise is pending: it
    resolves the promise when the last task is done, and otherwise makes
    one assignment if it can. *)
Lemma processNextTask_inv tasks d evs n promise log s :
  inv tasks d evs n s → pending promise log s →
  ∃ s', processNextTask s = Ok s' ∧
        inv tasks (d - 1) evs n s' ∧ promised tasks promise log s'.
Proof.
  intros Hinv [Hres Hlog].
  pose proof (inv_counts _ _ _ _ _ Hinv) as Hcount.
  destruct Hinv as [Hws Hpos Htot Hnd Hav Hbusy Hinbox Hrs Hn Htasks Hbatch].
  unfold processNextTask. rewrite Htot, Hn. case_bool_decide as Hdone.
  - rewrite Hres. eexists. split; [done|]. split.
    + split; simpl; try done. lia.
    + split; simpl; [lia|]. by rewrite Hlog.
  - destruct (taskQueue s) as [|task queue] eqn:Hq.
    { eexists. split; [done|]. split.
      - split; rewrite ?Hq; try done. simpl in *. lia.
      - split; [done|]. rewrite Hn. lia. }
    destruct (availableWorkers s) as [|w available] eqn:Ha.
    { eexists. split; [done|]. split.
      - split; rewrite ?Hq, ?Ha; try done. simpl in *. lia.
      - split; [done|]. rewrite Hn. lia. }
    simpl.
    assert (w < workerCount s ∧ w ∉ busyWorkers s) as [Hw Hnb].
    { apply Hav. by left. }
    destruct (proj1 (Hws w) Hw) as [inbox Hlk]. rewrite Hlk.
    pose proof (Hinbox w inbox Hlk) as Hin.
    rewrite bool_decide_false in Hin by done. subst inbox.
    apply NoDup_cons in Hnd as [Hwa Hnd].
    eexists. split; [done|]. split.
    + split; simpl; try done.
      * intros w0. rewrite Hws, !lookup_lt_is_Some. by rewrite length_insert.
      * intros w0. specialize (Hav w0).
        rewrite elem_of_cons in Hav. split.
        -- intros Hw0. destruct Hav as [[? ?] _]; [by right|].
           split; [done|]. set_solver.
        -- intros [? Hnot]. destruct Hav as [_ [->|?]]; [set_solver| |done].
           set_solver.
      * intros w0 [->%elem_of_singleton|?]%elem_of_union; [done|]. by apply Hbusy.
      * intros w0 inbox Hlk0. destruct (decide (w0 = w)) as [->|Hne].
        -- rewrite list_lookup_insert_eq in Hlk0 by (by eapply lookup_lt_Some).
           rewrite bool_decide_true by set_solver. simplify_eq. by eexists.
        -- rewrite list_lookup_insert_ne in Hlk0 by done.
           specialize (Hinbox w0 inbox Hlk0).
           case_bool_decide; case_bool_decide; try done; set_solver.
      * destruct Htasks as (succ & failed & Hids & Hlen & Hp).
        exists succ, failed. split_and!; [done..|].
        rewrite <- Hp.
        do 2 apply Permutation_app_head.
        pose proof (concat_insert_perm (workers s) w [] [task] Hlk) as Hc.
        simpl in Hc. rewrite Hc. simpl. apply Permutation_middle.
      * simpl in Hbatch. lia.
    + split; [done|]. simpl. rewrite Hn. lia.
Qed.

(** The state in which the three handlers that end a task call
    [processNextTask]: the worker has been moved from the busy set to the
    end of the available list and the task has been counted. *)
Lemma inv_release tasks evs evs' n s s' w task :
  inv tasks 0 evs n s →
  taskOf s w = Some task →
  workers s' = alter tail w (workers s) →
  availableWorkers s' = availableWorkers s ++ [w] →
  busyWorkers s' = busyWorkers s ∖ {[w]} →
  taskQueue s' = taskQueue s →
  completedTasks s' = S n →
  totalTasks s' = totalTasks s →
  workerCount s' = workerCount s →
  results s' = completions evs' →
  (completions evs' = completions evs ∨
   ∃ rs, completions evs' = completions evs ++ [Matchup.mk (Arena.matchupId task) rs]) →
  inv tasks (length (taskQueue s) `min` 1) evs' (S n) s'.
Proof.
  intros Hinv Htask Hws' Hav' Hbusy' Hq' Hn' Htot' Hwc' Hrs' Hevs'.
  destruct (inv_inbox_busy _ _ _ _ _ _ _ Hinv Htask) as (Hlk & Hwb & Hw).
  destruct Hinv as [Hws Hpos Htot Hnd Hav Hbusy Hinbox Hrs Hn Htasks Hbatch].
  assert (w ∉ availableWorkers s) as Hwa by (rewrite Hav; tauto).
  split.
  - intros w0. rewrite Hwc', Hws', Hws, !lookup_lt_is_Some.
    by rewrite length_alter.
  - by rewrite Hwc'.
  - by rewrite Htot'.
  - rewrite Hav'. apply NoDup_app. split_and!; [done| |apply NoDup_singleton].
    intros w0 Hw0 ->%list_elem_of_singleton. done.
  - intros w0. rewrite Hav', Hbusy', Hwc', elem_of_app, list_elem_of_singleton, Hav.
    destruct (decide (w0 = w)) as [->|Hne]; set_solver.
  - intros w0. rewrite Hbusy', Hwc'. intros Hw0. apply Hbusy. set_solver.
  - intros w0 inbox. rewrite Hws', Hbusy'.
    destruct (decide (w0 = w)) as [->|Hne].
    + rewrite list_lookup_alter_eq, Hlk. simpl. intros [= <-].
      rewrite bool_decide_false by set_solver. done.
    + rewrite list_lookup_alter_ne by done. intros Hlk0.
      specialize (Hinbox w0 inbox Hlk0).
      case_bool_decide; case_bool_decide; try done; set_solver.
  - done.
  - done.
  - destruct Htasks as (succ & failed & Hids & Hlen & Hp).
    assert (concat (workers s) ≡ₚ task :: concat (workers s')) as Hc.
    { rewrite Hws', (alter_tail_insert _ _ _ Hlk). simpl.
      symmetry. apply (concat_insert_perm (workers s) w [task] [] Hlk). }
    rewrite Hq'. destruct Hevs' as [Heq|[rs Heq]]; rewrite Heq.
    + exists succ, (failed ++ [task]). split_and!; [done|..].
      * rewrite length_app. simpl. lia.
      * by rewrite <- Hp, Hc, <- !app_assoc.
    + exists (succ ++ [task]), failed. split_and!.
      * rewrite !fmap_app, Hids. done.
      * rewrite length_app. simpl. lia.
      * rewrite <- Hp, Hc, <- !app_assoc. simpl.
        apply Permutation_app_head, Permutation_middle.
  - rewrite Hq', Hav', length_app. simpl. lia.
Qed.

(** [run_cons] with the count given. *)
Lemma run_step s e s1 evs n m s' :
  conforms s e → dispatch s e = Ok s1 →
  m = (if terminal s e then 1 else 0) + n →
  run s1 evs n s' → run s (e :: evs) m s'.
Proof. intros ?? ->. by apply run_cons. Qed.

Lemma completions_app (evs1 evs2 : list Event) :
  completions (evs1 ++ evs2) = completions evs1 ++ completions evs2.
Proof. unfold completions. apply bind_app. Qed.

(** A task with a worker is a task that is not done yet. *)
Lemma inv_unfinished tasks d evs n s w task :
  inv tasks d evs n s → taskOf s w = Some task → n < length tasks.
Proof.
  intros Hinv Htask.
  destruct (inv_inbox_busy _ _ _ _ _ _ _ Hinv Htask) as (Hlk & _).
  pose proof (inv_counts _ _ _ _ _ Hinv) as Hcount.
  pose proof (length_concat_lookup _ _ _ Hlk) as Hlen. simpl in Hlen. lia.
Qed.

(** The end of a task, however it ends: the state handed to
    [processNextTask] and what comes out of it. *)
Lemma finish_inv tasks evs evs' n promise log s s0 w task :
  inv tasks 0 evs n s → promised tasks promise log s →
  taskOf s w = Some task →
  workers s0 = alter tail w (workers s) →
  availableWorkers s0 = availableWorkers s ++ [w] →
  busyWorkers s0 = busyWorkers s ∖ {[w]} →
  taskQueue s0 = taskQueue s →
  completedTasks s0 = S n →
  totalTasks s0 = totalTasks s →
  workerCount s0 = workerCount s →
  resolveComplete s0 = resolveComplete s →
  settled s0 = settled s →
  results s0 = completions evs' →
  (completions evs' = completions evs ∨
   ∃ rs, completions evs' = completions evs ++ [Matchup.mk (Arena.matchupId task) rs]) →
  ∃ s', processNextTask s0 = Ok s' ∧
        inv tasks 0 evs' (S n) s' ∧ promised tasks promise log s'.
Proof.
  intros Hinv Hprom Htask Hws Hav Hbusy Hq Hn Htot Hwc Hres Hset Hrs Hevs.
  pose proof (inv_unfinished _ _ _ _ _ _ _ Hinv Htask) as Hlt.
  pose proof (inv_release _ _ _ _ _ _ _ _ Hinv Htask
    Hws Hav Hbusy Hq Hn Htot Hwc Hrs Hevs) as Hinv0.
  assert (pending promise log s0) as Hpend.
  { destruct Hprom as [Hp _]. rewrite <- (inv_completed _ _ _ _ _ Hinv) in Hlt.
    destruct (Hp Hlt) as [? ?]. split; congruence. }
  destruct (processNextTask_inv _ _ _ _ _ _ _ Hinv0 Hpend) as (s' & Hs' & Hinv' & Hprom').
  exists s'. split_and!; [done| |done].
  replace 0 with (length (taskQueue s) `min` 1 - 1) by lia. done.
Qed.

(** One event from a worker that follows the protocol. *)
Lemma dispatch_inv tasks evs n promise log s e :
  inv tasks 0 evs n s → promised tasks promise log s → conforms s e →
  ∃ s', dispatch s e = Ok s' ∧
        inv tasks 0 (evs ++ [e]) (n + (if terminal s e then 1 else 0)) s' ∧
        promised tasks promise log s'.
Proof.
  intros Hinv Hprom Hconf.
  destruct e as [w [id g|id rs|id err|ty]|w]; simpl in Hconf.
  - (* progress *)
    eexists. split; [done|]. simpl. rewrite Nat.add_0_r.
    destruct Hinv. destruct Hprom.
    split; [split|]; destruct (progressCallback s); simpl;
      rewrite ?completions_app, ?app_nil_r; done.
  - (* the matchup is complete *)
    destruct Hconf as (task & Htask & ->). simpl.
    replace (n + 1) with (S n) by lia.
    eapply (finish_inv tasks evs _ n promise log s _ w task); try done.
    + simpl. by rewrite (inv_completed _ _ _ _ _ Hinv).
    + simpl. by rewrite completions_app, (inv_results _ _ _ _ _ Hinv).
    + right. exists rs. by rewrite completions_app.
  - (* the matchup has failed *)
    destruct Hconf as (task & Htask & ->). simpl.
    replace (n + 1) with (S n) by lia.
    eapply (finish_inv tasks evs _ n promise log s _ w task); try done.
    + simpl. by rewrite (inv_completed _ _ _ _ _ Hinv).
    + simpl. by rewrite completions_app, app_nil_r, (inv_results _ _ _ _ _ Hinv).
    + left. by rewrite completions_app, app_nil_r.
  - done.
  - (* the worker has failed *)
    unfold dispatch, handleWorkerError. simpl.
    destruct (taskOf s w) as [task|] eqn:Htask.
    + destruct (inv_inbox_busy _ _ _ _ _ _ _ Hinv Htask) as (Hlk & Hwb & Hw).
      rewrite bool_decide_true by done.
      rewrite bool_decide_true by (by eexists).
      replace (n + 1) with (S n) by lia.
      eapply (finish_inv tasks evs _ n promise log s _ w task); try done.
      * simpl. by rewrite (inv_completed _ _ _ _ _ Hinv).
      * simpl. by rewrite completions_app, app_nil_r, (inv_results _ _ _ _ _ Hinv).
      * left. by rewrite completions_app, app_nil_r.
    + apply lookup_lt_is_Some in Hconf as [inbox Hlk].
      unfold taskOf in Htask. rewrite Hlk in Htask. simpl in Htask.
      destruct inbox as [|? ?]; [|done].
      pose proof (inv_inbox _ _ _ _ _ Hinv w [] Hlk) as Hin.
      assert (w ∉ busyWorkers s) as Hnb.
      { intros Hb. rewrite bool_decide_true in Hin by done. by destruct Hin. }
      rewrite bool_decide_false by done.
      rewrite bool_decide_false by (by intros [? ?]).
      rewrite Nat.add_0_r.
      assert (alter tail w (workers s) = workers s) as Heq.
      { rewrite (alter_tail_insert _ _ _ Hlk). simpl. by apply list_insert_id. }
      eexists. split; [done|].
      destruct Hinv. destruct Hprom.
      split; [split|]; simpl; rewrite ?Heq, ?completions_app, ?app_nil_r; done.
Qed.

(** The first assignments, made by [runTasks] itself. *)
Lemma startBatch_inv tasks evs n promise log m : ∀ d s,
  m ≤ d → n < length tasks →
  inv tasks d evs n s → pending promise log s →
  ∃ s', startBatch m s = Ok s' ∧
        inv tasks (d - m) evs n s' ∧ promised tasks promise log s'.
Proof.
  induction m as [|m IH]; intros d s Hm Hn Hinv Hpend.
  - exists s. split; [done|]. rewrite Nat.sub_0_r. split; [done|].
    split; [done|]. rewrite (inv_completed _ _ _ _ _ Hinv). lia.
  - destruct (processNextTask_inv _ _ _ _ _ _ _ Hinv Hpend)
      as (s1 & Hs1 & Hinv1 & Hprom1).
    simpl. rewrite Hs1.
    destruct (IH (d - 1) s1) as (s' & Hs' & Hinv' & Hprom'); [lia|done|done| |].
    { apply Hprom1. rewrite (inv_completed _ _ _ _ _ Hinv1). done. }
    exists s'. split; [done|]. split; [|done].
    by replace (d - S m) with (d - 1 - m) by lia.
Qed.

Lemma run_inv tasks promise log s evs n s' :
  run s evs n s' → ∀ evs0 n0,
  inv tasks 0 evs0 n0 s → promised tasks promise log s →
  inv tasks 0 (evs0 ++ evs) (n0 + n) s' ∧ promised tasks promise log s'.
Proof.
  induction 1 as [s|s e s1 evs n s' Hconf Hdisp _ IH]; intros evs0 n0 Hinv Hprom.
  - by rewrite app_nil_r, Nat.add_0_r.
  - destruct (dispatch_inv _ _ _ _ _ _ _ Hinv Hprom Hconf)
      as (s1' & Hs1' & Hinv1 & Hprom1).
    rewrite Hdisp in Hs1'. injection Hs1' as <-.
    destruct (IH _ _ Hinv1 Hprom1) as [Hinv' Hprom'].
    split; [|done].
    rewrite <- app_assoc in Hinv'. simpl in Hinv'.
    by rewrite Nat.add_assoc.
Qed.

Lemma concat_all_nil {A} (ws : list (list A)) :
  Forall (λ x, x = []) ws → concat ws = [].
Proof. induction 1 as [|x ws -> _ IH]; [done|]. by simpl. Qed.


(** What [runTasks] sets up before the first call of [processNextTask]. *)
Lemma submission_inv s0 tasks callback :
  idle s0 → 0 < workerCount s0 →
  let s1 := set_submission tasks (length tasks) 0 [] callback
    (foldl (λ sum task, (sum + Arena.gamesPerMatchup task)%Z) 0%Z tasks) 0 s0 in
  let s2 := set_callbacks (Some (nextPromise s1)) (Some (nextPromise s1))
    (set_nextPromise (S (nextPromise s1)) s1) in
  inv tasks (length tasks `min` workerCount s0) [] 0 s2 ∧
  pending (nextPromise s0) (settled s0) s2.
Proof.
  intros (Hws & Hbusy & Hav & Hin & _) Hpos s1 s2. split; [|done].
  split; simpl; try done.
  - intros w. by rewrite Hws, lookup_lt_is_Some.
  - rewrite Hav. apply NoDup_seq.
  - intros w. rewrite Hav, Hbusy, elem_of_seq. set_solver by lia.
  - intros w. rewrite Hbusy. set_solver.
  - intros w inbox Hlk. rewrite Hbusy, bool_decide_false by set_solver.
    by eapply (Forall_lookup_1 _ _ _ _ Hin).
  - exists [], []. rewrite (concat_all_nil _ Hin). done.
  - apply Permutation_length in Hav. rewrite length_seq in Hav. lia.
Qed.


(** The pool from the submission of [tasks] on. *)
Lemma runTasks_inv s0 tasks callback evs n s' :
  idle s0 → 0 < workerCount s0 → 0 < length tasks →
  run (runTasks tasks callback s0).1 evs n s' →
  (runTasks tasks callback s0).2 = nextPromise s0 ∧
  inv tasks 0 evs n s' ∧
  promised tasks (nextPromise s0) (settled s0) s'.
Proof.
  intros Hidle Hpos Hlen Hrun.
  destruct (submission_inv s0 tasks callback Hidle Hpos) as [Hinv Hpend].
  unfold runTasks in *. cbv zeta in *. simpl in Hrun |- *.
  rewrite bool_decide_false in Hrun |- * by lia.
  edestruct (startBatch_inv tasks [] 0 (nextPromise s0) (settled s0)
    (length tasks `min` workerCount s0)) as (s1 & Hs1 & Hinv1 & Hprom1);
    [| |exact Hinv|exact Hpend|]; [lia..|].
  rewrite Nat.sub_diag in Hinv1. simpl in Hs1.
  rewrite Hs1 in Hrun |- *. simpl in Hrun |- *. split; [done|].
  apply (run_inv tasks _ _ _ _ _ _ Hrun [] 0 Hinv1 Hprom1).
Qed.


(** An error event from a worker that is not busy changes nothing. *)
Lemma handleWorkerError_not_busy s w :
  w ∉ busyWorkers s → handleWorkerError w s = Ok s.
Proof. intros Hw. unfold handleWorkerError. by rewrite bool_decide_false. Qed.


(** C10. [runTasks] with an empty task list resolves the promise it
    returns at once, with the empty result list, whatever state the pool
    is in: no worker is given anything and no event is waited for. *)
Theorem runTasks_empty_resolves_immediately
    (s : Pool BotConfig) (callback : bool) :
  let s' := (runTasks [] callback s).1 in
  let promise := (runTasks [] callback s).2 in
  promise = nextPromise s ∧
  settled s' = settled s ++ [(promise, Resolved [])] ∧
  workers s' = workers s ∧
  busyWorkers s' = busyWorkers s ∧
  availableWorkers s' = availableWorkers s.
Proof. done. Qed.

End PoolFacts.

(** *** A failed task leaves no entry *)




(** *** A worker error *)



(** ** The arena worker *)

Section WorkerFacts.

Context {BotConfig Engine : Type}.
Variable runSingleMatchup :
  Engine → ArenaWorker.Call BotConfig → Engine * (string + list Game.t).

Implicit Types (task : Arena.Task BotConfig) (st : ArenaWorker.Loop BotConfig Engine).

Lemma playGame_calls task st gameNum :
  match ArenaWorker.playGame runSingleMatchup task st gameNum with
  | inl st' | inr (st', _) =>
      ArenaWorker.calls st' = ArenaWorker.calls st ++ [ArenaWorker.callOf task]
  end.
Proof.
  unfold ArenaWorker.playGame.
  by destruct (runSingleMatchup _ _) as [engine' [error|results]].
Qed.

Lemma gameLoop_calls task gameNums : ∀ st,
  match ArenaWorker.gameLoop runSingleMatchup task st gameNums with
  | inl st' =>
      ArenaWorker.calls st'
        = ArenaWorker.calls st ++ replicate (length gameNums) (ArenaWorker.callOf task)
  | inr (st', _) =>
      ∃ k, k ≤ length gameNums ∧
        ArenaWorker.calls st' = ArenaWorker.calls st ++ replicate k (ArenaWorker.callOf task)
  end.
Proof.
  induction gameNums as [|gameNum rest IH]; intros st; simpl.
  - by rewrite app_nil_r.
  - pose proof (playGame_calls task st gameNum) as Hplay.
    destruct (ArenaWorker.playGame _ _ _ _) as [st1|[st1 error]].
    + specialize (IH st1).
      destruct (ArenaWorker.gameLoop _ _ _ _) as [st2|[st2 error]].
      * rewrite IH, Hplay, <- app_assoc. done.
      * destruct IH as (k & Hk & ->). exists (S k). split; [lia|].
        rewrite Hplay, <- app_assoc. done.
    + exists 1. split; [simpl; lia|]. by rewrite Hplay.
Qed.

(** C9, what the handler does. Every game of a matchup is requested from
    the engine with the same arguments [(bot1, bot2, bot1Index,
    bot2Index, 1)]: [startingPlayer = gameNum % 2] is computed and not
    passed on, so the handler does nothing to make the two bots take
    turns in moving first.  [k] is the number of games requested, all
    [gamesPerMatchup] of them unless the engine throws. *)
Theorem runMatchup_requests_every_game_alike
    (arenaWrapper : Engine) (task : Arena.Task BotConfig) :
  ∃ k, k ≤ Z.to_nat (Arena.gamesPerMatchup task) ∧
    (ArenaWorker.runMatchup runSingleMatchup (Some arenaWrapper) task).2
      = replicate k (ArenaWorker.callOf task).
Proof.
  unfold ArenaWorker.runMatchup.
  match goal with
  | |- context [ArenaWorker.gameLoop _ _ ?x _] => set (start := x)
  end.
  pose proof (gameLoop_calls task
    (seq 0 (Z.to_nat (Arena.gamesPerMatchup task))) start) as Hloop.
  rewrite length_seq in Hloop.
  destruct (ArenaWorker.gameLoop _ _ _ _) as [st|[st error]].
  - exists (Z.to_nat (Arena.gamesPerMatchup task)). split; [done|]. by rewrite Hloop.
  - destruct Hloop as (k & Hk & ->). by exists k.
Qed.

End WorkerFacts.

(** A matchup of two games on an engine that lets its first bot win every
    game: the second game is requested exactly like the first. *)
Example runMatchup_two_games :
  let engine (e : unit) (c : ArenaWorker.Call unit) :=
    (e, inr [Game.mk (ArenaWorker.call_bot1Index c) (ArenaWorker.call_bot2Index c)
               0 30 15 9] : string + list Game.t) in
  let task := Arena.taskFor (λ _, tt) 2 0 1 in
  (ArenaWorker.runMatchup engine (Some tt) task).2
    = [ArenaWorker.mkCall tt tt 0 1 1; ArenaWorker.mkCall tt tt 0 1 1].
Proof. by vm_compute. Qed.

(** ** The AI worker proxy *)

Section ProxyFacts.

Context {GameState Action : Type}.
Variable selectActionJSON : bool → GameState → Z → option Action.
Variable moduleAvailable : bool.

Import AIWorkerProxy.

Local Abbreviation Proxy := (AIWorkerProxy.Proxy GameState Action).
Local Abbreviation step := (AIWorkerProxy.step selectActionJSON moduleAvailable).
Local Abbreviation steps := (AIWorkerProxy.steps selectActionJSON moduleAvailable).
Local Abbreviation fire := (AIWorkerProxy.fire selectActionJSON moduleAvailable).

Implicit Types (s : Proxy) (id : string) (h promise : nat) (due now : Z).

Lemma requestId_inj : Inj (=) (=) requestId.
Proof.
  intros n m Heq. unfold requestId in Heq. simpl in Heq.
  injection Heq as Heq. by apply (inj pretty).
Qed.

Lemma settlements_settle promise q (st : Settlement Action) s :
  settlements promise (settle q st s)
    = settlements promise s ++ (if decide (q = promise) then [st] else []).
Proof.
  unfold settlements, settle. simpl. rewrite bind_app. csimpl.
  unfold settlementOf at 2. simpl. by rewrite app_nil_r.
Qed.

Lemma settlements_settle_ne promise q (st : Settlement Action) s :
  q ≠ promise → settlements promise (settle q st s) = settlements promise s.
Proof.
  intros Hne. by rewrite settlements_settle, decide_False, app_nil_r.
Qed.

Lemma settlements_fresh promise s :
  Forall (λ st, st.1 < promise) (settled s) → settlements promise s = [].
Proof.
  unfold settlements. induction 1 as [|[q st] log Hq _ IH]; [done|].
  csimpl. rewrite IH. unfold settlementOf. simpl in *.
  by rewrite decide_False by lia.
Qed.

(** What a handler may do without disturbing a request that is waiting:
    keep its timer, settle other promises only, and leave behind only
    entries and timers that were there before or that belong to other
    requests. *)
Lemma awaiting_mono id promise h due s s' :
  awaiting id promise h due s →
  timers s' !! h = Some (RequestTimeout due id promise) →
  settlements promise s' = settlements promise s →
  (∀ id' r, pendingRequests s' !! id' = Some r →
     pendingRequests s !! id' = Some r ∨
     (id' ≠ id ∧ resolve r ≠ promise ∧ reject r ≠ promise ∧ timeout r ≠ h)) →
  (∀ h' t, h' ≠ h → timers s' !! h' = Some t →
     timers s !! h' = Some t ∨ promiseOf t ≠ Some promise) →
  initListener s' ≠ Some h →
  nextPromise s ≤ nextPromise s' →
  nextTimer s ≤ nextTimer s' →
  requestIdCounter s ≤ requestIdCounter s' →
  awaiting id promise h due s'.
Proof.
  intros (Ht & Hs & Hid & Hother & Htimers & Hinit & Hp & Hh & n & Hn & Hc)
    Ht' Hs' Hpend' Htimers' Hinit' Hp' Hh' Hc'.
  split_and!; try done; try lia.
  - by rewrite Hs'.
  - intros r Hr. destruct (Hpend' _ _ Hr) as [Hold|(Hne & _)]; [auto|done].
  - intros id' r Hne Hr. destruct (Hpend' _ _ Hr) as [Hold|(_ & ?)]; [eauto|done].
  - intros h' t Hne Hlk. destruct (Htimers' _ _ Hne Hlk) as [Hold|?]; [eauto|done].
  - exists n. split; [done|lia].
Qed.

Lemma expired_mono id promise s s' :
  expired id promise s →
  settlements promise s' = settlements promise s →
  (∀ id' r, pendingRequests s' !! id' = Some r →
     pendingRequests s !! id' = Some r ∨
     (id' ≠ id ∧ resolve r ≠ promise ∧ reject r ≠ promise)) →
  (∀ h' t, timers s' !! h' = Some t →
     timers s !! h' = Some t ∨ promiseOf t ≠ Some promise) →
  nextPromise s ≤ nextPromise s' →
  requestIdCounter s ≤ requestIdCounter s' →
  expired id promise s'.
Proof.
  intros (Hs & Hid & Hother & Htimers & Hp & n & Hn & Hc)
    Hs' Hpend' Htimers' Hp' Hc'.
  split_and!; try done; try lia.
  - by rewrite Hs'.
  - destruct (pendingRequests s' !! id) as [r|] eqn:Hr; [|done].
    destruct (Hpend' _ _ Hr) as [Hold|(Hne & _)]; [congruence|done].
  - intros id' r Hr. destruct (Hpend' _ _ Hr) as [Hold|(_ & ? & ?)]; [eauto|done].
  - intros h' t Hlk. destruct (Htimers' _ _ Hlk) as [Hold|?]; [eauto|done].
  - exists n. split; [done|lia].
Qed.

(** **** While the request is waiting *)

Lemma awaiting_initializeFallback id promise h due s :
  awaiting id promise h due s →
  awaiting id promise h due (initializeFallback moduleAvailable s).
Proof. unfold initializeFallback. by destruct moduleAvailable. Qed.

Lemma awaiting_initializeFailed id promise h due s :
  awaiting id promise h due s →
  awaiting id promise h due (initializeFailed moduleAvailable s).
Proof. intros H. by apply awaiting_initializeFallback. Qed.

Lemma awaiting_postMessage id promise h due m s :
  awaiting id promise h due s → awaiting id promise h due (postMessage m s).
Proof. unfold postMessage. by destruct (worker s). Qed.

Lemma awaiting_initialize id promise h due wasmPath s :
  awaiting id promise h due s →
  awaiting id promise h due (initialize moduleAvailable wasmPath s).
Proof.
  intros H. unfold initialize.
  destruct (negb (useWorker s)); [by apply awaiting_initializeFallback|].
  simpl. apply awaiting_postMessage.
  pose proof H as (Ht & _ & _ & _ & _ & _ & _ & Hh & _).
  eapply awaiting_mono; [exact H|..]; simpl; try done; try lia; try by left.
  - rewrite lookup_insert_ne by lia. done.
  - intros h' t Hne. rewrite lookup_insert. case_decide; [|by left].
    intros [= <-]. by right.
  - intros [= ?]. lia.
Qed.

Lemma awaiting_getAIAction id promise h due gameState playerId s :
  awaiting id promise h due s →
  awaiting id promise h due (getAIAction gameState playerId s).1.
Proof.
  intros H. unfold getAIAction.
  pose proof H as (Ht & _ & _ & _ & _ & Hinit & Hp & Hh & n & -> & Hn).
  simpl. destruct (isReady s); simpl.
  2:{ eapply awaiting_mono; [exact H|..]; simpl; try done; try lia; try by left.
      etrans; [apply (settlements_settle_ne promise (nextPromise s)); lia|done]. }
  destruct (useWorker s); simpl.
  2:{ eapply awaiting_mono; [exact H|..]; simpl; try done; try lia; try by left.
      - rewrite lookup_insert_ne by lia. done.
      - intros h' t Hne. rewrite lookup_insert. case_decide; [|by left].
        intros [= <-]. right. simpl. intros [= ?]. lia. }
  destruct (worker s) eqn:Hw; simpl; [apply awaiting_postMessage|];
    (eapply awaiting_mono; [exact H|..]; simpl; try done; try lia).
  all: try (rewrite lookup_insert_ne by lia; done).
  all: try (etrans;
    [apply (settlements_settle_ne promise (S (nextPromise s))); lia|done]).
  all: try (intros id' r; rewrite lookup_insert; case_decide as Hid; [|by left];
    intros [= <-]; right; simpl; split_and!; try lia;
    intros Heq; rewrite <- Hid in Heq; apply requestId_inj in Heq; lia).
  all: intros h' t Hne; rewrite lookup_insert; (case_decide; [|by left]);
    intros [= <-]; right; simpl; intros [= ?]; lia.
Qed.

Lemma awaiting_terminate id promise h due s :
  awaiting id promise h due s → awaiting id promise h due (terminate s).
Proof.
  intros H. unfold terminate.
  eapply awaiting_mono; [exact H|..]; destruct (worker s); simpl; try done;
    try by left.
  all: by destruct H as (? & _ & _ & _ & _ & ? & _).
Qed.

(** A reply for another request: its timer is cleared, its entry
    deleted and its promise settled. *)
Lemma awaiting_answer id promise h due i r q (st : Settlement Action) s :
  pendingRequests s !! i = Some r →
  q = resolve r ∨ q = reject r →
  i ≠ id →
  awaiting id promise h due s →
  awaiting id promise h due
    (settle q st
       (set_pendingRequests (delete i (pendingRequests s))
          (clearTimeout (timeout r) s))).
Proof.
  intros Hr Hq Hne H.
  pose proof H as (Ht & _ & _ & Hother & _ & Hinit & _).
  destruct (Hother i r Hne Hr) as (Hres & Hrej & Hto).
  eapply awaiting_mono; [exact H|..]; simpl; try done.
  - by rewrite lookup_delete_ne.
  - etrans; [apply settlements_settle_ne|done]. by destruct Hq as [-> | ->].
  - intros i' r'. rewrite lookup_delete. case_decide; [done|by left].
  - intros h' t _. rewrite lookup_delete. case_decide; [done|by left].
Qed.

Lemma awaiting_handleMessage id promise h due m s :
  match m with
  | AI_ACTION_RESULT id' _ | AI_ERROR id' _ => id' ≠ Some id
  | _ => True
  end →
  awaiting id promise h due s → awaiting id promise h due (handleMessage m s).
Proof.
  intros Hm H.
  destruct m as [[i|] action|[i|] error|progress| | |]; simpl; try done.
  - destruct (pendingRequests s !! i) as [r|] eqn:Hr; [|done].
    apply awaiting_answer; auto. congruence.
  - destruct (pendingRequests s !! i) as [r|] eqn:Hr; [|done].
    apply awaiting_answer; auto. congruence.
  - unfold handleProgress. by destruct (progressCallback s).
Qed.

Lemma awaiting_clearTimeout id promise h due h' s :
  h' ≠ h → awaiting id promise h due s → awaiting id promise h due (clearTimeout h' s).
Proof.
  intros Hne H. pose proof H as (Ht & _ & _ & _ & _ & Hinit & _).
  eapply awaiting_mono; [exact H|..]; simpl; try done; try by left.
  - by rewrite lookup_delete_ne.
  - intros h'' t _. rewrite lookup_delete. case_decide; [done|by left].
Qed.

Lemma awaiting_initHandler id promise h due m s :
  awaiting id promise h due s →
  awaiting id promise h due (initHandler moduleAvailable m s).
Proof.
  intros H. unfold initHandler.
  destruct (initListener s) as [h'|] eqn:Hl; [|done].
  assert (h' ≠ h) as Hne.
  { destruct H as (_ & _ & _ & _ & _ & Hinit & _). congruence. }
  assert (awaiting id promise h due (set_initListener None s)) as H1.
  { pose proof H as (Ht & _).
    eapply awaiting_mono; [exact H|..]; simpl; try done; by left. }
  destruct m; try done.
  - by apply (awaiting_clearTimeout _ _ _ _ h') in H1.
  - case_bool_decide; [|done].
    by apply awaiting_initializeFailed, awaiting_clearTimeout.
Qed.

Lemma awaiting_fire id promise h due h' t s :
  h' ≠ h → timers s !! h' = Some t →
  awaiting id promise h due s → awaiting id promise h due (fire h' t s).
Proof.
  intros Hne Hlk H.
  pose proof H as (Ht & _ & _ & _ & Htimers & Hinit & _).
  pose proof (Htimers h' t Hne Hlk) as Hp.
  pose proof (awaiting_clearTimeout _ _ _ _ h' s Hne H) as H1.
  unfold AIWorkerProxy.fire. destruct t as [due' id' q|due'|due' q gs pid].
  - pose proof H1 as (Ht1 & _ & _ & _ & _ & Hinit1 & _).
    eapply awaiting_mono; [exact H1|..]; simpl; try done; try by left.
    + etrans; [apply settlements_settle_ne|done]. simpl in Hp. congruence.
    + intros i r. rewrite lookup_delete. case_decide; [done|by left].
  - by apply awaiting_initializeFailed.
  - destruct (fallbackWasm _); [|done].
    destruct (selectActionJSON _ _ _); [|done].
    pose proof H1 as (Ht1 & _ & _ & _ & _ & Hinit1 & _).
    eapply awaiting_mono; [exact H1|..]; simpl; try done; try by left.
    etrans; [apply settlements_settle_ne|done]. simpl in Hp. congruence.
Qed.

(** An event that leaves the request alone leaves it waiting. *)
Lemma awaiting_step id promise h due now e s s' :
  quiet id h e → step now e s = Some s' →
  awaiting id promise h due s → awaiting id promise h due s'.
Proof.
  intros Hq Hstep H. unfold AIWorkerProxy.step in Hstep.
  case_bool_decide as Hnow; [done|].
  assert (awaiting id promise h due (set_clock now s)) as Hclk by done.
  destruct e as [path|gs pid| |d|t|b| |w m|w|h']; simplify_eq.
  - by apply awaiting_initialize.
  - by apply awaiting_getAIAction.
  - by apply awaiting_terminate.
  - unfold setDifficulty. destruct (_ && _); [apply awaiting_postMessage|]; done.
  - unfold setTimeLimit. destruct (_ && _); [apply awaiting_postMessage|]; done.
  - unfold setDebugMode. destruct (_ && _); [apply awaiting_postMessage|]; done.
  - done.
  - case_bool_decide; simplify_eq.
    apply awaiting_initHandler, awaiting_handleMessage; [|done].
    destruct m as [[i|] ?|[i|] ?| | | |]; simpl in *; congruence.
  - done.
  - simpl in Hstep. destruct (timers s !! h') as [t|] eqn:Hlk; [|done].
    case_bool_decide; simplify_eq. by apply awaiting_fire.
Qed.

(** **** Sending the request *)

Lemma getAIAction_awaiting gameState playerId s w :
  wf s → isReady s = true → useWorker s = true → worker s = Some w →
  let id := requestId (requestIdCounter s) in
  let s' := (getAIAction gameState playerId s).1 in
  (getAIAction gameState playerId s).2 = nextPromise s ∧
  pendingRequests s' !! id
    = Some (mkPending (nextPromise s) (nextPromise s) (nextTimer s)) ∧
  sent s' = sent s ++ [(w, COMPUTE_AI_ACTION id gameState playerId
                             (difficulty s) (timeLimit s))] ∧
  awaiting id (nextPromise s) (nextTimer s) (clock s + 30000) s'.
Proof.
  intros (Hsettled & Hpend & Htimers & Hinit) Hready Huse Hw id s'.
  subst id s'. unfold getAIAction. simpl. rewrite Hready, Huse. simpl.
  rewrite Hw. simpl. unfold postMessage. simpl. rewrite Hw. simpl.
  split_and!; try done.
  - by rewrite lookup_insert_eq.
  - split_and!; simpl; try lia.
    + by rewrite lookup_insert_eq.
    + by apply (settlements_fresh (nextPromise s) s).
    + intros r. rewrite lookup_insert_eq. congruence.
    + intros id' r Hne. rewrite lookup_insert_ne by done. intros Hr.
      destruct (Hpend _ _ Hr) as (? & ? & ? & _). lia.
    + intros h' t Hne. rewrite lookup_insert_ne by done. intros Hlk.
      destruct (Htimers _ _ Hlk) as (_ & Hq). intros Hp.
      specialize (Hq _ Hp). lia.
    + intros Heq. specialize (Hinit _ Heq). lia.
    + exists (requestIdCounter s). split; [done|lia].
Qed.

(** **** The timeout *)

Lemma fire_expired id promise h due now s s' :
  step now (TimerFires h) s = Some s' →
  awaiting id promise h due s →
  (due ≤ now)%Z ∧ expired id promise s'.
Proof.
  intros Hstep (Ht & Hs & Hid & Hother & Htimers & Hinit & Hp & Hh & n & Hn & Hc).
  unfold AIWorkerProxy.step in Hstep. case_bool_decide as Hnow; [done|].
  simpl in Hstep. rewrite Ht in Hstep. simpl in Hstep.
  case_bool_decide as Hdue; [|done]. simplify_eq. split; [done|].
  split_and!; simpl; try done.
  - etrans; [apply settlements_settle|]. rewrite decide_True by done.
    unfold settlements in *. simpl. by rewrite Hs.
  - by rewrite lookup_delete_eq.
  - intros id' r. rewrite lookup_delete. case_decide as Hne; [done|].
    intros Hr. destruct (Hother id' r) as (? & ? & _); auto.
  - intros h' t. rewrite lookup_delete. case_decide as Hne; [done|].
    intros Hlk. eapply Htimers; eauto.
  - by exists n.
Qed.

(** **** After the timeout *)

Lemma expired_initializeFallback id promise s :
  expired id promise s → expired id promise (initializeFallback moduleAvailable s).
Proof. unfold initializeFallback. by destruct moduleAvailable. Qed.

Lemma expired_postMessage id promise m s :
  expired id promise s → expired id promise (postMessage m s).
Proof. unfold postMessage. by destruct (worker s). Qed.

Lemma expired_clearTimeout id promise h s :
  expired id promise s → expired id promise (clearTimeout h s).
Proof.
  intros H. eapply expired_mono; [exact H|..]; simpl; try done; try by left.
  intros h' t. rewrite lookup_delete. case_decide; [done|by left].
Qed.

Lemma expired_initialize id promise wasmPath s :
  expired id promise s →
  expired id promise (initialize moduleAvailable wasmPath s).
Proof.
  intros H. unfold initialize.
  destruct (negb (useWorker s)); [by apply expired_initializeFallback|].
  simpl. apply expired_postMessage.
  eapply expired_mono; [exact H|..]; simpl; try done; try lia; try by left.
  intros h' t. rewrite lookup_insert. case_decide; [|by left].
  intros [= <-]. by right.
Qed.

Lemma expired_getAIAction id promise gameState playerId s :
  expired id promise s →
  expired id promise (getAIAction gameState playerId s).1.
Proof.
  intros H. unfold getAIAction.
  pose proof H as (_ & _ & _ & _ & Hp & n & -> & Hn).
  simpl. destruct (isReady s); simpl.
  2:{ eapply expired_mono; [exact H|..]; simpl; try done; try lia; try by left.
      etrans; [apply (settlements_settle_ne promise (nextPromise s)); lia|done]. }
  destruct (useWorker s); simpl.
  2:{ eapply expired_mono; [exact H|..]; simpl; try done; try lia; try by left.
      intros h' t. rewrite lookup_insert. case_decide; [|by left].
      intros [= <-]. right. simpl. intros [= ?]. lia. }
  destruct (worker s) eqn:Hw; simpl; [apply expired_postMessage|];
    (eapply expired_mono; [exact H|..]; simpl; try done; try lia).
  all: try (etrans;
    [apply (settlements_settle_ne promise (S (nextPromise s))); lia|done]).
  all: try (intros id' r; rewrite lookup_insert; case_decide as Hid; [|by left];
    intros [= <-]; right; simpl; split_and!; try lia;
    intros Heq; rewrite <- Hid in Heq; apply requestId_inj in Heq; lia).
  all: intros h' t; rewrite lookup_insert; (case_decide; [|by left]);
    intros [= <-]; right; simpl; intros [= ?]; lia.
Qed.

Lemma expired_terminate id promise s :
  expired id promise s → expired id promise (terminate s).
Proof.
  intros H. unfold terminate.
  eapply expired_mono; [exact H|..]; destruct (worker s); simpl; try done;
    by left.
Qed.

Lemma expired_answer id promise i r q (st : Settlement Action) s :
  pendingRequests s !! i = Some r →
  q = resolve r ∨ q = reject r →
  expired id promise s →
  expired id promise
    (settle q st
       (set_pendingRequests (delete i (pendingRequests s))
          (clearTimeout (timeout r) s))).
Proof.
  intros Hr Hq H.
  pose proof H as (_ & _ & Hother & _).
  destruct (Hother i r Hr) as (Hres & Hrej).
  eapply expired_mono; [exact H|..]; simpl; try done.
  - etrans; [apply settlements_settle_ne|done]. by destruct Hq as [-> | ->].
  - intros i' r'. rewrite lookup_delete. case_decide; [done|by left].
  - intros h' t. rewrite lookup_delete. case_decide; [done|by left].
Qed.

Lemma expired_handleMessage id promise m s :
  expired id promise s → expired id promise (handleMessage m s).
Proof.
  intros H.
  destruct m as [[i|] action|[i|] error|progress| | |]; simpl; try done.
  - destruct (pendingRequests s !! i) as [r|] eqn:Hr; [|done].
    apply expired_answer; auto.
  - destruct (pendingRequests s !! i) as [r|] eqn:Hr; [|done].
    apply expired_answer; auto.
  - unfold handleProgress. by destruct (progressCallback s).
Qed.

Lemma expired_initHandler id promise m s :
  expired id promise s → expired id promise (initHandler moduleAvailable m s).
Proof.
  intros H. unfold initHandler.
  destruct (initListener s) as [h'|] eqn:Hl; [|done].
  assert (expired id promise (set_initListener None s)) as H1 by done.
  destruct m; try done.
  - by apply (expired_clearTimeout _ _ h') in H1.
  - case_bool_decide; [|done].
    apply expired_initializeFallback.
    apply (expired_clearTimeout _ _ h') in H1. exact H1.
Qed.

Lemma expired_fire id promise h t s :
  timers s !! h = Some t →
  expired id promise s → expired id promise (fire h t s).
Proof.
  intros Hlk H.
  pose proof H as (_ & _ & _ & Htimers & _).
  pose proof (Htimers h t Hlk) as Hp.
  pose proof (expired_clearTimeout _ _ h s H) as H1.
  unfold AIWorkerProxy.fire. destruct t as [due' id' q|due'|due' q gs pid].
  - eapply expired_mono; [exact H1|..]; simpl; try done; try by left.
    + etrans; [apply settlements_settle_ne|done]. simpl in Hp. congruence.
    + intros i r. rewrite lookup_delete. case_decide; [done|by left].
  - by apply expired_initializeFallback.
  - destruct (fallbackWasm _); [|done].
    destruct (selectActionJSON _ _ _); [|done].
    eapply expired_mono; [exact H1|..]; simpl; try done; try by left.
    etrans; [apply settlements_settle_ne|done]. simpl in Hp. congruence.
Qed.

Lemma expired_rejectLoop id promise error (entries : list (string * Pending)) : ∀ s,
  Forall (λ entry, reject entry.2 ≠ promise) entries →
  expired id promise s →
  expired id promise
    (foldl (λ s (entry : string * Pending),
              settle (reject entry.2) (Rejected error)
                (clearTimeout (timeout entry.2) s)) s entries).
Proof.
  induction entries as [|entry entries IH]; intros s Hall H; [done|].
  apply Forall_cons in Hall as [Hne Hall]. simpl. apply IH; [done|].
  pose proof (expired_clearTimeout _ _ (timeout entry.2) s H) as H1.
  eapply expired_mono; [exact H1|..]; simpl; try done; try by left.
  etrans; [by apply settlements_settle_ne|done].
Qed.

Lemma expired_handleError id promise s :
  expired id promise s → expired id promise (handleError moduleAvailable s).
Proof.
  intros H. unfold handleError, restart.
  apply expired_initialize.
  assert (expired id promise (rejectAll "Worker crashed" s)) as H1.
  { apply expired_rejectLoop; [|done].
    apply Forall_forall. intros [i r] Hin%elem_of_map_to_list.
    destruct H as (_ & _ & Hother & _). by destruct (Hother i r Hin). }
  assert (expired id promise
    (set_pendingRequests ∅ (rejectAll "Worker crashed" s))) as H2.
  { eapply expired_mono; [exact H1|..]; simpl; try done; by left. }
  by apply expired_terminate in H2.
Qed.

(** Once the request has timed out, no event changes that. *)
Lemma expired_step id promise now e s s' :
  step now e s = Some s' → expired id promise s → expired id promise s'.
Proof.
  intros Hstep H. unfold AIWorkerProxy.step in Hstep.
  case_bool_decide as Hnow; [done|].
  assert (expired id promise (set_clock now s)) as Hclk by done.
  destruct e as [path|gs pid| |d|t|b| |w m|w|h']; simplify_eq.
  - by apply expired_initialize.
  - by apply expired_getAIAction.
  - by apply expired_terminate.
  - unfold setDifficulty. destruct (_ && _); [apply expired_postMessage|]; done.
  - unfold setTimeLimit. destruct (_ && _); [apply expired_postMessage|]; done.
  - unfold setDebugMode. destruct (_ && _); [apply expired_postMessage|]; done.
  - done.
  - case_bool_decide; simplify_eq.
    by apply expired_initHandler, expired_handleMessage.
  - case_bool_decide; simplify_eq. by apply expired_handleError.
  - simpl in Hstep. destruct (timers s !! h') as [t|] eqn:Hlk; [|done].
    case_bool_decide; simplify_eq. by apply expired_fire.
Qed.

Lemma awaiting_steps id promise h due evs : ∀ s s',
  Forall (λ te, quiet id h te.2) evs →
  steps evs s = Some s' →
  awaiting id promise h due s → awaiting id promise h due s'.
Proof.
  induction evs as [|[now e] evs IH]; intros s s' Hq Hsteps H; simpl in Hsteps.
  - by simplify_eq.
  - apply Forall_cons in Hq as [Hq1 Hq].
    destruct (step now e s) as [s1|] eqn:Hstep; [|done]. simpl in Hsteps.
    eapply IH; [done|done|]. by eapply awaiting_step.
Qed.

Lemma expired_steps id promise evs : ∀ s s',
  steps evs s = Some s' → expired id promise s → expired id promise s'.
Proof.
  induction evs as [|[now e] evs IH]; intros s s' Hsteps H; simpl in Hsteps.
  - by simplify_eq.
  - destruct (step now e s) as [s1|] eqn:Hstep; [|done]. simpl in Hsteps.
    eapply IH; [done|]. by eapply expired_step.
Qed.

Lemma steps_app evs1 evs2 s :
  steps (evs1 ++ evs2) s = steps evs1 s ≫= steps evs2.
Proof.
  revert s. induction evs1 as [|[now e] evs1 IH]; intros s; [done|].
  simpl. destruct (step now e s); [apply IH|done].
Qed.

(** **** Every state of the proxy is well formed *)

Lemma wf_mono s s' :
  wf s →
  nextPromise s ≤ nextPromise s' →
  nextTimer s ≤ nextTimer s' →
  requestIdCounter s ≤ requestIdCounter s' →
  (settled s' = settled s ∨
   ∃ q st, settled s' = settled s ++ [(q, st)] ∧ q < nextPromise s') →
  (∀ id r, pendingRequests s' !! id = Some r →
     pendingRequests s !! id = Some r ∨
     (resolve r < nextPromise s' ∧ reject r < nextPromise s' ∧
      timeout r < nextTimer s' ∧
      ∃ n, id = requestId n ∧ n < requestIdCounter s')) →
  (∀ h t, timers s' !! h = Some t →
     timers s !! h = Some t ∨
     (h < nextTimer s' ∧ ∀ q, promiseOf t = Some q → q < nextPromise s')) →
  (∀ h, initListener s' = Some h → initListener s = Some h ∨ h < nextTimer s') →
  wf s'.
Proof.
  intros (Hsettled & Hpend & Htimers & Hinit) Hp Ht Hc Hs' Hpend' Htimers' Hinit'.
  split_and!.
  - assert (Forall (λ st : nat * Settlement Action, st.1 < nextPromise s') (settled s)).
    { eapply Forall_impl; [exact Hsettled|]. simpl. intros; lia. }
    destruct Hs' as [->|(q & st & -> & Hq)]; [done|].
    apply Forall_app. split; [done|]. by constructor.
  - intros id r Hr. destruct (Hpend' _ _ Hr) as [Hold|?]; [|done].
    destruct (Hpend _ _ Hold) as (? & ? & ? & n & ? & ?).
    split_and!; try lia. exists n. split; [done|lia].
  - intros h t Hlk. destruct (Htimers' _ _ Hlk) as [Hold|?]; [|done].
    destruct (Htimers _ _ Hold) as (? & Hq). split; [lia|].
    intros q Heq. specialize (Hq q Heq). lia.
  - intros h Hh. destruct (Hinit' _ Hh) as [Hold|?]; [|done].
    specialize (Hinit _ Hold). lia.
Qed.

Lemma wf_create : wf (create : Proxy).
Proof. split_and!; [by constructor|done..]. Qed.

Lemma wf_initializeFallback s : wf s → wf (initializeFallback moduleAvailable s).
Proof. unfold initializeFallback. by destruct moduleAvailable. Qed.

Lemma wf_postMessage m s : wf s → wf (postMessage m s).
Proof. unfold postMessage. by destruct (worker s). Qed.

Lemma wf_clearTimeout h s : wf s → wf (clearTimeout h s).
Proof.
  intros H. eapply wf_mono; [exact H|..]; simpl; try done; try by left.
  intros h' t. rewrite lookup_delete. case_decide; [done|by left].
Qed.

Lemma wf_settle q (st : Settlement Action) s :
  q < nextPromise s → wf s → wf (settle q st s).
Proof.
  intros Hq H. eapply wf_mono; [exact H|..]; simpl; try done; try by left.
  right. by exists q, st.
Qed.

Lemma wf_initialize wasmPath s : wf s → wf (initialize moduleAvailable wasmPath s).
Proof.
  intros H. unfold initialize.
  destruct (negb (useWorker s)); [by apply wf_initializeFallback|].
  simpl. apply wf_postMessage.
  eapply wf_mono; [exact H|..]; simpl; try done; try lia; try by left.
  - intros h t. rewrite lookup_insert. case_decide; [|by left].
    intros [= <-]. right. split; [lia|done].
  - intros h [= <-]. right. lia.
Qed.

Lemma wf_getAIAction gameState playerId s :
  wf s → wf (getAIAction gameState playerId s).1.
Proof.
  intros H. unfold getAIAction. simpl. destruct (isReady s); simpl.
  2:{ eapply wf_mono; [exact H|..]; simpl; try done; try lia; try by left.
      right. eexists _, _. split; [done|]. lia. }
  destruct (useWorker s); simpl.
  2:{ eapply wf_mono; [exact H|..]; simpl; try done; try lia; try by left.
      intros h t. rewrite lookup_insert. case_decide; [|by left].
      intros [= <-]. right. split; [lia|]. simpl. intros q [= <-]. lia. }
  destruct (worker s) eqn:Hw; simpl; [apply wf_postMessage|];
    (eapply wf_mono; [exact H|..]; simpl; try done; try lia; try by left).
  all: try (right; eexists _, _; split; [done|]; lia).
  all: try (intros id r; rewrite lookup_insert; case_decide as Hid; [|by left];
    intros [= <-]; right; simpl; split_and!; try lia;
    exists (requestIdCounter s); split; [done|lia]).
  all: intros h t; rewrite lookup_insert; (case_decide; [|by left]);
    intros [= <-]; right; (split; [lia|]); simpl; intros q [= <-]; lia.
Qed.

Lemma wf_terminate s : wf s → wf (terminate s).
Proof.
  intros H. unfold terminate.
  eapply wf_mono; [exact H|..]; destruct (worker s); simpl; try done; by left.
Qed.

Lemma wf_answer i r q (st : Settlement Action) s :
  pendingRequests s !! i = Some r →
  q = resolve r ∨ q = reject r →
  wf s →
  wf (settle q st
        (set_pendingRequests (delete i (pendingRequests s))
           (clearTimeout (timeout r) s))).
Proof.
  intros Hr Hq H.
  pose proof H as (_ & Hpend & _).
  destruct (Hpend i r Hr) as (Hres & Hrej & _).
  apply wf_settle; [by destruct Hq as [-> | ->]|].
  pose proof (wf_clearTimeout (timeout r) s H) as H1.
  eapply wf_mono; [exact H1|..]; simpl; try done; try by left.
  intros i' r'. rewrite lookup_delete. case_decide; [done|by left].
Qed.

Lemma wf_handleMessage m s : wf s → wf (handleMessage m s).
Proof.
  intros H.
  destruct m as [[i|] action|[i|] error|progress| | |]; simpl; try done.
  - destruct (pendingRequests s !! i) as [r|] eqn:Hr; [|done].
    apply wf_answer; auto.
  - destruct (pendingRequests s !! i) as [r|] eqn:Hr; [|done].
    apply wf_answer; auto.
  - unfold handleProgress. by destruct (progressCallback s).
Qed.

Lemma wf_initHandler m s : wf s → wf (initHandler moduleAvailable m s).
Proof.
  intros H. unfold initHandler.
  destruct (initListener s) as [h'|] eqn:Hl; [|done].
  assert (wf (set_initListener None s)) as H1.
  { eapply wf_mono; [exact H|..]; simpl; try done; by left. }
  destruct m; try done.
  - apply (wf_clearTimeout h') in H1. exact H1.
  - case_bool_decide; [|done].
    apply wf_initializeFallback.
    apply (wf_clearTimeout h') in H1. exact H1.
Qed.

Lemma wf_fire h t s : timers s !! h = Some t → wf s → wf (fire h t s).
Proof.
  intros Hlk H.
  pose proof H as (_ & _ & Htimers & _).
  destruct (Htimers h t Hlk) as (_ & Hq).
  pose proof (wf_clearTimeout h s H) as H1.
  unfold AIWorkerProxy.fire. destruct t as [due' id' q|due'|due' q gs pid].
  - apply wf_settle; [by apply Hq|].
    eapply wf_mono; [exact H1|..]; simpl; try done; try by left.
    intros i r. rewrite lookup_delete. case_decide; [done|by left].
  - by apply wf_initializeFallback.
  - destruct (fallbackWasm _); [|done].
    destruct (selectActionJSON _ _ _); [|done].
    apply wf_settle; [by apply Hq|done].
Qed.

Lemma wf_rejectLoop error (entries : list (string * Pending)) : ∀ s,
  Forall (λ entry, reject entry.2 < nextPromise s) entries →
  wf s →
  wf (foldl (λ s (entry : string * Pending),
               settle (reject entry.2) (Rejected error)
                 (clearTimeout (timeout entry.2) s)) s entries).
Proof.
  induction entries as [|entry entries IH]; intros s Hall H; [done|].
  apply Forall_cons in Hall as [Hlt Hall]. simpl. apply IH; [done|].
  apply wf_settle; [done|]. by apply wf_clearTimeout.
Qed.

Lemma wf_handleError s : wf s → wf (handleError moduleAvailable s).
Proof.
  intros H. unfold handleError, restart.
  apply wf_initialize.
  assert (wf (rejectAll "Worker crashed" s)) as H1.
  { apply wf_rejectLoop; [|done].
    apply Forall_forall. intros [i r] Hin%elem_of_map_to_list.
    destruct H as (_ & Hpend & _). by destruct (Hpend i r Hin) as (_ & ? & _). }
  assert (wf (set_pendingRequests ∅ (rejectAll "Worker crashed" s))) as H2.
  { eapply wf_mono; [exact H1|..]; simpl; try done; by left. }
  apply wf_terminate in H2. exact H2.
Qed.

Lemma wf_step now e s s' : step now e s = Some s' → wf s → wf s'.
Proof.
  intros Hstep H. unfold AIWorkerProxy.step in Hstep.
  case_bool_decide as Hnow; [done|].
  assert (wf (set_clock now s)) as Hclk by done.
  destruct e as [path|gs pid| |d|t|b| |w m|w|h']; simplify_eq.
  - by apply wf_initialize.
  - by apply wf_getAIAction.
  - by apply wf_terminate.
  - unfold setDifficulty. destruct (_ && _); [apply wf_postMessage|]; done.
  - unfold setTimeLimit. destruct (_ && _); [apply wf_postMessage|]; done.
  - unfold setDebugMode. destruct (_ && _); [apply wf_postMessage|]; done.
  - done.
  - case_bool_decide; simplify_eq. by apply wf_initHandler, wf_handleMessage.
  - case_bool_decide; simplify_eq. by apply wf_handleError.
  - simpl in Hstep. destruct (timers s !! h') as [t|] eqn:Hlk; [|done].
    case_bool_decide; simplify_eq. by apply wf_fire.
Qed.

Lemma wf_steps evs : ∀ s s', steps evs s = Some s' → wf s → wf s'.
Proof.
  induction evs as [|[now e] evs IH]; intros s s' Hsteps H; simpl in Hsteps.
  - by simplify_eq.
  - destruct (step now e s) as [s1|] eqn:Hstep; [|done]. simpl in Hsteps.
    eapply IH; [done|]. by eapply wf_step.
Qed.

End ProxyFacts.

Section ProxyClaims.

Context {GameState Action : Type}.
Variable selectActionJSON : bool → GameState → Z → option Action.
Variable moduleAvailable : bool.

Import AIWorkerProxy.

Local Abbreviation Proxy := (AIWorkerProxy.Proxy GameState Action).
Local Abbreviation steps := (AIWorkerProxy.steps selectActionJSON moduleAvailable).

(** C4, as the code has it. Let a request be sent at time [t0] through
    a proxy that is ready and has its worker, and let no reply for its
    id and no worker error come before its timer fires.  Then the promise is pending until the
    timer fires; the timer fires at a time [now] with [t0 + 30000 ≤ now];
    from then on, whatever happens, the promise is rejected with the
    timeout error (and with nothing else), the table of pending requests
    has no entry for the id, and a reply for the id is dropped by
    [handleMessage] without any effect. *)
Theorem request_without_reply_times_out
    (evs0 : list (Z * Event GameState Action)) (s : Proxy) (w : nat) (t0 : Z)
    (gameState : GameState) (playerId : Z)
    (evs1 : list (Z * Event GameState Action)) (now : Z)
    (evs2 : list (Z * Event GameState Action)) (s' : Proxy) :
  steps evs0 create = Some s →
  isReady s = true → useWorker s = true → worker s = Some w →
  let id := requestId (requestIdCounter s) in
  let h := nextTimer s in
  let s1 := (getAIAction gameState playerId (set_clock t0 s)).1 in
  let promise := (getAIAction gameState playerId (set_clock t0 s)).2 in
  Forall (λ te, quiet id h te.2) evs1 →
  steps (evs1 ++ (now, TimerFires h) :: evs2) s1 = Some s' →
  (∃ s2, steps evs1 s1 = Some s2 ∧ settlements promise s2 = [] ∧
         timers s2 !! h = Some (RequestTimeout (t0 + 30000) id promise)) ∧
  (t0 + 30000 ≤ now)%Z ∧
  settlements promise s' = [Rejected "AI computation timeout"] ∧
  pendingRequests s' !! id = None ∧
  (∀ action, handleMessage (AI_ACTION_RESULT (Some id) action) s' = s') ∧
  (∀ error, handleMessage (AI_ERROR (Some id) error) s' = s').
Proof.
  intros Hreach Hready Huse Hw id h s1 promise Hquiet Hsteps.
  assert (wf (set_clock t0 s)) as Hwf.
  { pose proof (wf_steps _ _ _ _ _ Hreach wf_create) as Hwf. exact Hwf. }
  destruct (getAIAction_awaiting gameState playerId (set_clock t0 s) w)
    as (Hp & _ & _ & Hawait); try done.
  simpl in Hp, Hawait. fold id h s1 in Hawait. fold promise in Hp.
  rewrite <- Hp in Hawait.
  rewrite steps_app in Hsteps.
  destruct (steps evs1 s1) as [s2|] eqn:Hsteps1; [|done]. simpl in Hsteps.
  destruct (AIWorkerProxy.step _ _ now (TimerFires h) s2) as [s3|] eqn:Hfire;
    [|done]. simpl in Hsteps.
  pose proof (awaiting_steps _ _ _ _ _ _ _ _ _ Hquiet Hsteps1 Hawait) as Hawait2.
  destruct (fire_expired _ _ _ _ _ _ _ _ _ Hfire Hawait2) as [Hdue Hexp3].
  pose proof (expired_steps _ _ _ _ _ _ _ Hsteps Hexp3)
    as (Hset & Hgone & _).
  split_and!; try done.
  - exists s2. destruct Hawait2 as (? & ? & _). done.
  - intros action. simpl. by rewrite Hgone.
  - intros error. simpl. by rewrite Hgone.
Qed.

End ProxyClaims.

(** *** Termination with a request pending *)

(** The proxy of [ProxyExample] is terminated while its request is
    pending: the table is emptied and nothing is rejected; the promise of
    the request is rejected later, by its timer and with the timeout
    error. *)
Lemma terminate_rejects_nothing :
  AIWorkerProxy.pendingRequests ProxyExample.sent !! "ai_request_0"
    = Some (AIWorkerProxy.mkPending 0 0 1) ∧
  AIWorkerProxy.settlements 0 ProxyExample.sent = [] ∧
  AIWorkerProxy.terminate (AIWorkerProxy.set_clock 300 ProxyExample.sent)
    = ProxyExample.terminatedEarly ∧
  AIWorkerProxy.pendingRequests ProxyExample.terminatedEarly = ∅ ∧
  AIWorkerProxy.worker ProxyExample.terminatedEarly = None ∧
  AIWorkerProxy.settlements 0 ProxyExample.terminatedEarly = [] ∧
  AIWorkerProxy.step ProxyExample.engine true 30100 (AIWorkerProxy.TimerFires 1)
    ProxyExample.terminatedEarly = Some ProxyExample.terminatedLate ∧
  AIWorkerProxy.settlements 0 ProxyExample.terminatedLate
    = [AIWorkerProxy.Rejected "AI computation timeout"].
Proof. split_and!; by vm_compute. Qed.

(** *** A request without a reply *)

(** C4, where it differs. A request that gets no reply is not always
    rejected with the timeout error.  When the worker fails at time 300,
    the request of [ProxyExample] is rejected with [Worker crashed], its
    timer is cleared and cannot fire at the deadline.  And a request on
    the fallback path has no timeout: when the engine throws, its promise
    is never settled and no timer is left that could reject it. *)
Lemma request_without_reply_ends_otherwise :
  AIWorkerProxy.steps ProxyExample.engine true ProxyExample.boot AIWorkerProxy.create
    = Some ProxyExample.ready ∧
  AIWorkerProxy.getAIAction tt 1 (AIWorkerProxy.set_clock 100 ProxyExample.ready)
    = (ProxyExample.sent, 0) ∧
  AIWorkerProxy.steps ProxyExample.engine true
    (ProxyExample.waiting ++ (300%Z, AIWorkerProxy.WorkerError 0)
       :: ProxyLifeExample.restarted)
    ProxyExample.sent = Some ProxyLifeExample.crashed ∧
  AIWorkerProxy.settlements 0 ProxyLifeExample.crashed
    = [AIWorkerProxy.Rejected "Worker crashed"] ∧
  AIWorkerProxy.timers ProxyLifeExample.crashed !! 1 = None ∧
  AIWorkerProxy.step ProxyExample.engine true 30100 (AIWorkerProxy.TimerFires 1)
    ProxyLifeExample.crashed = None ∧
  AIWorkerProxy.steps ProxyLifeExample.throwing true ProxyLifeExample.failedBoot
    AIWorkerProxy.create = Some ProxyLifeExample.fallback ∧
  AIWorkerProxy.isReady ProxyLifeExample.fallback = true ∧
  AIWorkerProxy.useWorker ProxyLifeExample.fallback = false ∧
  AIWorkerProxy.steps ProxyLifeExample.throwing true
    [(110%Z, AIWorkerProxy.TimerFires 1)]
    (AIWorkerProxy.getAIAction tt 1
       (AIWorkerProxy.set_clock 100 ProxyLifeExample.fallback)).1
    = Some ProxyLifeExample.unanswered ∧
  (AIWorkerProxy.getAIAction tt 1
     (AIWorkerProxy.set_clock 100 ProxyLifeExample.fallback)).2 = 0 ∧
  AIWorkerProxy.settlements 0 ProxyLifeExample.unanswered = [] ∧
  AIWorkerProxy.timers ProxyLifeExample.unanswered = ∅.
Proof. split_and!; by vm_compute. Qed.

Lemma request_without_reply_times_out_witness :
  let id := AIWorkerProxy.requestId (AIWorkerProxy.requestIdCounter ProxyExample.ready) in
  let promise :=
    (AIWorkerProxy.getAIAction tt 1
       (AIWorkerProxy.set_clock 100 ProxyExample.ready)).2 in
  (100 + 30000 ≤ 30100)%Z ∧
  AIWorkerProxy.settlements promise ProxyExample.timedOut
    = [AIWorkerProxy.Rejected "AI computation timeout"] ∧
  AIWorkerProxy.pendingRequests ProxyExample.timedOut !! id = None.
Proof.
  intros id promise.
  destruct (request_without_reply_times_out ProxyExample.engine true
    ProxyExample.boot ProxyExample.ready 0 100 tt 1
    ProxyExample.waiting 30100 ProxyExample.late ProxyExample.timedOut)
    as (_ & Hdue & Hrejected & Hgone & _).
  - by vm_compute.
  - done.
  - done.
  - done.
  - repeat constructor; simpl; lia.
  - by vm_compute.
  - split_and!; [exact Hdue|exact Hrejected|exact Hgone].
Defined.

(** ** The messages of one matchup *)

Section WorkerProtocol.

Context {BotConfig Engine : Type}.
Variable runSingleMatchup :
  Engine → ArenaWorker.Call BotConfig → Engine * (string + list Game.t).

Implicit Types (task : Arena.Task BotConfig) (st : ArenaWorker.Loop BotConfig Engine).

(** The loop posts one [GAME_COMPLETE] for every game that was played,
    with the result it has just appended to [allResults]. *)
Lemma gameLoop_posted task gameNums : ∀ st,
  match ArenaWorker.gameLoop runSingleMatchup task st gameNums with
  | inl st' =>
      ∃ games, length games = length gameNums ∧
        ArenaWorker.allResults st' = ArenaWorker.allResults st ++ games ∧
        ArenaWorker.posted st'
          = ArenaWorker.posted st
              ++ (ArenaWorker.GAME_COMPLETE (Arena.matchupId task) <$> games)
  | inr (st', _) =>
      ∃ games, length games < length gameNums ∧
        ArenaWorker.posted st'
          = ArenaWorker.posted st
              ++ (ArenaWorker.GAME_COMPLETE (Arena.matchupId task) <$> games)
  end.
Proof.
  induction gameNums as [|gameNum rest IH]; intros st; simpl.
  - exists []. by rewrite !app_nil_r.
  - unfold ArenaWorker.playGame.
    destruct (runSingleMatchup _ _) as [engine' [error|results]].
    + exists []. simpl. split; [lia|]. by rewrite app_nil_r.
    + match goal with
      | |- context [ArenaWorker.gameLoop _ _ ?x _] => specialize (IH x)
      end.
      destruct (ArenaWorker.gameLoop _ _ _ _) as [st2|[st2 error]].
      * destruct IH as (games & Hlen & Hall & Hpost). simpl in Hall, Hpost.
        exists (head results :: games). simpl.
        rewrite Hall, Hpost, <- !app_assoc. split; [lia|done].
      * destruct IH as (games & Hlen & Hpost). simpl in Hpost.
        exists (head results :: games). simpl.
        rewrite Hpost, <- !app_assoc. split; [lia|done].
Qed.

(** The answer to [RUN_MATCHUP] is a run of [GAME_COMPLETE] messages, one
    per game played, closed by exactly one final message, all under the
    [matchupId] of the task.  The final message is [MATCHUP_COMPLETE]
    with the results just reported, in the same order, when all
    [gamesPerMatchup] games were played; it is [MATCHUP_ERROR] when the
    engine threw before that, and the only message, with the text
    [Worker not initialized], when there is no wrapper. *)
Theorem runMatchup_posts_games_then_one_final_message
    (arenaWrapper : option Engine) (task : Arena.Task BotConfig) :
  let posted := (ArenaWorker.runMatchup runSingleMatchup arenaWrapper task).1.2 in
  let id := Arena.matchupId task in
  ∃ games final,
    posted = (ArenaWorker.GAME_COMPLETE id <$> games) ++ [final] ∧
    match final with
    | ArenaWorker.MATCHUP_COMPLETE id' results =>
        id' = id ∧ results = games ∧ is_Some arenaWrapper ∧
        length games = Z.to_nat (Arena.gamesPerMatchup task)
    | ArenaWorker.MATCHUP_ERROR id' error =>
        id' = id ∧
        match arenaWrapper with
        | None => games = [] ∧ error = "Worker not initialized"
        | Some _ => length games < Z.to_nat (Arena.gamesPerMatchup task)
        end
    | ArenaWorker.GAME_COMPLETE _ _ => False
    end.
Proof.
  unfold ArenaWorker.runMatchup. destruct arenaWrapper as [e|]; simpl.
  - match goal with
    | |- context [ArenaWorker.gameLoop _ _ ?x _] => set (start := x)
    end.
    pose proof (gameLoop_posted task
      (seq 0 (Z.to_nat (Arena.gamesPerMatchup task))) start) as Hloop.
    rewrite length_seq in Hloop.
    destruct (ArenaWorker.gameLoop _ _ _ _) as [st|[st error]].
    + destruct Hloop as (games & Hlen & Hall & Hpost). simpl in Hall, Hpost.
      exists games, (ArenaWorker.MATCHUP_COMPLETE (Arena.matchupId task) games).
      simpl. rewrite Hall, Hpost. eauto.
    + destruct Hloop as (games & Hlen & Hpost). simpl in Hpost.
      exists games, (ArenaWorker.MATCHUP_ERROR (Arena.matchupId task) error).
      simpl. rewrite Hpost. eauto.
  - exists [], (ArenaWorker.MATCHUP_ERROR (Arena.matchupId task) "Worker not initialized").
    done.
Qed.

End WorkerProtocol.

(** ** The pool as a scheduler *)

Section PoolSchedule.

Context {BotConfig : Type}.

Import ArenaWorkerPool.

Implicit Types (s : Pool BotConfig) (w : nat) (tasks : list (Arena.Task BotConfig)).

(** *** One task per worker, no worker idle while tasks wait *)

(** While a batch runs, no worker holds more than one task, the busy
    workers are those that hold one, a task waits in the queue only when
    every worker is busy, and every submitted task is counted in exactly
    one place: done, with a worker, or in the queue. *)
Theorem runTasks_keeps_every_worker_at_one_task
    (s0 : Pool BotConfig) tasks (callback : bool)
    (evs : list Event) (n : nat) (s' : Pool BotConfig) :
  idle s0 → 0 < workerCount s0 → 0 < length tasks →
  run (runTasks tasks callback s0).1 evs n s' →
  (∀ w inbox, workers s' !! w = Some inbox →
     length inbox ≤ 1 ∧ (w ∈ busyWorkers s' ↔ inbox ≠ [])) ∧
  (taskQueue s' ≠ [] →
     availableWorkers s' = [] ∧ ∀ w, w < workerCount s' → w ∈ busyWorkers s') ∧
  completedTasks s' + length (concat (workers s')) + length (taskQueue s')
    = length tasks.
Proof.
  intros Hidle Hpos Hlen Hrun.
  destruct (runTasks_inv _ _ _ _ _ _ Hidle Hpos Hlen Hrun) as (_ & Hinv & _).
  split_and!.
  - intros w inbox Hw.
    pose proof (inv_inbox _ _ _ _ _ Hinv w inbox Hw) as Hin.
    case_bool_decide as Hb.
    + destruct Hin as [task ->]. simpl. split; [lia|]. done.
    + subst inbox. simpl. split; [lia|]. done.
  - intros Hq.
    destruct (inv_batch _ _ _ _ _ Hinv) as (_ & _ & [Hz|Hz]).
    { by destruct (taskQueue s'). }
    assert (availableWorkers s' = []) as Hav by by destruct (availableWorkers s').
    split; [done|]. intros w Hw.
    destruct (decide (w ∈ busyWorkers s')) as [|Hnb]; [done|].
    assert (w ∈ availableWorkers s') as Hin
      by (by apply (inv_available _ _ _ _ _ Hinv)).
    rewrite Hav in Hin. by apply elem_of_nil in Hin.
  - rewrite (inv_completed _ _ _ _ _ Hinv). by eapply inv_counts.
Qed.

(** *** Tasks leave the queue in the order of submission *)

Lemma processNextTask_queue s :
  taskQueue (stateOf (processNextTask s)) `suffix_of` taskQueue s.
Proof.
  unfold processNextTask. case_bool_decide.
  - destruct (resolveComplete s); done.
  - destruct (taskQueue s) as [|task queue] eqn:Hq; [simpl; by rewrite Hq|].
    destruct (availableWorkers s) as [|w available]; [simpl; by rewrite Hq|].
    simpl. destruct (workers s !! w); simpl; by apply suffix_cons_r.
Qed.

Lemma dispatch_queue s e :
  taskQueue (stateOf (dispatch s e)) `suffix_of` taskQueue s.
Proof.
  destruct e as [w [id g|id rs|id err|ty]|w]; simpl.
  - by destruct (progressCallback s).
  - etrans; [apply processNextTask_queue|]. done.
  - etrans; [apply processNextTask_queue|]. done.
  - done.
  - unfold handleWorkerError. case_bool_decide; [|done].
    etrans; [apply processNextTask_queue|]. done.
Qed.

Lemma startBatch_queue m : ∀ s,
  taskQueue (stateOf (startBatch m s)) `suffix_of` taskQueue s.
Proof.
  induction m as [|m IH]; intros s; simpl; [done|].
  pose proof (processNextTask_queue s) as Hq.
  destruct (processNextTask s) as [s1|s1]; simpl in *; [|done].
  etrans; [apply IH|done].
Qed.

Lemma run_queue s evs n s' :
  run s evs n s' → taskQueue s' `suffix_of` taskQueue s.
Proof.
  induction 1 as [s|s e s1 evs n s' _ Hdisp _ IH]; [done|].
  pose proof (dispatch_queue s e) as Hq. rewrite Hdisp in Hq.
  by etrans.
Qed.

Lemma suffix_drop {A} (l k : list A) :
  l `suffix_of` k → l = drop (length k - length l) k.
Proof.
  intros [p ->]. rewrite length_app.
  replace (length p + length l - length l) with (length p) by lia.
  by rewrite drop_app_length.
Qed.

(** The queue is worked off from the front: after any number of events
    the tasks still waiting are the last ones of the submitted list, in
    their order, and the tasks that are done or with a worker are the
    ones before them. *)
Theorem runTasks_hands_out_tasks_in_order
    (s0 : Pool BotConfig) tasks (callback : bool)
    (evs : list Event) (n : nat) (s' : Pool BotConfig) :
  idle s0 → 0 < workerCount s0 → 0 < length tasks →
  run (runTasks tasks callback s0).1 evs n s' →
  let k := completedTasks s' + length (concat (workers s')) in
  taskQueue s' = drop k tasks ∧
  ∀ task, task ∈ concat (workers s') → task ∈ take k tasks.
Proof.
  intros Hidle Hpos Hlen Hrun k.
  destruct (runTasks_inv _ _ _ _ _ _ Hidle Hpos Hlen Hrun) as (_ & Hinv & _).
  assert (taskQueue s' `suffix_of` tasks) as Hsuf.
  { etrans; [by eapply run_queue|].
    unfold runTasks. cbv zeta. case_bool_decide; [done|].
    match goal with
    | |- context [startBatch ?m ?s] =>
        pose proof (startBatch_queue m s) as Hq; destruct (startBatch m s)
    end; done. }
  pose proof (inv_counts _ _ _ _ _ Hinv) as Hcount.
  rewrite <- (inv_completed _ _ _ _ _ Hinv) in Hcount.
  assert (taskQueue s' = drop k tasks) as Hq.
  { rewrite (suffix_drop _ _ Hsuf) at 1. f_equal. unfold k. lia. }
  split; [done|]. intros task Htask.
  destruct (inv_tasks _ _ _ _ _ Hinv) as (succ & failed & _ & _ & Hp).
  rewrite Hq in Hp. rewrite <- (take_drop k tasks) in Hp at 2.
  rewrite !app_assoc in Hp. apply Permutation_app_inv_r in Hp.
  rewrite <- Hp. set_solver.
Qed.

(** *** The first round of assignments *)

Lemma startBatch_layout m : ∀ s,
  completedTasks s < totalTasks s →
  m ≤ length (taskQueue s) → m ≤ length (availableWorkers s) →
  NoDup (availableWorkers s) →
  (∀ w, w ∈ availableWorkers s → workers s !! w = Some []) →
  ∃ s', startBatch m s = Ok s' ∧
    taskQueue s' = drop m (taskQueue s) ∧
    availableWorkers s' = drop m (availableWorkers s) ∧
    busyWorkers s' = list_to_set (take m (availableWorkers s)) ∪ busyWorkers s ∧
    (∀ i w task, i < m → availableWorkers s !! i = Some w →
       taskQueue s !! i = Some task → workers s' !! w = Some [task]) ∧
    (∀ w, w ∉ take m (availableWorkers s) → workers s' !! w = workers s !! w) ∧
    settled s' = settled s ∧ resolveComplete s' = resolveComplete s ∧
    completedTasks s' = completedTasks s ∧ totalTasks s' = totalTasks s ∧
    workerCount s' = workerCount s.
Proof.
  induction m as [|m IH]; intros s Hlt Hq Ha Hnd Hin.
  - exists s. simpl. rewrite !drop_0. split_and!; try done.
    + set_solver.
    + intros. lia.
  - destruct (taskQueue s) as [|task queue] eqn:Eq; [simpl in Hq; lia|].
    destruct (availableWorkers s) as [|w available] eqn:Ea; [simpl in Ha; lia|].
    destruct (processNextTask_assign s task queue w available [] Hlt Eq Ea)
      as (s1 & Hs1 & Hq1 & Ha1 & Hb1 & Hw1 & _ & Hc1 & Ht1 & Hn1 & Hr1 & Hl1).
    { apply Hin. by left. }
    apply NoDup_cons in Hnd as [Hw Hnd].
    destruct (IH s1) as (s' & Hs' & Hq' & Ha' & Hb' & Hw' & Hf' & Hl' & Hr' & Hc' & Ht' & Hn').
    { lia. }
    { rewrite Hq1. simpl in Hq. lia. }
    { rewrite Ha1. simpl in Ha. lia. }
    { by rewrite Ha1. }
    { intros w' Hw'. rewrite Ha1 in Hw'. rewrite Hw1.
      rewrite list_lookup_insert_ne by (intros ->; done).
      apply Hin. by right. }
    rewrite Hq1 in Hq', Hw'. rewrite Ha1 in Ha', Hb', Hw', Hf'.
    exists s'. simpl. rewrite Hs1. split; [done|].
    rewrite Hq', Ha', Hb', Hb1, Hl', Hr', Hc', Ht', Hn'.
    split_and!; try done.
    + set_solver.
    + intros [|i] w' task' Hi Hw0 Ht0; simpl in *.
      * injection Hw0 as <-. injection Ht0 as <-.
        rewrite Hf' by (intros Hx; by apply subseteq_take in Hx).
        rewrite Hw1. apply list_lookup_insert_eq.
        apply lookup_lt_is_Some. rewrite Hin; [done|]. by left.
      * apply (Hw' i); [lia|done|done].
    + intros w' Hw0. apply not_elem_of_cons in Hw0 as [Hne Hw0].
      rewrite Hf' by done. rewrite Hw1.
      by rewrite list_lookup_insert_ne.
Qed.

(** [runTasks] on a pool at rest gives the [i]-th task to the [i]-th
    available worker, for as many tasks as there are workers, and leaves
    the remaining tasks in the queue, in their order; the promise is
    pending. *)
Theorem runTasks_starts_one_task_on_each_available_worker
    (s0 : Pool BotConfig) tasks (callback : bool) :
  idle s0 → 0 < length tasks →
  let s1 := (runTasks tasks callback s0).1 in
  let b := length tasks `min` workerCount s0 in
  taskQueue s1 = drop b tasks ∧
  availableWorkers s1 = drop b (availableWorkers s0) ∧
  busyWorkers s1 = list_to_set (take b (availableWorkers s0)) ∧
  (∀ i w task, availableWorkers s0 !! i = Some w → tasks !! i = Some task →
     workers s1 !! w = Some [task]) ∧
  (∀ w, w ∈ drop b (availableWorkers s0) → workers s1 !! w = Some []) ∧
  resolveComplete s1 = Some (runTasks tasks callback s0).2 ∧
  settled s1 = settled s0.
Proof.
  intros (Hws & Hbusy & Hav & Hin & _) Hlen s1 b.
  assert (length (availableWorkers s0) = workerCount s0) as Hlav.
  { apply Permutation_length in Hav. by rewrite length_seq in Hav. }
  assert (NoDup (availableWorkers s0)) as Hnd.
  { rewrite Hav. apply NoDup_seq. }
  assert (∀ w, w ∈ availableWorkers s0 → workers s0 !! w = Some []) as Hempty.
  { intros w Hw. rewrite Hav, elem_of_seq in Hw.
    destruct (lookup_lt_is_Some_2 (workers s0) w) as [inbox Hlk]; [lia|].
    rewrite Hlk. f_equal. by eapply (Forall_lookup_1 _ _ _ _ Hin). }
  subst s1. unfold runTasks. cbv zeta. simpl.
  rewrite bool_decide_false by lia.
  match goal with
  | |- context [startBatch ?m ?s] =>
      destruct (startBatch_layout m s)
        as (s' & Hs' & Hq' & Ha' & Hb' & Hw' & Hf' & Hl' & Hr' & _)
  end; simpl; try done; try lia.
  simpl in *. rewrite Hs'. simpl. fold b in Hq', Ha', Hb', Hw', Hf'.
  rewrite Hq', Ha', Hb', Hl', Hr', Hbusy. split_and!; try done.
  - set_solver.
  - intros i w task Hw Ht. apply (Hw' i); [|done|done].
    apply lookup_lt_Some in Hw, Ht. lia.
  - intros w Hw. rewrite Hf'.
    + apply Hempty. by eapply subseteq_drop.
    + intros Htake. rewrite <- (take_drop b (availableWorkers s0)) in Hnd.
      apply NoDup_app in Hnd as (_ & Hdis & _). by eapply Hdis.
Qed.

(** *** A pool without workers *)

Lemma startBatch_nobody m : ∀ s,
  completedTasks s < totalTasks s → availableWorkers s = [] →
  startBatch m s = Ok s.
Proof.
  induction m as [|m IH]; intros s Hlt Ha; simpl; [done|].
  unfold processNextTask. rewrite bool_decide_false by lia. rewrite Ha.
  destruct (taskQueue s); by apply IH.
Qed.

(** A pool that has no workers, because [initialize] has not run or
    because [terminate] has, takes a batch without starting it: every
    task stays in the queue, nothing is posted, the promise is neither
    resolved nor rejected, and no worker is there whose message or error
    could move the batch on. *)
Theorem runTasks_without_workers_starts_nothing
    (s : Pool BotConfig) tasks (callback : bool) :
  workers s = [] → availableWorkers s = [] → 0 < length tasks →
  let s1 := (runTasks tasks callback s).1 in
  taskQueue s1 = tasks ∧ workers s1 = [] ∧ completedTasks s1 = 0 ∧
  resolveComplete s1 = Some (runTasks tasks callback s).2 ∧
  settled s1 = settled s ∧
  ∀ e, ¬ conforms s1 e.
Proof.
  intros Hw Ha Hlen s1. subst s1. unfold runTasks. cbv zeta. simpl.
  rewrite bool_decide_false by lia.
  rewrite startBatch_nobody by (simpl; done || lia). simpl.
  split_and!; try done.
  intros [w [id g|id rs|id err|ty]|w]; unfold conforms, taskOf; simpl;
    rewrite ?Hw; simpl; try done; try (by intros (task & Ht & _)); lia.
Qed.

(** *** Progress reports *)

Lemma processNextTask_progress s :
  let s' := stateOf (processNextTask s) in
  progress s' = progress s ∧ completedGames s' = completedGames s ∧
  totalGames s' = totalGames s ∧ progressCallback s' = progressCallback s.
Proof.
  unfold processNextTask. case_bool_decide.
  - destruct (resolveComplete s); done.
  - destruct (taskQueue s) as [|task queue]; [done|].
    destruct (availableWorkers s) as [|w available]; [done|].
    simpl. destruct (workers s !! w); done.
Qed.

Lemma startBatch_progress m : ∀ s,
  let s' := stateOf (startBatch m s) in
  progress s' = progress s ∧ completedGames s' = completedGames s ∧
  totalGames s' = totalGames s ∧ progressCallback s' = progressCallback s.
Proof.
  induction m as [|m IH]; intros s; simpl; [done|].
  pose proof (processNextTask_progress s) as Hp.
  destruct (processNextTask s) as [s1|s1]; simpl in *; [|done].
  destruct (IH s1) as (-> & -> & -> & ->). done.
Qed.

Lemma calls_app d total (xs ys : list Game.t) :
  PoolProgress.calls d total (xs ++ ys)
    = PoolProgress.calls d total xs ++ PoolProgress.calls (d + length xs) total ys.
Proof.
  unfold PoolProgress.calls. rewrite imap_app. f_equal.
  apply imap_ext. intros k g _. simpl. do 2 f_equal. lia.
Qed.

Lemma reported_cons (e : Event) evs :
  PoolProgress.reported (e :: evs)
    = PoolProgress.reported [e] ++ PoolProgress.reported evs.
Proof. unfold PoolProgress.reported. simpl. by rewrite app_nil_r. Qed.

Lemma dispatch_progress s e :
  let s' := stateOf (dispatch s e) in
  totalGames s' = totalGames s ∧ progressCallback s' = progressCallback s ∧
  completedGames s' = completedGames s + length (PoolProgress.reported [e]) ∧
  progress s'
    = progress s ++
      (if progressCallback s
       then PoolProgress.calls (completedGames s) (totalGames s)
              (PoolProgress.reported [e])
       else []).
Proof.
  assert (∀ d t (g : Game.t), PoolProgress.calls d t [g] = [(S d, t, g)]) as Hone.
  { intros d t g. unfold PoolProgress.calls. simpl. by rewrite Nat.add_1_r. }
  destruct e as [w [id g|id rs|id err|ty]|w]; simpl;
    unfold handleWorkerError; try case_bool_decide; simpl;
    try match goal with
    | |- context [processNextTask ?x] =>
        destruct (processNextTask_progress x) as (-> & -> & -> & ->)
    end;
    simpl; rewrite ?Hone; destruct (progressCallback s) eqn:Hcb; simpl;
    rewrite ?app_nil_r; split_and!; try done; lia.
Qed.

Lemma run_progress s evs n s' :
  run s evs n s' →
  totalGames s' = totalGames s ∧ progressCallback s' = progressCallback s ∧
  completedGames s' = completedGames s + length (PoolProgress.reported evs) ∧
  progress s'
    = progress s ++
      (if progressCallback s
       then PoolProgress.calls (completedGames s) (totalGames s)
              (PoolProgress.reported evs)
       else []).
Proof.
  induction 1 as [s|s e s1 evs n s' _ Hdisp _ IH].
  - simpl. rewrite Nat.add_0_r. by destruct (progressCallback s); rewrite app_nil_r.
  - pose proof (dispatch_progress s e) as Hd. rewrite Hdisp in Hd.
    cbv zeta in Hd. change (stateOf (Ok s1)) with s1 in Hd.
    destruct Hd as (Ht & Hc & Hg & Hp), IH as (Ht' & Hc' & Hg' & Hp').
    rewrite reported_cons, length_app, calls_app.
    rewrite Ht', Hc', Hg', Hp', Ht, Hc, Hg, Hp.
    split_and!; [done|done|lia|].
    destruct (progressCallback s); rewrite <- app_assoc; [done|]. done.
Qed.

(** Every [GAME_COMPLETE] message of a batch is counted, and with a
    progress callback it is passed on at once: the [k]-th report of the
    batch leads to the call [progressCallback(k, totalGames, gameResult)]
    with the result it carries, [totalGames] being the sum of
    [gamesPerMatchup] over the submitted tasks.  Nothing else calls the
    callback, and without a callback the reports are only counted. *)
Theorem runTasks_reports_each_game_with_its_count
    (s0 : Pool BotConfig) tasks (callback : bool)
    (evs : list Event) (n : nat) (s' : Pool BotConfig) :
  run (runTasks tasks callback s0).1 evs n s' →
  completedGames s' = length (PoolProgress.reported evs) ∧
  totalGames s' = PoolProgress.totalGamesOf tasks ∧
  progress s'
    = progress s0 ++
      (if callback
       then PoolProgress.calls 0 (PoolProgress.totalGamesOf tasks)
              (PoolProgress.reported evs)
       else []).
Proof.
  intros Hrun. apply run_progress in Hrun as (Ht & Hc & Hg & Hp).
  assert (let s1 := (runTasks tasks callback s0).1 in
          totalGames s1 = PoolProgress.totalGamesOf tasks ∧
          progressCallback s1 = callback ∧ completedGames s1 = 0 ∧
          progress s1 = progress s0) as (Ht1 & Hc1 & Hg1 & Hp1).
  { unfold runTasks. cbv zeta. case_bool_decide; [done|].
    match goal with
    | |- context [startBatch ?m ?s] =>
        pose proof (startBatch_progress m s) as Hb; destruct (startBatch m s)
    end; simpl in *; destruct Hb as (-> & -> & -> & ->); done. }
  rewrite Ht, Hg, Hp, Ht1, Hc1, Hg1, Hp1. done.
Qed.

End PoolSchedule.

(** The run of [Example], as a whole and up to the first completed
    matchup. *)
Lemma example_idle : ArenaWorkerPool.idle Example.s0.
Proof. split_and!; [done|done|done|by repeat constructor|by constructor]. Qed.

Lemma example_run_midway :
  ArenaWorkerPool.run
    (ArenaWorkerPool.runTasks Example.tasks true Example.s0).1
    (take 2 Example.events) 1 Example.s3.
Proof.
  change (ArenaWorkerPool.runTasks Example.tasks true Example.s0).1
    with Example.s1.
  apply (run_step _ _ Example.s2 _ 1 1);
    [by exists (Arena.taskFor (λ _, tt) 1 0 1)|done|done|].
  apply (run_step _ _ Example.s3 _ 0 1);
    [by exists (Arena.taskFor (λ _, tt) 1 0 1)|done|done|].
  apply ArenaWorkerPool.run_nil.
Qed.

Lemma runTasks_keeps_every_worker_at_one_task_witness :
  ArenaWorkerPool.idle Example.s0 ∧
  ArenaWorkerPool.completedTasks Example.s3
    + length (concat (ArenaWorkerPool.workers Example.s3))
    + length (ArenaWorkerPool.taskQueue Example.s3)
    = length Example.tasks.
Proof.
  split; [exact example_idle|].
  apply (runTasks_keeps_every_worker_at_one_task
           Example.s0 Example.tasks true (take 2 Example.events) 1 Example.s3);
    [exact example_idle|simpl; lia|simpl; lia|exact example_run_midway].
Defined.

Lemma runTasks_hands_out_tasks_in_order_witness :
  ArenaWorkerPool.taskQueue Example.s3
    = drop (ArenaWorkerPool.completedTasks Example.s3
            + length (concat (ArenaWorkerPool.workers Example.s3)))
        Example.tasks.
Proof.
  apply (runTasks_hands_out_tasks_in_order
           Example.s0 Example.tasks true (take 2 Example.events) 1 Example.s3);
    [exact example_idle|simpl; lia|simpl; lia|exact example_run_midway].
Defined.

(** Three tasks on the two workers of [Example]: the first two are
    started, the third waits. *)
Lemma runTasks_starts_one_task_on_each_available_worker_witness :
  ArenaWorkerPool.taskQueue (ArenaWorkerPool.runTasks Example.tasks true Example.s0).1
    = drop 2 Example.tasks ∧
  ArenaWorkerPool.availableWorkers
    (ArenaWorkerPool.runTasks Example.tasks true Example.s0).1 = [].
Proof.
  destruct (runTasks_starts_one_task_on_each_available_worker
              Example.s0 Example.tasks true) as (Hq & Ha & _);
    [exact example_idle|simpl; lia|].
  split; [exact Hq|exact Ha].
Defined.

(** The pool of [Example] after [terminate], given the same tasks
    again. *)
Lemma runTasks_without_workers_starts_nothing_witness :
  let s := ArenaWorkerPool.terminate Example.s5 in
  ArenaWorkerPool.taskQueue (ArenaWorkerPool.runTasks Example.tasks true s).1
    = Example.tasks ∧
  ArenaWorkerPool.settled (ArenaWorkerPool.runTasks Example.tasks true s).1
    = ArenaWorkerPool.settled Example.s5.
Proof.
  intros s.
  destruct (runTasks_without_workers_starts_nothing s Example.tasks true)
    as (Hq & _ & _ & _ & Hl & _); [done|done|simpl; lia|].
  split; [exact Hq|exact Hl].
Defined.

Lemma runTasks_reports_each_game_with_its_count_witness :
  ArenaWorkerPool.progress Example.s3 = [(1, 3%Z, Example.game)].
Proof.
  destruct (runTasks_reports_each_game_with_its_count
              Example.s0 Example.tasks true (take 2 Example.events) 1 Example.s3)
    as (_ & _ & Hp); [exact example_run_midway|].
  exact Hp.
Defined.

(** ** The list of bots *)

Section BotList.

Import ArenaController.

Implicit Types (s : Controller) (op : Op) (log : list WrapperCall).

Lemma registered_held (calls : list WrapperCall) : ∀ held,
  Forall (λ call, call ≠ Reset) calls →
  foldl (λ held call, match call with Reset => [] | _ => held ++ [call] end) held calls
    = held ++ calls.
Proof.
  induction calls as [|call calls IH]; intros held Hcalls; simpl.
  - by rewrite app_nil_r.
  - apply Forall_cons in Hcalls as [Hcall Hcalls].
    rewrite IH by done. destruct call; [done|..]; by rewrite <- app_assoc.
Qed.

Lemma registered_snoc log (call : WrapperCall) :
  call ≠ Reset → registered (log ++ [call]) = registered log ++ [call].
Proof. intros Hcall. unfold registered. rewrite foldl_app. by destruct call. Qed.

Lemma registered_reset log (calls : list WrapperCall) :
  Forall (λ call, call ≠ Reset) calls →
  registered ((log ++ [Reset]) ++ calls) = calls.
Proof.
  intros Hcalls. unfold registered. rewrite !foldl_app. simpl.
  by rewrite registered_held.
Qed.

Lemma registration_not_reset (bot : Bot) : registration bot ≠ Reset.
Proof. unfold registration. by destruct (isProfile bot). Qed.

Lemma mirrored_rebuildWrapper s : mirrored (rebuildWrapper s).
Proof.
  intros log. unfold rebuildWrapper. simpl.
  destruct (arenaWrapper s) as [log0|]; [|done]. simpl. intros [= <-].
  apply registered_reset. apply Forall_fmap, Forall_forall. intros bot _.
  apply registration_not_reset.
Qed.

Lemma perform_invariant s op :
  length (bots s) ≤ 8 → mirrored s →
  length (bots (perform s op)) ≤ 8 ∧ mirrored (perform s op).
Proof.
  intros Hlen Hmir. destruct op as [config|index|index config]; simpl.
  - unfold addBot. case_bool_decide; [done|]. simpl. split.
    + rewrite length_app. simpl. lia.
    + intros log. simpl. destruct (arenaWrapper s) as [log0|] eqn:Hw; [|done].
      simpl. intros [= <-].
      rewrite registered_snoc by apply registration_not_reset.
      rewrite fmap_app. simpl. f_equal. by apply Hmir.
  - unfold removeBot. destruct (_ && _); [|done]. split.
    + simpl. pose proof (sublist_length _ _ (sublist_delete (bots s) (Z.to_nat index))).
      lia.
    + apply mirrored_rebuildWrapper.
  - unfold updateBot. destruct (_ && _); [|done]. split.
    + simpl. by rewrite length_insert.
    + apply mirrored_rebuildWrapper.
Qed.

(** Whatever the bot editor and the bot list do, starting from a fresh
    controller whose wrapper exists, there are never more than eight
    bots, and the wrapper holds exactly the bots of the list, registered
    in the order of the list, each by [addBotFromProfile] or by [addBot]
    according to its kind.  With eight bots [addBot] throws and changes
    nothing. *)
Theorem wrapper_holds_the_bots_of_the_list (available : bool) (ops : list Op) :
  let s := foldl perform (initialize available create) ops in
  length (bots s) ≤ 8 ∧
  (∀ log, arenaWrapper s = Some log → registered log = registration <$> bots s) ∧
  (is_Some (arenaWrapper s) ↔ available = true) ∧
  (length (bots s) = 8 →
     ∀ config, addBot config s = inl (Error "Maximum 8 bots allowed") ∧
               perform s (Add config) = s).
Proof.
  intros s.
  assert (length (bots s) ≤ 8 ∧ mirrored s ∧
          (is_Some (arenaWrapper s) ↔ available = true)) as (Hlen & Hmir & Hav).
  { subst s. induction ops as [|op ops IH] using rev_ind.
    - simpl. destruct available; simpl.
      + split_and!; [lia| |done]. by intros log [= <-].
      + split_and!; [lia|done|]. split; [by intros []|done].
    - rewrite foldl_app. simpl. destruct IH as (Hlen & Hmir & Hav).
      destruct (perform_invariant _ op Hlen Hmir) as [Hlen' Hmir'].
      split_and!; [done|done|]. rewrite <- Hav.
      destruct op as [config|index|index config]; simpl.
      + unfold addBot. case_bool_decide; [done|]. simpl.
        by rewrite fmap_is_Some.
      + unfold removeBot. destruct (_ && _); [|done]. simpl.
        by rewrite fmap_is_Some.
      + unfold updateBot. destruct (_ && _); [|done]. simpl.
        by rewrite fmap_is_Some. }
  split_and!; [done|done|done|].
  intros H8 config. unfold perform, addBot.
  by rewrite bool_decide_true by lia.
Qed.

End BotList.

(** ** Head to head *)

Section HeadToHeadFacts.

Import ArenaController.

Implicit Types (games : list Game.t) (g : Game.t) (i j n : nat).

Lemma headToHead_snoc games g i j :
  headToHead (games ++ [g]) i j =
    if between i j g then
      let wins := tally i (bot1Wins (headToHead games i j),
                           bot2Wins (headToHead games i j)) g in
      {| bot1Wins := wins.1; bot2Wins := wins.2;
         totalGames := S (totalGames (headToHead games i j)) |}
    else headToHead games i j.
Proof.
  unfold headToHead. cbv zeta. rewrite List.filter_app. simpl.
  destruct (between i j g).
  - rewrite foldl_app, length_app. simpl. rewrite Nat.add_1_r.
    by destruct (foldl _ _ _).
  - by rewrite app_nil_r.
Qed.

Lemma headToHead_balance games i j :
  bot1Wins (headToHead games i j) + bot2Wins (headToHead games i j)
    = totalGames (headToHead games i j).
Proof.
  induction games as [|g games IH] using rev_ind; [done|].
  rewrite headToHead_snoc. destruct (between i j g); [|done].
  destruct (headToHead games i j) as [w1 w2 t]. unfold tally. simpl in *.
  repeat case_bool_decide; simpl; lia.
Qed.

Lemma headToHead_swap games i j :
  i ≠ j → headToHead games j i = swap (headToHead games i j).
Proof.
  intros Hij. induction games as [|g games IH] using rev_ind; [done|].
  rewrite !headToHead_snoc, IH.
  assert (between j i g = between i j g) as ->.
  { unfold between. apply orb_comm. }
  destruct (between i j g) eqn:Hb; [|done].
  destruct (headToHead games i j) as [w1 w2 t].
  unfold between in Hb. unfold tally, swap. simpl.
  repeat case_bool_decide; simpl in *; try done; congruence.
Qed.

(** [getHeadToHead] counts every game between the two bots once: the
    two numbers of wins add up to the number of games, and asking for
    the same pair in the other order exchanges the two numbers (for two
    different bots; a game of a bot against itself counts for [bot1Wins]
    or [bot2Wins] by its [winner] field alone).  Without results the
    answer is [null]. *)
Theorem getHeadToHead_counts_each_game_once (s : Controller) (i j : nat) :
  match getHeadToHead i j s with
  | Some h =>
      bot1Wins h + bot2Wins h = totalGames h ∧
      (i ≠ j → getHeadToHead j i s = Some (swap h))
  | None => results s = None
  end.
Proof.
  unfold getHeadToHead. destruct (results s) as [r|]; [|done]. simpl.
  split; [apply headToHead_balance|].
  intros Hij. by rewrite headToHead_swap.
Qed.

Lemma sum_list_fmap_add {A} (f h : A → nat) (l : list A) :
  sum_list ((λ x, f x + h x) <$> l) = sum_list (f <$> l) + sum_list (h <$> l).
Proof. induction l as [|x l IH]; csimpl; [done|]. rewrite IH. lia. Qed.

Lemma sum_list_fmap_zero {A} (h : A → nat) (l : list A) :
  (∀ x, x ∈ l → h x = 0) → sum_list (h <$> l) = 0.
Proof.
  induction l as [|x l IH]; intros Hz; csimpl; [done|].
  rewrite Hz by (by left). rewrite IH; [done|]. intros y Hy. apply Hz. by right.
Qed.

Lemma sum_list_fmap_one (h : nat → nat) (l : list nat) k :
  NoDup l → k ∈ l → h k = 1 → (∀ x, x ∈ l → x ≠ k → h x = 0) →
  sum_list (h <$> l) = 1.
Proof.
  induction l as [|x l IH]; intros Hnd Hk H1 H0; [by apply elem_of_nil in Hk|].
  apply NoDup_cons in Hnd as [Hx Hnd]. csimpl.
  destruct (decide (x = k)) as [->|Hne].
  - rewrite H1, sum_list_fmap_zero; [done|].
    intros y Hy. apply H0; [by right|]. by intros ->.
  - rewrite H0 by (done || by left). simpl. apply IH; try done.
    + apply elem_of_cons in Hk as [->|Hk]; done.
    + intros y Hy. apply H0. by right.
Qed.

Lemma elem_of_opponents n i j : j ∈ opponents n i ↔ j < n ∧ j ≠ i.
Proof.
  unfold opponents. rewrite list_elem_of_filter, elem_of_seq. lia.
Qed.

Lemma NoDup_opponents n i : NoDup (opponents n i).
Proof. apply NoDup_filter, NoDup_seq. Qed.

(** What one more game adds to a column of bot [i]. *)
Lemma against_snoc (column : HeadToHead → nat) (hit : Game.t → nat → nat → bool)
    games g n i :
  (∀ games j, j ≠ i →
     column (headToHead (games ++ [g]) i j)
       = column (headToHead games i j) + (if hit g i j then 1 else 0)) →
  against column (games ++ [g]) n i
    = Z.add (against column games n i)
        (Z.of_nat (sum_list ((λ j, if hit g i j then 1 else 0) <$> opponents n i))).
Proof.
  intros Hstep. unfold against. rewrite <- Nat2Z.inj_add. f_equal.
  rewrite <- sum_list_fmap_add. f_equal.
  apply list_fmap_ext. intros k j Hj. apply Hstep.
  apply list_elem_of_lookup_2 in Hj. by apply elem_of_opponents in Hj as [_ ?].
Qed.

(** A game between two different bots of the tournament. *)
Lemma hit_wins g i j :
  Game.bot1Index g ≠ Game.bot2Index g → j ≠ i →
  ∀ games,
    bot1Wins (headToHead (games ++ [g]) i j)
      = bot1Wins (headToHead games i j)
        + (if bool_decide (Arena.winnerIdx g = i ∧ Arena.loserIdx g = j) then 1 else 0) ∧
    bot2Wins (headToHead (games ++ [g]) i j)
      = bot2Wins (headToHead games i j)
        + (if bool_decide (Arena.loserIdx g = i ∧ Arena.winnerIdx g = j) then 1 else 0).
Proof.
  intros Hg Hij games. rewrite headToHead_snoc.
  destruct (headToHead games i j) as [w1 w2 t].
  unfold between, tally, Arena.winnerIdx, Arena.loserIdx.
  destruct g as [b1 b2 win tc p1 p2]. simpl in *.
  repeat case_bool_decide; simpl in *; split; lia.
Qed.

Lemma sum_hits (P : Prop) `{Decision P} (k n i : nat) :
  (P → k < n ∧ k ≠ i) →
  sum_list ((λ j, if bool_decide (P ∧ k = j) then 1 else 0) <$> opponents n i)
    = if bool_decide P then 1 else 0.
Proof.
  intros Hk. case_bool_decide as HP.
  - apply (sum_list_fmap_one _ _ k).
    + apply NoDup_opponents.
    + apply elem_of_opponents. by apply Hk.
    + by rewrite bool_decide_true.
    + intros j _ Hj. rewrite bool_decide_false; [done|]. by intros [_ ->].
  - apply sum_list_fmap_zero. intros j _. rewrite bool_decide_false; [done|].
    by intros [? _].
Qed.

Lemma totals_of_games games n i :
  (∀ g, g ∈ games →
     Game.bot1Index g ≠ Game.bot2Index g ∧
     Game.bot1Index g < n ∧ Game.bot2Index g < n) →
  i < n →
  Js.get (Js.applyAll (Js.fill0 n) (games ≫= Arena.winUpdates)) i
    = Js.Int (against bot1Wins games n i) ∧
  Js.get (Js.applyAll (Js.fill0 n) (games ≫= Arena.lossUpdates)) i
    = Js.Int (against bot2Wins games n i).
Proof.
  intros Hok Hi. induction games as [|g games IH] using rev_ind.
  - simpl. rewrite get_fill0 by done. unfold against.
    rewrite !sum_list_fmap_zero; done.
  - destruct IH as [IHw IHl].
    { intros g' Hg'. apply Hok. apply elem_of_app. by left. }
    destruct (Hok g) as (Hne & Hb1 & Hb2); [apply elem_of_app; right; by left|].
    rewrite !bind_app, !Js_applyAll_app. simpl.
    rewrite !get_addAt.
    rewrite (against_snoc bot1Wins
      (λ g i j, bool_decide (Arena.winnerIdx g = i ∧ Arena.loserIdx g = j)))
      by (intros gs j Hj; by apply hit_wins).
    rewrite (against_snoc bot2Wins
      (λ g i j, bool_decide (Arena.loserIdx g = i ∧ Arena.winnerIdx g = j)))
      by (intros gs j Hj; by apply hit_wins).
    rewrite (sum_hits (Arena.winnerIdx g = i) (Arena.loserIdx g) n i).
    2:{ unfold Arena.winnerIdx, Arena.loserIdx.
        case_bool_decide; intros <-; done. }
    rewrite (sum_hits (Arena.loserIdx g = i) (Arena.winnerIdx g) n i).
    2:{ unfold Arena.winnerIdx, Arena.loserIdx.
        case_bool_decide; intros <-; done. }
    split; case_decide as Hd; case_bool_decide as Hb; try congruence;
      rewrite ?Hb, ?IHw, ?IHl; simpl; f_equal; lia.
Qed.

(** The head-to-head records agree with the totals of the tournament.
    When every game was played between two different bots of the list,
    the wins of a bot are the sum of its wins against each of the other
    bots, its losses the sum of its losses against them, and its games
    the sum of the games against them. *)
Theorem head_to_head_adds_up_to_the_totals
    (names : list string) (matchupResults : list Matchup.t) (i : nat) :
  let r := Arena.aggregateResults names matchupResults in
  let n := length names in
  (∀ g, g ∈ Arena.matches r →
     Game.bot1Index g ≠ Game.bot2Index g ∧
     Game.bot1Index g < n ∧ Game.bot2Index g < n) →
  i < n →
  Js.get (Arena.wins r) i = Js.Int (against bot1Wins (Arena.matches r) n i) ∧
  Js.get (Arena.losses r) i = Js.Int (against bot2Wins (Arena.matches r) n i) ∧
  Js.get (Arena.gamesPlayed r) i = Js.Int (against totalGames (Arena.matches r) n i).
Proof.
  intros r n Hok Hi.
  pose proof (foldl_addGame_fields (matchupResults ≫= Matchup.results)
    (Arena.emptyResults names)) as Hf.
  cbv zeta in Hf. rewrite <- collect_flat in Hf.
  destruct Hf as (_ & Hm & _ & Hw & Hl & _).
  assert (Arena.matches r = matchupResults ≫= Matchup.results) as Hmr by exact Hm.
  assert (Arena.wins r
          = Js.applyAll (Js.fill0 n) (Arena.matches r ≫= Arena.winUpdates)) as Hwr
    by (rewrite Hmr; exact Hw).
  assert (Arena.losses r
          = Js.applyAll (Js.fill0 n) (Arena.matches r ≫= Arena.lossUpdates)) as Hlr
    by (rewrite Hmr; exact Hl).
  destruct (totals_of_games (Arena.matches r) n i Hok Hi) as [Hwins Hlosses].
  rewrite <- Hwr in Hwins. rewrite <- Hlr in Hlosses.
  split_and!; [done|done|].
  assert (Arena.balanced r i) as (w & l & Hbw & Hbl & Hbp).
  { unfold r, Arena.aggregateResults. rewrite collect_flat.
    apply (balanced_foldl _ (Arena.emptyResults names) i).
    by apply balanced_empty. }
  rewrite Hbp. rewrite Hbw in Hwins. rewrite Hbl in Hlosses.
  injection Hwins as ->. injection Hlosses as ->. f_equal.
  unfold against. rewrite <- Nat2Z.inj_add. f_equal.
  rewrite <- sum_list_fmap_add. f_equal. apply list_fmap_ext.
  intros k j _. by rewrite headToHead_balance.
Qed.

End HeadToHeadFacts.

(** Three bots, one game for each pair: bot 0 beats bot 1 and loses to
    bot 2, bot 1 beats bot 2. *)
Lemma head_to_head_adds_up_to_the_totals_witness :
  let games := [Game.mk 0 1 0 30 15 9; Game.mk 0 2 1 28 7 15; Game.mk 1 2 0 25 16 3] in
  let r := Arena.aggregateResults ["A"; "B"; "C"] [Matchup.mk "all" games] in
  Js.get (Arena.wins r) 0
    = Js.Int (ArenaController.against ArenaController.bot1Wins (Arena.matches r) 3 0) ∧
  Js.get (Arena.wins r) 0 = Js.Int 1.
Proof.
  intros games r.
  destruct (head_to_head_adds_up_to_the_totals
              ["A"; "B"; "C"] [Matchup.mk "all" games] 0) as (Hw & _).
  - intros g Hg. change (g ∈ games) in Hg.
    repeat (apply elem_of_cons in Hg as [->|Hg]); simpl; try lia.
    by apply elem_of_nil in Hg.
  - simpl. lia.
  - split; [exact Hw|reflexivity].
Defined.

(** ** The proxy: the ways a request can end *)

Section ProxyLifeFacts.

Context {GameState Action : Type}.
Variable selectActionJSON : bool → GameState → Z → option Action.
Variable moduleAvailable : bool.

Import AIWorkerProxy ProxyLife.

Local Abbreviation Proxy := (AIWorkerProxy.Proxy GameState Action).
Local Abbreviation step := (AIWorkerProxy.step selectActionJSON moduleAvailable).
Local Abbreviation steps := (AIWorkerProxy.steps selectActionJSON moduleAvailable).
Local Abbreviation fire := (AIWorkerProxy.fire selectActionJSON moduleAvailable).
Local Abbreviation Holder := (option (nat * Timer GameState)).

Implicit Types (s : Proxy) (id : string) (h promise : nat) (due now : Z)
  (holder : Holder) (outcome : list (Settlement Action)).

(** What a handler may do to a guarded promise: settle other promises,
    and add entries and timers that do not carry it. *)
Lemma guarded_mono holder outcome promise s s' :
  guarded holder outcome promise s →
  settlements promise s' = settlements promise s →
  (∀ id r, pendingRequests s' !! id = Some r →
     pendingRequests s !! id = Some r ∨
     (resolve r ≠ promise ∧ reject r ≠ promise ∧ nextTimer s ≤ timeout r)) →
  (∀ h t, timers s' !! h = Some t →
     timers s !! h = Some t ∨ promiseOf t ≠ Some promise) →
  (∀ h t, holder = Some (h, t) → timers s' !! h = Some t) →
  (∀ h, initListener s' = Some h → initListener s = Some h ∨ nextTimer s ≤ h) →
  nextPromise s ≤ nextPromise s' →
  nextTimer s ≤ nextTimer s' →
  guarded holder outcome promise s'.
Proof.
  intros (Hs & Hpend & Htimers & Hhold & Hp) Hs' Hpend' Htimers' Hhold' Hinit' Hp' Hh'.
  split_and!; try lia.
  - by rewrite Hs'.
  - intros id r Hr. destruct (Hpend' _ _ Hr) as [Hold|(? & ? & Hfresh)]; [eauto|].
    split_and!; [done|done|]. intros h t Hh. destruct (Hhold _ _ Hh) as (_ & _ & ?). lia.
  - intros h t Hlk Hq. destruct (Htimers' _ _ Hlk) as [Hold|?]; [eauto|done].
  - intros h t Hh. destruct (Hhold _ _ Hh) as (_ & Hinit & Hlt).
    split_and!; [eauto| |lia].
    intros Hl. destruct (Hinit' _ Hl) as [?|?]; [done|lia].
Qed.

Lemma guarded_initializeFallback holder outcome promise s :
  guarded holder outcome promise s →
  guarded holder outcome promise (initializeFallback moduleAvailable s).
Proof. unfold initializeFallback. by destruct moduleAvailable. Qed.

Lemma guarded_postMessage holder outcome promise m s :
  guarded holder outcome promise s → guarded holder outcome promise (postMessage m s).
Proof. unfold postMessage. by destruct (worker s). Qed.

Lemma guarded_clearTimeout holder outcome promise h s :
  (∀ t, holder ≠ Some (h, t)) →
  guarded holder outcome promise s → guarded holder outcome promise (clearTimeout h s).
Proof.
  intros Hne H. pose proof H as (_ & _ & _ & Hhold & _).
  eapply guarded_mono; [exact H|..]; simpl; try done; try by left.
  - intros h' t. rewrite lookup_delete. case_decide; [done|by left].
  - intros h' t Hh. rewrite lookup_delete_ne; [by apply Hhold|].
    intros <-. by apply (Hne t).
Qed.

Lemma guarded_initialize holder outcome promise wasmPath s :
  guarded holder outcome promise s →
  guarded holder outcome promise (initialize moduleAvailable wasmPath s).
Proof.
  intros H. unfold initialize.
  destruct (negb (useWorker s)); [by apply guarded_initializeFallback|].
  simpl. apply guarded_postMessage.
  pose proof H as (_ & _ & _ & Hhold & _).
  eapply guarded_mono; [exact H|..]; simpl; try done; try lia; try by left.
  - intros h t. rewrite lookup_insert. case_decide; [|by left].
    intros [= <-]. by right.
  - intros h t Hh. destruct (Hhold _ _ Hh) as (? & _ & ?).
    rewrite lookup_insert_ne by lia. done.
  - intros h [= <-]. by right.
Qed.

Lemma guarded_getAIAction holder outcome promise gameState playerId s :
  guarded holder outcome promise s →
  guarded holder outcome promise (getAIAction gameState playerId s).1.
Proof.
  intros H. unfold getAIAction.
  pose proof H as (_ & _ & _ & Hhold & Hp).
  assert (∀ h t x, holder = Some (h, t) →
            <[nextTimer s := x]> (timers s) !! h = Some t) as Hkeep.
  { intros h t x Hh. destruct (Hhold _ _ Hh) as (? & _ & ?).
    rewrite lookup_insert_ne by lia. done. }
  assert (∀ h t, holder = Some (h, t) → timers s !! h = Some t) as Hkeep0.
  { intros h t Hh. by apply Hhold. }
  simpl. destruct (isReady s); simpl.
  2:{ eapply guarded_mono; [exact H|..]; simpl; try done; try lia; try by left.
      etrans; [apply (settlements_settle_ne promise (nextPromise s)); lia|done]. }
  destruct (useWorker s); simpl.
  2:{ eapply guarded_mono; [exact H|..]; simpl; try done; try lia; try by left.
      - intros h t. rewrite lookup_insert. case_decide; [|by left].
        intros [= <-]. right. simpl. intros [= ?]. lia.
      - intros h t Hh. by apply Hkeep. }
  destruct (worker s) eqn:Hw; simpl; [apply guarded_postMessage|];
    (eapply guarded_mono; [exact H|..]; simpl; try done; try lia; try by left).
  all: try (intros h t Hh; by apply Hkeep).
  all: try (etrans;
    [apply (settlements_settle_ne promise (S (nextPromise s))); lia|done]).
  all: try (intros id' r; rewrite lookup_insert; case_decide as Hid; [|by left];
    intros [= <-]; right; simpl; split_and!; lia).
  all: intros h t; rewrite lookup_insert; (case_decide; [|by left]);
    intros [= <-]; right; simpl; intros [= ?]; lia.
Qed.

Lemma guarded_terminate holder outcome promise s :
  guarded holder outcome promise s → guarded holder outcome promise (terminate s).
Proof.
  intros H. unfold terminate. pose proof H as (_ & _ & _ & Hhold & _).
  eapply guarded_mono; [exact H|..]; destruct (worker s); simpl; try done;
    try by left.
  all: try (intros h t Hh; by apply Hhold).
  all: intros h ?; by left.
Qed.

(** A reply for a request of the table: its timer is cleared, its entry
    deleted and its promise settled. *)
Lemma guarded_answer holder outcome promise i r q (st : Settlement Action) s :
  pendingRequests s !! i = Some r →
  q = resolve r ∨ q = reject r →
  guarded holder outcome promise s →
  guarded holder outcome promise
    (settle q st
       (set_pendingRequests (delete i (pendingRequests s))
          (clearTimeout (timeout r) s))).
Proof.
  intros Hr Hq H.
  pose proof H as (_ & Hpend & _ & Hhold & _).
  destruct (Hpend i r Hr) as (Hres & Hrej & Hto).
  eapply guarded_mono; [exact H|..]; simpl; try done.
  - etrans; [apply settlements_settle_ne|done]. by destruct Hq as [-> | ->].
  - intros i' r'. rewrite lookup_delete. case_decide; [done|by left].
  - intros h' t. rewrite lookup_delete. case_decide; [done|by left].
  - intros h t Hh. destruct (Hhold _ _ Hh) as (? & _).
    rewrite lookup_delete_ne; [done|]. by apply (Hto h t).
  - intros h ?. by left.
Qed.

Lemma guarded_handleMessage holder outcome promise m s :
  guarded holder outcome promise s → guarded holder outcome promise (handleMessage m s).
Proof.
  intros H.
  destruct m as [[i|] action|[i|] error|progress| | |]; simpl; try done.
  - destruct (pendingRequests s !! i) as [r|] eqn:Hr; [|done].
    apply guarded_answer; auto.
  - destruct (pendingRequests s !! i) as [r|] eqn:Hr; [|done].
    apply guarded_answer; auto.
  - unfold handleProgress. by destruct (progressCallback s).
Qed.

Lemma guarded_initHandler holder outcome promise m s :
  guarded holder outcome promise s →
  guarded holder outcome promise (initHandler moduleAvailable m s).
Proof.
  intros H. unfold initHandler.
  destruct (initListener s) as [h'|] eqn:Hl; [|done].
  assert (∀ t, holder ≠ Some (h', t)) as Hne.
  { intros t Hh. destruct H as (_ & _ & _ & Hhold & _).
    destruct (Hhold _ _ Hh) as (_ & Hinit & _). congruence. }
  assert (guarded holder outcome promise (set_initListener None s)) as H1.
  { pose proof H as (_ & _ & _ & Hhold & _).
    eapply guarded_mono; [exact H|..]; simpl; try done; try by left.
    intros h t Hh. by apply Hhold. }
  destruct m; try done.
  - by apply (guarded_clearTimeout _ _ _ h') in H1.
  - case_bool_decide; [|done].
    apply guarded_initializeFallback.
    apply (guarded_clearTimeout _ _ _ h') in H1; [|done]. exact H1.
Qed.

Lemma guarded_fire holder outcome promise h t s :
  (∀ t', holder ≠ Some (h, t')) →
  timers s !! h = Some t →
  guarded holder outcome promise s → guarded holder outcome promise (fire h t s).
Proof.
  intros Hne Hlk H.
  pose proof H as (_ & _ & Htimers & Hhold & _).
  assert (promiseOf t ≠ Some promise) as Hp.
  { intros Hq. by apply (Hne t), Htimers. }
  pose proof (guarded_clearTimeout _ _ _ h s Hne H) as H1.
  pose proof H1 as (_ & _ & _ & Hhold1 & _).
  assert (∀ h' t', holder = Some (h', t') → delete h (timers s) !! h' = Some t')
    as Hkeep.
  { intros h' t' Hh. by apply Hhold1. }
  unfold AIWorkerProxy.fire. destruct t as [due' id' q|due'|due' q gs pid].
  - eapply guarded_mono; [exact H1|..]; simpl; try done; try by left.
    + etrans; [apply settlements_settle_ne|done]. simpl in Hp. congruence.
    + intros i r. rewrite lookup_delete. case_decide; [done|by left].
  - by apply guarded_initializeFallback.
  - destruct (fallbackWasm _); [|done].
    destruct (selectActionJSON _ _ _); [|done].
    eapply guarded_mono; [exact H1|..]; simpl; try done; try by left.
    etrans; [apply settlements_settle_ne|done]. simpl in Hp. congruence.
Qed.

Lemma guarded_rejectLoop holder outcome promise error
    (entries : list (string * Pending)) : ∀ s,
  Forall (λ entry, reject entry.2 ≠ promise ∧
                   ∀ h t, holder = Some (h, t) → timeout entry.2 ≠ h) entries →
  guarded holder outcome promise s →
  guarded holder outcome promise
    (foldl (λ s (entry : string * Pending),
              settle (reject entry.2) (Rejected error)
                (clearTimeout (timeout entry.2) s)) s entries).
Proof.
  induction entries as [|entry entries IH]; intros s Hall H; [done|].
  apply Forall_cons in Hall as [[Hne Hto] Hall]. simpl. apply IH; [done|].
  assert (guarded holder outcome promise (clearTimeout (timeout entry.2) s)) as H1.
  { apply guarded_clearTimeout; [|done]. intros t Hh. by apply (Hto _ _ Hh). }
  pose proof H1 as (_ & _ & _ & Hhold1 & _).
  assert (∀ h t, holder = Some (h, t) →
            delete (timeout entry.2) (timers s) !! h = Some t) as Hkeep.
  { intros h t Hh. by apply Hhold1. }
  eapply guarded_mono; [exact H1|..]; simpl; try done; try by left.
  etrans; [by apply settlements_settle_ne|done].
Qed.

Lemma guarded_handleError holder outcome promise s :
  guarded holder outcome promise s →
  guarded holder outcome promise (handleError moduleAvailable s).
Proof.
  intros H. unfold handleError, restart.
  apply guarded_initialize.
  assert (guarded holder outcome promise (rejectAll "Worker crashed" s)) as H1.
  { apply guarded_rejectLoop; [|done].
    apply Forall_forall. intros [i r] Hin%elem_of_map_to_list.
    destruct H as (_ & Hpend & _). destruct (Hpend i r Hin) as (? & ? & ?). done. }
  assert (guarded holder outcome promise
    (set_pendingRequests ∅ (rejectAll "Worker crashed" s))) as H2.
  { pose proof H1 as (_ & _ & _ & Hhold1 & _).
    eapply guarded_mono; [exact H1|..]; simpl; try done; try by left.
    intros h t Hh. by apply Hhold1. }
  by apply guarded_terminate in H2.
Qed.

(** No event but the firing of the timer of the holder changes what a
    guarded promise is settled with. *)
Lemma guarded_step holder outcome promise now e s s' :
  spares holder e → step now e s = Some s' →
  guarded holder outcome promise s → guarded holder outcome promise s'.
Proof.
  intros Hsp Hstep H. unfold AIWorkerProxy.step in Hstep.
  case_bool_decide as Hnow; [done|].
  assert (guarded holder outcome promise (set_clock now s)) as Hclk by done.
  destruct e as [path|gs pid| |d|t|b| |w m|w|h']; simplify_eq.
  - by apply guarded_initialize.
  - by apply guarded_getAIAction.
  - by apply guarded_terminate.
  - unfold setDifficulty. destruct (_ && _); [apply guarded_postMessage|]; done.
  - unfold setTimeLimit. destruct (_ && _); [apply guarded_postMessage|]; done.
  - unfold setDebugMode. destruct (_ && _); [apply guarded_postMessage|]; done.
  - done.
  - case_bool_decide; simplify_eq.
    by apply guarded_initHandler, guarded_handleMessage.
  - case_bool_decide; simplify_eq. by apply guarded_handleError.
  - simpl in Hstep. destruct (timers s !! h') as [t|] eqn:Hlk; [|done].
    case_bool_decide; simplify_eq. apply guarded_fire; [|done|done].
    intros t' Hh. by apply (Hsp _ _ Hh).
Qed.

Lemma guarded_steps holder outcome promise evs : ∀ s s',
  Forall (λ te, spares holder te.2) evs →
  steps evs s = Some s' →
  guarded holder outcome promise s → guarded holder outcome promise s'.
Proof.
  induction evs as [|[now e] evs IH]; intros s s' Hsp Hsteps H; simpl in Hsteps.
  - by simplify_eq.
  - apply Forall_cons in Hsp as [Hsp1 Hsp].
    destruct (step now e s) as [s1|] eqn:Hstep; [|done]. simpl in Hsteps.
    eapply IH; [done|done|]. by eapply guarded_step.
Qed.

(** Without a holder every event spares the promise. *)
Lemma spares_nobody (evs : list (Z * Event GameState Action)) :
  Forall (λ te, spares None te.2) evs.
Proof. apply Forall_forall. intros te _ h t. done. Qed.

(** *** While the request is in the table *)

Lemma listed_mono id r h s s' :
  listed id r h s →
  pendingRequests s' !! id = Some r →
  (∀ h' t, timers s' !! h' = Some t →
     timers s !! h' = Some t ∨ ∀ due q, t ≠ RequestTimeout due id q) →
  requestIdCounter s ≤ requestIdCounter s' →
  listed id r h s'.
Proof.
  intros (Hr & Hone & n & Hn & Hc) Hr' Htimers' Hc'. split_and!; [done| |].
  - intros h' due q Hlk. destruct (Htimers' _ _ Hlk) as [Hold|Hnew]; [eauto|].
    by destruct (Hnew due q).
  - exists n. split; [done|lia].
Qed.

Lemma listed_initializeFallback id r h s :
  listed id r h s → listed id r h (initializeFallback moduleAvailable s).
Proof. unfold initializeFallback. by destruct moduleAvailable. Qed.

Lemma listed_postMessage id r h m s :
  listed id r h s → listed id r h (postMessage m s).
Proof. unfold postMessage. by destruct (worker s). Qed.

Lemma listed_clearTimeout id r h h' s :
  listed id r h s → listed id r h (clearTimeout h' s).
Proof.
  intros H. pose proof H as (Hr & _).
  eapply listed_mono; [exact H|..]; simpl; try done.
  intros h'' t. rewrite lookup_delete. case_decide; [done|by left].
Qed.

Lemma listed_initialize id r h wasmPath s :
  listed id r h s → listed id r h (initialize moduleAvailable wasmPath s).
Proof.
  intros H. unfold initialize.
  destruct (negb (useWorker s)); [by apply listed_initializeFallback|].
  simpl. apply listed_postMessage. pose proof H as (Hr & _).
  eapply listed_mono; [exact H|..]; simpl; try done.
  intros h' t. rewrite lookup_insert. case_decide; [|by left].
  intros [= <-]. by right.
Qed.

Lemma listed_getAIAction id r h gameState playerId s :
  listed id r h s → listed id r h (getAIAction gameState playerId s).1.
Proof.
  intros H. unfold getAIAction.
  pose proof H as (Hr & _ & n & Hn & Hc).
  assert (id ≠ requestId (requestIdCounter s)) as Hfresh.
  { rewrite Hn. intros Heq%requestId_inj. lia. }
  simpl. destruct (isReady s); simpl.
  2:{ eapply listed_mono; [exact H|..]; simpl; try done. by left. }
  destruct (useWorker s); simpl.
  2:{ eapply listed_mono; [exact H|..]; simpl; try done.
      intros h' t. rewrite lookup_insert. case_decide; [|by left].
      intros [= <-]. by right. }
  destruct (worker s) eqn:Hw; simpl; [apply listed_postMessage|];
    (eapply listed_mono; [exact H|..]; simpl; try done; try lia).
  all: try (by rewrite lookup_insert_ne).
  all: intros h' t; rewrite lookup_insert; (case_decide; [|by left]);
    intros [= <-]; right; intros due q [= _ Heq _]; done.
Qed.

(** A reply for another request. *)
Lemma listed_answer id r h i r' q (st : Settlement Action) s :
  i ≠ id →
  listed id r h s →
  listed id r h
    (settle q st
       (set_pendingRequests (delete i (pendingRequests s))
          (clearTimeout (timeout r') s))).
Proof.
  intros Hne H. pose proof H as (Hr & _).
  eapply listed_mono; [exact H|..]; simpl; try done.
  - by rewrite lookup_delete_ne.
  - intros h' t. rewrite lookup_delete. case_decide; [done|by left].
Qed.

Lemma listed_handleMessage id r h m s :
  match m with
  | AI_ACTION_RESULT id' _ | AI_ERROR id' _ => id' ≠ Some id
  | _ => True
  end →
  listed id r h s → listed id r h (handleMessage m s).
Proof.
  intros Hm H.
  destruct m as [[i|] action|[i|] error|progress| | |]; simpl; try done.
  - destruct (pendingRequests s !! i) as [r'|] eqn:Hr; [|done].
    apply listed_answer; [congruence|done].
  - destruct (pendingRequests s !! i) as [r'|] eqn:Hr; [|done].
    apply listed_answer; [congruence|done].
  - unfold handleProgress. by destruct (progressCallback s).
Qed.

Lemma listed_initHandler id r h m s :
  listed id r h s → listed id r h (initHandler moduleAvailable m s).
Proof.
  intros H. unfold initHandler.
  destruct (initListener s) as [h'|] eqn:Hl; [|done].
  assert (listed id r h (set_initListener None s)) as H1 by done.
  destruct m; try done.
  - by apply (listed_clearTimeout _ _ _ h') in H1.
  - case_bool_decide; [|done].
    apply listed_initializeFallback.
    apply (listed_clearTimeout _ _ _ h') in H1. exact H1.
Qed.

Lemma listed_fire id r h h' t s :
  h' ≠ h → timers s !! h' = Some t →
  listed id r h s → listed id r h (fire h' t s).
Proof.
  intros Hne Hlk H. pose proof H as (Hr & Hone & _).
  pose proof (listed_clearTimeout _ _ _ h' s H) as H1.
  unfold AIWorkerProxy.fire. destruct t as [due' id' q|due'|due' q gs pid].
  - assert (id' ≠ id) as Hid.
    { intros ->. by apply Hne, (Hone h' due' q). }
    eapply listed_mono; [exact H1|..]; simpl; try done; try by left.
    by rewrite lookup_delete_ne.
  - by apply listed_initializeFallback.
  - destruct (fallbackWasm _); [|done].
    destruct (selectActionJSON _ _ _); [|done].
    eapply listed_mono; [exact H1|..]; simpl; try done; by left.
Qed.

(** An event that leaves the request alone, and is not [terminate],
    leaves its entry in the table. *)
Lemma listed_step id r h now e s s' :
  undisturbed id h e → step now e s = Some s' →
  listed id r h s → listed id r h s'.
Proof.
  intros [Hq Hterm] Hstep H. unfold AIWorkerProxy.step in Hstep.
  case_bool_decide as Hnow; [done|].
  assert (listed id r h (set_clock now s)) as Hclk by done.
  destruct e as [path|gs pid| |d|t|b| |w m|w|h']; simplify_eq.
  - by apply listed_initialize.
  - by apply listed_getAIAction.
  - unfold setDifficulty. destruct (_ && _); [apply listed_postMessage|]; done.
  - unfold setTimeLimit. destruct (_ && _); [apply listed_postMessage|]; done.
  - unfold setDebugMode. destruct (_ && _); [apply listed_postMessage|]; done.
  - done.
  - case_bool_decide; simplify_eq.
    apply listed_initHandler, listed_handleMessage; [|done].
    destruct m as [[i|] ?|[i|] ?| | | |]; simpl in *; congruence.
  - simpl in Hstep, Hq. destruct (timers s !! h') as [t|] eqn:Hlk; [|done].
    case_bool_decide; simplify_eq. by apply listed_fire.
Qed.

Lemma listed_steps id r h evs : ∀ s s',
  Forall (λ te, undisturbed id h te.2) evs →
  steps evs s = Some s' →
  listed id r h s → listed id r h s'.
Proof.
  induction evs as [|[now e] evs IH]; intros s s' Hq Hsteps H; simpl in Hsteps.
  - by simplify_eq.
  - apply Forall_cons in Hq as [Hq1 Hq].
    destruct (step now e s) as [s1|] eqn:Hstep; [|done]. simpl in Hsteps.
    eapply IH; [done|done|]. by eapply listed_step.
Qed.

(** *** The reply *)

Lemma initHandler_pendingRequests (m : Message Action) s :
  pendingRequests (initHandler moduleAvailable m s) = pendingRequests s.
Proof.
  unfold initHandler. destruct (initListener s); [|done].
  destruct m; try done. case_bool_decide; [|done].
  unfold initializeFailed, initializeFallback. by destruct moduleAvailable.
Qed.

Lemma answer_settles id promise h due (st : Settlement Action) now w s s' :
  awaiting id promise h due s →
  listed id (mkPending promise promise h) h s →
  step now (WorkerMessage w (answer id st)) s = Some s' →
  guarded None [st] promise s' ∧ pendingRequests s' !! id = None.
Proof.
  intros (Ht & Hs & _ & Hother & Htimers & _ & Hp & _) (Hr & _) Hstep.
  unfold AIWorkerProxy.step in Hstep. case_bool_decide as Hnow; [done|].
  case_bool_decide as Hw; [|done]. simplify_eq.
  assert (guarded None [st] promise
            (handleMessage (answer id st) (set_clock now s)) ∧
          pendingRequests (handleMessage (answer id st) (set_clock now s)) !! id
            = None) as [H1 Hgone].
  { destruct st as [action|error]; simpl; rewrite Hr; simpl.
    all: split; [|by rewrite lookup_delete_eq].
    all: split_and!; simpl; try done.
    all: try (etrans; [apply settlements_settle|];
              rewrite decide_True by done; unfold settlements in *; simpl;
              by rewrite Hs).
    all: try (intros id' r; rewrite lookup_delete; case_decide as Hne; [done|];
              intros Hr'; destruct (Hother id' r) as (? & ? & _); auto).
    all: intros h' t; rewrite lookup_delete; case_decide as Hne; [done|];
         intros Hlk Hq; by destruct (Htimers h' t). }
  split; [by apply guarded_initHandler|].
  by rewrite initHandler_pendingRequests.
Qed.

(** *** The crash *)

Lemma initialize_pendingRequests wasmPath s :
  pendingRequests (initialize moduleAvailable wasmPath s) = pendingRequests s.
Proof.
  unfold initialize. destruct (negb (useWorker s)).
  - unfold initializeFallback. by destruct moduleAvailable.
  - done.
Qed.

Lemma initialize_terminated wasmPath s :
  terminated (initialize moduleAvailable wasmPath s) = terminated s.
Proof.
  unfold initialize. destruct (negb (useWorker s)).
  - unfold initializeFallback. by destruct moduleAvailable.
  - done.
Qed.

Lemma filter_none {A} (P : A → Prop) `{∀ x, Decision (P x)} (l : list A) :
  Forall (λ x, ¬ P x) l → filter P l = [].
Proof.
  induction 1 as [|x l Hx _ IH]; [done|].
  by rewrite filter_cons_False.
Qed.

Lemma rejectLoop_effect promise error (entries : list (string * Pending)) : ∀ s,
  let s' := foldl (λ s (entry : string * Pending),
                     settle (reject entry.2) (Rejected error)
                       (clearTimeout (timeout entry.2) s)) s entries in
  settlements promise s'
    = settlements promise s
        ++ replicate (length (filter (λ entry, reject entry.2 = promise) entries))
             (Rejected error) ∧
  (∀ h t, timers s' !! h = Some t →
     timers s !! h = Some t ∧ h ∉ (timeout ∘ snd) <$> entries) ∧
  pendingRequests s' = pendingRequests s ∧
  nextPromise s' = nextPromise s ∧
  worker s' = worker s ∧ terminated s' = terminated s.
Proof.
  induction entries as [|entry entries IH]; intros s; simpl.
  - rewrite app_nil_r. split_and!; try done. intros h t Hlk. split; [done|].
    by intros ?%elem_of_nil.
  - match goal with
    | |- context [foldl ?f ?x entries] =>
        specialize (IH x); cbv zeta in IH;
        destruct IH as (Hs & Ht & Hp & Hn & Hw & Hd)
    end.
    rewrite Hs, Hp, Hn, Hw, Hd, settlements_settle. split_and!; try done.
    + change (settlements promise (clearTimeout (timeout entry.2) s))
        with (settlements promise s).
      rewrite filter_cons, <- app_assoc. f_equal.
      destruct (decide (reject entry.2 = promise)); done.
    + intros h t Hlk. destruct (Ht h t Hlk) as [Hlk' Hnot]. simpl in Hlk'.
      rewrite lookup_delete in Hlk'. case_decide as Hne; [done|].
      split; [done|]. apply not_elem_of_cons. split; [|done].
      simpl. congruence.
Qed.

Lemma crash_settles id promise h due now w s s' :
  awaiting id promise h due s →
  listed id (mkPending promise promise h) h s →
  step now (WorkerError w) s = Some s' →
  guarded None [Rejected "Worker crashed"] promise s' ∧
  pendingRequests s' = ∅ ∧ w ∈ terminated s'.
Proof.
  intros (Ht & Hs & _ & Hother & Htimers & _ & Hp & _) (Hr & _) Hstep.
  unfold AIWorkerProxy.step in Hstep. case_bool_decide as Hnow; [done|].
  case_bool_decide as Hw; [|done]. simplify_eq. simpl in Hw.
  destruct (rejectLoop_effect promise "Worker crashed"
              (map_to_list (pendingRequests s)) (set_clock now s))
    as (Hs1 & Ht1 & Hp1 & Hn1 & Hw1 & Hd1).
  change (foldl _ (set_clock now s) (map_to_list (pendingRequests s)))
    with (rejectAll (Action := Action) "Worker crashed" (set_clock now s))
    in Hs1, Ht1, Hp1, Hn1, Hw1, Hd1.
  assert (length (filter (λ entry : string * Pending, reject entry.2 = promise)
                    (map_to_list (pendingRequests s))) = 1) as Hone.
  { rewrite <- (insert_delete_id (pendingRequests s) id _ Hr).
    rewrite map_to_list_insert by apply lookup_delete_eq.
    rewrite filter_cons_True by done. simpl. f_equal.
    rewrite filter_none; [done|].
    apply Forall_forall. intros [id' r] Hin%elem_of_map_to_list. simpl.
    apply lookup_delete_Some in Hin as [Hne Hin].
    by destruct (Hother id' r) as (? & ? & _). }
  assert (guarded None [Rejected "Worker crashed"] promise
            (set_pendingRequests ∅ (rejectAll "Worker crashed" (set_clock now s))))
    as H2.
  { split_and!; simpl; try done.
    - etrans; [exact Hs1|]. rewrite Hone. unfold settlements in *. simpl.
      by rewrite Hs.
    - intros h' t Hlk Hq. destruct (Ht1 h' t Hlk) as [Hlk' Hnot]. simpl in Hlk'.
      destruct (decide (h' = h)) as [->|Hne]; [|by destruct (Htimers h' t)].
      destruct Hnot. apply list_elem_of_fmap.
      exists (id, mkPending promise promise h). split; [done|].
      by apply elem_of_map_to_list.
    - by rewrite Hn1. }
  unfold handleError, restart. split_and!.
  - apply guarded_initialize. apply guarded_terminate in H2. exact H2.
  - by rewrite initialize_pendingRequests.
  - rewrite initialize_terminated. unfold terminate. simpl.
    rewrite Hw1, Hd1. simpl. rewrite Hw. simpl. set_solver.
Qed.

(** *** Every state of the proxy is orderly *)

Lemma orderly_create : orderly (create : Proxy).
Proof. split_and!; [|done|done]. intros h due id q Hlk. done. Qed.

Lemma requested_postMessage (m : Request GameState) s :
  requested (postMessage m s)
    = requested s ++
      match worker s, m with
      | Some _, COMPUTE_AI_ACTION id _ _ _ _ => [id]
      | _, _ => []
      end.
Proof.
  unfold postMessage, requested. destruct (worker s); simpl.
  - rewrite bind_app. simpl. destruct m; simpl; by rewrite ?app_nil_r.
  - by rewrite app_nil_r.
Qed.

Lemma orderly_postMessage (m : Request GameState) s :
  (∀ id gs pid d t, m ≠ COMPUTE_AI_ACTION id gs pid d t) →
  orderly s → orderly (postMessage m s).
Proof.
  intros Hm (Ht & Hr & Hq). split_and!.
  - unfold postMessage. by destruct (worker s).
  - unfold postMessage. destruct (worker s) eqn:Hw; simpl; rewrite ?Hw; eauto.
  - rewrite requested_postMessage.
    replace (requestIdCounter (postMessage m s)) with (requestIdCounter s)
      by (unfold postMessage; by destruct (worker s)).
    rewrite Hq. destruct (worker s); [|by rewrite app_nil_r].
    destruct m as [|id gs pid d t| | |]; rewrite ?app_nil_r; try done.
    by destruct (Hm id gs pid d t).
Qed.

Lemma orderly_initializeFallback s :
  useWorker s = false → orderly s → orderly (initializeFallback moduleAvailable s).
Proof.
  intros Huse (Ht & Hr & Hq). unfold initializeFallback.
  destruct moduleAvailable; [|done]. split_and!; simpl; try done. congruence.
Qed.

Lemma orderly_initializeFailed s :
  orderly s → orderly (initializeFailed moduleAvailable s).
Proof.
  intros (Ht & Hr & Hq). apply orderly_initializeFallback; [done|].
  split_and!; simpl; done.
Qed.

Lemma orderly_initialize wasmPath s :
  orderly s → orderly (initialize moduleAvailable wasmPath s).
Proof.
  intros H. unfold initialize.
  destruct (useWorker s) eqn:Huse; simpl; [|by apply orderly_initializeFallback].
  apply orderly_postMessage; [done|]. destruct H as (Ht & Hr & Hq).
  split_and!; simpl; try done.
  intros h due id q. rewrite lookup_insert. case_decide; [done|]. apply Ht.
Qed.

Lemma orderly_getAIAction gameState playerId s :
  orderly s → orderly (getAIAction gameState playerId s).1.
Proof.
  intros (Ht & Hr & Hq). unfold getAIAction. simpl.
  destruct (isReady s) eqn:Hready; simpl;
    [|split_and!; simpl; try done; congruence].
  destruct (useWorker s) eqn:Huse; simpl.
  2:{ split_and!; simpl; try done; [|congruence].
      intros h due id q. rewrite lookup_insert. case_decide; [done|]. apply Ht. }
  destruct (Hr eq_refl eq_refl) as [w Hw]. rewrite Hw. simpl.
  split_and!.
  - unfold postMessage. simpl. rewrite Hw. simpl.
    intros h due id q. rewrite lookup_insert. case_decide.
    + intros [= _ <- _]. exists (requestIdCounter s). split; [done|lia].
    + intros Hlk. destruct (Ht _ _ _ _ Hlk) as (n & ? & ?).
      exists n. split; [done|lia].
  - unfold postMessage. simpl. rewrite Hw. simpl. by eauto.
  - rewrite requested_postMessage.
    match goal with
    | |- requested ?x ++ _ = _ =>
        change (requested x) with (requested s);
        change (worker x) with (worker s)
    end.
    rewrite Hw, Hq. unfold postMessage. simpl. rewrite Hw.
    change (requestIdCounter (set_sent _ _)) with (S (requestIdCounter s)).
    by rewrite seq_S, fmap_app.
Qed.

Lemma orderly_clearTimeout h s : orderly s → orderly (clearTimeout h s).
Proof.
  intros (Ht & Hr & Hq). split_and!; simpl; try done.
  intros h' due id q. rewrite lookup_delete. case_decide; [done|]. apply Ht.
Qed.

Lemma orderly_handleMessage (m : Message Action) s :
  orderly s → orderly (handleMessage m s).
Proof.
  intros H.
  destruct m as [[i|] action|[i|] error|progress| | |]; simpl; try done.
  - destruct (pendingRequests s !! i) as [r|]; [|done].
    apply (orderly_clearTimeout (timeout r)) in H. exact H.
  - destruct (pendingRequests s !! i) as [r|]; [|done].
    apply (orderly_clearTimeout (timeout r)) in H. exact H.
  - unfold handleProgress. by destruct (progressCallback s).
Qed.

Lemma orderly_initHandler (m : Message Action) s :
  is_Some (worker s) → orderly s → orderly (initHandler moduleAvailable m s).
Proof.
  intros Hw H. unfold initHandler.
  destruct (initListener s) as [h'|]; [|done].
  assert (orderly (set_initListener None s)) as H1 by done.
  destruct m; try done.
  - apply (orderly_clearTimeout h') in H1. destruct H1 as (Ht & Hr & Hq).
    split_and!; simpl; done.
  - case_bool_decide; [|done].
    apply orderly_initializeFailed. by apply (orderly_clearTimeout h') in H1.
Qed.

Lemma orderly_terminate s : orderly s → orderly (terminate s).
Proof.
  intros (Ht & Hr & Hq). unfold terminate.
  destruct (worker s); split_and!; simpl; done.
Qed.

Lemma orderly_rejectLoop error (entries : list (string * Pending)) : ∀ s,
  orderly s →
  orderly
    (foldl (λ s (entry : string * Pending),
              settle (reject entry.2) (Rejected error)
                (clearTimeout (timeout entry.2) s)) s entries).
Proof.
  induction entries as [|entry entries IH]; intros s H; [done|].
  simpl. apply IH. apply (orderly_clearTimeout (timeout entry.2)) in H. exact H.
Qed.

Lemma orderly_handleError s : orderly s → orderly (handleError moduleAvailable s).
Proof.
  intros H. unfold handleError, restart. apply orderly_initialize.
  assert (orderly (rejectAll (Action := Action) "Worker crashed" s)) as H1
    by by apply orderly_rejectLoop.
  assert (orderly (set_pendingRequests ∅
                     (rejectAll (Action := Action) "Worker crashed" s))) as H2 by done.
  apply orderly_terminate in H2. exact H2.
Qed.

Lemma orderly_fire h t s : orderly s → orderly (fire h t s).
Proof.
  intros H. apply (orderly_clearTimeout h) in H.
  unfold AIWorkerProxy.fire. destruct t as [due' id' q|due'|due' q gs pid].
  - exact H.
  - by apply orderly_initializeFailed.
  - destruct (fallbackWasm _); [|done].
    destruct (selectActionJSON _ _ _); done.
Qed.

Lemma orderly_step now e s s' :
  step now e s = Some s' → orderly s → orderly s'.
Proof.
  intros Hstep H. unfold AIWorkerProxy.step in Hstep.
  case_bool_decide as Hnow; [done|].
  assert (orderly (set_clock now s)) as Hclk by done.
  destruct e as [path|gs pid| |d|t|b| |w m|w|h']; simplify_eq.
  - by apply orderly_initialize.
  - by apply orderly_getAIAction.
  - by apply orderly_terminate.
  - unfold setDifficulty. destruct (_ && _); [apply orderly_postMessage|]; done.
  - unfold setTimeLimit. destruct (_ && _); [apply orderly_postMessage|]; done.
  - unfold setDebugMode. destruct (_ && _); [apply orderly_postMessage|]; done.
  - done.
  - case_bool_decide as Hw; simplify_eq.
    apply orderly_initHandler; [|by apply orderly_handleMessage].
    replace (worker (handleMessage m (set_clock now s))) with (worker s); [by eauto|].
    destruct m as [[i|] ?|[i|] ?|?| | |]; simpl; try done.
    + by destruct (pendingRequests s !! i).
    + by destruct (pendingRequests s !! i).
    + unfold handleProgress. by destruct (progressCallback _).
  - case_bool_decide; simplify_eq. by apply orderly_handleError.
  - simpl in Hstep. destruct (timers s !! h') as [t|] eqn:Hlk; [|done].
    case_bool_decide; simplify_eq. by apply orderly_fire.
Qed.

Lemma orderly_steps evs : ∀ s s',
  steps evs s = Some s' → orderly s → orderly s'.
Proof.
  induction evs as [|[now e] evs IH]; intros s s' Hsteps H; simpl in Hsteps.
  - by simplify_eq.
  - destruct (step now e s) as [s1|] eqn:Hstep; [|done]. simpl in Hsteps.
    eapply IH; [done|]. by eapply orderly_step.
Qed.

(** *** Sending a request *)

Lemma getAIAction_listed gameState playerId s w :
  orderly s → isReady s = true → useWorker s = true → worker s = Some w →
  listed (requestId (requestIdCounter s))
    (mkPending (nextPromise s) (nextPromise s) (nextTimer s)) (nextTimer s)
    (getAIAction gameState playerId s).1.
Proof.
  intros (Ht & _ & _) Hready Huse Hw.
  unfold getAIAction. simpl. rewrite Hready, Huse. simpl.
  rewrite Hw. simpl. unfold postMessage. simpl. rewrite Hw. simpl.
  split_and!; simpl.
  - by rewrite lookup_insert_eq.
  - intros h' due q. rewrite lookup_insert. case_decide; [done|].
    intros Hlk. destruct (Ht _ _ _ _ Hlk) as (n & Heq%requestId_inj & Hn). lia.
  - exists (requestIdCounter s). split; [done|lia].
Qed.

(** *** The fallback *)

(** What the deferred computation of the fallback path settles its
    promise with: the action of the engine, or nothing when the engine
    (or the missing [fallbackWasm]) makes the callback throw. *)
Lemma getAIAction_fallback gameState playerId s :
  wf s → isReady s = true → useWorker s = false →
  let promise := nextPromise s in
  let h := nextTimer s in
  let t := FallbackCompute (clock s + 10) promise gameState playerId in
  getAIAction gameState playerId s
    = (set_nextTimer (S h)
         (set_timers (<[h := t]> (timers s)) (set_nextPromise (S promise) s)),
       promise) ∧
  guarded (Some (h, t)) [] promise (getAIAction gameState playerId s).1.
Proof.
  intros (Hsettled & Hpend & Htimers & Hinit) Hready Huse promise h t.
  unfold getAIAction. simpl. rewrite Hready, Huse. simpl. split; [done|].
  split_and!; simpl.
  - by apply (settlements_fresh (nextPromise s) s).
  - intros id r Hr. destruct (Hpend _ _ Hr) as (? & ? & ? & _).
    split_and!; try lia. intros h' t' [= <- <-]. lia.
  - intros h' t'. rewrite lookup_insert. case_decide as Hh.
    + intros [= <-] _. by subst h'.
    + intros Hlk Hq. destruct (Htimers _ _ Hlk) as (_ & Hlt).
      specialize (Hlt _ Hq). lia.
  - intros h' t' [= <- <-]. rewrite lookup_insert_eq. split_and!; [done| |lia].
    intros Heq. specialize (Hinit _ Heq). lia.
  - lia.
Qed.

Lemma fallback_fires promise h due gameState playerId now s s' :
  guarded (Some (h, FallbackCompute due promise gameState playerId)) [] promise s →
  step now (TimerFires h) s = Some s' →
  (due ≤ now)%Z ∧
  guarded None
    (if fallbackWasm s
     then match selectActionJSON (debugMode s) gameState playerId with
          | Some action => [Resolved action]
          | None => []
          end
     else [])
    promise s'.
Proof.
  intros (Hs & Hpend & Htimers & Hhold & Hp) Hstep.
  destruct (Hhold _ _ eq_refl) as (Ht & _ & _).
  unfold AIWorkerProxy.step in Hstep. case_bool_decide as Hnow; [done|].
  simpl in Hstep. rewrite Ht in Hstep. simpl in Hstep.
  case_bool_decide as Hdue; [|done]. simplify_eq. split; [done|].
  assert (guarded None [] promise (clearTimeout h (set_clock now s))) as H1.
  { split_and!; simpl; try done.
    - intros id r Hr. destruct (Hpend _ _ Hr) as (? & ? & _). done.
    - intros h' t'. rewrite lookup_delete. case_decide as Hne; [done|].
      intros Hlk Hq. specialize (Htimers _ _ Hlk Hq). congruence. }
  unfold AIWorkerProxy.fire. simpl. destruct (fallbackWasm s); [|done].
  destruct (selectActionJSON _ _ _) as [action|]; [|done].
  destruct H1 as (Hs1 & Hpend1 & Htimers1 & _ & Hp1).
  split_and!; simpl; try done.
  etrans; [apply settlements_settle|]. rewrite decide_True by done.
  unfold settlements in *. simpl in *. by rewrite Hs1.
Qed.

(** A request that is waiting and has lost its entry is held by its
    timer alone. *)
Lemma awaiting_guarded id promise h due s :
  awaiting id promise h due s → pendingRequests s !! id = None →
  guarded (Some (h, RequestTimeout due id promise)) [] promise s.
Proof.
  intros (Ht & Hs & Hown & Hothers & Htimers & Hinit & Hp & Hh & Hn) Hgone.
  split_and!; try done.
  - intros id' r Hr.
    assert (id' ≠ id) as Hne by (intros ->; congruence).
    destruct (Hothers _ _ Hne Hr) as (? & ? & ?).
    split_and!; try done. by intros h0 t0 [= <- <-].
  - intros h' t Hlk Hq. destruct (decide (h' = h)) as [->|Hne].
    + congruence.
    + by destruct (Htimers _ _ Hne Hlk).
  - by intros h0 t0 [= <- <-].
Qed.

Lemma timeout_fires id promise h due now s s' :
  guarded (Some (h, RequestTimeout due id promise)) [] promise s →
  step now (TimerFires h) s = Some s' →
  (due ≤ now)%Z ∧ guarded None [Rejected "AI computation timeout"] promise s'.
Proof.
  intros (Hs & Hpend & Htimers & Hhold & Hp) Hstep.
  destruct (Hhold _ _ eq_refl) as (Ht & _ & _).
  unfold AIWorkerProxy.step in Hstep. case_bool_decide as Hnow; [done|].
  simpl in Hstep. rewrite Ht in Hstep. simpl in Hstep.
  case_bool_decide as Hdue; [|done]. simplify_eq. split; [done|].
  split_and!; simpl; try done.
  - etrans; [apply settlements_settle|]. rewrite decide_True by done.
    unfold settlements in *. simpl in *. by rewrite Hs.
  - intros id' r. rewrite lookup_delete. case_decide; [done|].
    intros Hr. destruct (Hpend _ _ Hr) as (? & ? & _). done.
  - intros h' t'. rewrite lookup_delete. case_decide as Hne; [done|].
    intros Hlk Hq. specialize (Htimers _ _ Hlk Hq). congruence.
Qed.

End ProxyLifeFacts.

Section ProxyLifeResults.

Context {GameState Action : Type}.
Variable selectActionJSON : bool → GameState → Z → option Action.
Variable moduleAvailable : bool.

Import AIWorkerProxy ProxyLife.

Local Abbreviation Proxy := (AIWorkerProxy.Proxy GameState Action).
Local Abbreviation steps := (AIWorkerProxy.steps selectActionJSON moduleAvailable).

(** A request that is answered.  Let a request be sent through a proxy
    that is ready and has its worker, and let the worker answer it,
    with [AI_ACTION_RESULT] or with [AI_ERROR], before its timer fires,
    the proxy is terminated or the worker fails.  Then the promise is
    pending until the answer arrives and is settled by it, resolved with
    the action or rejected with the text of the error; the entry of the
    request is taken out of the table, and whatever happens afterwards,
    a second answer or a late timer included, the promise is not settled
    again. *)
Theorem answered_request_is_settled_by_the_answer
    (evs0 : list (Z * Event GameState Action)) (s : Proxy) (w : nat) (t0 : Z)
    (gameState : GameState) (playerId : Z)
    (evs1 : list (Z * Event GameState Action)) (now : Z) (w' : nat)
    (st : Settlement Action)
    (evs2 : list (Z * Event GameState Action)) (s' : Proxy) :
  steps evs0 create = Some s →
  isReady s = true → useWorker s = true → worker s = Some w →
  let id := requestId (requestIdCounter s) in
  let h := nextTimer s in
  let s1 := (getAIAction gameState playerId (set_clock t0 s)).1 in
  let promise := (getAIAction gameState playerId (set_clock t0 s)).2 in
  Forall (λ te, undisturbed id h te.2) evs1 →
  steps (evs1 ++ (now, WorkerMessage w' (answer id st)) :: evs2) s1 = Some s' →
  (∃ s2 s3, steps evs1 s1 = Some s2 ∧ settlements promise s2 = [] ∧
            AIWorkerProxy.step selectActionJSON moduleAvailable now
              (WorkerMessage w' (answer id st)) s2 = Some s3 ∧
            settlements promise s3 = [st] ∧ pendingRequests s3 !! id = None) ∧
  settlements promise s' = [st].
Proof.
  intros Hreach Hready Huse Hw id h s1 promise Hund Hsteps.
  assert (wf (set_clock t0 s)) as Hwf.
  { pose proof (wf_steps _ _ _ _ _ Hreach wf_create) as Hwf. exact Hwf. }
  destruct (getAIAction_awaiting gameState playerId (set_clock t0 s) w)
    as (Hp & Hentry & _ & Hawait); try done.
  simpl in Hp, Hentry, Hawait. fold id h s1 in Hawait, Hentry. fold promise in Hp.
  rewrite <- Hp in Hawait, Hentry.
  assert (listed id (mkPending promise promise h) h s1) as Hlisted.
  { rewrite Hp. apply (getAIAction_listed gameState playerId (set_clock t0 s) w);
      try done.
    exact (orderly_steps _ _ _ _ _ Hreach orderly_create). }
  rewrite steps_app in Hsteps.
  destruct (steps evs1 s1) as [s2|] eqn:Hsteps1; [|done]. simpl in Hsteps.
  destruct (AIWorkerProxy.step _ _ now _ s2) as [s3|] eqn:Hreply; [|done].
  simpl in Hsteps.
  assert (Forall (λ te : Z * Event GameState Action, quiet id h te.2) evs1) as Hquiet.
  { eapply Forall_impl; [exact Hund|]. by intros te [? _]. }
  pose proof (awaiting_steps _ _ _ _ _ _ _ _ _ Hquiet Hsteps1 Hawait) as Hawait2.
  pose proof (listed_steps _ _ _ _ _ _ _ _ Hund Hsteps1 Hlisted) as Hlisted2.
  edestruct (answer_settles selectActionJSON moduleAvailable) as [Hg3 Hgone3];
    [exact Hawait2|exact Hlisted2|exact Hreply|].
  pose proof (guarded_steps _ _ _ _ _ _ _ _ (spares_nobody _) Hsteps Hg3)
    as (Hset & _).
  split; [|done].
  exists s2, s3. destruct Hawait2 as (_ & ? & _), Hg3 as (? & _). done.
Qed.

(** A request whose worker fails.  Let a request be sent through a
    proxy that is ready and has its worker, and let the worker raise an
    error event while the request is waiting.  Then [handleError] rejects
    the promise with [Worker crashed], empties the table and terminates
    the worker; whatever happens afterwards, the promise is not settled
    again. *)
Theorem request_of_a_crashed_worker_is_rejected
    (evs0 : list (Z * Event GameState Action)) (s : Proxy) (w : nat) (t0 : Z)
    (gameState : GameState) (playerId : Z)
    (evs1 : list (Z * Event GameState Action)) (now : Z) (w' : nat)
    (evs2 : list (Z * Event GameState Action)) (s' : Proxy) :
  steps evs0 create = Some s →
  isReady s = true → useWorker s = true → worker s = Some w →
  let id := requestId (requestIdCounter s) in
  let h := nextTimer s in
  let s1 := (getAIAction gameState playerId (set_clock t0 s)).1 in
  let promise := (getAIAction gameState playerId (set_clock t0 s)).2 in
  Forall (λ te, undisturbed id h te.2) evs1 →
  steps (evs1 ++ (now, WorkerError w') :: evs2) s1 = Some s' →
  (∃ s2 s3, steps evs1 s1 = Some s2 ∧ settlements promise s2 = [] ∧
            AIWorkerProxy.step selectActionJSON moduleAvailable now
              (WorkerError w') s2 = Some s3 ∧
            settlements promise s3 = [Rejected "Worker crashed"] ∧
            pendingRequests s3 = ∅ ∧ w' ∈ terminated s3) ∧
  settlements promise s' = [Rejected "Worker crashed"].
Proof.
  intros Hreach Hready Huse Hw id h s1 promise Hund Hsteps.
  assert (wf (set_clock t0 s)) as Hwf.
  { pose proof (wf_steps _ _ _ _ _ Hreach wf_create) as Hwf. exact Hwf. }
  destruct (getAIAction_awaiting gameState playerId (set_clock t0 s) w)
    as (Hp & _ & _ & Hawait); try done.
  simpl in Hp, Hawait. fold id h s1 in Hawait. fold promise in Hp.
  rewrite <- Hp in Hawait.
  assert (listed id (mkPending promise promise h) h s1) as Hlisted.
  { rewrite Hp. apply (getAIAction_listed gameState playerId (set_clock t0 s) w);
      try done.
    exact (orderly_steps _ _ _ _ _ Hreach orderly_create). }
  rewrite steps_app in Hsteps.
  destruct (steps evs1 s1) as [s2|] eqn:Hsteps1; [|done]. simpl in Hsteps.
  destruct (AIWorkerProxy.step _ _ now _ s2) as [s3|] eqn:Hcrash; [|done].
  simpl in Hsteps.
  assert (Forall (λ te : Z * Event GameState Action, quiet id h te.2) evs1) as Hquiet.
  { eapply Forall_impl; [exact Hund|]. by intros te [? _]. }
  pose proof (awaiting_steps _ _ _ _ _ _ _ _ _ Hquiet Hsteps1 Hawait) as Hawait2.
  pose proof (listed_steps _ _ _ _ _ _ _ _ Hund Hsteps1 Hlisted) as Hlisted2.
  edestruct (crash_settles selectActionJSON moduleAvailable) as (Hg3 & Hgone3 & Hterm3);
    [exact Hawait2|exact Hlisted2|exact Hcrash|].
  pose proof (guarded_steps _ _ _ _ _ _ _ _ (spares_nobody _) Hsteps Hg3)
    as (Hset & _).
  split; [|done].
  exists s2, s3. destruct Hawait2 as (_ & ? & _), Hg3 as (? & _). done.
Qed.

(** A request on the main thread.  Let a request be made through a
    proxy that is ready without a worker (the fallback).  Then nothing is
    posted and the computation is deferred by 10 ms; until its timer
    fires the promise is pending, whatever else happens.  When the timer
    fires the engine is asked, [selectActionJSONDebug] in debug mode and
    [selectActionJSON] otherwise: the promise is resolved with its
    action, and when the engine throws (or there is no [fallbackWasm])
    the promise is settled neither then nor later, as this path has no
    timeout. *)
Theorem fallback_request_is_computed_on_the_main_thread
    (evs0 : list (Z * Event GameState Action)) (s : Proxy) (t0 : Z)
    (gameState : GameState) (playerId : Z)
    (evs1 : list (Z * Event GameState Action)) (now : Z)
    (evs2 : list (Z * Event GameState Action)) (s' : Proxy) :
  steps evs0 create = Some s →
  isReady s = true → useWorker s = false →
  let h := nextTimer s in
  let s1 := (getAIAction gameState playerId (set_clock t0 s)).1 in
  let promise := (getAIAction gameState playerId (set_clock t0 s)).2 in
  Forall (λ te, te.2 ≠ TimerFires h) evs1 →
  steps (evs1 ++ (now, TimerFires h) :: evs2) s1 = Some s' →
  sent s1 = sent s ∧ pendingRequests s1 = pendingRequests s ∧
  (t0 + 10 ≤ now)%Z ∧
  ∃ s2, steps evs1 s1 = Some s2 ∧ settlements promise s2 = [] ∧
    settlements promise s'
      = if fallbackWasm s2
        then match selectActionJSON (debugMode s2) gameState playerId with
             | Some action => [Resolved action]
             | None => []
             end
        else [].
Proof.
  intros Hreach Hready Huse h s1 promise Hspare Hsteps.
  assert (wf (set_clock t0 s)) as Hwf.
  { pose proof (wf_steps _ _ _ _ _ Hreach wf_create) as Hwf. exact Hwf. }
  destruct (getAIAction_fallback gameState playerId (set_clock t0 s))
    as [Heq Hg]; try done.
  simpl in Heq, Hg. fold h in Heq, Hg.
  assert (promise = nextPromise s) as Hp by (unfold promise; by rewrite Heq).
  assert (s1 = (getAIAction gameState playerId (set_clock t0 s)).1) as Hs1 by done.
  rewrite <- Hs1, <- Hp in Hg. rewrite Heq in Hs1. simpl in Hs1.
  rewrite steps_app in Hsteps.
  destruct (steps evs1 s1) as [s2|] eqn:Hsteps1; [|done]. simpl in Hsteps.
  destruct (AIWorkerProxy.step _ _ now _ s2) as [s3|] eqn:Hfire; [|done].
  simpl in Hsteps.
  assert (guarded (Some (h, FallbackCompute (t0 + 10) promise gameState playerId))
            [] promise s2) as Hg2.
  { eapply guarded_steps; [|exact Hsteps1|exact Hg].
    eapply Forall_impl; [exact Hspare|]. intros te Hte h' t' [= <- _]. done. }
  destruct (fallback_fires _ _ _ _ _ _ _ _ _ _ Hg2 Hfire) as [Hdue Hg3].
  pose proof (guarded_steps _ _ _ _ _ _ _ _ (spares_nobody _) Hsteps Hg3)
    as (Hset & _).
  split_and!; [by rewrite Hs1|by rewrite Hs1|done|].
  exists s2. destruct Hg2 as (? & _). done.
Qed.

(** C2, as the code has it. [terminate()] releases the worker, marks the
    proxy as not ready and empties the table of pending requests; it
    settles no promise and clears no timer, whatever the proxy holds.
    So a request that is in the table when [terminate()] is called is
    dropped and not rejected: let it be sent at time [t0] through a
    proxy that is ready and has its worker, and let nothing touch it
    before the call.  After the call its promise is pending, and it
    stays so whatever happens, until its own timer fires; the timer
    fires at a time [now] with [t0 + 30000 ≤ now] and rejects the
    promise with the timeout error, and nothing settles it again. *)
Theorem terminate_drops_pending_requests
    (evs0 : list (Z * Event GameState Action)) (s : Proxy) (w : nat) (t0 : Z)
    (gameState : GameState) (playerId : Z)
    (evs1 : list (Z * Event GameState Action)) (t1 : Z)
    (evs2 : list (Z * Event GameState Action)) (now : Z)
    (evs3 : list (Z * Event GameState Action)) (s' : Proxy) :
  steps evs0 create = Some s →
  isReady s = true → useWorker s = true → worker s = Some w →
  let id := requestId (requestIdCounter s) in
  let h := nextTimer s in
  let s1 := (getAIAction gameState playerId (set_clock t0 s)).1 in
  let promise := (getAIAction gameState playerId (set_clock t0 s)).2 in
  Forall (λ te, undisturbed id h te.2) evs1 →
  Forall (λ te, te.2 ≠ TimerFires h) evs2 →
  steps (evs1 ++ (t1, Terminate) :: evs2 ++ (now, TimerFires h) :: evs3) s1 = Some s' →
  (∀ p : Proxy,
     worker (terminate p) = None ∧
     terminated (terminate p) = terminated p ++ option_list (worker p) ∧
     isReady (terminate p) = false ∧
     pendingRequests (terminate p) = ∅ ∧
     settled (terminate p) = settled p ∧
     timers (terminate p) = timers p) ∧
  ∃ s2 s3 s4,
    steps evs1 s1 = Some s2 ∧
    pendingRequests s2 !! id = Some (mkPending promise promise h) ∧
    settlements promise s2 = [] ∧
    AIWorkerProxy.step selectActionJSON moduleAvailable t1 Terminate s2 = Some s3 ∧
    s3 = terminate (set_clock t1 s2) ∧
    settlements promise s3 = [] ∧
    timers s3 !! h = Some (RequestTimeout (t0 + 30000) id promise) ∧
    steps evs2 s3 = Some s4 ∧
    settlements promise s4 = [] ∧
    (t0 + 30000 ≤ now)%Z ∧
    settlements promise s' = [Rejected "AI computation timeout"].
Proof.
  intros Hreach Hready Huse Hw id h s1 promise Hund Hspare Hsteps.
  split.
  { intros p. unfold terminate.
    destruct (worker p) eqn:Hwp; simpl; split_and!; rewrite ?app_nil_r; done. }
  assert (wf (set_clock t0 s)) as Hwf.
  { pose proof (wf_steps _ _ _ _ _ Hreach wf_create) as Hwf. exact Hwf. }
  assert (orderly (set_clock t0 s)) as Hord.
  { pose proof (orderly_steps _ _ _ _ _ Hreach orderly_create) as Hord. exact Hord. }
  destruct (getAIAction_awaiting gameState playerId (set_clock t0 s) w)
    as (Hp & _ & _ & Hawait); try done.
  pose proof (getAIAction_listed gameState playerId (set_clock t0 s) w
                Hord Hready Huse Hw) as Hlisted.
  simpl in Hp, Hawait, Hlisted. fold id h s1 in Hawait, Hlisted. fold promise in Hp.
  rewrite <- Hp in Hawait, Hlisted.
  rewrite steps_app in Hsteps.
  destruct (steps evs1 s1) as [s2|] eqn:Hsteps1; [|done]. simpl in Hsteps.
  destruct (AIWorkerProxy.step _ _ t1 Terminate s2) as [s3|] eqn:Hterm; [|done].
  simpl in Hsteps. rewrite steps_app in Hsteps.
  destruct (steps evs2 s3) as [s4|] eqn:Hsteps2; [|done]. simpl in Hsteps.
  destruct (AIWorkerProxy.step _ _ now (TimerFires h) s4) as [s5|] eqn:Hfire;
    [|done]. simpl in Hsteps.
  assert (Forall (λ te, quiet id h te.2) evs1) as Hquiet.
  { eapply Forall_impl; [exact Hund|]. by intros te [? _]. }
  pose proof (awaiting_steps _ _ _ _ _ _ _ _ _ Hquiet Hsteps1 Hawait) as Hawait2.
  pose proof (listed_steps _ _ _ _ _ _ _ _ Hund Hsteps1 Hlisted) as (Hin2 & _).
  assert (s3 = terminate (set_clock t1 s2)) as Hs3.
  { unfold AIWorkerProxy.step in Hterm. case_bool_decide; [done|]. by simplify_eq. }
  assert (awaiting id promise h (t0 + 30000) s3) as Hawait3.
  { rewrite Hs3. apply awaiting_terminate. exact Hawait2. }
  assert (guarded (Some (h, RequestTimeout (t0 + 30000) id promise)) [] promise s3)
    as Hguard3.
  { apply awaiting_guarded; [done|]. rewrite Hs3. unfold terminate. simpl.
    apply lookup_empty. }
  assert (guarded (Some (h, RequestTimeout (t0 + 30000) id promise)) [] promise s4)
    as Hguard4.
  { eapply guarded_steps; [|exact Hsteps2|exact Hguard3].
    eapply Forall_impl; [exact Hspare|]. intros te Hte h0 t [= <- <-]. exact Hte. }
  destruct (timeout_fires selectActionJSON moduleAvailable _ _ _ _ _ _ _ Hguard4 Hfire)
    as [Hdue Hguard5].
  assert (guarded None [Rejected "AI computation timeout"] promise s') as (Hfinal & _).
  { eapply guarded_steps; [|exact Hsteps|exact Hguard5]. apply spares_nobody. }
  exists s2, s3, s4. split_and!; try done.
  - by destruct Hawait2 as (_ & ? & _).
  - by destruct Hguard3 as (? & _).
  - by destruct Hawait3 as (? & _).
  - by destruct Hguard4 as (? & _).
Qed.

(** The ids of the requests.  Let every call of [initialize] that
    creates a worker find the proxy without one, so that no worker is
    replaced while it is alive.  Then in every state that the proxy reaches, the
    [COMPUTE_AI_ACTION] messages posted so far carry the ids
    [ai_request_0], [ai_request_1], ... in the order of posting, one for
    every id handed out, so no two requests share an id; and a proxy
    that is ready to use its worker has one, so [getAIAction] does not
    fail on a missing worker. *)
Theorem requests_are_numbered_in_the_order_of_posting
    (evs : list (Z * Event GameState Action)) (s : Proxy) :
  unreplaced selectActionJSON moduleAvailable evs create →
  steps evs create = Some s →
  requested s = requestId <$> seq 0 (requestIdCounter s) ∧
  NoDup (requested s) ∧
  (isReady s = true → useWorker s = true →
     ∃ w, worker s = Some w ∧
       ∀ gameState playerId,
         sent (getAIAction gameState playerId s).1
           = sent s ++ [(w, COMPUTE_AI_ACTION (requestId (requestIdCounter s))
                              gameState playerId (difficulty s) (timeLimit s))]).
Proof.
  intros _ Hreach.
  pose proof (orderly_steps _ _ _ _ _ Hreach orderly_create) as (_ & Hready & Hq).
  split_and!; [done| |].
  - rewrite Hq. apply NoDup_fmap_2; [apply requestId_inj|apply NoDup_seq].
  - intros Hr Hu. destruct (Hready Hr Hu) as [w Hw]. exists w. split; [done|].
    intros gameState playerId.
    unfold getAIAction. simpl. rewrite Hr, Hu. simpl.
    rewrite Hw. simpl. unfold postMessage. simpl. by rewrite Hw.
Qed.

End ProxyLifeResults.

(** *** The request of the example, answered *)

Lemma answered_request_is_settled_by_the_answer_witness :
  let promise :=
    (AIWorkerProxy.getAIAction tt 1
       (AIWorkerProxy.set_clock 100 ProxyExample.ready)).2 in
  AIWorkerProxy.settlements promise ProxyLifeExample.answered
    = [AIWorkerProxy.Resolved tt].
Proof.
  intros promise.
  destruct (answered_request_is_settled_by_the_answer ProxyExample.engine true
    ProxyExample.boot ProxyExample.ready 0 100 tt 1
    ProxyExample.waiting 300 0 (AIWorkerProxy.Resolved tt)
    ProxyLifeExample.twice ProxyLifeExample.answered)
    as (_ & Hresolved).
  - by vm_compute.
  - done.
  - done.
  - done.
  - repeat constructor; simpl; done.
  - by vm_compute.
  - exact Hresolved.
Defined.

(** *** The request of the example, with a failing worker *)

Lemma request_of_a_crashed_worker_is_rejected_witness :
  let promise :=
    (AIWorkerProxy.getAIAction tt 1
       (AIWorkerProxy.set_clock 100 ProxyExample.ready)).2 in
  AIWorkerProxy.settlements promise ProxyLifeExample.crashed
    = [AIWorkerProxy.Rejected "Worker crashed"].
Proof.
  intros promise.
  destruct (request_of_a_crashed_worker_is_rejected ProxyExample.engine true
    ProxyExample.boot ProxyExample.ready 0 100 tt 1
    ProxyExample.waiting 300 0
    ProxyLifeExample.restarted ProxyLifeExample.crashed)
    as (_ & Hrejected).
  - by vm_compute.
  - done.
  - done.
  - done.
  - repeat constructor; simpl; done.
  - by vm_compute.
  - exact Hrejected.
Defined.

(** *** A request on the main thread *)

Lemma fallback_request_is_computed_on_the_main_thread_witness :
  let promise :=
    (AIWorkerProxy.getAIAction tt 1
       (AIWorkerProxy.set_clock 100 ProxyLifeExample.fallback)).2 in
  (100 + 10 ≤ 110)%Z ∧
  AIWorkerProxy.settlements promise ProxyLifeExample.computed
    = [AIWorkerProxy.Resolved tt].
Proof.
  intros promise.
  destruct (fallback_request_is_computed_on_the_main_thread ProxyExample.engine true
    ProxyLifeExample.failedBoot ProxyLifeExample.fallback 100 tt 1
    [(105%Z, AIWorkerProxy.SetDebugMode true)] 110 [] ProxyLifeExample.computed)
    as (_ & _ & Hdue & s2 & Hs2 & _ & Hresolved).
  - by vm_compute.
  - done.
  - done.
  - repeat constructor; simpl; done.
  - by vm_compute.
  - split; [exact Hdue|].
    etrans; [exact Hresolved|].
    vm_compute in Hs2. injection Hs2 as <-. reflexivity.
Defined.

(** *** The request of the example, dropped *)

(** The proxy is terminated at time 300, while the request is in the
    table, and the timer of the request fires at time 30100. *)
Lemma terminate_drops_pending_requests_witness :
  let promise :=
    (AIWorkerProxy.getAIAction tt 1
       (AIWorkerProxy.set_clock 100 ProxyExample.ready)).2 in
  (100 + 30000 ≤ 30100)%Z ∧
  AIWorkerProxy.settlements promise ProxyExample.terminatedLate
    = [AIWorkerProxy.Rejected "AI computation timeout"].
Proof.
  intros promise.
  destruct (terminate_drops_pending_requests ProxyExample.engine true
    ProxyExample.boot ProxyExample.ready 0 100 tt 1
    [] 300 [] 30100 [] ProxyExample.terminatedLate)
    as (_ & s2 & s3 & s4 & _ & _ & _ & _ & _ & _ & _ & _ & _ & Hdue & Hfinal).
  - by vm_compute.
  - done.
  - done.
  - done.
  - constructor.
  - constructor.
  - by vm_compute.
  - split; [exact Hdue|exact Hfinal].
Defined.

(** *** The ids of the example *)

Lemma requests_are_numbered_in_the_order_of_posting_witness :
  ProxyLife.requested ProxyExample.sent = ["ai_request_0"] ∧
  NoDup (ProxyLife.requested ProxyExample.sent).
Proof.
  destruct (requests_are_numbered_in_the_order_of_posting ProxyExample.engine true
    (ProxyExample.boot ++ [(100%Z, AIWorkerProxy.GetAIAction tt 1)])
    ProxyExample.sent) as (Hids & Hnodup & _).
  - simpl. split_and!; done.
  - by vm_compute.
  - split; [exact Hids|exact Hnodup].
Defined.

(** ** Paths of the WASM module *)

Section WasmPathFacts.

Import WasmPath.

Lemma lacks_dropLastSegment s : lacks "/" s = true → dropLastSegment s = EmptyString.
Proof. intros Hs. destruct s; simpl in *; by rewrite ?Hs. Qed.

Lemma dropLastSegment_cons a s :
  lacks "/" (String a s) = false →
  dropLastSegment (String a s) = String a (dropLastSegment s).
Proof. intros Hs. simpl in *. by rewrite Hs. Qed.

Lemma endsWith_cons suffix a s :
  endsWith suffix s = true → endsWith suffix (String a s) = true.
Proof. intros Hs. simpl. rewrite Hs. apply orb_true_r. Qed.

Lemma dropLastSegment_split s :
  ∃ file, s = dropLastSegment s +:+ file ∧ lacks "/" file = true ∧
    (dropLastSegment s = EmptyString ∨ endsWith "/" (dropLastSegment s) = true).
Proof.
  induction s as [|a s (file & Hs & Hfile & Hdir)].
  - by exists EmptyString; auto.
  - destruct (lacks "/" (String a s)) eqn:Hl.
    + exists (String a s). rewrite lacks_dropLastSegment by done. auto.
    + exists file. rewrite dropLastSegment_cons by done. simpl.
      split; [by rewrite Hs at 1|]. split; [done|]. right.
      destruct Hdir as [Hdir|Hdir]; [|by apply endsWith_cons].
      rewrite Hdir in Hs |- *. change (s = file) in Hs. subst file.
      simpl in Hl. rewrite Hfile, andb_true_r in Hl.
      apply negb_false_iff, bool_decide_eq_true in Hl. by subst a.
Qed.

Lemma lastIndexOf_dropLastSegment s :
  match lastIndexOf "/" s with
  | Some lastSlash =>
      String.substring 0 (lastSlash + 1) s = dropLastSegment s ∧
      lacks "/" s = false
  | None => lacks "/" s = true
  end.
Proof.
  induction s as [|a s IH]; [done|]. simpl lastIndexOf.
  destruct (lastIndexOf "/" s) as [i|].
  - destruct IH as [IH Hl]. simpl. rewrite IH, Hl, andb_false_r. done.
  - case_decide as Ha.
    + subst a. simpl. rewrite lacks_dropLastSegment by done. by destruct s.
    + simpl. rewrite IH, andb_true_r. by rewrite bool_decide_false.
Qed.

Lemma before_lacks c s : lacks c (before c s) = true.
Proof.
  induction s as [|a s IH]; [done|]. simpl. case_decide; [done|].
  simpl. by rewrite IH, bool_decide_false.
Qed.

(** The two workers find the directory of the WASM module in the same
    way.  The arena worker cuts the script path at the first ["?"] and
    deletes what follows the last ["/"]; what it keeps is empty or ends
    with ["/"], the script path (without the query) is this directory
    followed by a file name without ["/"], and the computation of the AI
    worker, with [lastIndexOf] and [substring], gives the same directory
    for the same script path. *)
Theorem wasmBase_is_the_directory_of_the_script (wasmPath : string) :
  let script := before "?" wasmPath in
  lacks "?" script = true ∧
  (∃ file, script = wasmBase wasmPath +:+ file ∧ lacks "/" file = true) ∧
  (wasmBase wasmPath = EmptyString ∨ endsWith "/" (wasmBase wasmPath) = true) ∧
  wasmDir script = wasmBase wasmPath.
Proof.
  intros script. unfold wasmBase. fold script.
  destruct (dropLastSegment_split script) as (file & Hs & Hfile & Hdir).
  split_and!; [apply before_lacks|by exists file|done|].
  unfold wasmDir. pose proof (lastIndexOf_dropLastSegment script) as Hl.
  destruct (lastIndexOf "/" script); [by destruct Hl|].
  by rewrite lacks_dropLastSegment.
Qed.

End WasmPathFacts.

Example wasmBase_of_the_pool_path :
  WasmPath.wasmBase "http://localhost:8000/wasm/splendor.js?v=3"
    = "http://localhost:8000/wasm/" ∧
  WasmPath.locateArenaFile
    (WasmPath.wasmBase "http://localhost:8000/wasm/splendor.js?v=3") "splendor.wasm"
    = "http://localhost:8000/wasm/splendor.wasm" ∧
  WasmPath.locateFile "wasm/splendor.js" "splendor.wasm" "js/"
    = "../wasm/splendor.wasm".
Proof. by vm_compute. Qed.

(** ** The AI worker *)

Example round_of_the_default_time_limit :
  AIWorker.round (Js.fmul AIWorkerProxy.defaultTimeLimit (Js.ofZ 1000)) = Js.ofZ 2500.
Proof. by vm_compute. Qed.

Section AIWorkerFacts.

Context {GameState Action Engine : Type}.
Variable loadEngine : string → (string → string → string) → string + Engine.
Variable setDifficulty : AIWorker.Difficulty → Engine → Engine.
Variable setIterationLimit : Z → Engine → Engine.
Variable setTimeLimit : Js.float → Engine → Engine.
Variable setDebugMode : bool → Engine → Engine.
Variable selectAction : bool → GameState → Z → Engine → Engine * (string + Action).
Variable getLastIterationCount : Engine → Z.

Import AIWorker.

Local Abbreviation Worker := (AIWorker.Worker Engine).
Local Abbreviation onmessage :=
  (AIWorker.onmessage loadEngine setDifficulty setIterationLimit setTimeLimit
     setDebugMode selectAction getLastIterationCount).
Local Abbreviation adopt :=
  (AIWorker.adopt setDifficulty setIterationLimit setTimeLimit).

Implicit Types (k : Worker).

Lemma adopt_initialized difficulty timeLimit k :
  isInitialized (adopt difficulty timeLimit k) = isInitialized k ∧
  (is_Some (aiEngine (adopt difficulty timeLimit k)) ↔ is_Some (aiEngine k)).
Proof.
  unfold AIWorker.adopt, handleSetDifficulty, handleSetTimeLimit.
  destruct (isInitialized k) eqn:Hi; simpl;
    repeat (destruct (_ && _); simpl; rewrite ?Hi; simpl);
    rewrite ?fmap_is_Some; done.
Qed.

(** The worker answers every request with exactly one message, which
    carries the id of the request: the action that the engine selects, or
    the text of the error when the engine throws or the worker is not
    initialized.  [INIT] is answered with [READY], and then the worker is
    initialized, or with [ERROR], and then nothing has changed; the
    messages that change a setting are not answered, and a worker that is
    not initialized ignores them. *)
Theorem onmessage_answers_each_request_once_under_its_id
    (m : AIWorkerProxy.Request GameState) (startTime endTime : Z) (k : Worker) :
  let k' := (onmessage m startTime endTime k).1 in
  let posted := (onmessage m startTime endTime k).2 in
  match m with
  | AIWorkerProxy.COMPUTE_AI_ACTION id _ _ _ _ =>
      ∃ r st, posted = [r] ∧ deliver r = ProxyLife.answer id st ∧
        (isInitialized k = false →
           st = AIWorkerProxy.Rejected "Worker not initialized" ∧ k' = k)
  | AIWorkerProxy.INIT _ =>
      (posted = [READY] ∧ isInitialized k' = true ∧ is_Some (aiEngine k')) ∨
      (∃ error, posted = [ERROR error] ∧ k' = k)
  | _ => posted = [] ∧ (isInitialized k = false → k' = k)
  end.
Proof.
  destruct m as [path|id gs pid d t|d|t|b]; simpl.
  - unfold handleInit. destruct (loadEngine _ _) as [error|engine]; simpl.
    + right. by exists error.
    + left. by eauto.
  - unfold handleComputeAction. destruct (isInitialized k) eqn:Hi; simpl.
    + destruct (aiEngine _) as [engine|]; simpl.
      * destruct (selectAction _ _ _ _) as [engine' [error|action]]; simpl.
        -- by exists (AI_ERROR (Some id) error), (AIWorkerProxy.Rejected error).
        -- by eexists (AI_ACTION_RESULT id action _ _), (AIWorkerProxy.Resolved action).
      * by exists (AI_ERROR (Some id) "TypeError"), (AIWorkerProxy.Rejected "TypeError").
    + by exists (AI_ERROR (Some id) "Worker not initialized"),
        (AIWorkerProxy.Rejected "Worker not initialized").
  - split; [done|]. unfold handleSetDifficulty. by intros ->.
  - split; [done|]. unfold handleSetTimeLimit. by intros ->.
  - split; [done|]. unfold handleSetDebugMode. by intros ->.
Qed.

End AIWorkerFacts.

(** ** A request from the proxy to the engine and back *)

Section RoundTrip.

Context {GameState Action Engine : Type}.
Variable selectActionJSON : bool → GameState → Z → option Action.
Variable moduleAvailable : bool.
Variable loadEngine : string → (string → string → string) → string + Engine.
Variable engineSetDifficulty : AIWorker.Difficulty → Engine → Engine.
Variable engineSetIterationLimit : Z → Engine → Engine.
Variable engineSetTimeLimit : Js.float → Engine → Engine.
Variable engineSetDebugMode : bool → Engine → Engine.
Variable selectAction : bool → GameState → Z → Engine → Engine * (string + Action).
Variable getLastIterationCount : Engine → Z.

Import AIWorkerProxy.

Local Abbreviation Proxy := (AIWorkerProxy.Proxy GameState Action).
Local Abbreviation steps := (AIWorkerProxy.steps selectActionJSON moduleAvailable).
Local Abbreviation step := (AIWorkerProxy.step selectActionJSON moduleAvailable).
Local Abbreviation onmessage :=
  (AIWorker.onmessage loadEngine engineSetDifficulty engineSetIterationLimit
     engineSetTimeLimit engineSetDebugMode selectAction getLastIterationCount).
Local Abbreviation adopt :=
  (AIWorker.adopt engineSetDifficulty engineSetIterationLimit engineSetTimeLimit).

(** Let a request be made through a proxy that is ready and has its
    worker, let the worker be initialized when the message reaches it,
    and let its answer be the next message that the proxy gets from it.
    Then the message posted carries the game state, the player and the
    difficulty and time limit set in the proxy; the worker adopts these
    settings and asks its engine with them; and the promise of the
    request is settled with what the engine says, resolved with the
    action selected for this state and player or rejected with the text
    of its error, and with nothing else whatever happens later. *)
Theorem request_is_settled_with_the_choice_of_the_engine
    (evs0 : list (Z * Event GameState Action)) (s : Proxy) (w : nat) (t0 : Z)
    (gameState : GameState) (playerId : Z)
    (k : AIWorker.Worker Engine) (engine : Engine) (startTime endTime : Z)
    (now : Z) (s2 : Proxy)
    (evs2 : list (Z * Event GameState Action)) (s' : Proxy) :
  steps evs0 create = Some s →
  isReady s = true → useWorker s = true → worker s = Some w →
  AIWorker.isInitialized k = true →
  let id := requestId (requestIdCounter s) in
  let s1 := (getAIAction gameState playerId (set_clock t0 s)).1 in
  let promise := (getAIAction gameState playerId (set_clock t0 s)).2 in
  let m := COMPUTE_AI_ACTION id gameState playerId (difficulty s) (timeLimit s) in
  let k1 := adopt (difficulty s) (timeLimit s) k in
  AIWorker.aiEngine k1 = Some engine →
  let choice := (selectAction (AIWorker.debugMode k1) gameState playerId engine).2 in
  sent s1 = sent s ++ [(w, m)] ∧
  ∃ r, (onmessage m startTime endTime k).2 = [r] ∧
    (step now (WorkerMessage w (AIWorker.deliver r)) s1 = Some s2 →
     steps evs2 s2 = Some s' →
     settlements promise s2 = [AIWorker.settlementOf choice] ∧
     settlements promise s' = [AIWorker.settlementOf choice]).
Proof.
  intros Hreach Hready Huse Hw Hinit id s1 promise m k1 Hengine choice.
  assert (wf (set_clock t0 s)) as Hwf.
  { pose proof (wf_steps _ _ _ _ _ Hreach wf_create) as Hwf. exact Hwf. }
  destruct (getAIAction_awaiting gameState playerId (set_clock t0 s) w)
    as (Hp & _ & Hsent & Hawait); try done.
  simpl in Hp, Hsent, Hawait. fold id s1 in Hawait, Hsent. fold promise in Hp.
  rewrite <- Hp in Hawait. split; [exact Hsent|].
  assert (ProxyLife.listed id (mkPending promise promise (nextTimer s)) (nextTimer s) s1)
    as Hlisted.
  { rewrite Hp. apply (getAIAction_listed gameState playerId (set_clock t0 s) w);
      try done.
    exact (orderly_steps _ _ _ _ _ Hreach orderly_create). }
  assert (∃ r, (onmessage m startTime endTime k).2 = [r] ∧
               AIWorker.deliver r = ProxyLife.answer id (AIWorker.settlementOf choice))
    as (r & Hr & Hdeliver).
  { simpl. unfold AIWorker.handleComputeAction. rewrite Hinit. simpl.
    fold k1. rewrite Hengine. subst choice.
    destruct (selectAction _ _ _ _) as [engine' [error|action]]; simpl;
      by eexists. }
  exists r. split; [done|]. intros Hstep Hsteps. rewrite Hdeliver in Hstep.
  edestruct (answer_settles selectActionJSON moduleAvailable) as [Hg2 _];
    [exact Hawait|exact Hlisted|exact Hstep|].
  pose proof (guarded_steps _ _ _ _ _ _ _ _ (spares_nobody _) Hsteps Hg2)
    as (Hset & _).
  destruct Hg2 as (? & _). done.
Qed.

End RoundTrip.

Lemma request_is_settled_with_the_choice_of_the_engine_witness :
  let promise :=
    (AIWorkerProxy.getAIAction tt 1
       (AIWorkerProxy.set_clock 100 ProxyExample.ready)).2 in
  AIWorkerProxy.settlements promise AIWorkerExample.settled
    = [AIWorkerProxy.Resolved tt].
Proof.
  intros promise.
  destruct (request_is_settled_with_the_choice_of_the_engine
    ProxyExample.engine true
    AIWorkerExample.loadEngine (λ _ e, e) (λ _ e, e) (λ _ e, e) (λ _ e, e)
    AIWorkerExample.selectAction (λ _, 1000%Z)
    ProxyExample.boot ProxyExample.ready 0 100 tt 1
    AIWorkerExample.worker tt 250 290 300 AIWorkerExample.settled
    [] AIWorkerExample.settled) as (_ & r & Hr & Hsettled).
  - by vm_compute.
  - done.
  - done.
  - done.
  - done.
  - by vm_compute.
  - vm_compute in Hr. injection Hr as <-.
    destruct Hsettled as [_ Hend]; [by vm_compute|done|]. exact Hend.
Defined.

(* ===================================================================== *)
(** * The game controller: paying for a card *)

Section PaymentFacts.

Import GameController.

Variables (player : Player) (card : Card).

Local Abbreviation afford :=
  (λ (goldNeeded : Z) color,
     if bool_decide (needed player card color > count (gems player) color)%Z
     then (goldNeeded + (needed player card color - count (gems player) color))%Z
     else goldNeeded).

Local Abbreviation pay :=
  (λ '(payment, goldNeeded) color,
     if bool_decide (needed player card color > 0)%Z then
       if bool_decide (count (gems player) color >= needed player card color)%Z
       then (setCount color (needed player card color) payment, goldNeeded)
       else (setCount color (count (gems player) color) payment,
             (goldNeeded + (needed player card color - count (gems player) color))%Z)
     else (payment, goldNeeded)).

Lemma count_setCount color color' n g :
  count (setCount color n g) color' = if decide (color = color') then n else count g color'.
Proof. by destruct color, color', g. Qed.

Lemma needed_nonneg color : (0 ≤ needed player card color)%Z.
Proof. unfold needed. lia. Qed.

(** The gold that [calculatePayment] asks for is the gold that
    [canAfford] counts, when no count of the player is negative. *)
Lemma pay_gold l payment goldNeeded :
  (∀ color, 0 ≤ count (gems player) color)%Z →
  (foldl pay (payment, goldNeeded) l).2 = foldl afford goldNeeded l.
Proof.
  intros Hg. revert payment goldNeeded.
  induction l as [|color l IH]; intros payment goldNeeded; [done|].
  simpl. specialize (Hg color). pose proof (needed_nonneg color).
  repeat case_bool_decide; try lia; rewrite IH; try done.
Qed.

Lemma pay_count l payment goldNeeded color :
  count (foldl pay (payment, goldNeeded) l).1 color =
  if bool_decide (color ∈ l ∧ needed player card color > 0)%Z
  then Z.min (needed player card color) (count (gems player) color)
  else count payment color.
Proof.
  revert payment goldNeeded.
  induction l as [|c l IH]; intros payment goldNeeded.
  { cbn [foldl fst]. rewrite bool_decide_eq_false_2; [done|].
    intros [H _]. by apply elem_of_nil in H. }
  cbn [foldl].
  repeat case_bool_decide; rewrite IH; repeat case_bool_decide;
    rewrite ?count_setCount; repeat case_decide; subst;
    try done; try lia;
    repeat match goal with
    | H : ¬ (_ ∧ _) |- _ => exfalso; apply H; split; [set_solver | lia]
    | H : _ ∧ _ |- _ => destruct H as [? ?]
    | H : _ ∈ _ :: _ |- _ => apply elem_of_cons in H as [?|?]; subst
    end; try done; try lia;
    try (exfalso; match goal with H : ¬ (_ ∧ _) |- _ => apply H; split; [set_solver | lia] end).
Qed.

Lemma afford_step goldNeeded color :
  (0 ≤ count (gems player) color)%Z →
  afford goldNeeded color =
  (goldNeeded
   + (needed player card color
      - if bool_decide (needed player card color > 0)%Z
        then Z.min (needed player card color) (count (gems player) color)
        else 0))%Z.
Proof.
  intros Hg. pose proof (needed_nonneg color). cbv beta.
  repeat case_bool_decide; lia.
Qed.

Lemma afford_grows l goldNeeded : (goldNeeded ≤ foldl afford goldNeeded l)%Z.
Proof.
  revert goldNeeded. induction l as [|c l IH]; intros goldNeeded; [done|].
  simpl. case_bool_decide; [|done]. etrans; [|apply IH]. lia.
Qed.

Lemma calculatePayment_fold :
  calculatePayment player card =
  setCount GOLD (foldl pay (emptyPayment, 0%Z) colors).2 (foldl pay (emptyPayment, 0%Z) colors).1.
Proof. unfold calculatePayment. by destruct (foldl _ _ _). Qed.

Lemma calculatePayment_count color :
  color ≠ GOLD →
  count (calculatePayment player card) color =
  if bool_decide (needed player card color > 0)%Z
  then Z.min (needed player card color) (count (gems player) color)
  else 0%Z.
Proof.
  intros Hc. rewrite calculatePayment_fold, count_setCount.
  rewrite decide_False by done. rewrite pay_count.
  assert (color ∈ colors) by (destruct color; set_solver).
  repeat case_bool_decide; try done; try tauto.
  by destruct color.
Qed.

Lemma calculatePayment_gold :
  (∀ color, 0 ≤ count (gems player) color)%Z →
  gold (calculatePayment player card) = foldl afford 0%Z colors.
Proof.
  intros Hg. rewrite calculatePayment_fold.
  change (gold ?g) with (count g GOLD). rewrite count_setCount.
  rewrite decide_True by done. by apply pay_gold.
Qed.

End PaymentFacts.

(** When a player whose gem counts are not negative can afford a card,
    [calculatePayment] takes of each colour no more than the player
    holds and no more than the card costs after the bonuses, and the
    gold in it is what the coloured gems leave unpaid. *)
Theorem calculatePayment_pays_the_price_from_the_gems_held
    (player : GameController.Player) (card : GameController.Card) :
  (∀ color, 0 ≤ GameController.count (GameController.gems player) color)%Z →
  GameController.canAfford player card = true →
  (∀ color,
     0 ≤ GameController.count (GameController.calculatePayment player card) color
       ≤ GameController.count (GameController.gems player) color)%Z ∧
  (∀ color, color ≠ GameController.GOLD →
     GameController.count (GameController.calculatePayment player card) color
     ≤ GameController.needed player card color)%Z ∧
  GameController.gold (GameController.calculatePayment player card) =
    ((GameController.needed player card GameController.WHITE
      - GameController.white (GameController.calculatePayment player card))
     + (GameController.needed player card GameController.BLUE
        - GameController.blue (GameController.calculatePayment player card))
     + (GameController.needed player card GameController.GREEN
        - GameController.green (GameController.calculatePayment player card))
     + (GameController.needed player card GameController.RED
        - GameController.red (GameController.calculatePayment player card))
     + (GameController.needed player card GameController.BLACK
        - GameController.black (GameController.calculatePayment player card)))%Z.
Proof.
  intros Hg Hafford.
  pose proof (calculatePayment_gold player card Hg) as Hgold.
  assert (Hcount := calculatePayment_count player card).
  unfold GameController.canAfford in Hafford. apply bool_decide_eq_true in Hafford.
  pose proof (afford_grows player card GameController.colors 0%Z) as Hgrow.
  split; [|split].
  - intros color. destruct (decide (color = GameController.GOLD)) as [->|Hc].
    + change (GameController.count ?g GameController.GOLD) with (GameController.gold g).
      rewrite Hgold. lia.
    + rewrite Hcount by done. specialize (Hg color).
      pose proof (needed_nonneg player card color). case_bool_decide; lia.
  - intros color Hc. rewrite Hcount by done.
    pose proof (needed_nonneg player card color). case_bool_decide; lia.
  - rewrite Hgold.
    change (GameController.white ?g) with (GameController.count g GameController.WHITE).
    change (GameController.blue ?g) with (GameController.count g GameController.BLUE).
    change (GameController.green ?g) with (GameController.count g GameController.GREEN).
    change (GameController.red ?g) with (GameController.count g GameController.RED).
    change (GameController.black ?g) with (GameController.count g GameController.BLACK).
    rewrite !Hcount by done. unfold GameController.colors. cbn [foldl].
    rewrite !afford_step by done. lia.
Qed.

(* ===================================================================== *)
(** * The game controller: the selection and the history *)

Section GemFacts.

Import GameController.

Lemma countOf_zero color selected : countOf color selected = 0 ↔ color ∉ selected.
Proof.
  unfold countOf. induction selected as [|c l IH]; [set_solver|].
  destruct (decide (c = color)) as [->|Hc].
  - rewrite filter_cons_True by done. simpl. set_solver.
  - rewrite filter_cons_False by done. set_solver.
Qed.

Lemma spliceFirst_sublist color selected : spliceFirst color selected `sublist_of` selected.
Proof.
  induction selected as [|c l IH]; [done|]. simpl. case_decide.
  - by apply sublist_cons.
  - by apply sublist_skip.
Qed.

Lemma hasTwoSame_pair color : hasTwoSame [color; color] = true.
Proof. by destruct color. Qed.

Lemma tidy_nil : tidy [].
Proof. left. split; [constructor | simpl; lia]. Qed.

Lemma tidy_pair color : tidy [color; color].
Proof. right. by exists color. Qed.

Lemma tidy_clicked color selected : tidy selected → tidy (clicked color selected).
Proof.
  intros Ht. unfold clicked. case_bool_decide as Hcount.
  - destruct Ht as [[Hnd Hlen]|[c ->]].
    + left. split.
      * eapply sublist_NoDup; [done|apply spliceFirst_sublist].
      * etrans; [apply sublist_length, spliceFirst_sublist|done].
    + left. simpl. case_decide.
      * split; [apply NoDup_singleton | simpl; lia].
      * exfalso. unfold countOf in Hcount.
        rewrite !filter_cons_False in Hcount by done. simpl in Hcount. lia.
  - destruct (hasTwoSame selected) eqn:Htwo.
    { left. split; [apply NoDup_singleton | simpl; lia]. }
    destruct Ht as [[Hnd Hlen]|[c ->]]; [|by rewrite hasTwoSame_pair in Htwo].
    case_bool_decide; [|by left].
    left. split.
    + apply NoDup_app. split; [done|]. split; [|apply NoDup_singleton].
      intros x Hx ->%list_elem_of_singleton.
      apply countOf_zero in Hx; [done|]. lia.
    + rewrite length_app. simpl. lia.
Qed.

Lemma removelast_sublist {A} (l : list A) : removelast l `sublist_of` l.
Proof.
  induction l as [|x l IH]; [done|]. simpl. destruct l.
  - by apply sublist_cons.
  - by apply sublist_skip.
Qed.

Lemma tail_sublist {A} (l : list A) : tail l `sublist_of` l.
Proof. destruct l; [done|]. by apply sublist_cons. Qed.

Lemma refused_history {A} (h : list A) (x : A) (n : nat) :
  let pushed := if bool_decide (length (h ++ [x]) > n) then tail (h ++ [x]) else h ++ [x] in
  (if bool_decide (length pushed > 0) then removelast pushed else pushed) =
  (if bool_decide (length h < n) then h else tail h).
Proof.
  intros pushed. subst pushed. rewrite length_app. simpl (length [x]).
  destruct (decide (length h < n)) as [Hroom|Hfull].
  - rewrite (bool_decide_eq_false_2 (length h + 1 > n)) by lia.
    rewrite (bool_decide_eq_true_2 (length h < n)) by done.
    rewrite removelast_last, length_app. simpl.
    by rewrite bool_decide_eq_true_2 by lia.
  - rewrite (bool_decide_eq_true_2 (length h + 1 > n)) by lia.
    rewrite (bool_decide_eq_false_2 (length h < n)) by done.
    destruct h as [|y h]; [done|]. cbn [tail app].
    rewrite removelast_last, length_app. simpl.
    by rewrite bool_decide_eq_true_2 by lia.
Qed.

Lemma Forall_of_sublist {A} (P : A → Prop) (k l : list A) :
  k `sublist_of` l → Forall P l → Forall P k.
Proof.
  rewrite !Forall_forall. intros Hk Hl x Hx. apply Hl. by eapply elem_of_sublist.
Qed.

End GemFacts.

Section ControllerFacts.

Import GameController.

Context {Engine : Type}.
Variable initGame : nat → Engine → Engine.
Variable getGameState : Engine → GameState.
Variable executeAction : Action → Engine → Engine * bool.
Variable setStateFromJSON : option GameState → Engine → Engine.
Variable discardGem : GemColor → Engine → Engine * bool.

Local Abbreviation Controller := (@GameController.Controller Engine).
Local Abbreviation updateState := (GameController.updateState getGameState).
Local Abbreviation executePlayerAction :=
  (GameController.executePlayerAction getGameState executeAction).
Local Abbreviation executeAITurn :=
  (GameController.executeAITurn getGameState executeAction).
Local Abbreviation unwindAction :=
  (GameController.unwindAction getGameState setStateFromJSON).
Local Abbreviation startNewGame := (GameController.startNewGame initGame getGameState).
Local Abbreviation onDiscardGem := (GameController.onDiscardGem getGameState discardGem).
Local Abbreviation onConfirmAction :=
  (GameController.onConfirmAction getGameState executeAction).
Local Abbreviation checkInstantAction :=
  (GameController.checkInstantAction getGameState executeAction).
Local Abbreviation onGemClick := (GameController.onGemClick getGameState executeAction).
Local Abbreviation onGemDoubleClick :=
  (GameController.onGemDoubleClick getGameState executeAction).
Local Abbreviation onCardClick := (GameController.onCardClick getGameState executeAction).
Local Abbreviation onDeckClick := (GameController.onDeckClick getGameState executeAction).
Local Abbreviation onReservedCardClick :=
  (GameController.onReservedCardClick getGameState executeAction).
Local Abbreviation handle :=
  (GameController.handle initGame getGameState executeAction setStateFromJSON discardGem).
Local Abbreviation session :=
  (GameController.session initGame getGameState executeAction setStateFromJSON discardGem).

(** What the handlers keep: the selection is tidy and of one kind, the
    history holds states and no more of them than [maxHistorySize]. *)
Local Abbreviation kept s :=
  (tidy (selectedGems s) ∧ single s ∧
   length (stateHistory s) ≤ maxHistorySize s ∧
   Forall is_Some (stateHistory s)).

Lemma isHumanTurn_state (s : Controller) :
  isHumanTurn s = Some true → ∃ st player,
    state s = Some st ∧ currentPlayer st = Some player ∧ isHuman player = true.
Proof.
  unfold isHumanTurn. destruct (state s) as [st|]; [|done].
  destruct (currentPlayer st) as [player|] eqn:Hplayer; [|done]. simpl. intros [= ?].
  by exists st, player.
Qed.

Lemma kept_constructor (engine : Engine) : kept (constructor engine).
Proof.
  split; [apply tidy_nil|]. split; [by split|]. split; [simpl; lia|constructor].
Qed.

Lemma kept_select selected card cardTier reserved kind (s : Controller) :
  tidy selected →
  (selected ≠ [] → card = None ∧ reserved = None) →
  (is_Some card → reserved = None) →
  kept s → kept (select selected card cardTier reserved kind s).
Proof. intros ??? (_ & _ & ? & ?). done. Qed.

Lemma kept_clearSelection (s : Controller) : kept s → kept (clearSelection s).
Proof.
  intros H. apply kept_select; try done. apply tidy_nil.
Qed.

Lemma kept_updateState (s : Controller) : kept s → kept (updateState s).
Proof. done. Qed.

Lemma kept_set_wasm (engine : Engine) (s : Controller) : kept s → kept (set_wasm engine s).
Proof. done. Qed.

Lemma kept_set_stateHistory h (s : Controller) :
  h `sublist_of` stateHistory s → kept s → kept (set_stateHistory h s).
Proof.
  intros Hh (? & ? & Hlen & Hsome). split; [done|]. split; [done|]. split.
  - simpl. etrans; [by apply sublist_length|done].
  - simpl. by eapply Forall_of_sublist.
Qed.

Lemma kept_saveStateToHistory (s : Controller) :
  is_Some (state s) → kept s → kept (saveStateToHistory s).
Proof.
  intros Hst (? & ? & Hlen & Hsome). split; [done|]. split; [done|].
  assert (Forall is_Some (stateHistory s ++ [state s])) as Hall.
  { apply Forall_app. split; [done|]. by constructor. }
  unfold saveStateToHistory. simpl. case_bool_decide as Hfull; split; try done.
  - destruct (stateHistory s) as [|x h]; simpl in *; [lia|].
    rewrite length_app in *. simpl in *. lia.
  - eapply Forall_of_sublist; [apply tail_sublist|done].
  - lia.
Qed.

Lemma kept_executePlayerAction action (s : Controller) :
  kept s → kept (executePlayerAction action s).
Proof.
  intros H. unfold GameController.executePlayerAction.
  destruct (isHumanTurn s) as [human|] eqn:Hhuman; [|done].
  assert (kept (if human then saveStateToHistory s else s)) as H1.
  { destruct human; [|done]. apply kept_saveStateToHistory; [|done].
    apply isHumanTurn_state in Hhuman as (st & _ & -> & _). eauto. }
  destruct (executeAction action _) as [engine success].
  destruct success.
  - by apply kept_clearSelection, kept_updateState, kept_set_wasm.
  - apply (kept_set_wasm engine) in H1.
    destruct (isHumanTurn (set_wasm engine _)) as [[|]|]; try done.
    case_bool_decide; [|done].
    apply kept_set_stateHistory; [apply removelast_sublist|done].
Qed.

Lemma kept_onConfirmAction (s : Controller) : kept s → kept (onConfirmAction s).
Proof.
  intros H. unfold GameController.onConfirmAction.
  destruct (isHumanTurn s) as [[|]|]; try done.
  destruct (actionOf s) as [[action|]|]; try done.
  by apply kept_executePlayerAction.
Qed.

Lemma kept_checkInstantAction instant (s : Controller) :
  kept s → kept (checkInstantAction instant s).
Proof.
  intros H. unfold GameController.checkInstantAction.
  destruct instant; [|done].
  destruct (isActionReady s) as [[|]|]; try done.
  by apply kept_onConfirmAction.
Qed.

Lemma kept_onGemClick instant color (s : Controller) :
  kept s → kept (onGemClick instant color s).
Proof.
  intros H. unfold GameController.onGemClick.
  destruct (isHumanTurn s) as [[|]|]; try done.
  apply kept_checkInstantAction, kept_select; try done.
  apply tidy_clicked, H.
Qed.

Lemma kept_unwindAction (s : Controller) : kept s → kept (unwindAction s).
Proof.
  intros H. unfold GameController.unwindAction.
  destruct (canUnwind s) as [[|]|]; try done.
  destruct (last (stateHistory s)); [|done].
  apply kept_clearSelection, kept_updateState, kept_set_wasm.
  apply kept_set_stateHistory; [apply removelast_sublist|done].
Qed.

Lemma kept_handle instant e (s : Controller) : kept s → kept (handle instant e s).
Proof.
  intros H. destruct e as [color|color|cardId tier|tier|cardId| | | |first|color|action];
    simpl.
  - by apply kept_onGemClick.
  - unfold GameController.onGemDoubleClick.
    destruct (isHumanTurn s) as [[|]|]; try done.
    destruct (state s) as [st|]; [|done].
    case_bool_decide.
    + case_bool_decide; [done|]. by apply kept_onGemClick.
    + apply kept_checkInstantAction, kept_select; try done.
      apply tidy_pair.
  - unfold GameController.onCardClick.
    destruct (isHumanTurn s) as [[|]|]; try done.
    apply kept_checkInstantAction. destruct H as (Ht & [Hg Hc] & Hh).
    case_bool_decide as Hsel.
    + apply kept_select; try done.
      intros Hne. split; [done|]. by apply Hg.
    + apply kept_select; try done. apply tidy_nil.
  - unfold GameController.onDeckClick.
    destruct (isHumanTurn s) as [[|]|]; try done.
    destruct (state s ≫= currentPlayer) as [player|]; [|done].
    case_bool_decide; [done|].
    apply kept_checkInstantAction. destruct H as (Ht & [Hg Hc] & Hh).
    case_bool_decide as Hsel.
    + apply kept_select; try done.
      intros Hne. split; [done|]. by apply Hg.
    + apply kept_select; try done. apply tidy_nil.
  - unfold GameController.onReservedCardClick.
    destruct (isHumanTurn s) as [[|]|]; try done.
    destruct (state s ≫= currentPlayer) as [player|]; [|done].
    destruct (existsb _ _); [|done].
    apply kept_checkInstantAction. destruct H as (Ht & [Hg Hc] & Hh).
    case_bool_decide as Hsel.
    + apply kept_select; try done.
      intros Hne. split; [|done]. by apply Hg.
    + apply kept_select; try done. apply tidy_nil.
  - by apply kept_onConfirmAction.
  - by apply kept_clearSelection.
  - by apply kept_unwindAction.
  - destruct H as (? & ? & ? & ?).
    split; [done|]. split; [done|]. split; [simpl; lia|constructor].
  - unfold GameController.onDiscardGem.
    destruct (discardGem color (wasm s)) as [engine success]. by destruct success.
  - done.
Qed.

Lemma maxHistorySize_executePlayerAction action (s : Controller) :
  maxHistorySize (executePlayerAction action s) = maxHistorySize s.
Proof.
  unfold GameController.executePlayerAction.
  destruct (isHumanTurn s) as [human|]; [|done].
  assert (maxHistorySize (if human then saveStateToHistory s else s) = maxHistorySize s)
    as H1 by by destruct human.
  destruct (executeAction action _) as [engine success].
  destruct success; [done|].
  destruct (isHumanTurn (set_wasm engine _)) as [[|]|]; try done.
  by case_bool_decide.
Qed.

Lemma maxHistorySize_checkInstantAction instant (s : Controller) :
  maxHistorySize (checkInstantAction instant s) = maxHistorySize s.
Proof.
  unfold GameController.checkInstantAction, GameController.onConfirmAction.
  destruct instant; [|done].
  destruct (isActionReady s) as [[|]|]; try done.
  destruct (isHumanTurn s) as [[|]|]; try done.
  destruct (actionOf s) as [[action|]|]; try done.
  apply maxHistorySize_executePlayerAction.
Qed.

Lemma maxHistorySize_handle instant e (s : Controller) :
  maxHistorySize (handle instant e s) = maxHistorySize s.
Proof.
  destruct e as [color|color|cardId tier|tier|cardId| | | |first|color|action]; simpl.
  - unfold GameController.onGemClick.
    destruct (isHumanTurn s) as [[|]|]; try done.
    by rewrite maxHistorySize_checkInstantAction.
  - unfold GameController.onGemDoubleClick, GameController.onGemClick.
    destruct (isHumanTurn s) as [[|]|]; try done.
    destruct (state s) as [st|]; [|done].
    repeat case_bool_decide; try done; by rewrite maxHistorySize_checkInstantAction.
  - unfold GameController.onCardClick.
    destruct (isHumanTurn s) as [[|]|]; try done.
    rewrite maxHistorySize_checkInstantAction. by case_bool_decide.
  - unfold GameController.onDeckClick.
    destruct (isHumanTurn s) as [[|]|]; try done.
    destruct (state s ≫= currentPlayer) as [player|]; [|done].
    case_bool_decide; [done|].
    rewrite maxHistorySize_checkInstantAction. by case_bool_decide.
  - unfold GameController.onReservedCardClick.
    destruct (isHumanTurn s) as [[|]|]; try done.
    destruct (state s ≫= currentPlayer) as [player|]; [|done].
    destruct (existsb _ _); [|done].
    rewrite maxHistorySize_checkInstantAction. by case_bool_decide.
  - unfold GameController.onConfirmAction.
    destruct (isHumanTurn s) as [[|]|]; try done.
    destruct (actionOf s) as [[action|]|]; try done.
    apply maxHistorySize_executePlayerAction.
  - done.
  - unfold GameController.unwindAction.
    destruct (canUnwind s) as [[|]|]; try done.
    by destruct (last (stateHistory s)).
  - done.
  - unfold GameController.onDiscardGem.
    destruct (discardGem color (wasm s)) as [engine success]. by destruct success.
  - done.
Qed.

Lemma session_snoc events instant e (s : Controller) :
  session (events ++ [(instant, e)]) s = handle instant e (session events s).
Proof. unfold GameController.session. by rewrite foldl_app. Qed.

Lemma kept_session events (s : Controller) :
  kept s → kept (session events s) ∧ maxHistorySize (session events s) = maxHistorySize s.
Proof.
  intros H. induction events as [|[instant e] events IH] using rev_ind; [done|].
  rewrite session_snoc. destruct IH as [IH <-]. split.
  - by apply kept_handle.
  - apply maxHistorySize_handle.
Qed.

Lemma stateHistory_follows instant e (s : Controller) :
  follows e = true → stateHistory (handle instant e s) = stateHistory s.
Proof.
  destruct e; try done; intros _; simpl.
  unfold GameController.onDiscardGem.
  destruct (discardGem _ (wasm s)) as [engine success]. by destruct success.
Qed.

Lemma stateHistory_session events (s : Controller) :
  Forall (λ e, follows e.2 = true) events →
  stateHistory (session events s) = stateHistory s.
Proof.
  induction events as [|[instant e] events IH] using rev_ind; [done|].
  intros [H1 H2]%Forall_app. rewrite Forall_singleton in H2. simpl in H2.
  rewrite session_snoc. rewrite stateHistory_follows; [by apply IH|exact H2].
Qed.

Lemma pushed_history (s : Controller) :
  0 < maxHistorySize s →
  stateHistory (saveStateToHistory s) =
  (if bool_decide (length (stateHistory s) < maxHistorySize s)
   then stateHistory s else tail (stateHistory s)) ++ [state s].
Proof.
  intros Hmax. unfold saveStateToHistory. simpl. rewrite length_app. simpl.
  repeat case_bool_decide; try done; try lia.
  destruct (stateHistory s); [simpl in *; lia|done].
Qed.


(** After any clicks, answers of the AI and new games, the selected gems
    are up to three different colours or one colour twice, and at most
    one of the gems, a card and a reserved card is selected. *)
Theorem session_keeps_one_tidy_selection (engine : Engine) (events : list (bool * Event)) :
  tidy (selectedGems (session events (constructor engine))) ∧
  single (session events (constructor engine)).
Proof.
  destruct (kept_session events (constructor engine) (kept_constructor engine))
    as [(? & ? & _) _].
  done.
Qed.

(** After any clicks, answers of the AI and new games, the history holds
    at most 50 states, and each entry is a state and not [null]. *)
Theorem session_keeps_the_history_within_50_states
    (engine : Engine) (events : list (bool * Event)) :
  length (stateHistory (session events (constructor engine))) ≤ 50 ∧
  Forall is_Some (stateHistory (session events (constructor engine))).
Proof.
  destruct (kept_session events (constructor engine) (kept_constructor engine))
    as [(_ & _ & Hlen & Hsome) Hmax].
  rewrite Hmax in Hlen. done.
Qed.

(** An action of the user that the engine refuses changes neither the
    state nor the selection.  The history is as before too, unless it was
    full: then its oldest entry is gone. *)
Theorem refused_action_changes_only_a_full_history
    (action : Action) (engine : Engine) (s : Controller) :
  isHumanTurn s = Some true →
  executeAction action (wasm s) = (engine, false) →
  executePlayerAction action s =
  set_wasm engine
    (set_stateHistory
       (if bool_decide (length (stateHistory s) < maxHistorySize s)
        then stateHistory s else tail (stateHistory s)) s).
Proof.
  intros Hhuman Hrefused. unfold GameController.executePlayerAction.
  rewrite Hhuman.
  change (wasm (saveStateToHistory s)) with (wasm s). rewrite Hrefused.
  change (isHumanTurn (set_wasm engine (saveStateToHistory s))) with (isHumanTurn s).
  rewrite Hhuman.
  pose proof (refused_history (stateHistory s) (state s) (maxHistorySize s)) as Hh.
  cbv zeta in Hh. rewrite <- Hh. unfold saveStateToHistory.
  set (pushed := if bool_decide (length (stateHistory s ++ [state s]) > maxHistorySize s)
                 then tail (stateHistory s ++ [state s]) else stateHistory s ++ [state s]).
  simpl. by destruct (bool_decide (length pushed > 0)).
Qed.

(** The user acts in the state [st] and the engine accepts; gems are
    given back and the AI takes its turns.  When the user then unwinds,
    the engine is set to [st], the state is read from it, the selection
    is empty, and the history is as it was before the action (without
    its oldest entry, if it was full). *)
Theorem unwindAction_restores_the_state_before_the_last_action
    (action : Action) (engine : Engine) (st : GameState) (s : Controller)
    (events : list (bool * Event)) :
  state s = Some st →
  isHumanTurn s = Some true →
  0 < maxHistorySize s →
  executeAction action (wasm s) = (engine, true) →
  Forall (λ e, follows e.2 = true) events →
  isHumanTurn (session events (executePlayerAction action s)) = Some true →
  let s' := session events (executePlayerAction action s) in
  wasm (unwindAction s') = setStateFromJSON (Some st) (wasm s') ∧
  state (unwindAction s') = Some (getGameState (wasm (unwindAction s'))) ∧
  stateHistory (unwindAction s') =
    (if bool_decide (length (stateHistory s) < maxHistorySize s)
     then stateHistory s else tail (stateHistory s)) ∧
  selectedGems (unwindAction s') = [] ∧
  selectedCard (unwindAction s') = None ∧
  selectedReservedCard (unwindAction s') = None.
Proof.
  intros Hst Hhuman Hmax Haccepted Hevents Hhuman' s'.
  assert (stateHistory s' =
          (if bool_decide (length (stateHistory s) < maxHistorySize s)
           then stateHistory s else tail (stateHistory s)) ++ [Some st]) as Hhistory.
  { unfold s'. rewrite stateHistory_session by done.
    unfold GameController.executePlayerAction. rewrite Hhuman.
    change (wasm (saveStateToHistory s)) with (wasm s). rewrite Haccepted.
    change (stateHistory (clearSelection (updateState (set_wasm engine
              (saveStateToHistory s))))) with (stateHistory (saveStateToHistory s)).
    rewrite pushed_history by done. by rewrite Hst. }
  change (isHumanTurn s' = Some true) in Hhuman'. clearbody s'.
  unfold GameController.unwindAction, canUnwind.
  rewrite Hhistory, length_app. simpl.
  rewrite bool_decide_eq_true_2 by lia.
  rewrite Hhuman', last_snoc, removelast_last. done.
Qed.

(** On the turn of the user, when [isActionReady] holds (the confirm
    button is enabled) and a selected card is on the table,
    [onConfirmAction] hands an action to [executePlayerAction], and
    [getActionDescription] (the text on the button) is the label of
    that action. *)
Theorem confirm_button_names_the_action_it_submits (s : Controller) :
  isHumanTurn s = Some true →
  isActionReady s = Some true →
  (∀ cardId, selectedGems s = [] → selectedCard s = Some cardId → cardId ≠ (-1)%Z →
     ∃ card, findCard cardId s = Some (Some card)) →
  ∃ action,
    actionOf s = Some (Some action) ∧
    getActionDescription s = Some (label action) ∧
    onConfirmAction s = executePlayerAction action s.
Proof.
  intros Hhuman Hready Hvisible.
  cut (∃ action, actionOf s = Some (Some action) ∧
                 getActionDescription s = Some (label action)).
  { intros (action & Haction & Hlabel). exists action. split; [done|]. split; [done|].
    unfold GameController.onConfirmAction. by rewrite Hhuman, Haction. }
  apply isHumanTurn_state in Hhuman as (st & player & Hst & Hplayer & _).
  unfold isActionReady, actionOf, getActionDescription in *.
  case_bool_decide as Hgems.
  - unfold countAvailableGemColors in *. rewrite Hst in *. simpl in *.
    repeat case_bool_decide; try done; eauto; try lia.
  - assert (selectedGems s = []) as Hnil by (destruct (selectedGems s); simpl in *; [done|lia]).
    destruct (selectedCard s) as [cardId|] eqn:Hcard.
    + case_bool_decide as Hdeck.
      { eexists. split; [done|]. by unfold label. }
      destruct (Hvisible cardId Hnil eq_refl Hdeck) as [card Hfound].
      rewrite Hst, Hfound. simpl. rewrite Hplayer. simpl.
      eexists. split; [done|]. unfold label.
      destruct (canAfford player card); simpl; [done|].
      by rewrite bool_decide_eq_false_2.
    + destruct (selectedReservedCard s) as [cardId|]; [|done].
      rewrite Hst in *. simpl in *. rewrite Hplayer in *. simpl in *.
      destruct (findReservedCard player cardId) as [card|]; [|done]. simpl in *.
      injection Hready as ->. eexists. done.
Qed.

End ControllerFacts.

(** The user holds one white and two green gems and one gold, and a blue
    bonus; the card costs two white, one blue and one green. *)
Lemma calculatePayment_pays_the_price_from_the_gems_held_witness :
  GameController.canAfford GameControllerExample.user GameControllerExample.card = true ∧
  GameController.calculatePayment GameControllerExample.user GameControllerExample.card
    = GameController.mkGems 1 0 1 0 0 1 ∧
  GameController.gold
    (GameController.calculatePayment GameControllerExample.user GameControllerExample.card)
    = 1%Z.
Proof.
  destruct (calculatePayment_pays_the_price_from_the_gems_held
              GameControllerExample.user GameControllerExample.card) as (_ & _ & Hgold).
  - intros color. destruct color; simpl; lia.
  - reflexivity.
  - split; [reflexivity|]. split; [reflexivity|]. rewrite Hgold. reflexivity.
Defined.

(** The engine of the example refuses to reserve from the deck. *)
Lemma refused_action_changes_only_a_full_history_witness :
  let action :=
    GameController.mkAction GameController.RESERVE_CARD [] (-1) 0 false
      GameController.emptyPayment in
  GameController.executePlayerAction GameControllerExample.getGameState
    GameControllerExample.executeAction action GameControllerExample.begun
  = GameControllerExample.begun.
Proof.
  intros action.
  rewrite (refused_action_changes_only_a_full_history
             GameControllerExample.getGameState GameControllerExample.executeAction
             action (GameControllerExample.table 0) GameControllerExample.begun).
  - reflexivity.
  - reflexivity.
  - reflexivity.
Defined.

(** The user takes a gem, the AI takes one, and the user unwinds. *)
Lemma unwindAction_restores_the_state_before_the_last_action_witness :
  let s' :=
    GameController.session GameControllerExample.initGame
      GameControllerExample.getGameState GameControllerExample.executeAction
      GameControllerExample.setStateFromJSON GameControllerExample.discardGem
      [(false, GameController.AITurn
                 (GameController.takeGems GameController.TAKE_SINGLE [GameController.BLUE]))]
      (GameController.executePlayerAction GameControllerExample.getGameState
         GameControllerExample.executeAction
         (GameController.takeGems GameController.TAKE_SINGLE [GameController.RED])
         GameControllerExample.begun) in
  GameController.wasm
    (GameController.unwindAction GameControllerExample.getGameState
       GameControllerExample.setStateFromJSON s')
  = GameControllerExample.table 0.
Proof.
  intros s'.
  destruct (unwindAction_restores_the_state_before_the_last_action
              GameControllerExample.initGame GameControllerExample.getGameState
              GameControllerExample.executeAction GameControllerExample.setStateFromJSON
              GameControllerExample.discardGem
              (GameController.takeGems GameController.TAKE_SINGLE [GameController.RED])
              (GameControllerExample.table 1) (GameControllerExample.table 0)
              GameControllerExample.begun
              [(false, GameController.AITurn
                         (GameController.takeGems GameController.TAKE_SINGLE
                            [GameController.BLUE]))]) as (Hwasm & _).
  - reflexivity.
  - reflexivity.
  - simpl. lia.
  - reflexivity.
  - repeat constructor.
  - reflexivity.
  - fold s' in Hwasm. rewrite Hwasm. reflexivity.
Defined.

(** The user has selected the card on the table and can pay for it. *)
Lemma confirm_button_names_the_action_it_submits_witness :
  GameController.getActionDescription GameControllerExample.chosen = Some "Purchase Card".
Proof.
  destruct (confirm_button_names_the_action_it_submits
              GameControllerExample.getGameState GameControllerExample.executeAction
              GameControllerExample.chosen) as (action & Haction & Hlabel & _).
  - reflexivity.
  - reflexivity.
  - intros cardId _ [= <-] _. exists GameControllerExample.card. reflexivity.
  - vm_compute in Haction. injection Haction as <-. exact Hlabel.
Defined.
